(** * Real-time peer mesh layer: signaling coordinator and peer mesh session

    A shallow embedding of the WebSocket signaling server of
    [server/routes.ts] (the [wss.on('connection')] block) and of the client
    session of [client/src/lib/webrtc.ts] ([WebRTCManager]) and
    [client/src/hooks/use-webrtc.ts] ([useWebRTC]), and of the REST routes
    of [server/routes.ts] with the in-memory store of [server/storage.ts]
    ([MemStorage]), followed by the properties that were checked against
    them. Line numbers are those of the files as laid out in the source
    tree: the routes, the server block and the store are in
    [unnamed/part_000]; the hook and the manager follow the
    [VoiceControls] component in
    [client/src/components/voice-controls.tsx].

    Conventions.
    - A JavaScript [Map] or [Set] is an insertion-ordered list: [forEach],
      [values()] and [Array.prototype.find] observe that order.
    - A WebSocket, an [RTCPeerConnection], an [RTCDataChannel] and a media
      track are objects with identity: they are named by a number and their
      mutable state lives in a store, so that two references to one object
      stay aliased.
    - The coordinator's handlers are synchronous. The session's handlers
      are [async]: here each runs to completion before the next event is
      handled, its [await]s settling at once. What a handler sends is
      returned as a list, oldest first. *)

From stdpp Require Import base option list strings pretty sorting.
From Stdlib Require Import ZArith.

#[local] Set Warnings "-clear-no-such-hyp".

(** ** JavaScript containers *)

Section JsMap.
Context {K V : Type} `{EqDecision K}.

(** [m.get(k)] *)
Fixpoint jm_get (k : K) (m : list (K * V)) : option V :=
  match m with
  | [] => None
  | (k', v) :: m' => if decide (k = k') then Some v else jm_get k m'
  end.

(** [m.has(k)] *)
Definition jm_has (k : K) (m : list (K * V)) : bool :=
  match jm_get k m with Some _ => true | None => false end.

(** [m.set(k, v)]: an existing key keeps its position, a new key goes
    last. *)
Fixpoint jm_set (k : K) (v : V) (m : list (K * V)) : list (K * V) :=
  match m with
  | [] => [(k, v)]
  | (k', v') :: m' =>
      if decide (k = k') then (k, v) :: m' else (k', v') :: jm_set k v m'
  end.

(** [m.delete(k)] *)
Fixpoint jm_delete (k : K) (m : list (K * V)) : list (K * V) :=
  match m with
  | [] => []
  | (k', v') :: m' =>
      if decide (k = k') then m' else (k', v') :: jm_delete k m'
  end.

(** [Array.from(m.values())] and [Array.from(m.keys())] *)
Definition jm_values (m : list (K * V)) : list V := m.*2.
Definition jm_keys (m : list (K * V)) : list K := m.*1.
End JsMap.

Section JsSet.
Context {A : Type} `{EqDecision A}.

(** [s.has(x)] *)
Definition js_has (x : A) (s : list A) : bool := bool_decide (x ∈ s).

(** [s.add(x)]: a new element goes last, a present one changes nothing. *)
Fixpoint js_add (x : A) (s : list A) : list A :=
  match s with
  | [] => [x]
  | y :: s' => if decide (x = y) then y :: s' else y :: js_add x s'
  end.

(** [s.delete(x)] *)
Fixpoint js_delete (x : A) (s : list A) : list A :=
  match s with
  | [] => []
  | y :: s' => if decide (x = y) then s' else y :: js_delete x s'
  end.
End JsSet.

(** JavaScript truthiness of an optional string field: [undefined] and the
    empty string are falsy. *)
Definition truthy (o : option string) : bool :=
  match o with
  | Some s => negb (String.eqb s "")
  | None => false
  end.

(** ** Envelopes ([shared/schema.ts], [WebRTCSignal]) *)

Inductive SignalType :=
  | offer | answer | ice_candidate
  | join_channel | leave_channel
  | peer_joined | peer_left.

#[global] Instance SignalType_eq_dec : EqDecision SignalType.
Proof. solve_decision. Defined.

(** A value as [JSON.parse] returns it, which is what the handlers see of
    a frame and what they hand to [JSON.stringify]: the text of a frame is
    not modelled, so nothing here says that a frame written equals, byte
    for byte, a frame read. An object is the list of its own properties,
    in order. A number is a double: [JNum z] is the integer [z], [JReal m
    e] the number m·2^e when it is no integer, [JInfinity] what a literal
    too large for a double parses to, [JNegZero] is [-0]. Not every term
    is a value of JavaScript ([JNum z] is one when a double holds [z]
    exactly, as it does every integer up to 2^53 in size; an object has no
    key twice): what is proved for every term holds for every value. *)
#[local] Unset Elimination Schemes.
Inductive json :=
  | JNull
  | JBool (b : bool)
  | JNum (z : Z)
  | JReal (m e : Z)
  | JInfinity (negative : bool)
  | JNegZero
  | JStr (s : string)
  | JArr (l : list json)
  | JObj (l : list (string * json)).
#[local] Set Elimination Schemes.

(** JavaScript truthiness of a parsed value. *)
Definition truthyValue (v : json) : bool :=
  match v with
  | JNull => false
  | JBool b => b
  | JNum z => negb (z =? 0)%Z
  | JReal m _ => negb (m =? 0)%Z
  | JInfinity _ => true
  | JNegZero => false
  | JStr s => negb (String.eqb s "")
  | JArr _ => true
  | JObj _ => true
  end.

(** [v.k] for a parsed value [v] other than [null], and a key [k] that is
    no index and not [length]: the own property of an object, [undefined]
    ([None]) on anything else. *)
Definition getProp (k : string) (v : json) : option json :=
  match v with
  | JObj fields => jm_get k fields
  | _ => None
  end.

Record WebRTCSignal := mkSignal {
  type : SignalType;
  from : option string;
  to : option string;
  channelId : option string;
  userId : option string;
  data : option json;
}.

(** The envelope as a parsed value: the properties that are present, in
    the order in which the object literals of the source list them. *)
Definition typeName (t : SignalType) : string :=
  match t with
  | offer => "offer"
  | answer => "answer"
  | ice_candidate => "ice-candidate"
  | join_channel => "join-channel"
  | leave_channel => "leave-channel"
  | peer_joined => "peer-joined"
  | peer_left => "peer-left"
  end.

Definition optionalProp (k : string) (o : option json) : list (string * json) :=
  match o with
  | Some v => [(k, v)]
  | None => []
  end.

Definition encode (m : WebRTCSignal) : json :=
  JObj ([("type", JStr (typeName (type m)))]
        ++ optionalProp "from" (JStr <$> from m)
        ++ optionalProp "to" (JStr <$> to m)
        ++ optionalProp "channelId" (JStr <$> channelId m)
        ++ optionalProp "userId" (JStr <$> userId m)
        ++ optionalProp "data" (data m)).

(** ** The signaling coordinator ([server/routes.ts]) *)

Module Coordinator.

(** A WebSocket object, by identity. *)
Definition WebSocket := nat.

Inductive ReadyState := CONNECTING | OPEN | CLOSING | CLOSED.

#[global] Instance ReadyState_eq_dec : EqDecision ReadyState.
Proof. solve_decision. Defined.

(** The values of [connectedUsers]: [{ ws, userId }]. *)
Record Conn := mkConn { ws : WebSocket; conn_userId : string }.

(** [connectedUsers] is declared [Map<string, ...>] but every access is
    [connectedUsers.set(ws as any, ...)], [.get(ws as any)] or
    [.delete(ws as any)]: the keys are the socket objects.
    [channelPeers] maps a channel to the set of its members. *)
Record State := mkState {
  connectedUsers : list (WebSocket * Conn);
  channelPeers : list (string * list string);
}.

Definition init : State := mkState [] [].

(** What one handler run writes: [(socket, envelope)] for each
    [socket.send(JSON.stringify(envelope))], in order. *)
Definition Sent := list (WebSocket * WebRTCSignal).

Section Handlers.
(** The [readyState] of every socket when the handler runs. *)
Variable readyState : WebSocket → ReadyState.

(** [Array.from(connectedUsers.values()).find(conn => conn.userId === peerId)] *)
Definition findConn (cu : list (WebSocket * Conn)) (peerId : string)
  : option Conn :=
  List.find (λ conn, bool_decide (conn_userId conn = peerId)) (jm_values cu).

(** [if (c && c.ws.readyState === WebSocket.OPEN) c.ws.send(JSON.stringify(msg))] *)
Definition sendIfOpen (c : option Conn) (msg : WebRTCSignal) : Sent :=
  match c with
  | Some conn =>
      if decide (readyState (ws conn) = OPEN) then [(ws conn, msg)] else []
  | None => []
  end.

(** The [join-channel] branch, lines 219-242. *)
Definition onJoinChannel (st : State) (w : WebSocket)
    (message : WebRTCSignal) : State * Sent :=
  match userId message, channelId message with
  | Some u, Some c =>
      if truthy (Some u) && truthy (Some c) then
        let cu := jm_set w (mkConn w u) (connectedUsers st) in
        let cp0 := channelPeers st in
        let cp1 := if jm_has c cp0 then cp0 else jm_set c [] cp0 in
        let cp2 := jm_set c (js_add u (default [] (jm_get c cp1))) cp1 in
        let peers := default [] (jm_get c cp2) in
        let out :=
          flat_map (λ peerId,
            if decide (peerId ≠ u) then
              sendIfOpen (findConn cu peerId)
                (mkSignal peer_joined (Some u) None (Some c) None None)
            else []) peers in
        (mkState cu cp2, out)
      else (st, [])
  | _, _ => (st, [])
  end.

(** The [leave-channel] branch, lines 245-261. *)
Definition onLeaveChannel (st : State) (message : WebRTCSignal)
    : State * Sent :=
  match userId message, channelId message with
  | Some u, Some c =>
      if truthy (Some u) && truthy (Some c) && jm_has c (channelPeers st)
      then
        let cp := jm_set c (js_delete u (default [] (jm_get c (channelPeers st))))
                    (channelPeers st) in
        let peers := default [] (jm_get c cp) in
        let out :=
          flat_map (λ peerId,
            sendIfOpen (findConn (connectedUsers st) peerId)
              (mkSignal peer_left (Some u) None (Some c) None None)) peers in
        (mkState (connectedUsers st) cp, out)
      else (st, [])
  | _, _ => (st, [])
  end.

(** The relay branch, lines 262-268: the parsed message is written back
    as it is. *)
Definition onRelay (st : State) (message : WebRTCSignal) : State * Sent :=
  match to message with
  | Some t =>
      if truthy (Some t) then
        (st, sendIfOpen (findConn (connectedUsers st) t) message)
      else (st, [])
  | None => (st, [])
  end.

(** [ws.on('message')] after a successful [JSON.parse]. *)
Definition onMessage (st : State) (w : WebSocket) (message : WebRTCSignal)
    : State * Sent :=
  match type message with
  | join_channel => onJoinChannel st w message
  | leave_channel => onLeaveChannel st message
  | _ => onRelay st message
  end.

(** The [channelPeers.forEach] of [ws.on('close')], lines 279-294: in
    every channel that has [u], [u] is removed and the members left are
    notified. *)
Fixpoint closeChannels (cu : list (WebSocket * Conn)) (u : string)
    (cp : list (string * list string))
    : list (string * list string) * Sent :=
  match cp with
  | [] => ([], [])
  | (c, peers) :: cp' =>
      let '(cp'', out') := closeChannels cu u cp' in
      if js_has u peers then
        let peers' := js_delete u peers in
        let out :=
          flat_map (λ peerId,
            sendIfOpen (findConn cu peerId)
              (mkSignal peer_left (Some u) None (Some c) None None)) peers' in
        ((c, peers') :: cp'', out ++ out')
      else ((c, peers) :: cp'', out')
  end.

(** [ws.on('close')], lines 274-297. *)
Definition onClose (st : State) (w : WebSocket) : State * Sent :=
  match jm_get w (connectedUsers st) with
  | Some userConnection =>
      let '(cp, out) :=
        closeChannels (connectedUsers st) (conn_userId userConnection)
          (channelPeers st) in
      (mkState (jm_delete w (connectedUsers st)) cp, out)
  | None => (st, [])
  end.

(** What a socket can deliver to the coordinator: a frame that parses,
    a frame on which [JSON.parse] throws (caught and logged), or its
    close. *)
Inductive Event :=
  | EvMessage (w : WebSocket) (message : WebRTCSignal)
  | EvGarbage (w : WebSocket)
  | EvClose (w : WebSocket).

Definition handle (st : State) (e : Event) : State * Sent :=
  match e with
  | EvMessage w message => onMessage st w message
  | EvGarbage _ => (st, [])
  | EvClose w => onClose st w
  end.

(** *** The handler on any parsed frame

    [message] is whatever [JSON.parse] returned, not only an envelope of
    the type [WebRTCSignal]: any type, any further properties. What is
    written is the value handed to [JSON.stringify]. *)
Definition Written := list (WebSocket * json).

Definition encodeSent (out : Sent) : Written :=
  map (λ we, (we.1, encode we.2)) out.

(** [conn.userId === message.to]: the identities of the table are
    strings, and only an equal string is strictly equal to one. *)
Definition findConnByValue (cu : list (WebSocket * Conn)) (v : json)
    : option Conn :=
  match v with
  | JStr peerId => findConn cu peerId
  | _ => None
  end.

Definition writeIfOpen (c : option Conn) (v : json) : Written :=
  match c with
  | Some conn => if decide (readyState (ws conn) = OPEN) then [(ws conn, v)] else []
  | None => []
  end.

(** The relay branch, lines 262-268, on a parsed frame. *)
Definition onParsedRelay (st : State) (message : json) : State * Written :=
  match getProp "to" message with
  | Some t =>
      if truthyValue t
      then (st, writeIfOpen (findConnByValue (connectedUsers st) t) message)
      else (st, [])
  | None => (st, [])
  end.

(** An identity property as the presence branches use it: a string, or
    nothing when the property is absent or falsy. A truthy value that is
    no string would be stored as an identity, which the tables of this
    model cannot hold: [None]. *)
Definition asIdentity (o : option json) : option (option string) :=
  match o with
  | None => Some None
  | Some (JStr s) => Some (Some s)
  | Some v => if truthyValue v then None else Some None
  end.

(** [ws.on('message')] after [JSON.parse], lines 215-271. Reading
    [message.type] of [null] throws, which is caught and logged. [None]:
    a presence request whose [userId] or [channelId] is truthy and no
    string, outside this model. *)
Definition onParsed (st : State) (w : WebSocket) (message : json)
    : option (State * Written) :=
  match message with
  | JNull => Some (st, [])
  | _ =>
      match getProp "type" message with
      | Some (JStr t) =>
          if String.eqb t "join-channel" then
            match asIdentity (getProp "userId" message),
                  asIdentity (getProp "channelId" message) with
            | Some u, Some c =>
                let '(st', out) :=
                  onJoinChannel st w (mkSignal join_channel None None c u None) in
                Some (st', encodeSent out)
            | _, _ => None
            end
          else if String.eqb t "leave-channel" then
            match asIdentity (getProp "userId" message),
                  asIdentity (getProp "channelId" message) with
            | Some u, Some c =>
                let '(st', out) :=
                  onLeaveChannel st (mkSignal leave_channel None None c u None) in
                Some (st', encodeSent out)
            | _, _ => None
            end
          else Some (onParsedRelay st message)
      | _ => Some (onParsedRelay st message)
      end
  end.
End Handlers.

End Coordinator.

(** ** The client session ([client/src/lib/webrtc.ts]) *)

Module Client.

(** *** Browser objects *)

Inductive Kind := audio | video.

#[global] Instance Kind_eq_dec : EqDecision Kind.
Proof. solve_decision. Defined.

(** A [MediaStreamTrack] handle; whether [stop()] was called on it is kept
    in the browser store, since senders and streams share the object. *)
Record MediaStreamTrack := mkTrack { trackId : nat; kind : Kind }.

#[global] Instance MediaStreamTrack_eq_dec : EqDecision MediaStreamTrack.
Proof. solve_decision. Defined.

(** [stream.getTracks()] *)
Definition MediaStream := list MediaStreamTrack.

(** [stream.getVideoTracks()] *)
Definition getVideoTracks (s : MediaStream) : list MediaStreamTrack :=
  filter (λ t, kind t = video) s.

(** What [getUserMedia] / [getDisplayMedia] settle with. *)
Inductive Capture :=
  | Granted (stream : MediaStream)
  | Denied (error : string).

Inductive SdpType := sdp_offer | sdp_answer.

#[global] Instance SdpType_eq_dec : EqDecision SdpType.
Proof. solve_decision. Defined.

(** A session description, reduced to what tells two of them apart: its
    type and the connection that created it (owner and store index). *)
Record Description := mkDescription {
  sdpType : SdpType;
  creator : string;
  creatorPc : nat;
}.

#[global] Instance Description_eq_dec : EqDecision Description.
Proof. solve_decision. Defined.

(** An ICE candidate, named by the connection that gathered it. *)
Record Candidate := mkCandidate { cand_user : string; cand_pc : nat }.

#[global] Instance Candidate_eq_dec : EqDecision Candidate.
Proof. solve_decision. Defined.

(** The JSON the [data] field carries for them. *)
Definition description_to_json (d : Description) : json :=
  JObj [("type", JStr (match sdpType d with
                       | sdp_offer => "offer"
                       | sdp_answer => "answer"
                       end));
        ("user", JStr (creator d));
        ("pc", JNum (Z.of_nat (creatorPc d)))]%string.

Definition json_to_description (j : option json) : option Description :=
  match j with
  | Some (JObj [(k1, JStr ty); (k2, JStr u); (k3, JNum n)]) =>
      if String.eqb k1 "type" && String.eqb k2 "user" && String.eqb k3 "pc"
      then
        if String.eqb ty "offer" then Some (mkDescription sdp_offer u (Z.to_nat n))
        else if String.eqb ty "answer" then Some (mkDescription sdp_answer u (Z.to_nat n))
        else None
      else None
  | _ => None
  end.

Definition candidate_to_json (c : Candidate) : json :=
  JObj [("candidate", JStr (cand_user c)); ("pc", JNum (Z.of_nat (cand_pc c)))]%string.

Definition json_to_candidate (j : option json) : option Candidate :=
  match j with
  | Some (JObj [(k1, JStr u); (k2, JNum n)]) =>
      if String.eqb k1 "candidate" && String.eqb k2 "pc"
      then Some (mkCandidate u (Z.to_nat n)) else None
  | _ => None
  end.

(** The runtime value of [signal.from]: a string or [undefined]. The
    [peers] and [dataChannels] maps are keyed by it. *)
Definition PeerId := option string.

(** An [RTCPeerConnection]. [pc_peerId] is the [peerId] captured by the
    handlers that [createPeerConnection] installs. A sender is named by
    its position in [getSenders()]; its [track] may be [null]. *)
Record RTCPeerConnection := mkPC {
  pc_peerId : PeerId;
  pc_closed : bool;
  pc_senders : list (option MediaStreamTrack);
  pc_localDescription : option Description;
  pc_remoteDescription : option Description;
  pc_remoteCandidates : list Candidate;
}.

Inductive ChannelState := dc_connecting | dc_open | dc_closing | dc_closed.

#[global] Instance ChannelState_eq_dec : EqDecision ChannelState.
Proof. solve_decision. Defined.

(** An [RTCDataChannel]: its [readyState] and the connection it runs on. *)
Record RTCDataChannel := mkDC {
  dc_readyState : ChannelState;
  dc_pc : nat;
}.

(** The store of browser objects: connections and channels by index, the
    tracks on which [stop()] was called, and the connections whose ICE
    gathering has started and not yet reported. *)
Record Browser := mkBrowser {
  pcs : list RTCPeerConnection;
  dcs : list RTCDataChannel;
  stoppedTracks : list MediaStreamTrack;
  pendingIce : list nat;
}.

(** The fields of a [WebRTCManager] instance. *)
Record WebRTCManager := mkManager {
  userId : string;
  peers : list (PeerId * nat);
  dataChannels : list (PeerId * nat);
  localStream : option MediaStream;
  isVoiceEnabled : bool;
  isVideoEnabled : bool;
}.

(** What the session does to the outside, in order. *)
Inductive Effect :=
  | SocketSend (signal : WebRTCSignal)
  | ChannelSend (channel : nat) (content : string)
  | PeerConnected (peerId : PeerId)
  | PeerDisconnected (peerId : PeerId)
  | ConsoleError (error : string).

Record World := mkWorld {
  mgr : WebRTCManager;
  browser : Browser;
  effects : list Effect;
}.

(** *** A state monad with exceptions

    A thrown exception keeps the mutations made before it. *)

Inductive Completion (A : Type) :=
  | Normal (a : A)
  | Throw (error : string).
Arguments Normal {A} a.
Arguments Throw {A} error.

Definition Js (A : Type) : Type := World → Completion A * World.

#[global] Instance Js_ret : MRet Js := λ A a w, (Normal a, w).

#[global] Instance Js_bind : MBind Js := λ A B f m w,
  match m w with
  | (Normal a, w') => f a w'
  | (Throw e, w') => (Throw e, w')
  end.

Definition throw {A} (e : string) : Js A := λ w, (Throw e, w).

(** [try { body } catch (error) { handler(error) }] *)
Definition tryCatch (body : Js ()) (handler : string → Js ()) : Js () := λ w,
  match body w with
  | (Normal a, w') => (Normal a, w')
  | (Throw e, w') => handler e w'
  end.

Definition getMgr : Js WebRTCManager := λ w, (Normal (mgr w), w).
Definition getBrowser : Js Browser := λ w, (Normal (browser w), w).
Definition modifyMgr (f : WebRTCManager → WebRTCManager) : Js () := λ w,
  (Normal (), mkWorld (f (mgr w)) (browser w) (effects w)).
Definition modifyBrowser (f : Browser → Browser) : Js () := λ w,
  (Normal (), mkWorld (mgr w) (f (browser w)) (effects w)).
Definition emit (e : Effect) : Js () := λ w,
  (Normal (), mkWorld (mgr w) (browser w) (effects w ++ [e])).

(** [xs.forEach(f)]: stops at the first exception. *)
Fixpoint forEach {X} (xs : list X) (f : X → Js ()) : Js () :=
  match xs with
  | [] => mret ()
  | x :: xs' => f x ;; forEach xs' f
  end.

Definition set_peers (f : list (PeerId * nat) → list (PeerId * nat))
    (m : WebRTCManager) : WebRTCManager :=
  mkManager (userId m) (f (peers m)) (dataChannels m) (localStream m)
    (isVoiceEnabled m) (isVideoEnabled m).
Definition set_dataChannels (f : list (PeerId * nat) → list (PeerId * nat))
    (m : WebRTCManager) : WebRTCManager :=
  mkManager (userId m) (peers m) (f (dataChannels m)) (localStream m)
    (isVoiceEnabled m) (isVideoEnabled m).
Definition set_localStream (s : option MediaStream) (m : WebRTCManager)
    : WebRTCManager :=
  mkManager (userId m) (peers m) (dataChannels m) s
    (isVoiceEnabled m) (isVideoEnabled m).
Definition set_isVoiceEnabled (b : bool) (m : WebRTCManager) : WebRTCManager :=
  mkManager (userId m) (peers m) (dataChannels m) (localStream m)
    b (isVideoEnabled m).
Definition set_isVideoEnabled (b : bool) (m : WebRTCManager) : WebRTCManager :=
  mkManager (userId m) (peers m) (dataChannels m) (localStream m)
    (isVoiceEnabled m) b.

Definition set_pcs (f : list RTCPeerConnection → list RTCPeerConnection)
    (b : Browser) : Browser :=
  mkBrowser (f (pcs b)) (dcs b) (stoppedTracks b) (pendingIce b).
Definition set_dcs (f : list RTCDataChannel → list RTCDataChannel)
    (b : Browser) : Browser :=
  mkBrowser (pcs b) (f (dcs b)) (stoppedTracks b) (pendingIce b).
Definition set_stoppedTracks (f : list MediaStreamTrack → list MediaStreamTrack)
    (b : Browser) : Browser :=
  mkBrowser (pcs b) (dcs b) (f (stoppedTracks b)) (pendingIce b).
Definition set_pendingIce (f : list nat → list nat) (b : Browser) : Browser :=
  mkBrowser (pcs b) (dcs b) (stoppedTracks b) (f (pendingIce b)).

Definition pc_set_closed (p : RTCPeerConnection) : RTCPeerConnection :=
  mkPC (pc_peerId p) true (pc_senders p) (pc_localDescription p)
    (pc_remoteDescription p) (pc_remoteCandidates p).
Definition pc_set_senders (s : list (option MediaStreamTrack))
    (p : RTCPeerConnection) : RTCPeerConnection :=
  mkPC (pc_peerId p) (pc_closed p) s (pc_localDescription p)
    (pc_remoteDescription p) (pc_remoteCandidates p).
Definition pc_set_local (d : Description) (p : RTCPeerConnection)
    : RTCPeerConnection :=
  mkPC (pc_peerId p) (pc_closed p) (pc_senders p) (Some d)
    (pc_remoteDescription p) (pc_remoteCandidates p).
Definition pc_set_remote (d : Description) (p : RTCPeerConnection)
    : RTCPeerConnection :=
  mkPC (pc_peerId p) (pc_closed p) (pc_senders p) (pc_localDescription p)
    (Some d) (pc_remoteCandidates p).
Definition pc_add_candidate (c : Candidate) (p : RTCPeerConnection)
    : RTCPeerConnection :=
  mkPC (pc_peerId p) (pc_closed p) (pc_senders p) (pc_localDescription p)
    (pc_remoteDescription p) (pc_remoteCandidates p ++ [c]).

(** *** The browser interface the session calls

    These model the WebRTC and media APIs, which are not part of the
    repository: each operation does what the session can observe of it. *)

Definition getPc (pc : nat) : Js RTCPeerConnection :=
  b ← getBrowser;
  match pcs b !! pc with
  | Some p => mret p
  | None => throw "TypeError"
  end.

Definition updatePc (pc : nat) (f : RTCPeerConnection → RTCPeerConnection)
    : Js () :=
  modifyBrowser (set_pcs (alter f pc)).

(** [new RTCPeerConnection(config)], with the handlers of
    [createPeerConnection] closed over [peerId]. *)
Definition newRTCPeerConnection (peerId : PeerId) : Js nat :=
  b ← getBrowser;
  modifyBrowser (set_pcs (λ l, l ++ [mkPC peerId false [] None None []])) ;;
  mret (length (pcs b)).

(** [pc.addTrack(track, stream)]: a new sender for a track the connection
    does not send yet. (A browser reuses a sender that has no track and
    has never sent, of the kind of [track], when a remote offer with
    media sections left one on the connection; descriptions carry no
    media sections here, so no connection has such a sender.) *)
Definition addTrack (pc : nat) (track : option MediaStreamTrack) : Js () :=
  p ← getPc pc;
  match track with
  | None => throw "TypeError"
  | Some t =>
      if pc_closed p then throw "InvalidStateError"
      else if bool_decide (Some t ∈ pc_senders p) then throw "InvalidAccessError"
      else updatePc pc (pc_set_senders (pc_senders p ++ [Some t]))
  end.

(** [sender.replaceTrack(track)] on the sender at position [idx]. It
    returns a promise that the session never awaits: a failure changes
    nothing and is not thrown. [undefined] converts to [null]. *)
Definition replaceTrack (pc idx : nat) (track : option MediaStreamTrack)
    : Js () :=
  p ← getPc pc;
  if pc_closed p then mret ()
  else
    match pc_senders p !! idx, track with
    | Some (Some old), Some t =>
        if decide (kind old = kind t)
        then updatePc pc (pc_set_senders (<[idx := Some t]> (pc_senders p)))
        else mret ()
    | Some _, _ => updatePc pc (pc_set_senders (<[idx := track]> (pc_senders p)))
    | None, _ => mret ()
    end.

(** [pc.createDataChannel('messages')] *)
Definition createDataChannel (pc : nat) : Js nat :=
  p ← getPc pc;
  if pc_closed p then throw "InvalidStateError"
  else
    b ← getBrowser;
    modifyBrowser (set_dcs (λ l, l ++ [mkDC dc_connecting pc])) ;;
    mret (length (dcs b)).

(** [await pc.createOffer()] *)
Definition createOffer (pc : nat) : Js Description :=
  p ← getPc pc;
  m ← getMgr;
  if pc_closed p then throw "InvalidStateError"
  else mret (mkDescription sdp_offer (userId m) pc).

(** [await pc.createAnswer()]: needs a remote offer. *)
Definition createAnswer (pc : nat) : Js Description :=
  p ← getPc pc;
  m ← getMgr;
  if pc_closed p then throw "InvalidStateError"
  else
    match pc_remoteDescription p with
    | Some d =>
        if decide (sdpType d = sdp_offer)
        then mret (mkDescription sdp_answer (userId m) pc)
        else throw "InvalidStateError"
    | None => throw "InvalidStateError"
    end.

(** [await pc.setLocalDescription(d)]: ICE gathering starts. *)
Definition setLocalDescription (pc : nat) (d : Description) : Js () :=
  p ← getPc pc;
  if pc_closed p then throw "InvalidStateError"
  else
    updatePc pc (pc_set_local d) ;;
    modifyBrowser (set_pendingIce (λ l, l ++ [pc])).

(** [await pc.setRemoteDescription(signal.data)]: an offer is accepted by
    a connection that has no description yet, an answer by one that has
    sent an offer and has no answer yet. *)
Definition setRemoteDescription (pc : nat) (j : option json) : Js () :=
  p ← getPc pc;
  match json_to_description j with
  | None => throw "TypeError"
  | Some d =>
      if pc_closed p then throw "InvalidStateError"
      else
        match sdpType d, pc_localDescription p, pc_remoteDescription p with
        | sdp_offer, None, None => updatePc pc (pc_set_remote d)
        | sdp_answer, Some l, None =>
            if decide (sdpType l = sdp_offer)
            then updatePc pc (pc_set_remote d)
            else throw "InvalidStateError"
        | _, _, _ => throw "InvalidStateError"
        end
  end.

(** [await pc.addIceCandidate(signal.data)]: needs a remote description. *)
Definition addIceCandidate (pc : nat) (j : option json) : Js () :=
  p ← getPc pc;
  match json_to_candidate j with
  | None => throw "TypeError"
  | Some c =>
      if pc_closed p then throw "InvalidStateError"
      else
        match pc_remoteDescription p with
        | Some _ => updatePc pc (pc_add_candidate c)
        | None => throw "InvalidStateError"
        end
  end.

(** [pc.close()]: the connection and its data channels are closed. *)
Definition close (pc : nat) : Js () :=
  updatePc pc pc_set_closed ;;
  modifyBrowser (set_dcs (fmap (λ d,
    if decide (dc_pc d = pc) then mkDC dc_closed (dc_pc d) else d))).

(** [track.stop()] *)
Definition stop (t : MediaStreamTrack) : Js () :=
  modifyBrowser (set_stoppedTracks (js_add t)).

(** [this.socket.send(JSON.stringify(signal))] *)
Definition socketSend (signal : WebRTCSignal) : Js () :=
  emit (SocketSend signal).

(** [channel.send(content)] *)
Definition channelSend (channel : nat) (content : string) : Js () :=
  b ← getBrowser;
  match dcs b !! channel with
  | Some d =>
      if decide (dc_readyState d = dc_open)
      then emit (ChannelSend channel content)
      else throw "InvalidStateError"
  | None => throw "TypeError"
  end.

(** [navigator.mediaDevices.getUserMedia] / [getDisplayMedia] *)
Definition getMedia (c : Capture) : Js MediaStream :=
  match c with
  | Granted stream => mret stream
  | Denied error => throw error
  end.

(** *** [WebRTCManager] *)

(** [constructor(userId, socket)] *)
Definition newWebRTCManager (userId : string) : World :=
  mkWorld (mkManager userId [] [] None false false) (mkBrowser [] [] [] []) [].

(** [createPeerConnection(peerId)], lines 251-293: a new connection is
    always made and stored under [peerId]. *)
Definition createPeerConnection (peerId : PeerId) : Js nat :=
  peerConnection ← newRTCPeerConnection peerId;
  modifyMgr (set_peers (jm_set peerId peerConnection)) ;;
  mret peerConnection.

(** [setupDataChannel(dataChannel, peerId)], lines 295-310. *)
Definition setupDataChannel (dataChannel : nat) (peerId : PeerId) : Js () :=
  modifyMgr (set_dataChannels (jm_set peerId dataChannel)).

(** The loop shared by [connectToPeer] and [handleOffer]:
    [if (this.localStream) this.localStream.getTracks().forEach(addTrack)]. *)
Definition addLocalTracks (peerConnection : nat) : Js () :=
  m ← getMgr;
  match localStream m with
  | Some tracks => forEach tracks (λ track, addTrack peerConnection (Some track))
  | None => mret ()
  end.

(** [connectToPeer(peerId)], lines 225-249. *)
Definition connectToPeer (peerId : PeerId) : Js () :=
  peerConnection ← createPeerConnection peerId;
  dataChannel ← createDataChannel peerConnection;
  setupDataChannel dataChannel peerId ;;
  addLocalTracks peerConnection ;;
  offer_ ← createOffer peerConnection;
  setLocalDescription peerConnection offer_ ;;
  m ← getMgr;
  socketSend (mkSignal offer (Some (userId m)) peerId None None
                (Some (description_to_json offer_))).

(** [handleOffer(signal)], lines 312-333. *)
Definition handleOffer (signal : WebRTCSignal) : Js () :=
  peerConnection ← createPeerConnection (from signal);
  setRemoteDescription peerConnection (data signal) ;;
  addLocalTracks peerConnection ;;
  answer_ ← createAnswer peerConnection;
  setLocalDescription peerConnection answer_ ;;
  m ← getMgr;
  socketSend (mkSignal answer (Some (userId m)) (from signal) None None
                (Some (description_to_json answer_))).

(** [handleAnswer(signal)], lines 335-340. *)
Definition handleAnswer (signal : WebRTCSignal) : Js () :=
  m ← getMgr;
  match jm_get (from signal) (peers m) with
  | Some peerConnection => setRemoteDescription peerConnection (data signal)
  | None => mret ()
  end.

(** [handleIceCandidate(signal)], lines 342-347. *)
Definition handleIceCandidate (signal : WebRTCSignal) : Js () :=
  m ← getMgr;
  match jm_get (from signal) (peers m) with
  | Some peerConnection => addIceCandidate peerConnection (data signal)
  | None => mret ()
  end.

(** [disconnectFromPeer(peerId)], lines 349-358. *)
Definition disconnectFromPeer (peerId : PeerId) : Js () :=
  m ← getMgr;
  match jm_get peerId (peers m) with
  | Some peerConnection =>
      close peerConnection ;;
      modifyMgr (set_peers (jm_delete peerId))
  | None => mret ()
  end ;;
  modifyMgr (set_dataChannels (jm_delete peerId)) ;;
  emit (PeerDisconnected peerId).

(** [handleSignal(signal)], lines 205-223. *)
Definition handleSignal (signal : WebRTCSignal) : Js () :=
  match type signal with
  | peer_joined => connectToPeer (from signal)
  | peer_left => disconnectFromPeer (from signal)
  | offer => handleOffer signal
  | answer => handleAnswer signal
  | ice_candidate => handleIceCandidate signal
  | _ => mret ()
  end.

(** The socket's [message] listener, lines 195-202: [handleSignal] is
    [async] and called without [await], so a failure inside it is an
    unhandled rejection that keeps what was done before it; a frame that
    does not parse is logged. Either way the listener returns normally. *)
Definition onSocketMessage (parsed : option WebRTCSignal) : Js () :=
  match parsed with
  | Some signal => tryCatch (handleSignal signal) (λ _, mret ())
  | None => emit (ConsoleError "Error parsing WebSocket message:")
  end.

(** [sendMessage(content)], lines 382-388. *)
Definition sendMessage (content : string) : Js () :=
  m ← getMgr;
  forEach (jm_values (dataChannels m)) (λ channel,
    b ← getBrowser;
    match dcs b !! channel with
    | Some d =>
        if decide (dc_readyState d = dc_open)
        then channelSend channel content
        else mret ()
    | None => mret ()
    end).

(** The loop shared by [startVoiceCall] and [startVideoCall]. *)
Definition addTracksToAllPeers : Js () :=
  m ← getMgr;
  forEach (jm_values (peers m)) (λ peerConnection,
    forEach (default [] (localStream m)) (λ track,
      addTrack peerConnection (Some track))).

(** [startVoiceCall()], lines 390-407; [capture] is what
    [getUserMedia({ audio: true, video: false })] settles with. *)
Definition startVoiceCall (capture : Capture) : Js () :=
  tryCatch
    (stream ← getMedia capture;
     modifyMgr (set_localStream (Some stream)) ;;
     modifyMgr (set_isVoiceEnabled true) ;;
     addTracksToAllPeers)
    (λ _, emit (ConsoleError "Error starting voice call:")).

(** [startVideoCall()], lines 409-432 (the local preview element is not
    modelled). *)
Definition startVideoCall (capture : Capture) : Js () :=
  tryCatch
    (stream ← getMedia capture;
     modifyMgr (set_localStream (Some stream)) ;;
     modifyMgr (set_isVideoEnabled true) ;;
     addTracksToAllPeers)
    (λ _, emit (ConsoleError "Error starting video call:")).

(** [getSenders().find(s => s.track && s.track.kind === 'video')], as the
    position of the sender found. *)
Definition isVideoSender (s : option MediaStreamTrack) : bool :=
  match s with
  | Some t => bool_decide (kind t = video)
  | None => false
  end.

Definition findVideoSender (senders : list (option MediaStreamTrack))
    : option nat :=
  fst <$> list_find (λ s, Is_true (isVideoSender s)) senders.

(** The [peers.forEach] of [startScreenShare], lines 442-452. *)
Definition shareToPeer (screenStream : MediaStream) (peerConnection : nat)
    : Js () :=
  p ← getPc peerConnection;
  match findVideoSender (pc_senders p) with
  | Some sender =>
      replaceTrack peerConnection sender (head (getVideoTracks screenStream))
  | None => addTrack peerConnection (head (getVideoTracks screenStream))
  end.

(** The update of [this.localStream] in [startScreenShare], lines 455-464;
    [MediaStream.addTrack] ignores a track the stream already has. *)
Definition updateLocalStream (screenStream : MediaStream) : Js () :=
  m ← getMgr;
  match localStream m with
  | Some tracks =>
      match head (getVideoTracks tracks) with
      | Some videoTrack =>
          stop videoTrack ;;
          modifyMgr (set_localStream (Some (js_delete videoTrack tracks)))
      | None => mret ()
      end ;;
      forEach screenStream (λ track,
        m' ← getMgr;
        modifyMgr (set_localStream
                     (Some (js_add track (default [] (localStream m'))))))
  | None => mret ()
  end.

(** [startScreenShare()], lines 434-468. *)
Definition startScreenShare (capture : Capture) : Js () :=
  tryCatch
    (screenStream ← getMedia capture;
     m ← getMgr;
     forEach (jm_values (peers m)) (shareToPeer screenStream) ;;
     updateLocalStream screenStream)
    (λ _, emit (ConsoleError "Error starting screen share:")).

(** [cleanup()], lines 470-485. *)
Definition cleanup : Js () :=
  m ← getMgr;
  forEach (jm_values (peers m)) close ;;
  modifyMgr (set_peers (λ _, [])) ;;
  modifyMgr (set_dataChannels (λ _, [])) ;;
  m' ← getMgr;
  match localStream m' with
  | Some tracks =>
      forEach tracks stop ;;
      modifyMgr (set_localStream None)
  | None => mret ()
  end ;;
  modifyMgr (set_isVoiceEnabled false) ;;
  modifyMgr (set_isVideoEnabled false).

(** *** Events the browser raises on the session's objects *)

Inductive ConnectionState :=
  | cs_new | cs_connecting | cs_connected
  | cs_disconnected | cs_failed | cs_closed.

(** [peerConnection.onconnectionstatechange], lines 282-289, for the
    connection [pc] reaching [state]. *)
Definition onconnectionstatechange (pc : nat) (state : ConnectionState)
    : Js () :=
  p ← getPc pc;
  match state with
  | cs_connected => emit (PeerConnected (pc_peerId p))
  | cs_disconnected | cs_failed => disconnectFromPeer (pc_peerId p)
  | _ => mret ()
  end.

(** [peerConnection.onicecandidate], lines 261-270; [None] is the final
    event whose [candidate] is [null]. *)
Definition onicecandidate (pc : nat) (candidate : option Candidate) : Js () :=
  p ← getPc pc;
  m ← getMgr;
  match candidate with
  | Some c =>
      socketSend (mkSignal ice_candidate (Some (userId m)) (pc_peerId p)
                    None None (Some (candidate_to_json c)))
  | None => mret ()
  end.

(** [peerConnection.ondatachannel], lines 272-274: the remote side opened
    a channel on [pc]. *)
Definition ondatachannel (pc : nat) : Js () :=
  p ← getPc pc;
  b ← getBrowser;
  modifyBrowser (set_dcs (λ l, l ++ [mkDC dc_connecting pc])) ;;
  setupDataChannel (length (dcs b)) (pc_peerId p).

(** [dataChannel.onopen], lines 298-300. The browser raises it when it
    has opened [channel], whose [readyState] is [open] from then on; the
    handler only logs. A channel is opened out of [connecting], on a
    connection that is not closed and has both descriptions. *)
Definition dataChannel_onopen (channel : nat) : Js () :=
  b ← getBrowser;
  match dcs b !! channel with
  | Some d =>
      match pcs b !! dc_pc d with
      | Some p =>
          if bool_decide (dc_readyState d = dc_connecting)
             && negb (pc_closed p)
             && bool_decide (is_Some (pc_localDescription p))
             && bool_decide (is_Some (pc_remoteDescription p))
          then modifyBrowser
                 (set_dcs (alter (λ d, mkDC dc_open (dc_pc d)) channel))
          else mret ()
      | None => mret ()
      end
  | None => mret ()
  end.

(** [dataChannel.onclose], lines 306-309, with the [peerId] it closed
    over. *)
Definition dataChannel_onclose (peerId : PeerId) : Js () :=
  modifyMgr (set_dataChannels (jm_delete peerId)).

(** *** What can happen to a session

    The frames of its socket, the calls of the application and the events
    of its browser objects. *)
Inductive Action :=
  | SocketMessage (parsed : option WebRTCSignal)
  | SendMessage (content : string)
  | StartVoiceCall (capture : Capture)
  | StartVideoCall (capture : Capture)
  | StartScreenShare (capture : Capture)
  | Cleanup
  | ConnectionStateChange (pc : nat) (state : ConnectionState)
  | IceCandidate (pc : nat) (candidate : option Candidate)
  | DataChannel (pc : nat)
  | DataChannelOpen (channel : nat)
  | DataChannelClose (peerId : PeerId).

Definition perform (a : Action) : Js () :=
  match a with
  | SocketMessage parsed => onSocketMessage parsed
  | SendMessage content => sendMessage content
  | StartVoiceCall capture => startVoiceCall capture
  | StartVideoCall capture => startVideoCall capture
  | StartScreenShare capture => startScreenShare capture
  | Cleanup => cleanup
  | ConnectionStateChange pc state => onconnectionstatechange pc state
  | IceCandidate pc candidate => onicecandidate pc candidate
  | DataChannel pc => ondatachannel pc
  | DataChannelOpen channel => dataChannel_onopen channel
  | DataChannelClose peerId => dataChannel_onclose peerId
  end.

(** *** The hook ([client/src/hooks/use-webrtc.ts], [useWebRTC])

    [socket] tells whether the [socket] argument is non-null;
    [webrtcManagerRef] is [webrtcManagerRef.current], the manager together
    with the browser objects it holds. What the hook writes to the socket
    is recorded with the manager's effects: it is the same socket. *)
Record Hook := mkHook {
  socket : bool;
  hook_userId : string;
  webrtcManagerRef : option World;
  connectedPeers : list PeerId;
  currentChannel : option string;
}.

(** The mount effect, lines 89-105. *)
Definition useWebRTC (socket : bool) (userId : string) : Hook :=
  mkHook socket userId
    (if socket && truthy (Some userId)
     then Some (newWebRTCManager userId) else None)
    [] None.

(** [onPeerConnected] and [onPeerDisconnected], lines 94-104. *)
Definition applyCallback (peers : list PeerId) (e : Effect) : list PeerId :=
  match e with
  | PeerConnected peerId => js_add peerId peers
  | PeerDisconnected peerId => js_delete peerId peers
  | _ => peers
  end.

(** Runs a manager operation, if there is a manager, and lets the
    callbacks it invoked update [connectedPeers]. *)
Definition withManager (op : Js ()) (h : Hook) : Hook :=
  match webrtcManagerRef h with
  | Some w =>
      let w' := (op w).2 in
      mkHook (socket h) (hook_userId h) (Some w')
        (foldl applyCallback (connectedPeers h)
           (drop (length (effects w)) (effects w')))
        (currentChannel h)
  | None => h
  end.

Definition setCurrentChannel (c : option string) (h : Hook) : Hook :=
  mkHook (socket h) (hook_userId h) (webrtcManagerRef h) (connectedPeers h) c.

Definition setConnectedPeers (peers : list PeerId) (h : Hook) : Hook :=
  mkHook (socket h) (hook_userId h) (webrtcManagerRef h) peers
    (currentChannel h).

(** [joinChannel(channelId)], lines 114-123. *)
Definition joinChannel (channelId : string) (h : Hook) : Hook :=
  match webrtcManagerRef h with
  | Some _ =>
      if socket h then
        withManager
          (socketSend (mkSignal join_channel None None (Some channelId)
                         (Some (hook_userId h)) None))
          (setCurrentChannel (Some channelId) h)
      else h
  | None => h
  end.

(** [leaveChannel(channelId)], lines 125-136. *)
Definition leaveChannel (channelId : string) (h : Hook) : Hook :=
  match webrtcManagerRef h with
  | Some _ =>
      if socket h then
        setConnectedPeers []
          (withManager cleanup
             (withManager
                (socketSend (mkSignal leave_channel None None (Some channelId)
                               (Some (hook_userId h)) None))
                (setCurrentChannel None h)))
      else h
  | None => h
  end.

(** [sendMessage(channelId, content)], lines 138-142. *)
Definition hook_sendMessage (channelId : string) (content : string) (h : Hook)
    : Hook :=
  withManager (sendMessage content) h.

(** [startVoiceCall()], [startVideoCall()], [startScreenShare()], lines
    144-160: the promise of the manager's method is dropped. *)
Definition hook_startVoiceCall (capture : Capture) (h : Hook) : Hook :=
  withManager (startVoiceCall capture) h.
Definition hook_startVideoCall (capture : Capture) (h : Hook) : Hook :=
  withManager (startVideoCall capture) h.
Definition hook_startScreenShare (capture : Capture) (h : Hook) : Hook :=
  withManager (startScreenShare capture) h.

End Client.

(** ** Coordinator and sessions together

    The clients, on sockets [0 .. n-1], all open, one coordinator, and
    the frames in flight between them. A handler runs to its end before
    the next frame is handled. *)

Module Mesh.
Import Coordinator Client.

Inductive Frame :=
  | ToServer (w : WebSocket) (signal : WebRTCSignal)
  | ToClient (w : WebSocket) (signal : WebRTCSignal).

Record System := mkSystem {
  coordinator : State;
  clients : list Hook;
  wire : list Frame;
}.

(** The socket writes among the effects a session produced after the
    first [k]. *)
Definition socketWrites (k : nat) (w : World) : list WebRTCSignal :=
  omap (λ e, match e with SocketSend s => Some s | _ => None end)
    (drop k (effects w)).

Definition hookWrites (before after : Hook) : list WebRTCSignal :=
  match webrtcManagerRef after with
  | Some w =>
      socketWrites (from_option (λ w0, length (effects w0)) 0
                      (webrtcManagerRef before)) w
  | None => []
  end.

(** ICE gathering of the browser: every connection whose local
    description was just set reports one candidate of its own. *)
Definition gatherIce : Js () :=
  b ← getBrowser;
  m ← getMgr;
  modifyBrowser (set_pendingIce (λ _, [])) ;;
  forEach (pendingIce b) (λ pc,
    onicecandidate pc (Some (mkCandidate (userId m) pc))).

(** One frame is taken off the wire and handled; what the handler writes
    goes to the end of the wire. [None] when the wire is empty. *)
Definition step (s : System) : option System :=
  match wire s with
  | [] => None
  | ToServer w signal :: rest =>
      let '(st, out) := onMessage (λ _, OPEN) (coordinator s) w signal in
      Some (mkSystem st (clients s)
              (rest ++ map (λ '(w', e), ToClient w' e) out))
  | ToClient w signal :: rest =>
      match clients s !! w with
      | Some h =>
          let h' := withManager gatherIce
                      (withManager (onSocketMessage (Some signal)) h) in
          Some (mkSystem (coordinator s) (<[w := h']> (clients s))
                  (rest ++ map (ToServer w) (hookWrites h h')))
      | None => Some (mkSystem (coordinator s) (clients s) rest)
      end
  end.

(** Steps until the wire is empty, at most [fuel] times. *)
Fixpoint settle (fuel : nat) (s : System) : System :=
  match fuel with
  | 0 => s
  | S fuel' =>
      match step s with
      | Some s' => settle fuel' s'
      | None => s
      end
  end.

(** Client [i] calls [joinChannel(channelId)]. *)
Definition join (channelId : string) (i : nat) (s : System) : System :=
  match clients s !! i with
  | Some h =>
      let h' := joinChannel channelId h in
      mkSystem (coordinator s) (<[i := h']> (clients s))
        (wire s ++ map (ToServer i) (hookWrites h h'))
  | None => s
  end.

(** One client per identity of [ids], the client of [ids !! i] on socket
    [i]; nobody has joined. *)
Definition start (ids : list string) : System :=
  mkSystem init (map (useWebRTC true) ids) [].

(** Nothing is in flight. *)
Definition quiescent (s : System) : bool :=
  match wire s with
  | [] => true
  | _ :: _ => false
  end.

(** The first [k] clients join one after the other, each join settled
    before the next. *)
Definition joinFirst (fuel : nat) (channelId : string) (ids : list string)
    (k : nat) : System :=
  foldl (λ s i, settle fuel (join channelId i s)) (start ids) (seq 0 k).

Definition joinAll (fuel : nat) (channelId : string) (ids : list string)
    : System :=
  joinFirst fuel channelId ids (length ids).

(** The identities ["A"], ["B"], ... *)
Definition uid (i : nat) : string :=
  String (Ascii.ascii_of_nat (65 + i)) EmptyString.

Definition uids (n : nat) : list string := map uid (seq 0 n).

(** The transport of a connection comes up once both ends have applied
    both descriptions and hold a candidate of the other end. *)
Definition negotiated (p : RTCPeerConnection) : bool :=
  negb (pc_closed p)
  && bool_decide (is_Some (pc_localDescription p))
  && bool_decide (is_Some (pc_remoteDescription p))
  && bool_decide (pc_remoteCandidates p ≠ []).

Definition worldOf (s : System) (i : nat) : option World :=
  clients s !! i ≫= webrtcManagerRef.

Definition connectionOf (s : System) (i ref : nat) : option RTCPeerConnection :=
  worldOf s i ≫= (λ w, pcs (browser w) !! ref).

Definition identityOf (s : System) (i : nat) : option string :=
  hook_userId <$> clients s !! i.

(** The connection at the other end of connection [ref] of client [i]:
    the creator of its remote description. *)
Definition remoteEnd (s : System) (i ref : nat) : option (nat * nat) :=
  p ← connectionOf s i ref;
  d ← pc_remoteDescription p;
  j ← fst <$> list_find (λ h, hook_userId h = creator d) (clients s);
  Some (j, creatorPc d).

(** Connection [ref] of client [i] and connection [ref'] of client [j]
    are the two ends of one link, both negotiated: each has the
    description of the other as its remote description and holds the
    candidate of the other. *)
Definition paired (s : System) (i ref j ref' : nat) : bool :=
  match connectionOf s i ref, connectionOf s j ref',
        identityOf s i, identityOf s j with
  | Some p, Some q, Some ui, Some uj =>
      negotiated p && negotiated q
      && bool_decide (remoteEnd s i ref = Some (j, ref'))
      && bool_decide (remoteEnd s j ref' = Some (i, ref))
      && bool_decide (mkCandidate uj ref' ∈ pc_remoteCandidates p)
      && bool_decide (mkCandidate ui ref ∈ pc_remoteCandidates q)
  | _, _, _, _ => false
  end.

(** The channels of a store that run on connection [ref]. *)
Definition channelsOn (b : Browser) (ref : nat) : list nat :=
  omap (λ '(ch, d), if decide (dc_pc d = ref) then Some ch else None)
    (imap pair (dcs b)).

(** The browser announces a channel that the other end created on the
    link of connection [ref], and opens it. *)
Definition announceChannel (ref : nat) : Js () :=
  b ← getBrowser;
  ondatachannel ref ;;
  dataChannel_onopen (length (dcs b)).

(** What the browser of client [i] does when the transport of connection
    [ref], one end of a negotiated link with connection [ref'] of client
    [j], comes up: it reports [connectionState === 'connected'], opens
    the channels that client [i] created on [ref] and announces the
    channels that client [j] created on [ref']. [s] is the system before
    any transport came up, so that its channels are those which
    [createDataChannel] made. *)
Definition linkUp (s : System) (i ref j ref' : nat) : Js () :=
  onconnectionstatechange ref cs_connected ;;
  forEach (from_option (λ w, channelsOn (browser w) ref) [] (worldOf s i))
    dataChannel_onopen ;;
  forEach (from_option (λ w, channelsOn (browser w) ref') [] (worldOf s j))
    (λ _, announceChannel ref).

Definition transportUp (s : System) (i : nat) (h : Hook) : Hook :=
  foldl (λ h ref,
      match remoteEnd s i ref with
      | Some (j, ref') =>
          if paired s i ref j ref'
          then withManager (linkUp s i ref j ref') h
          else h
      | None => h
      end)
    h (seq 0 (from_option (λ w, length (pcs (browser w))) 0 (webrtcManagerRef h))).

Definition connectAll (s : System) : System :=
  mkSystem (coordinator s) (imap (transportUp s) (clients s)) (wire s).

(** The connections client [i] ever created for the identity [peer]. *)
Definition linksTo (s : System) (i : nat) (peer : string) : list nat :=
  match worldOf s i with
  | Some w =>
      omap (λ '(ref, p),
              if decide (pc_peerId p = Some peer) then Some ref else None)
        (imap pair (pcs (browser w)))
  | None => []
  end.

(** Client [i] holds connection [ref] as its link to [peer]: it is the
    connection of its registry for [peer], the channel of its channel map
    for [peer] runs on it and is open, and the hook lists [peer] as
    connected. *)
Definition holdsLink (h : Hook) (peer : string) (ref : nat) : bool :=
  match webrtcManagerRef h with
  | Some w =>
      bool_decide (jm_get (Some peer) (peers (mgr w)) = Some ref)
      && match jm_get (Some peer) (dataChannels (mgr w)) with
         | Some ch =>
             match dcs (browser w) !! ch with
             | Some d =>
                 bool_decide (dc_pc d = ref)
                 && bool_decide (dc_readyState d = dc_open)
             | None => false
             end
         | None => false
         end
      && bool_decide (Some peer ∈ connectedPeers h)
  | None => false
  end.

(** Connection [p], number [ref] of [ui], and connection [q], number
    [ref'] of [uj], are the two ends of one link: both are open, each has
    applied the description that the other created, and each holds the
    candidate that the other gathered. *)
Definition exchanged (ui uj : string) (ref ref' : nat)
    (p q : RTCPeerConnection) : bool :=
  negb (pc_closed p) && negb (pc_closed q)
  && bool_decide (is_Some (pc_localDescription p))
  && bool_decide (is_Some (pc_localDescription q))
  && bool_decide (pc_remoteDescription q = pc_localDescription p)
  && bool_decide (pc_remoteDescription p = pc_localDescription q)
  && bool_decide (mkCandidate uj ref' ∈ pc_remoteCandidates p)
  && bool_decide (mkCandidate ui ref ∈ pc_remoteCandidates q).

(** Clients [i] and [j] have exactly one link, and it is connected: each
    created one connection for the other, these two are the ends of one
    link, and each of the two clients holds its end. *)
Definition linked (s : System) (i j : nat) : bool :=
  match clients s !! i, clients s !! j with
  | Some hi, Some hj =>
      match linksTo s i (hook_userId hj), linksTo s j (hook_userId hi) with
      | [ref], [ref'] =>
          match connectionOf s i ref, connectionOf s j ref' with
          | Some p, Some q =>
              exchanged (hook_userId hi) (hook_userId hj) ref ref' p q
              && holdsLink hi (hook_userId hj) ref
              && holdsLink hj (hook_userId hi) ref'
          | _, _ => false
          end
      | _, _ => false
      end
  | _, _ => false
  end.

Definition meshComplete (s : System) : bool :=
  forallb (λ i,
      forallb (λ j, bool_decide (i = j) || linked s i j)
        (seq 0 (length (clients s))))
    (seq 0 (length (clients s))).

(** Client [j] is the answerer of its link with client [i]: the local
    description of the one connection it created for [i] is an answer. *)
Definition answersTo (s : System) (j i : nat) : bool :=
  match identityOf s i with
  | Some ui =>
      match linksTo s j ui with
      | [ref] =>
          match connectionOf s j ref ≫= pc_localDescription with
          | Some d => bool_decide (sdpType d = sdp_answer)
          | None => false
          end
      | _ => false
      end
  | None => false
  end.

(** *** Other orders of delivery

    A socket delivers in order, in each direction; frames of different
    sockets or directions may be handled in any order. *)

Definition lane (f : Frame) : bool * WebSocket :=
  match f with
  | ToServer w _ => (true, w)
  | ToClient w _ => (false, w)
  end.

(** The positions on the wire of the frames that are first in their
    lane, [seen] being the lanes of the frames before position [i]. *)
Fixpoint enabledFrom (seen : list (bool * WebSocket)) (i : nat)
    (l : list Frame) : list nat :=
  match l with
  | [] => []
  | f :: l' =>
      if bool_decide (lane f ∈ seen) then enabledFrom seen (S i) l'
      else i :: enabledFrom (lane f :: seen) (S i) l'
  end.

(** The frame at position [k] is handled next. *)
Definition stepAt (k : nat) (s : System) : option System :=
  match wire s !! k with
  | Some f =>
      step (mkSystem (coordinator s) (clients s) (f :: delete k (wire s)))
  | None => None
  end.

(** Steps until the wire is empty, at most [fuel] times, handling at each
    step the enabled frame that [pick] chooses. *)
Fixpoint settleBy (pick : list nat → nat) (fuel : nat) (s : System) : System :=
  match fuel with
  | 0 => s
  | S fuel' =>
      match stepAt (pick (enabledFrom [] 0 (wire s))) s with
      | Some s' => settleBy pick fuel' s'
      | None => s
      end
  end.

Definition joinAllBy (pick : list nat → nat) (fuel : nat) (channelId : string)
    (ids : list string) : System :=
  foldl (λ s i, settleBy pick fuel (join channelId i s)) (start ids)
    (seq 0 (length ids)).

(** The lane whose first frame is the youngest goes first. *)
Definition youngestLane (enabled : list nat) : nat := default 0 (last enabled).

(** [check] holds of every quiescent system that [s] can reach within
    [fuel] steps, whatever enabled frame is handled at each step, and
    every such run ends within [fuel] steps. *)
Fixpoint explore (fuel : nat) (check : System → bool) (s : System) : bool :=
  match fuel with
  | 0 => false
  | S fuel' =>
      match wire s with
      | [] => check s
      | _ :: _ =>
          forallb (λ k,
              match stepAt k s with
              | Some s' => explore fuel' check s'
              | None => false
              end)
            (enabledFrom [] 0 (wire s))
      end
  end.

End Mesh.

(** ** The REST server ([server/storage.ts], [server/routes.ts])

    The in-memory store [MemStorage] and the routes of [registerRoutes]
    that use it (both in [unnamed/part_000]). Every [await] of a route is
    on a promise of [MemStorage] that is already settled, so a handler
    runs to completion before the next request is handled: a route is a
    function from the store to a response and a store.

    [randomUUID()] and [new Date()] are the environment's: [uuid n] is
    what the [n]-th call of [randomUUID] returns and [clock n] the time,
    in milliseconds, of the [n]-th [new Date()]. A request carries the
    outcome of parsing its body with the route's zod schema: [None] when
    [parse] throws. The [console.log] lines are left out. *)

Module Storage.

(** *** Rows ([shared/schema.ts]) *)

Record User := mkUser {
  user_id : string;
  username : string;
  email : string;
  password : string;
  avatar : option string;
  user_status : string;
  user_createdAt : Z;
}.

Record InsertUser := mkInsertUser {
  iu_username : string;
  iu_email : string;
  iu_password : string;
  iu_avatar : option string;
  iu_status : option string;
}.

Record Login := mkLogin { login_username : string; login_password : string }.

Record Server := mkServer {
  server_id : string;
  server_name : string;
  server_description : option string;
  icon : option string;
  ownerId : string;
  inviteCode : string;
  server_createdAt : Z;
}.

Record InsertServer := mkInsertServer {
  is_name : string;
  is_description : option string;
  is_icon : option string;
  is_ownerId : string;
}.

Record Channel := mkChannel {
  channel_id : string;
  channel_name : string;
  channel_description : option string;
  channel_type : string;
  channel_serverId : string;
  position : Z;
  channel_createdAt : Z;
}.

Record InsertChannel := mkInsertChannel {
  ic_name : string;
  ic_description : option string;
  ic_type : string;
  ic_serverId : string;
  ic_position : option Z;
}.

Record ServerMember := mkServerMember {
  sm_id : string;
  sm_userId : string;
  sm_serverId : string;
  role : string;
  joinedAt : Z;
}.

Record Message := mkMessage {
  message_id : string;
  message_content : string;
  authorId : string;
  message_channelId : string;
  message_type : string;
  message_attachments : option json;
  message_createdAt : Z;
}.

Record InsertMessage := mkInsertMessage {
  im_content : string;
  im_authorId : string;
  im_channelId : string;
  im_type : option string;
  im_attachments : option json;
}.

Record DirectMessage := mkDirectMessage {
  dm_id : string;
  dm_content : string;
  senderId : string;
  recipientId : string;
  dm_type : string;
  dm_attachments : option json;
  dm_createdAt : Z;
}.

Record InsertDirectMessage := mkInsertDirectMessage {
  idm_content : string;
  idm_senderId : string;
  idm_recipientId : string;
  idm_type : option string;
  idm_attachments : option json;
}.

Record Friendship := mkFriendship {
  friendship_id : string;
  userId1 : string;
  userId2 : string;
  friendship_status : string;
  friendship_createdAt : Z;
}.

(** [ServerMember & { user: User }]: [user!] asserts nothing at run time,
    the field is [undefined] for an identity that is no user. *)
Record MemberWithUser := mkMemberWithUser {
  member : ServerMember;
  member_user : option User;
}.

Record MessageWithAuthor := mkMessageWithAuthor {
  message : Message;
  author : option User;
}.

Record DirectMessageWithUsers := mkDirectMessageWithUsers {
  directMessage : DirectMessage;
  sender : option User;
  recipient : option User;
}.

Record ServerWithChannels := mkServerWithChannels {
  swc_server : Server;
  swc_channels : list Channel;
  swc_members : list MemberWithUser;
}.

(** *** The store *)

Record MemStorage := mkMemStorage {
  users : list (string * User);
  servers : list (string * Server);
  channels : list (string * Channel);
  messages : list (string * Message);
  directMessages : list (string * DirectMessage);
  serverMembers : list (string * ServerMember);
  friendships : list (string * Friendship);
}.

(** The store with the number of [randomUUID()] and [new Date()] calls
    made so far. *)
Record World := mkWorld {
  storage : MemStorage;
  uuidCalls : nat;
  dateCalls : nat;
}.

Definition set_users (f : list (string * User) → list (string * User))
    (s : MemStorage) : MemStorage :=
  mkMemStorage (f (users s)) (servers s) (channels s) (messages s)
    (directMessages s) (serverMembers s) (friendships s).

Definition set_servers (f : list (string * Server) → list (string * Server))
    (s : MemStorage) : MemStorage :=
  mkMemStorage (users s) (f (servers s)) (channels s) (messages s)
    (directMessages s) (serverMembers s) (friendships s).

Definition set_channels (f : list (string * Channel) → list (string * Channel))
    (s : MemStorage) : MemStorage :=
  mkMemStorage (users s) (servers s) (f (channels s)) (messages s)
    (directMessages s) (serverMembers s) (friendships s).

Definition set_messages (f : list (string * Message) → list (string * Message))
    (s : MemStorage) : MemStorage :=
  mkMemStorage (users s) (servers s) (channels s) (f (messages s))
    (directMessages s) (serverMembers s) (friendships s).

Definition set_directMessages
    (f : list (string * DirectMessage) → list (string * DirectMessage))
    (s : MemStorage) : MemStorage :=
  mkMemStorage (users s) (servers s) (channels s) (messages s)
    (f (directMessages s)) (serverMembers s) (friendships s).

Definition set_serverMembers
    (f : list (string * ServerMember) → list (string * ServerMember))
    (s : MemStorage) : MemStorage :=
  mkMemStorage (users s) (servers s) (channels s) (messages s)
    (directMessages s) (f (serverMembers s)) (friendships s).

Definition set_friendships
    (f : list (string * Friendship) → list (string * Friendship))
    (s : MemStorage) : MemStorage :=
  mkMemStorage (users s) (servers s) (channels s) (messages s)
    (directMessages s) (serverMembers s) (f (friendships s)).

(** [new MemStorage()] *)
Definition init : World := mkWorld (mkMemStorage [] [] [] [] [] [] []) 0 0.

(** *** Arrays *)

(** [xs.slice(start)] *)
Definition slice {A} (start : Z) (xs : list A) : list A :=
  let len := Z.of_nat (length xs) in
  let k := if (start <? 0)%Z then Z.max (len + start) 0 else Z.min start len in
  drop (Z.to_nat k) xs.

(** [xs.sort(compareFn)]: the sort of an array is stable, and with a
    comparator that orders by a key the outcome of a stable sort does not
    depend on the algorithm. Here by insertion, an element going before
    the first one it does not exceed. *)
Fixpoint insertSorted {A} (compareFn : A → A → Z) (x : A) (xs : list A)
    : list A :=
  match xs with
  | [] => [x]
  | y :: xs' =>
      if (compareFn x y <=? 0)%Z then x :: xs
      else y :: insertSorted compareFn x xs'
  end.

Definition sort {A} (compareFn : A → A → Z) (xs : list A) : list A :=
  foldr (insertSorted compareFn) [] xs.

(** [xs.find(p)] with the key under which the element is stored: the
    element is the object of the map, not a copy. *)
Definition findEntry {V} (p : V → bool) (m : list (string * V))
    : option (string * V) :=
  List.find (λ kv, p kv.2) m.

(** *** A state monad *)

Definition St (A : Type) : Type := World → A * World.

#[global] Instance St_ret : MRet St := λ A a w, (a, w).

#[global] Instance St_bind : MBind St := λ A B f m w,
  let '(a, w') := m w in f a w'.

Definition gets {A} (f : MemStorage → A) : St A := λ w, (f (storage w), w).

Definition modify (f : MemStorage → MemStorage) : St () := λ w,
  ((), mkWorld (f (storage w)) (uuidCalls w) (dateCalls w)).

Section Environment.
Variable uuid : nat → string.
Variable clock : nat → Z.

(** [randomUUID()] *)
Definition randomUUID : St string := λ w,
  (uuid (uuidCalls w), mkWorld (storage w) (S (uuidCalls w)) (dateCalls w)).

(** [new Date()] *)
Definition newDate : St Z := λ w,
  (clock (dateCalls w), mkWorld (storage w) (uuidCalls w) (S (dateCalls w))).

(** *** [MemStorage]: users *)

Definition getUser (id : string) (s : MemStorage) : option User :=
  jm_get id (users s).

Definition getUserByUsername (name : string) (s : MemStorage)
    : option (string * User) :=
  findEntry (λ user, bool_decide (username user = name)) (users s).

Definition getUserByEmail (address : string) (s : MemStorage)
    : option (string * User) :=
  findEntry (λ user, bool_decide (email user = address)) (users s).

Definition createUser (insertUser : InsertUser) : St User :=
  id ← randomUUID;
  createdAt ← newDate;
  let user :=
    mkUser id (iu_username insertUser) (iu_email insertUser)
      (iu_password insertUser) (iu_avatar insertUser)
      (default "online" (iu_status insertUser)) createdAt in
  modify (set_users (jm_set id user)) ;;
  mret user.

Definition setStatus (status : string) (user : User) : User :=
  mkUser (user_id user) (username user) (email user) (password user)
    (avatar user) status (user_createdAt user).

Definition updateUserStatus (id : string) (status : string) : St () :=
  user ← gets (getUser id);
  match user with
  | Some user => modify (set_users (jm_set id (setStatus status user)))
  | None => mret ()
  end.

(** *** [MemStorage]: servers, members and channels *)

Definition getServer (id : string) (s : MemStorage) : option Server :=
  jm_get id (servers s).

Definition withUser (s : MemStorage) (sm : ServerMember) : MemberWithUser :=
  mkMemberWithUser sm (getUser (sm_userId sm) s).

Definition getServerChannels (serverId : string) (s : MemStorage)
    : list Channel :=
  filter (λ c, channel_serverId c = serverId) (jm_values (channels s)).

Definition getServerMembers (serverId : string) (s : MemStorage)
    : list MemberWithUser :=
  withUser s <$>
    filter (λ sm, sm_serverId sm = serverId) (jm_values (serverMembers s)).

Definition getServerWithChannels (id : string) (s : MemStorage)
    : option ServerWithChannels :=
  match jm_get id (servers s) with
  | None => None
  | Some server =>
      Some (mkServerWithChannels server
              (filter (λ c, channel_serverId c = id) (jm_values (channels s)))
              (withUser s <$>
                 filter (λ sm, sm_serverId sm = id)
                   (jm_values (serverMembers s))))
  end.

Definition getChannel (id : string) (s : MemStorage) : option Channel :=
  jm_get id (channels s).

Definition createChannel (insertChannel : InsertChannel) : St Channel :=
  id ← randomUUID;
  createdAt ← newDate;
  let channel :=
    mkChannel id (ic_name insertChannel) (ic_description insertChannel)
      (ic_type insertChannel) (ic_serverId insertChannel)
      (default 0%Z (ic_position insertChannel)) createdAt in
  modify (set_channels (jm_set id channel)) ;;
  mret channel.

Definition createServer (insertServer : InsertServer) : St Server :=
  id ← randomUUID;
  code ← randomUUID;
  createdAt ← newDate;
  let server :=
    mkServer id (is_name insertServer) (is_description insertServer)
      (is_icon insertServer) (is_ownerId insertServer)
      (String.substring 0 8 code) createdAt in
  modify (set_servers (jm_set id server)) ;;
  membershipId ← randomUUID;
  joinedAt ← newDate;
  modify (set_serverMembers
            (jm_set membershipId
               (mkServerMember membershipId (is_ownerId insertServer) id
                  "owner" joinedAt))) ;;
  createChannel (mkInsertChannel "general" None "text" id (Some 0%Z)) ;;
  createChannel (mkInsertChannel "General Voice" None "voice" id (Some 1%Z)) ;;
  mret server.

Definition getUserServers (userId : string) (s : MemStorage) : list Server :=
  omap (λ sm, getServer (sm_serverId sm) s)
    (filter (λ sm, sm_userId sm = userId) (jm_values (serverMembers s))).

Definition getServerByInviteCode (code : string) (s : MemStorage)
    : option Server :=
  snd <$> findEntry (λ server, bool_decide (inviteCode server = code))
            (servers s).

Definition joinServer (userId serverId : string) : St () :=
  membershipId ← randomUUID;
  joinedAt ← newDate;
  modify (set_serverMembers
            (jm_set membershipId
               (mkServerMember membershipId userId serverId "member"
                  joinedAt))).

(** *** [MemStorage]: messages *)

Definition getMessage (id : string) (s : MemStorage) : option Message :=
  jm_get id (messages s).

Definition createMessage (insertMessage : InsertMessage) : St Message :=
  id ← randomUUID;
  createdAt ← newDate;
  let message :=
    mkMessage id (im_content insertMessage) (im_authorId insertMessage)
      (im_channelId insertMessage) (default "text" (im_type insertMessage))
      (im_attachments insertMessage) createdAt in
  modify (set_messages (jm_set id message)) ;;
  mret message.

Definition withAuthor (s : MemStorage) (m : Message) : MessageWithAuthor :=
  mkMessageWithAuthor m (getUser (authorId m) s).

(** [limit = 50] when the argument is left out. *)
Definition getChannelMessages (channelId : string) (limit : Z)
    (s : MemStorage) : list MessageWithAuthor :=
  withAuthor s <$>
    slice (- limit)
      (sort (λ a b, message_createdAt a - message_createdAt b)%Z
         (filter (λ m, message_channelId m = channelId)
            (jm_values (messages s)))).

Definition createDirectMessage (insertMessage : InsertDirectMessage)
    : St DirectMessage :=
  id ← randomUUID;
  createdAt ← newDate;
  let message :=
    mkDirectMessage id (idm_content insertMessage)
      (idm_senderId insertMessage) (idm_recipientId insertMessage)
      (default "text" (idm_type insertMessage))
      (idm_attachments insertMessage) createdAt in
  modify (set_directMessages (jm_set id message)) ;;
  mret message.

Definition withUsers (s : MemStorage) (m : DirectMessage)
    : DirectMessageWithUsers :=
  mkDirectMessageWithUsers m (getUser (senderId m) s)
    (getUser (recipientId m) s).

Definition between (userId1 userId2 : string) (m : DirectMessage) : bool :=
  bool_decide (senderId m = userId1) && bool_decide (recipientId m = userId2)
  || bool_decide (senderId m = userId2) && bool_decide (recipientId m = userId1).

Definition getDirectMessages (userId1 userId2 : string) (limit : Z)
    (s : MemStorage) : list DirectMessageWithUsers :=
  withUsers s <$>
    slice (- limit)
      (sort (λ a b, dm_createdAt a - dm_createdAt b)%Z
         (filter (λ m, Is_true (between userId1 userId2 m))
            (jm_values (directMessages s)))).

Definition getUserDirectMessages (userId : string) (s : MemStorage)
    : list DirectMessageWithUsers :=
  withUsers s <$>
    sort (λ a b, dm_createdAt b - dm_createdAt a)%Z
      (filter (λ m, senderId m = userId ∨ recipientId m = userId)
         (jm_values (directMessages s))).

(** *** [MemStorage]: friends *)

Definition getFriends (userId : string) (s : MemStorage) : list User :=
  omap (λ friendship,
          getUser (if bool_decide (userId1 friendship = userId)
                   then userId2 friendship else userId1 friendship) s)
    (filter (λ f, (userId1 f = userId ∨ userId2 f = userId)
                  ∧ friendship_status f = "accepted")
       (jm_values (friendships s))).

Definition addFriend (userId1 userId2 : string) : St () :=
  id ← randomUUID;
  createdAt ← newDate;
  modify (set_friendships
            (jm_set id (mkFriendship id userId1 userId2 "pending" createdAt))).

Definition setFriendshipStatus (status : string) (f : Friendship)
    : Friendship :=
  mkFriendship (friendship_id f) (userId1 f) (userId2 f) status
    (friendship_createdAt f).

Definition pendingBetween (a b : string) (f : Friendship) : bool :=
  (bool_decide (userId1 f = a) && bool_decide (userId2 f = b)
   || bool_decide (userId1 f = b) && bool_decide (userId2 f = a))
  && bool_decide (friendship_status f = "pending").

(** [friendship.status = 'accepted'] writes to the object the map holds,
    under the key where [find] met it; [set] then stores it under its
    [id]. *)
Definition acceptFriend (a b : string) : St () :=
  found ← gets (λ s, findEntry (pendingBetween a b) (friendships s));
  match found with
  | Some (key, friendship) =>
      let friendship := setFriendshipStatus "accepted" friendship in
      modify (set_friendships (jm_set key friendship)) ;;
      modify (set_friendships (jm_set (friendship_id friendship) friendship))
  | None => mret ()
  end.

(** *** The routes ([registerRoutes]) *)

(** [{ id, username, email, avatar, status }] *)
Record PublicUser := mkPublicUser {
  pu_id : string;
  pu_username : string;
  pu_email : string;
  pu_avatar : option string;
  pu_status : string;
}.

Definition publicUser (user : User) : PublicUser :=
  mkPublicUser (user_id user) (username user) (email user) (avatar user)
    (user_status user).

Inductive Body :=
  | BMessage (message : string)
  | BSuccess
  | BAuth (user : PublicUser)
  | BUser (user : PublicUser)
  | BServers (servers : list Server)
  | BServer (server : Server)
  | BServerWithChannels (server : ServerWithChannels)
  | BMembers (members : list MemberWithUser)
  | BChannel (channel : Channel)
  | BMessages (messages : list MessageWithAuthor)
  | BMessagePosted (message : MessageWithAuthor)
  | BDirectMessages (messages : list DirectMessageWithUsers)
  | BDirectMessagePosted (message : DirectMessageWithUsers)
  | BFriends (friends : list User).

Record Response := mkResponse { res_status : nat; res_body : Body }.

(** [res.json(body)] and [res.status(code).json({ message })] *)
Definition json_ (body : Body) : Response := mkResponse 200 body.
Definition reject (code : nat) (message : string) : Response :=
  mkResponse code (BMessage message).

(** A query parameter: [None] when it is absent or not a string. *)
Inductive Request :=
  | PostRegister (body : option InsertUser)
  | PostLogin (body : option Login)
  | GetUser (id : string)
  | PostUserStatus (id : string) (body : option string)
  | GetServers (userId : option string)
  | PostServers (body : option InsertServer)
  | GetServer (id : string)
  | PostServersJoin (body : option (string * string))
  | GetServerMembers (id : string)
  | PostChannels (body : option InsertChannel)
  | GetChannelMessages (id : string)
  | PostMessages (body : option InsertMessage)
  | PostDirectMessages (body : option InsertDirectMessage)
  | GetDirectMessages (userId1 userId2 : option string)
  | GetFriends (userId : string)
  | PostFriends (body : option (string * string)).

(** [POST /api/auth/register], lines 10-28. *)
Definition register (body : option InsertUser) : St Response :=
  match body with
  | None => mret (reject 400 "Invalid registration data")
  | Some userData =>
      existingUser ← gets (getUserByUsername (iu_username userData));
      match existingUser with
      | Some _ => mret (reject 400 "Username already exists")
      | None =>
          existingEmail ← gets (getUserByEmail (iu_email userData));
          match existingEmail with
          | Some _ => mret (reject 400 "Email already exists")
          | None =>
              user ← createUser userData;
              mret (json_ (BAuth (publicUser user)))
          end
      end
  end.

(** [loginSchema.parse(req.body)], [shared/schema.ts]: [body] is [None]
    when [username] or [password] is missing or no string, and both are
    [z.string().min(1)]: at least one character long. *)
Definition loginSchema (body : option Login) : option Login :=
  match body with
  | Some credentials =>
      if bool_decide (1 ≤ String.length (login_username credentials))
         && bool_decide (1 ≤ String.length (login_password credentials))
      then Some credentials
      else None
  | None => None
  end.

(** [POST /api/auth/login], lines 30-46: [user] is the object of the map,
    so the response is read from it after [updateUserStatus] has run. *)
Definition login (body : option Login) : St Response :=
  match loginSchema body with
  | None => mret (reject 400 "Invalid login data")
  | Some credentials =>
      found ← gets (getUserByUsername (login_username credentials));
      match found with
      | None => mret (reject 401 "Invalid credentials")
      | Some (key, user) =>
          if bool_decide (password user = login_password credentials) then
            updateUserStatus (user_id user) "online" ;;
            user ← gets (λ s, default user (jm_get key (users s)));
            mret (json_ (BAuth (publicUser user)))
          else mret (reject 401 "Invalid credentials")
      end
  end.

(** The other routes, lines 49-198. *)
Definition handle (request : Request) : St Response :=
  match request with
  | PostRegister body => register body
  | PostLogin body => login body
  | GetUser id =>
      user ← gets (getUser id);
      match user with
      | None => mret (reject 404 "User not found")
      | Some user => mret (json_ (BUser (publicUser user)))
      end
  | PostUserStatus id body =>
      match body with
      | None => mret (reject 400 "Invalid status data")
      | Some status => updateUserStatus id status ;; mret (json_ BSuccess)
      end
  | GetServers userId =>
      match userId with
      | Some userId' =>
          if truthy userId then
            servers ← gets (getUserServers userId');
            mret (json_ (BServers servers))
          else mret (reject 400 "User ID required")
      | None => mret (reject 400 "User ID required")
      end
  | PostServers body =>
      match body with
      | None => mret (reject 400 "Invalid server data")
      | Some serverData =>
          server ← createServer serverData;
          mret (json_ (BServer server))
      end
  | GetServer id =>
      server ← gets (getServerWithChannels id);
      match server with
      | None => mret (reject 404 "Server not found")
      | Some server => mret (json_ (BServerWithChannels server))
      end
  | PostServersJoin body =>
      match body with
      | None => mret (reject 400 "Invalid join data")
      | Some (code, userId) =>
          server ← gets (getServerByInviteCode code);
          match server with
          | None => mret (reject 404 "Invalid invite code")
          | Some server =>
              joinServer userId (server_id server) ;;
              mret (json_ (BServer server))
          end
      end
  | GetServerMembers id =>
      members ← gets (getServerMembers id);
      mret (json_ (BMembers members))
  | PostChannels body =>
      match body with
      | None => mret (reject 400 "Invalid channel data")
      | Some channelData =>
          channel ← createChannel channelData;
          mret (json_ (BChannel channel))
      end
  | GetChannelMessages id =>
      messages ← gets (getChannelMessages id 50);
      mret (json_ (BMessages messages))
  | PostMessages body =>
      match body with
      | None => mret (reject 400 "Invalid message data")
      | Some messageData =>
          message ← createMessage messageData;
          messageWithAuthor ← gets (λ s, withAuthor s message);
          mret (json_ (BMessagePosted messageWithAuthor))
      end
  | PostDirectMessages body =>
      match body with
      | None => mret (reject 400 "Invalid direct message data")
      | Some messageData =>
          message ← createDirectMessage messageData;
          messageWithUsers ← gets (λ s, withUsers s message);
          mret (json_ (BDirectMessagePosted messageWithUsers))
      end
  | GetDirectMessages userId1 userId2 =>
      match userId1, userId2 with
      | Some userId1', Some userId2' =>
          if truthy userId1 && truthy userId2 then
            messages ← gets (getDirectMessages userId1' userId2' 50);
            mret (json_ (BDirectMessages messages))
          else mret (reject 400 "Both user IDs required")
      | _, _ => mret (reject 400 "Both user IDs required")
      end
  | GetFriends userId =>
      friends ← gets (getFriends userId);
      mret (json_ (BFriends friends))
  | PostFriends body =>
      match body with
      | None => mret (reject 400 "Invalid friend request data")
      | Some (userId1, userId2) =>
          addFriend userId1 userId2 ;; mret (json_ BSuccess)
      end
  end.

End Environment.

End Storage.

(** * Specification vocabulary *)

Module CoordinatorSpec.
Import Coordinator.

(** The members of a channel, in joining order. *)
Definition members (st : State) (c : string) : list string :=
  default [] (jm_get c (channelPeers st)).

(** What every handler keeps true of the tables: a socket is bound at most
    once and under itself, a channel is listed once, and no member is
    listed twice. *)
Definition wf (st : State) : Prop :=
  NoDup (jm_keys (connectedUsers st))
  ∧ Forall (λ kv, ws kv.2 = kv.1) (connectedUsers st)
  ∧ NoDup (jm_keys (channelPeers st))
  ∧ Forall (λ cs, NoDup cs.2) (channelPeers st).

(** The states the coordinator can be in: any events, with any socket
    states at each of them. *)
Inductive reachable : State → Prop :=
  | reachable_init : reachable init
  | reachable_handle rs st e :
      reachable st → reachable (handle rs st e).1.

(** The envelopes the coordinator writes and the ones the hook sends. *)
Definition peerJoined (u c : string) : WebRTCSignal :=
  mkSignal peer_joined (Some u) None (Some c) None None.
Definition peerLeft (u c : string) : WebRTCSignal :=
  mkSignal peer_left (Some u) None (Some c) None None.
Definition joinChannelOf (u c : string) : WebRTCSignal :=
  mkSignal join_channel None None (Some c) (Some u) None.
Definition leaveChannelOf (u c : string) : WebRTCSignal :=
  mkSignal leave_channel None None (Some c) (Some u) None.

(** Socket [w] is bound to identity [p]: the table holds, under [w], the
    binding [{ ws: w, userId: p }]. *)
Definition boundTo (st : State) (w : WebSocket) (p : string) : Prop :=
  (w, mkConn w p) ∈ connectedUsers st.

(** [w] is the oldest binding of [p]: of the sockets bound to [p], the one
    that the table lists first, that is, the one bound earliest among
    those still in the table. *)
Definition oldestBinding (st : State) (p : string) (w : WebSocket) : Prop :=
  ∃ i, connectedUsers st !! i = Some (w, mkConn w p)
    ∧ ∀ j w' conn, j < i → connectedUsers st !! j = Some (w', conn) →
                   conn_userId conn ≠ p.

(** The sockets a presence broadcast to the members of [c] picked by
    [keep] goes to: for each such member its oldest binding, if that
    socket is open. *)
Definition reached (rs : WebSocket → ReadyState) (st : State)
    (c : string) (keep : string → Prop) (w : WebSocket) : Prop :=
  ∃ p, p ∈ members st c ∧ keep p ∧ oldestBinding st p w ∧ rs w = OPEN.

(** No identity is bound on two sockets. *)
Definition oneBindingPerIdentity (st : State) : Prop :=
  ∀ w1 w2 c1 c2,
    jm_get w1 (connectedUsers st) = Some c1 →
    jm_get w2 (connectedUsers st) = Some c2 →
    conn_userId c1 = conn_userId c2 → w1 = w2.

(** Every socket is open. *)
Definition allOpen : WebSocket → ReadyState := λ _, OPEN.

(** Sockets 1 and 2 both register as alice in [general]. *)
Definition aliceTwice : State :=
  (onMessage allOpen
     (onMessage allOpen init 1 (joinChannelOf "alice" "general")).1
     2 (joinChannelOf "alice" "general")).1.

(** Alice on socket 1 and bob on socket 2, both in [general]. *)
Definition aliceAndBob : State :=
  (onMessage allOpen
     (onMessage allOpen init 1 (joinChannelOf "alice" "general")).1
     2 (joinChannelOf "bob" "general")).1.

(** An offer for alice, sent by bob. *)
Definition offerToAlice : WebRTCSignal :=
  mkSignal offer (Some "bob") (Some "alice") None None (Some (JStr "sdp")).

(** An offer for bob that names mallory as its sender. *)
Definition forgedOffer : WebRTCSignal :=
  mkSignal offer (Some "mallory") (Some "bob") None None (Some (JStr "sdp")).

(** Socket 1 is closing and every other socket is open. *)
Definition firstClosing : WebSocket → ReadyState :=
  λ w, if decide (w = 1) then CLOSING else OPEN.

(** Alice on sockets 1 and 2 and bob on socket 3, all in [general]. *)
Definition aliceTwiceAndBob : State :=
  (onMessage allOpen aliceTwice 3 (joinChannelOf "bob" "general")).1.

(** A frame for bob of a type the coordinator does not know, with a
    property of its own. *)
Definition strangeFrame : json :=
  JObj [("type", JStr "chat"); ("to", JStr "bob");
        ("seq", JNum 9007199254740992); ("data", JArr [JNull; JReal 1 (-1)])].

(** A join-channel envelope that also carries [to]. *)
Definition joinWithTo : WebRTCSignal :=
  mkSignal join_channel (Some "alice") (Some "bob") (Some "general")
    (Some "alice") None.

(** No binding and no channel carries an empty name: what the
    truthiness tests of the handlers let through. *)
Definition named (st : State) : Prop :=
  Forall (λ kv, conn_userId kv.2 ≠ "") (connectedUsers st)
  ∧ Forall (λ cs, cs.1 ≠ "" ∧ Forall (λ p, p ≠ "") cs.2) (channelPeers st).

(** Runs of the coordinator: the events handled, each with the socket
    states at that time. *)
Fixpoint run (st : State) (es : list ((WebSocket → ReadyState) * Event))
    : State :=
  match es with
  | [] => st
  | (rs, e) :: es' => run (handle rs st e).1 es'
  end.

End CoordinatorSpec.

Module ClientSpec.
Import Client.

(** The channels of [dataChannels] whose [readyState] is [open], in map
    order. *)
Definition isOpenChannel (b : Browser) (channel : nat) : bool :=
  match dcs b !! channel with
  | Some d => bool_decide (dc_readyState d = dc_open)
  | None => false
  end.

Definition openChannels (w : World) : list nat :=
  List.filter (isOpenChannel (browser w)) (jm_values (dataChannels (mgr w))).

(** The sender that carries the outgoing video: the first sender, in the
    order of [getSenders()], whose track is a video track. *)
Definition carriesVideo (s : option MediaStreamTrack) : Prop :=
  ∃ t, s = Some t ∧ kind t = video.

Definition firstVideoSender (senders : list (option MediaStreamTrack))
    (i : nat) : Prop :=
  (∃ s, senders !! i = Some s ∧ carriesVideo s)
  ∧ ∀ j s, j < i → senders !! j = Some s → ¬ carriesVideo s.

(** The store after [close()] on each of [refs], and after [stop()] on
    each of [tracks]. *)
Definition closeOne (b : Browser) (pc : nat) : Browser :=
  set_dcs (fmap (λ d, if decide (dc_pc d = pc)
                      then mkDC dc_closed (dc_pc d) else d))
    (set_pcs (alter pc_set_closed pc) b).

Definition closeAll (refs : list nat) (b : Browser) : Browser :=
  foldl closeOne b refs.

Definition stopAll (tracks : list MediaStreamTrack) (b : Browser) : Browser :=
  foldl (λ b t, set_stoppedTracks (js_add t) b) b tracks.

(** A computation keeps a relation between the world before it and the
    world after it, however it completes. *)
Definition keeps (R : World → World → Prop) {A} (c : Js A) : Prop :=
  ∀ w, R w (c w).2.

(** Everything but connection [pc] is as before: the registry, and every
    other connection of the store. *)
Definition frame (pc : nat) (w w' : World) : Prop :=
  peers (mgr w') = peers (mgr w)
  ∧ length (pcs (browser w')) = length (pcs (browser w))
  ∧ ∀ ref, ref ≠ pc → pcs (browser w') !! ref = pcs (browser w) !! ref.

(** The states a session can be in. *)
Inductive reachableSession (u : string) : World → Prop :=
  | reachable_new : reachableSession u (newWebRTCManager u)
  | reachable_perform w a :
      reachableSession u w → reachableSession u (perform a w).2.

(** The registry has one entry per identity, the entries name distinct
    connections, and each of these exists and is open. *)
Definition registryOk (w : World) : Prop :=
  NoDup (jm_keys (peers (mgr w)))
  ∧ NoDup (jm_values (peers (mgr w)))
  ∧ Forall (λ kr, ∃ p, pcs (browser w) !! kr.2 = Some p ∧ pc_closed p = false)
      (peers (mgr w)).

(** If [I] held before, it holds after. *)
Definition preserves (I : World → Prop) (w w' : World) : Prop := I w → I w'.

(** The world after is the world before plus effects that all satisfy
    [P]. *)
Definition appends (P : Effect → Prop) (w w' : World) : Prop :=
  ∃ es, effects w' = effects w ++ es ∧ Forall P es.

(** Anything but the sending of an offer. *)
Definition notAnOffer (e : Effect) : Prop :=
  match e with
  | SocketSend signal => type signal ≠ offer
  | _ => True
  end.

(** Alice's session after a [peer-joined] about bob. *)
Definition bobJoined : WebRTCSignal :=
  mkSignal peer_joined (Some "bob") None (Some "general") None None.

Definition bobLinked : World :=
  (perform (SocketMessage (Some bobJoined)) (newWebRTCManager "alice")).2.

(** An offer from bob as the coordinator relays it. *)
Definition offerFromBob : WebRTCSignal :=
  mkSignal offer (Some "bob") (Some "alice") None None
    (Some (description_to_json (mkDescription sdp_offer "bob" 0))).

(** Camera and microphone tracks, and a screen capture. *)
Definition micTrack : MediaStreamTrack := mkTrack 0 audio.
Definition cameraTrack : MediaStreamTrack := mkTrack 1 video.
Definition screenTrack : MediaStreamTrack := mkTrack 2 video.
Definition screenAudio : MediaStreamTrack := mkTrack 3 audio.

(** Alice in a video call, then linked to bob (who gets her camera and
    microphone) and, by an offer, to carol. *)
Definition offerFromCarol : WebRTCSignal :=
  mkSignal offer (Some "carol") (Some "alice") None None
    (Some (description_to_json (mkDescription sdp_offer "carol" 0))).

Definition inVideoCall : World :=
  (perform (SocketMessage (Some offerFromCarol))
     (perform (SocketMessage (Some bobJoined))
        (perform (StartVideoCall (Granted [micTrack; cameraTrack]))
           (newWebRTCManager "alice")).2).2).2.

(** The hook of alice with that session, in channel [general]. *)
Definition aliceHook : Hook :=
  mkHook true "alice" (Some inVideoCall) [Some "bob"] (Some "general").

(** The data channel map has one entry per identity. *)
Definition channelsOk (w : World) : Prop :=
  NoDup (jm_keys (dataChannels (mgr w))).

(** Connection [ref] exists and is open, but the registry does not name
    it. *)
Definition orphaned (ref : nat) (w : World) : Prop :=
  (ref ∉ jm_values (peers (mgr w)))
  ∧ ∃ p, pcs (browser w) !! ref = Some p ∧ pc_closed p = false.

(** Alice is told twice that bob joined: connection 0 is replaced by
    connection 1. *)
Definition bobTwice : World :=
  (perform (SocketMessage (Some bobJoined)) bobLinked).2.

Definition bobLeft : WebRTCSignal :=
  mkSignal peer_left (Some "bob") None (Some "general") None None.

(** A session after a list of actions. *)
Definition performAll (actions : list Action) (w : World) : World :=
  foldl (λ w a, (perform a w).2) w actions.

(** Bob's answer to the offer of alice, and her session in the video
    call once bob has answered and the browser has opened the channel to
    bob; her hook with that session. *)
Definition answerFromBob : WebRTCSignal :=
  mkSignal answer (Some "bob") (Some "alice") None None
    (Some (description_to_json (mkDescription sdp_answer "bob" 0))).

Definition talkingToBob : World :=
  performAll [SocketMessage (Some answerFromBob); DataChannelOpen 0]
    inVideoCall.

Definition aliceTalking : Hook :=
  mkHook true "alice" (Some talkingToBob) [Some "bob"] (Some "general").

(** The hook of alice when she was told twice that bob joined, and when
    she started a voice call twice. *)
Definition aliceToldTwice : Hook :=
  mkHook true "alice" (Some bobTwice) [] (Some "general").

Definition aliceCalledTwice : Hook :=
  mkHook true "alice"
    (Some (performAll [StartVoiceCall (Granted [micTrack]);
                       StartVoiceCall (Granted [screenAudio])]
             (newWebRTCManager "alice")))
    [] (Some "general").

(** The connections of the session of a hook, open ([false]) or closed,
    and the tracks it has stopped. *)
Definition closedConnections (h : Hook) : list bool :=
  match webrtcManagerRef h with
  | Some w => pc_closed <$> pcs (browser w)
  | None => []
  end.

Definition stoppedByHook (h : Hook) : list MediaStreamTrack :=
  match webrtcManagerRef h with
  | Some w => stoppedTracks (browser w)
  | None => []
  end.

(** The socket writes among a list of effects. *)
Definition socketSends (es : list Effect) : list WebRTCSignal :=
  omap (λ e, match e with SocketSend s => Some s | _ => None end) es.

End ClientSpec.

Module MeshSpec.
Import Coordinator.

(** *** Renaming

    The same run with other identities and another channel: [fu] stands
    for the new name of every identity, [fc] for that of every channel.
    Sockets, connections and channels keep their numbers. *)
Section Renaming.
Variables fu fc : string → string.

Definition renDescription (d : Client.Description) : Client.Description :=
  Client.mkDescription (Client.sdpType d) (fu (Client.creator d))
    (Client.creatorPc d).

Definition renCandidate (c : Client.Candidate) : Client.Candidate :=
  Client.mkCandidate (fu (Client.cand_user c)) (Client.cand_pc c).

(** The payload of an envelope names an identity when it is a
    description or a candidate. *)
Definition renData (j : option json) : option json :=
  match Client.json_to_description j with
  | Some d => Some (Client.description_to_json (renDescription d))
  | None =>
      match Client.json_to_candidate j with
      | Some c => Some (Client.candidate_to_json (renCandidate c))
      | None => j
      end
  end.

Definition renSignal (m : WebRTCSignal) : WebRTCSignal :=
  mkSignal (type m) (fu <$> from m) (fu <$> to m) (fc <$> channelId m)
    (fu <$> userId m) (renData (data m)).

Import Client Mesh.

Definition renPeer (peerId : PeerId) : PeerId := fu <$> peerId.

Definition renConn (c : Conn) : Conn := mkConn (ws c) (fu (conn_userId c)).

Definition renState (st : State) : State :=
  mkState (prod_map id renConn <$> connectedUsers st)
    (prod_map fc (fmap (M:=list) fu) <$> channelPeers st).

Definition renSent (out : Sent) : Sent := prod_map id renSignal <$> out.

Definition renPC (p : RTCPeerConnection) : RTCPeerConnection :=
  mkPC (renPeer (pc_peerId p)) (pc_closed p) (pc_senders p)
    (renDescription <$> pc_localDescription p)
    (renDescription <$> pc_remoteDescription p)
    (renCandidate <$> pc_remoteCandidates p).

Definition renBrowser (b : Browser) : Browser :=
  mkBrowser (renPC <$> pcs b) (dcs b) (stoppedTracks b) (pendingIce b).

Definition renMgr (m : WebRTCManager) : WebRTCManager :=
  mkManager (fu (Client.userId m)) (prod_map renPeer id <$> peers m)
    (prod_map renPeer id <$> dataChannels m) (localStream m)
    (isVoiceEnabled m) (isVideoEnabled m).

Definition renEffect (e : Effect) : Effect :=
  match e with
  | SocketSend signal => SocketSend (renSignal signal)
  | ChannelSend channel content => ChannelSend channel content
  | PeerConnected peerId => PeerConnected (renPeer peerId)
  | PeerDisconnected peerId => PeerDisconnected (renPeer peerId)
  | ConsoleError error => ConsoleError error
  end.

Definition renWorld (w : World) : World :=
  mkWorld (renMgr (mgr w)) (renBrowser (browser w)) (renEffect <$> effects w).

Definition renHook (h : Hook) : Hook :=
  mkHook (socket h) (fu (hook_userId h)) (renWorld <$> webrtcManagerRef h)
    (renPeer <$> connectedPeers h) (fc <$> currentChannel h).

Definition renFrame (f : Frame) : Frame :=
  match f with
  | ToServer w signal => ToServer w (renSignal signal)
  | ToClient w signal => ToClient w (renSignal signal)
  end.

Definition renSystem (s : System) : System :=
  mkSystem (renState (coordinator s)) (renHook <$> clients s)
    (renFrame <$> wire s).

(** A computation is the same under the renaming: on the renamed world
    [c'] completes as [c] does on the world, with the renamed result and
    the renamed world. *)
Definition renCompletion {A} (ra : A → A) (r : Completion A) : Completion A :=
  match r with
  | Normal a => Normal (ra a)
  | Throw e => Throw e
  end.

Definition eqv {A} (ra : A → A) (c c' : Js A) : Prop :=
  ∀ w, c' (renWorld w) = (renCompletion ra (c w).1, renWorld (c w).2).
End Renaming.

(** *** Links *)

Import Client Mesh.

(** The hook [h] holds connection [ref] as its link to [peer]: the
    registry names it for [peer], the channel registered for [peer] runs
    on it and is open, and [peer] is listed as connected. *)
Definition HoldsLink (h : Hook) (peer : string) (ref : nat) : Prop :=
  ∃ w ch d,
    webrtcManagerRef h = Some w
    ∧ jm_get (Some peer) (peers (mgr w)) = Some ref
    ∧ jm_get (Some peer) (dataChannels (mgr w)) = Some ch
    ∧ dcs (browser w) !! ch = Some d
    ∧ dc_pc d = ref ∧ dc_readyState d = dc_open
    ∧ Some peer ∈ connectedPeers h.

(** Clients [i] and [j] have exactly one link, and it is connected. Each
    of them created exactly one connection for the other, [ref] and
    [ref']; both are open; each has applied the description that the
    other created and holds the candidate that the other gathered; and
    each client holds its end, message channel included. *)
Definition Linked (s : System) (i j : nat) : Prop :=
  ∃ hi hj ref ref' p q,
    clients s !! i = Some hi ∧ clients s !! j = Some hj
    ∧ linksTo s i (hook_userId hj) = [ref]
    ∧ linksTo s j (hook_userId hi) = [ref']
    ∧ connectionOf s i ref = Some p ∧ connectionOf s j ref' = Some q
    ∧ pc_closed p = false ∧ pc_closed q = false
    ∧ is_Some (pc_localDescription p) ∧ is_Some (pc_localDescription q)
    ∧ pc_remoteDescription q = pc_localDescription p
    ∧ pc_remoteDescription p = pc_localDescription q
    ∧ mkCandidate (hook_userId hj) ref' ∈ pc_remoteCandidates p
    ∧ mkCandidate (hook_userId hi) ref ∈ pc_remoteCandidates q
    ∧ HoldsLink hi (hook_userId hj) ref
    ∧ HoldsLink hj (hook_userId hi) ref'.

(** Exchanges [a] and [b]. *)
Definition swap (a b s : string) : string :=
  if decide (s = a) then b else if decide (s = b) then a else s.

(** A renaming that takes each of [xs] to the string of [ys] at the same
    position. *)
Fixpoint renaming (xs ys : list string) : string → string :=
  match xs, ys with
  | x :: xs', y :: ys' => λ s, swap (renaming xs' ys' x) y (renaming xs' ys' s)
  | _, _ => id
  end.

End MeshSpec.

Module StorageSpec.
Import Storage.

Section Environment.
Variable uuid : nat → string.
Variable clock : nat → Z.

(** The store after a list of requests, and the response to one. *)
Definition run (requests : list Request) (w : World) : World :=
  foldl (λ w request, (handle uuid clock request w).2) w requests.

Definition respond (request : Request) (w : World) : Response :=
  (handle uuid clock request w).1.

(** The clock does not go back. *)
Definition monotone : Prop := ∀ i j, i ≤ j → (clock i ≤ clock j)%Z.

(** Every key of the map is one of the first [n] identifiers drawn. *)
Definition drawnKeys {V} (n : nat) (m : list (string * V)) : Prop :=
  ∀ k, k ∈ jm_keys m → ∃ i, i < n ∧ k = uuid i.

Definition drawn (w : World) : Prop :=
  drawnKeys (uuidCalls w) (users (storage w))
  ∧ drawnKeys (uuidCalls w) (servers (storage w))
  ∧ drawnKeys (uuidCalls w) (channels (storage w))
  ∧ drawnKeys (uuidCalls w) (messages (storage w))
  ∧ drawnKeys (uuidCalls w) (directMessages (storage w))
  ∧ drawnKeys (uuidCalls w) (serverMembers (storage w))
  ∧ drawnKeys (uuidCalls w) (friendships (storage w)).

(** Every direct message was stamped by one of the first [n] readings of
    the clock. *)
Definition stamped (w : World) : Prop :=
  ∀ m, m ∈ jm_values (directMessages (storage w)) →
       ∃ i, i < dateCalls w ∧ dm_createdAt m = clock i.

(** A map holds one row per key, each under its own id. *)
Definition keyed {V} (id : V → string) (m : list (string * V)) : Prop :=
  NoDup (jm_keys m) ∧ ∀ k v, (k, v) ∈ m → id v = k.

Definition uniqueNames (s : MemStorage) : Prop :=
  NoDup (username <$> jm_values (users s))
  ∧ NoDup (email <$> jm_values (users s)).

Definition pendingOnly (s : MemStorage) : Prop :=
  ∀ f, f ∈ jm_values (friendships s) → friendship_status f = "pending".

(** What a request can do to the store: nothing, or one call of a method
    of [MemStorage] that writes. *)
Inductive writes (w : World) : World → Prop :=
  | writes_nothing : writes w w
  | writes_createUser insertUser :
      getUserByUsername (iu_username insertUser) (storage w) = None →
      getUserByEmail (iu_email insertUser) (storage w) = None →
      writes w (createUser uuid clock insertUser w).2
  | writes_updateUserStatus id status :
      writes w (updateUserStatus id status w).2
  | writes_createServer insertServer :
      writes w (createServer uuid clock insertServer w).2
  | writes_joinServer userId code server :
      getServerByInviteCode code (storage w) = Some server →
      writes w (joinServer uuid clock userId (server_id server) w).2
  | writes_createChannel insertChannel :
      writes w (createChannel uuid clock insertChannel w).2
  | writes_createMessage insertMessage :
      writes w (createMessage uuid clock insertMessage w).2
  | writes_createDirectMessage insertMessage :
      writes w (createDirectMessage uuid clock insertMessage w).2
  | writes_addFriend userId1 userId2 :
      writes w (addFriend uuid clock userId1 userId2 w).2.

(** What holds of the store after any list of requests. *)
Definition inv (w : World) : Prop :=
  drawn w
  ∧ stamped w
  ∧ keyed user_id (users (storage w))
  ∧ keyed server_id (servers (storage w))
  ∧ uniqueNames (storage w)
  ∧ pendingOnly (storage w).

End Environment.

(** Chronological order of messages. *)
Definition notAfter (a b : Message) : Prop :=
  (message_createdAt a ≤ message_createdAt b)%Z.

(** Two registrations, a server of alice that bob joins twice, and a
    few messages. *)
Definition alice : InsertUser :=
  mkInsertUser "alice" "alice@example.org" "wonderland" None None.
Definition bob : InsertUser :=
  mkInsertUser "bob" "bob@example.org" "builder" None (Some "away").

Definition tick (n : nat) : Z := Z.of_nat n.

Definition registered : World :=
  run pretty tick [PostRegister (Some alice); PostRegister (Some bob)] init.

Definition withServer : World :=
  run pretty tick [PostServers (Some (mkInsertServer "home" None None "0"))]
    registered.

Definition chatting : World :=
  run pretty tick
    [PostDirectMessages (Some (mkInsertDirectMessage "hi" "0" "1" None None));
     PostDirectMessages (Some (mkInsertDirectMessage "hello" "1" "0" None None));
     PostMessages (Some (mkInsertMessage "first" "0" "5" None None));
     PostMessages (Some (mkInsertMessage "second" "1" "5" None None));
     PostMessages (Some (mkInsertMessage "third" "0" "5" None None));
     PostFriends (Some ("0", "1"))]
    withServer.

End StorageSpec.

(** * Properties *)

(** ** JavaScript containers *)

Section JsMapFacts.
Context {K V : Type} `{EqDecision K}.
Implicit Types (m : list (K * V)) (k : K) (v : V).

Lemma jm_get_set_eq k v m : jm_get k (jm_set k v m) = Some v.
Proof.
  induction m as [|[k' v'] m IH]; simpl.
  - by rewrite decide_True.
  - destruct (decide (k = k')) as [->|Hne]; simpl.
    + by rewrite decide_True.
    + by rewrite decide_False.
Qed.

Lemma jm_get_set_ne k k' v m : k ≠ k' → jm_get k' (jm_set k v m) = jm_get k' m.
Proof.
  intros Hne. induction m as [|[k0 v0] m IH]; simpl.
  - by rewrite decide_False.
  - destruct (decide (k = k0)) as [->|Hne0]; simpl.
    + by rewrite !decide_False.
    + by rewrite IH.
Qed.

Lemma jm_get_Some_elem k v m : jm_get k m = Some v → (k, v) ∈ m.
Proof.
  induction m as [|[k' v'] m IH]; simpl; [done|].
  destruct (decide (k = k')) as [->|Hne].
  - intros [= ->]. left.
  - intros Hg. right. by apply IH.
Qed.

Lemma jm_get_None_keys k m : jm_get k m = None ↔ k ∉ jm_keys m.
Proof.
  unfold jm_keys. induction m as [|[k' v'] m IH]; simpl.
  - split; [intros _; apply not_elem_of_nil | done].
  - rewrite not_elem_of_cons. destruct (decide (k = k')) as [->|Hne].
    + split; [done | by intros [? _]].
    + rewrite IH. naive_solver.
Qed.

Lemma jm_elem_get k v m : NoDup (jm_keys m) → (k, v) ∈ m → jm_get k m = Some v.
Proof.
  unfold jm_keys. induction m as [|[k' v'] m IH]; simpl.
  - intros _ Hin. by apply elem_of_nil in Hin.
  - rewrite NoDup_cons. intros [Hk Hnd] Hin.
    apply elem_of_cons in Hin as [[= -> ->]|Hin].
    + by rewrite decide_True.
    + destruct (decide (k = k')) as [->|Hne]; [|by apply IH].
      exfalso. apply Hk. apply list_elem_of_fmap. by exists (k', v).
Qed.

Lemma jm_keys_set k v m :
  jm_keys (jm_set k v m)
  = if jm_has k m then jm_keys m else jm_keys m ++ [k].
Proof.
  unfold jm_keys, jm_has. induction m as [|[k' v'] m IH]; csimpl; [done|].
  destruct (decide (k = k')) as [->|Hne]; csimpl; [done|].
  rewrite IH. by destruct (jm_get k m).
Qed.

Lemma jm_set_NoDup k v m : NoDup (jm_keys m) → NoDup (jm_keys (jm_set k v m)).
Proof.
  intros Hnd. rewrite jm_keys_set. unfold jm_has.
  destruct (jm_get k m) eqn:Hg; [done|].
  apply NoDup_app. split_and!; [done| |apply NoDup_singleton].
  intros x Hx Hx'. apply list_elem_of_singleton in Hx' as ->.
  by apply jm_get_None_keys in Hg.
Qed.

Lemma jm_set_elem k v k' v' m :
  (k', v') ∈ jm_set k v m → (k' = k ∧ v' = v) ∨ (k', v') ∈ m.
Proof.
  induction m as [|[k0 v0] m IH]; simpl.
  - intros Hin. apply list_elem_of_singleton in Hin as [= -> ->]. by left.
  - destruct (decide (k = k0)) as [->|Hne]; rewrite !elem_of_cons.
    + intros [[= -> ->]|Hin]; [by left|]. right. by right.
    + intros [[= -> ->]|Hin]; [right; by left|].
      destruct (IH Hin) as [?|?]; [by left|]. right. by right.
Qed.

Lemma jm_set_fresh k v m : jm_get k m = None → jm_set k v m = m ++ [(k, v)].
Proof.
  induction m as [|[k' v'] m IH]; simpl; [done|].
  destruct (decide (k = k')) as [->|Hne]; [done|].
  intros Hg. by rewrite IH.
Qed.

Lemma jm_set_same k v m : jm_get k m = Some v → jm_set k v m = m.
Proof.
  induction m as [|[k' v'] m IH]; simpl; [done|].
  destruct (decide (k = k')) as [->|Hne].
  - by intros [= ->].
  - intros Hg. by rewrite IH.
Qed.

Lemma jm_delete_elem k k' v' m : (k', v') ∈ jm_delete k m → (k', v') ∈ m.
Proof.
  induction m as [|[k0 v0] m IH]; simpl; [done|].
  destruct (decide (k = k0)) as [->|Hne]; rewrite !elem_of_cons; [by right|].
  intros [?|Hin]; [by left|]. right. by apply IH.
Qed.

Lemma jm_delete_keys_sub k m x : x ∈ jm_keys (jm_delete k m) → x ∈ jm_keys m.
Proof.
  unfold jm_keys. rewrite !list_elem_of_fmap.
  intros ([k' v'] & -> & Hin). exists (k', v'). split; [done|].
  by eapply jm_delete_elem.
Qed.

Lemma jm_delete_NoDup k m : NoDup (jm_keys m) → NoDup (jm_keys (jm_delete k m)).
Proof.
  induction m as [|[k' v'] m IH]; csimpl; [done|].
  rewrite NoDup_cons. intros [Hk Hnd].
  destruct (decide (k = k')) as [->|Hne]; csimpl; [done|].
  apply NoDup_cons. split; [|by apply IH].
  intros Hin. apply Hk. by eapply jm_delete_keys_sub.
Qed.

Lemma jm_delete_absent k m : jm_get k m = None → jm_delete k m = m.
Proof.
  induction m as [|[k' v'] m IH]; simpl; [done|].
  destruct (decide (k = k')); [done|]. intros Hg. by rewrite IH.
Qed.

Lemma jm_set_Forall (P : K * V → Prop) k v m :
  Forall P m → P (k, v) → Forall P (jm_set k v m).
Proof.
  rewrite !Forall_forall. intros Hm Hv [k' x] Hin.
  apply jm_set_elem in Hin as [[-> ->]|Hin]; [done|by apply Hm].
Qed.

Lemma jm_set_values_NoDup k v m :
  NoDup (jm_values m) → v ∉ jm_values m → NoDup (jm_values (jm_set k v m)).
Proof.
  unfold jm_values. induction m as [|[k' v'] m IH]; csimpl.
  - intros _ _. apply NoDup_singleton.
  - rewrite NoDup_cons, not_elem_of_cons. intros [Hv' Hnd] [Hne Hv].
    destruct (decide (k = k')) as [->|Hk]; csimpl; apply NoDup_cons.
    + done.
    + split; [|by apply IH]. rewrite list_elem_of_fmap.
      intros ([k0 v0] & -> & Hin). simpl in *.
      apply jm_set_elem in Hin as [[_ ->]|Hin]; [done|].
      apply Hv'. apply list_elem_of_fmap. by exists (k0, v0).
Qed.

Lemma jm_delete_values_NoDup k m :
  NoDup (jm_values m) → NoDup (jm_values (jm_delete k m)).
Proof.
  unfold jm_values. induction m as [|[k' v'] m IH]; csimpl; [done|].
  rewrite NoDup_cons. intros [Hv Hnd].
  destruct (decide (k = k')) as [->|Hne]; csimpl; [done|].
  apply NoDup_cons. split; [|by apply IH].
  rewrite list_elem_of_fmap. intros ([k0 v0] & -> & Hin). simpl in *.
  apply Hv. apply list_elem_of_fmap. exists (k0, v0). split; [done|].
  by eapply jm_delete_elem.
Qed.

Lemma jm_delete_other_value k v k' v' m :
  NoDup (jm_values m) → jm_get k m = Some v → (k', v') ∈ jm_delete k m →
  v' ≠ v.
Proof.
  unfold jm_values. induction m as [|[k0 v0] m IH]; csimpl; [done|].
  rewrite NoDup_cons. intros [Hv Hnd].
  destruct (decide (k = k0)) as [->|Hne].
  - intros [= ->] Hin ->. apply Hv. apply list_elem_of_fmap.
    by exists (k', v).
  - intros Hg Hin. apply elem_of_cons in Hin as [[= -> ->]|Hin].
    + intros ->. apply Hv. apply list_elem_of_fmap. exists (k, v).
      split; [done|]. by apply jm_get_Some_elem.
    + by apply IH.
Qed.

End JsMapFacts.

Section JsSetFacts.
Context {A : Type} `{EqDecision A}.
Implicit Types (s : list A) (x y : A).

Lemma js_add_elem x y s : x ∈ js_add y s ↔ x = y ∨ x ∈ s.
Proof.
  induction s as [|z s IH]; simpl.
  - rewrite list_elem_of_singleton. split; [by left|].
    intros [?|Hin]; [done|]. by apply elem_of_nil in Hin.
  - destruct (decide (y = z)) as [->|Hne].
    + rewrite elem_of_cons. naive_solver.
    + rewrite !elem_of_cons, IH. naive_solver.
Qed.

Lemma js_add_present x s : x ∈ s → js_add x s = s.
Proof.
  induction s as [|z s IH]; simpl.
  - intros Hin. by apply elem_of_nil in Hin.
  - destruct (decide (x = z)) as [->|Hne]; [done|].
    rewrite elem_of_cons. intros [?|Hin]; [done|]. by rewrite IH.
Qed.

Lemma js_add_NoDup x s : NoDup s → NoDup (js_add x s).
Proof.
  induction s as [|z s IH]; simpl.
  - intros _. apply NoDup_singleton.
  - rewrite NoDup_cons. intros [Hz Hnd].
    destruct (decide (x = z)) as [->|Hne]; apply NoDup_cons; [done|].
    split; [|by apply IH]. rewrite js_add_elem. naive_solver.
Qed.

Lemma js_add_idem x s : js_add x (js_add x s) = js_add x s.
Proof. apply js_add_present, js_add_elem. by left. Qed.

Lemma js_delete_absent x s : x ∉ s → js_delete x s = s.
Proof.
  induction s as [|z s IH]; simpl; [done|].
  rewrite not_elem_of_cons. intros [Hne Hin].
  rewrite decide_False by done. by rewrite IH.
Qed.

Lemma js_delete_elem x y s : x ∈ js_delete y s → x ∈ s.
Proof.
  induction s as [|z s IH]; simpl; [done|].
  destruct (decide (y = z)) as [->|Hne]; rewrite !elem_of_cons; [by right|].
  intros [?|Hin]; [by left|]. right. by apply IH.
Qed.

Lemma js_delete_NoDup x s : NoDup s → NoDup (js_delete x s).
Proof.
  induction s as [|z s IH]; simpl; [done|].
  rewrite NoDup_cons. intros [Hz Hnd].
  destruct (decide (x = z)) as [->|Hne]; [done|].
  apply NoDup_cons. split; [|by apply IH].
  intros Hin. apply Hz. by eapply js_delete_elem.
Qed.

Lemma js_delete_gone x s : NoDup s → x ∉ js_delete x s.
Proof.
  induction s as [|z s IH]; simpl; [intros _; apply not_elem_of_nil|].
  rewrite NoDup_cons. intros [Hz Hnd].
  destruct (decide (x = z)) as [->|Hne]; [done|].
  rewrite not_elem_of_cons. split; [done|by apply IH].
Qed.

End JsSetFacts.

Lemma elem_of_flat_map {A B} (f : A → list B) (l : list A) (y : B) :
  y ∈ flat_map f l ↔ ∃ x, x ∈ l ∧ y ∈ f x.
Proof.
  induction l as [|a l IH]; simpl.
  - split; [intros Hin; by apply elem_of_nil in Hin|].
    intros (x & Hin & _). by apply elem_of_nil in Hin.
  - rewrite elem_of_app, IH. split.
    + intros [Hy|(x & Hx & Hy)]; [exists a|exists x]; split; try done;
        [left|by right].
    + intros (x & Hx & Hy). apply elem_of_cons in Hx as [->|Hx]; [by left|].
      right. by exists x.
Qed.

Lemma truthy_Some (s : string) : truthy (Some s) = true ↔ s ≠ "".
Proof.
  simpl. rewrite negb_true_iff. split.
  - intros Hs ->. by rewrite String.eqb_refl in Hs.
  - intros Hne. by apply String.eqb_neq.
Qed.

(** ** The coordinator *)

Section CoordinatorFacts.
Import Coordinator CoordinatorSpec.
Implicit Types (st : State) (rs : WebSocket → ReadyState) (w : WebSocket).

Lemma state_eta st : mkState (connectedUsers st) (channelPeers st) = st.
Proof. by destruct st. Qed.

Lemma sendIfOpen_elem rs oc msg w e :
  (w, e) ∈ sendIfOpen rs oc msg
  ↔ e = msg ∧ ∃ conn, oc = Some conn ∧ ws conn = w ∧ rs w = OPEN.
Proof.
  unfold sendIfOpen. destruct oc as [conn|].
  - destruct (decide (rs (ws conn) = OPEN)) as [Ho|Hc].
    + rewrite list_elem_of_singleton. split.
      * intros [= -> ->]. split; [done|]. by exists conn.
      * intros (-> & conn' & [= <-] & <- & _). done.
    + split; [intros Hin; by apply elem_of_nil in Hin|].
      intros (_ & conn' & [= <-] & <- & Ho). done.
  - split; [intros Hin; by apply elem_of_nil in Hin|].
    by intros (_ & conn' & ? & _).
Qed.

(** A binding found by identity sits in the table under its own socket. *)
Lemma findConn_lookup cu p conn :
  NoDup (jm_keys cu) → Forall (λ kv, ws kv.2 = kv.1) cu →
  findConn cu p = Some conn →
  jm_get (ws conn) cu = Some conn ∧ conn_userId conn = p.
Proof.
  intros Hnd Hws Hf. unfold findConn in Hf.
  apply find_some in Hf as [Hin Hp]. apply bool_decide_eq_true in Hp.
  split; [|done]. apply jm_elem_get; [done|].
  apply list_elem_of_In in Hin. unfold jm_values in Hin.
  apply list_elem_of_fmap in Hin as ([k v] & -> & Hin).
  rewrite Forall_forall in Hws. by rewrite (Hws _ Hin).
Qed.

Lemma wf_init : wf init.
Proof. repeat split; constructor. Qed.

Lemma wf_bind st w u :
  NoDup (jm_keys (connectedUsers st)) →
  Forall (λ kv, ws kv.2 = kv.1) (connectedUsers st) →
  NoDup (jm_keys (jm_set w (mkConn w u) (connectedUsers st)))
  ∧ Forall (λ kv, ws kv.2 = kv.1) (jm_set w (mkConn w u) (connectedUsers st)).
Proof.
  intros Hnd Hws. split; [by apply jm_set_NoDup|].
  rewrite Forall_forall in *. intros [k v] Hin.
  apply jm_set_elem in Hin as [[-> ->]|Hin]; [done|by apply Hws].
Qed.

Lemma Forall_jm_set {V} (P : string * V → Prop) c (v : V) m :
  Forall P m → P (c, v) → Forall P (jm_set c v m).
Proof.
  rewrite !Forall_forall. intros Hm Hv [k x] Hin.
  apply jm_set_elem in Hin as [[-> ->]|Hin]; [done|by apply Hm].
Qed.

Lemma members_NoDup st c : wf st → NoDup (members st c).
Proof.
  intros (_ & _ & _ & Hs). unfold members.
  destruct (jm_get c (channelPeers st)) as [s|] eqn:Hg; simpl; [|constructor].
  apply jm_get_Some_elem in Hg. rewrite Forall_forall in Hs. apply (Hs _ Hg).
Qed.

Lemma get_NoDup (cp : list (string * list string)) c :
  Forall (λ cs, NoDup cs.2) cp → NoDup (default [] (jm_get c cp)).
Proof.
  intros Hs. destruct (jm_get c cp) as [s|] eqn:Hg; simpl; [|constructor].
  apply jm_get_Some_elem in Hg. rewrite Forall_forall in Hs. apply (Hs _ Hg).
Qed.

Lemma wf_onJoinChannel rs st w msg : wf st → wf (onJoinChannel rs st w msg).1.
Proof.
  intros Hwf. unfold onJoinChannel.
  destruct (userId msg) as [u|]; [|done].
  destruct (channelId msg) as [c|]; [|done].
  destruct (truthy (Some u) && truthy (Some c)); [|done].
  destruct Hwf as (Hnd & Hws & Hcp & Hs). simpl.
  destruct (wf_bind st w u Hnd Hws) as [Hnd' Hws'].
  set (cp1 := if jm_has c (channelPeers st) then channelPeers st
              else jm_set c [] (channelPeers st)).
  assert (NoDup (jm_keys cp1) ∧ Forall (λ cs, NoDup cs.2) cp1) as [Hcp1 Hs1].
  { subst cp1. destruct (jm_has c (channelPeers st)); [done|].
    split; [by apply jm_set_NoDup|]. apply Forall_jm_set; [done|constructor]. }
  split_and!; [done|done|by apply jm_set_NoDup|].
  apply Forall_jm_set; [done|]. simpl. by apply js_add_NoDup, get_NoDup.
Qed.

Lemma wf_onLeaveChannel rs st msg : wf st → wf (onLeaveChannel rs st msg).1.
Proof.
  intros Hwf. unfold onLeaveChannel.
  destruct (userId msg) as [u|]; [|done].
  destruct (channelId msg) as [c|]; [|done].
  destruct (truthy (Some u) && truthy (Some c) && jm_has c (channelPeers st));
    [|done].
  destruct Hwf as (Hnd & Hws & Hcp & Hs). simpl.
  split_and!; [done|done|by apply jm_set_NoDup|].
  apply Forall_jm_set; [done|]. simpl. by apply js_delete_NoDup, get_NoDup.
Qed.

Lemma wf_onRelay rs st msg : wf st → wf (onRelay rs st msg).1.
Proof.
  intros Hwf. unfold onRelay. destruct (to msg) as [t|]; [|done].
  by destruct (truthy (Some t)).
Qed.

Lemma closeChannels_keys rs cu u cp :
  jm_keys (closeChannels rs cu u cp).1 = jm_keys cp.
Proof.
  unfold jm_keys. induction cp as [|[c s] cp IH]; [done|]. simpl.
  destruct (closeChannels rs cu u cp) as [cp' out'] eqn:Hc. simpl in IH.
  destruct (js_has u s); csimpl; by rewrite IH.
Qed.

Lemma closeChannels_NoDup rs cu u cp :
  Forall (λ cs, NoDup cs.2) cp →
  Forall (λ cs, NoDup cs.2) (closeChannels rs cu u cp).1.
Proof.
  induction cp as [|[c s] cp IH]; [done|]. simpl.
  rewrite Forall_cons. intros [Hs Hcp]. specialize (IH Hcp).
  destruct (closeChannels rs cu u cp) as [cp' out'] eqn:Hc. simpl in IH.
  destruct (js_has u s); simpl; apply Forall_cons; split; try done.
  by apply js_delete_NoDup.
Qed.

Lemma wf_onClose rs st w : wf st → wf (onClose rs st w).1.
Proof.
  intros (Hnd & Hws & Hcp & Hs). unfold onClose.
  destruct (jm_get w (connectedUsers st)) as [uc|]; [|done].
  pose proof (closeChannels_keys rs (connectedUsers st) (conn_userId uc)
                (channelPeers st)) as Hk.
  pose proof (closeChannels_NoDup rs (connectedUsers st) (conn_userId uc)
                (channelPeers st) Hs) as Hs'.
  destruct (closeChannels rs (connectedUsers st) (conn_userId uc)
              (channelPeers st)) as [cp out]. cbn [fst snd] in *.
  split_and!; [by apply jm_delete_NoDup| |simpl; by rewrite Hk|done].
  rewrite Forall_forall in Hws. rewrite Forall_forall. intros [k v] Hin.
  apply Hws. by eapply jm_delete_elem.
Qed.

Lemma wf_handle rs st e : wf st → wf (handle rs st e).1.
Proof.
  intros Hwf. destruct e as [w msg|w|w]; simpl; [|done|by apply wf_onClose].
  unfold onMessage. destruct (type msg);
    auto using wf_onJoinChannel, wf_onLeaveChannel, wf_onRelay.
Qed.

(** Every state the coordinator reaches is well formed. *)
Lemma reachable_wf st : reachable st → wf st.
Proof. induction 1; [apply wf_init|by apply wf_handle]. Qed.

(** What the [join-channel] branch computes for a well-formed request. *)
Lemma onMessage_join rs st w msg u c :
  type msg = join_channel → userId msg = Some u → channelId msg = Some c →
  u ≠ "" → c ≠ "" →
  onMessage rs st w msg =
    let cu := jm_set w (mkConn w u) (connectedUsers st) in
    let cp := jm_set c (js_add u (members st c))
                (if jm_has c (channelPeers st) then channelPeers st
                 else jm_set c [] (channelPeers st)) in
    (mkState cu cp,
     flat_map (λ p, if decide (p ≠ u)
                     then sendIfOpen rs (findConn cu p) (peerJoined u c)
                     else [])
       (js_add u (members st c))).
Proof.
  intros Ht Hu Hc Hu' Hc'. unfold onMessage, onJoinChannel.
  rewrite Ht, Hu, Hc.
  apply truthy_Some in Hu'. apply truthy_Some in Hc'. rewrite Hu', Hc'. simpl.
  assert (default [] (jm_get c
            (if jm_has c (channelPeers st) then channelPeers st
             else jm_set c [] (channelPeers st))) = members st c) as ->.
  { unfold members, jm_has.
    destruct (jm_get c (channelPeers st)) eqn:Hg; [by rewrite Hg|].
    by rewrite jm_get_set_eq. }
  by rewrite jm_get_set_eq.
Qed.

Lemma members_after_join rs st w msg u c :
  type msg = join_channel → userId msg = Some u → channelId msg = Some c →
  u ≠ "" → c ≠ "" →
  members (onMessage rs st w msg).1 c = js_add u (members st c).
Proof.
  intros. erewrite onMessage_join by done. simpl.
  unfold members at 1. simpl. by rewrite jm_get_set_eq.
Qed.

(** *** Who a broadcast reaches

    The handlers look a member up with [find] over the values of
    [connectedUsers]; what follows says which socket that is in terms of
    the table alone. *)

Lemma find_first cu p :
  Forall (λ kv, ws kv.2 = kv.1) cu →
  match findConn cu p with
  | Some conn =>
      conn = mkConn (ws conn) p
      ∧ ∃ i, cu !! i = Some (ws conn, mkConn (ws conn) p)
          ∧ ∀ j w' conn', j < i → cu !! j = Some (w', conn') →
                          conn_userId conn' ≠ p
  | None => ∀ i w, cu !! i ≠ Some (w, mkConn w p)
  end.
Proof.
  induction cu as [|[k c] cu IH]; intros Hws.
  - simpl. intros i w. by rewrite lookup_nil.
  - apply Forall_cons in Hws as [Hk Hws]. simpl in Hk.
    change (findConn ((k, c) :: cu) p)
      with (if bool_decide (conn_userId c = p) then Some c else findConn cu p).
    destruct (bool_decide (conn_userId c = p)) eqn:Hp.
    + apply bool_decide_eq_true in Hp. destruct c as [w0 u0]. simpl in *.
      subst. split; [done|]. exists 0. split; [done|]. intros j ? ? Hj. lia.
    + apply bool_decide_eq_false in Hp. specialize (IH Hws).
      destruct (findConn cu p) as [conn|].
      * destruct IH as (Heq & i & Hi & Hmin). split; [done|].
        exists (S i). split; [done|]. intros [|j] w' conn' Hj Hl.
        -- simpl in Hl. by injection Hl as <- <-.
        -- simpl in Hl. apply (Hmin j w' conn'); [lia|done].
      * intros [|i] w; simpl; [|apply IH].
        intros [= <- ->]. by simpl in Hp.
Qed.

Lemma oldestBinding_unique st p w1 w2 :
  oldestBinding st p w1 → oldestBinding st p w2 → w1 = w2.
Proof.
  intros (i1 & H1 & M1) (i2 & H2 & M2).
  destruct (lt_eq_lt_dec i1 i2) as [[Hlt| ->]|Hlt].
  - by destruct (M2 i1 w1 (mkConn w1 p) Hlt H1).
  - rewrite H1 in H2. by injection H2.
  - by destruct (M1 i2 w2 (mkConn w2 p) Hlt H2).
Qed.

Lemma oldestBinding_boundTo st p w : oldestBinding st p w → boundTo st w p.
Proof. intros (i & Hi & _). by eapply list_elem_of_lookup_2. Qed.

(** A socket is bound to one identity. *)
Lemma boundTo_one_identity st w p1 p2 :
  wf st → boundTo st w p1 → boundTo st w p2 → p1 = p2.
Proof.
  intros (Hnd & _) H1 H2. unfold boundTo in *.
  apply (jm_elem_get _ _ _ Hnd) in H1. apply (jm_elem_get _ _ _ Hnd) in H2.
  rewrite H1 in H2. by injection H2.
Qed.

(** The one binding of an identity is its oldest. *)
Lemma only_binding_is_oldest st p w :
  wf st → boundTo st w p → (∀ w', boundTo st w' p → w' = w) →
  oldestBinding st p w.
Proof.
  intros (Hnd & Hws & _) Hb Honly.
  apply list_elem_of_lookup_1 in Hb as [i Hi]. exists i. split; [done|].
  intros j w' conn Hj Hl Hp.
  assert (conn = mkConn w' p) as ->.
  { rewrite Forall_forall in Hws.
    pose proof (Hws _ (list_elem_of_lookup_2 _ _ _ Hl)) as Hw. simpl in Hw.
    destruct conn. simpl in *. by subst. }
  assert (w' = w) as -> by (apply Honly; by eapply list_elem_of_lookup_2).
  assert (j = i); [|lia].
  apply (NoDup_lookup (jm_keys (connectedUsers st)) j i w Hnd);
    unfold jm_keys; rewrite list_lookup_fmap; [by rewrite Hl|by rewrite Hi].
Qed.

(** What [sendIfOpen (findConn ...)] writes, read off the table. *)
Lemma sendIfOpen_oldest rs st p msg w e :
  wf st →
  (w, e) ∈ sendIfOpen rs (findConn (connectedUsers st) p) msg
  ↔ e = msg ∧ oldestBinding st p w ∧ rs w = OPEN.
Proof.
  intros (_ & Hws & _). rewrite sendIfOpen_elem.
  pose proof (find_first (connectedUsers st) p Hws) as Hf.
  destruct (findConn (connectedUsers st) p) as [conn|].
  - destruct Hf as (Heq & Hold). split.
    + intros (-> & conn' & [= <-] & <- & Ho). done.
    + intros (-> & Hold' & Ho). split; [done|]. exists conn.
      split; [done|]. split; [|done].
      by apply (oldestBinding_unique st p).
  - split; [by intros (_ & conn & ? & _)|].
    intros (_ & (i & Hi & _) & _). by destruct (Hf i w).
Qed.

Lemma sendIfOpen_NoDup rs oc msg : NoDup (sendIfOpen rs oc msg).
Proof.
  unfold sendIfOpen. destruct oc as [conn|]; [|constructor].
  destruct (decide _); [apply NoDup_singleton|constructor].
Qed.

Lemma flat_map_if_filter {A B} (P : A → Prop) `{∀ x, Decision (P x)}
    (g : A → list B) (l : list A) :
  flat_map (λ x, if decide (P x) then g x else []) l = flat_map g (filter P l).
Proof.
  induction l as [|x l IH]; [done|]. simpl.
  destruct (decide (P x)).
  - rewrite filter_cons_True by done. simpl. by rewrite IH.
  - rewrite filter_cons_False by done. by rewrite IH.
Qed.

(** A broadcast of [msg] to the identities of [l]: each is looked up, and
    what is written is [msg], once, to the oldest binding of each of them
    whose socket is open. *)
Lemma broadcast_out rs st msg (l : list string) :
  wf st → NoDup l →
  NoDup (flat_map (λ p, sendIfOpen rs (findConn (connectedUsers st) p) msg) l)
  ∧ ∀ w e,
      (w, e) ∈ flat_map (λ p, sendIfOpen rs (findConn (connectedUsers st) p) msg) l
      ↔ e = msg ∧ ∃ p, p ∈ l ∧ oldestBinding st p w ∧ rs w = OPEN.
Proof.
  intros Hwf Hnd.
  assert (∀ l' w e,
            (w, e) ∈ flat_map (λ p, sendIfOpen rs
                                   (findConn (connectedUsers st) p) msg) l'
            ↔ e = msg ∧ ∃ p, p ∈ l' ∧ oldestBinding st p w ∧ rs w = OPEN)
    as Hiff.
  { intros l' w e. rewrite elem_of_flat_map. split.
    - intros (p & Hp & Hin). apply sendIfOpen_oldest in Hin as (-> & ? & ?);
        [|done]. split; [done|]. by exists p.
    - intros (-> & p & Hp & Hold & Ho). exists p. split; [done|].
      by apply sendIfOpen_oldest. }
  split; [|apply Hiff].
  induction Hnd as [|p l Hp Hnd IH]; [constructor|]. simpl.
  apply NoDup_app. split_and!; [apply sendIfOpen_NoDup| |done].
  intros [w e] Hin Hin'. apply sendIfOpen_oldest in Hin as (-> & Hold & _);
    [|done].
  apply Hiff in Hin' as (_ & p' & Hp' & Hold' & _).
  assert (p = p'); [|by subst].
  eapply boundTo_one_identity; [done|by apply oldestBinding_boundTo..].
Qed.

(** What follows of [reached] for one member: bound on one socket only, it
    is reached if that socket is open; and when its oldest binding is not
    open, none of its sockets is reached. *)
Lemma reached_only_binding rs st c (keep : string → Prop) p w :
  wf st → p ∈ members st c → keep p →
  boundTo st w p → (∀ w', boundTo st w' p → w' = w) → rs w = OPEN →
  reached rs st c keep w.
Proof.
  intros Hwf Hp Hk Hb Honly Ho. exists p. split_and!; [done..| |done].
  by apply only_binding_is_oldest.
Qed.

Lemma reached_not_behind rs st c (keep : string → Prop) p w0 w :
  wf st → oldestBinding st p w0 → rs w0 ≠ OPEN → boundTo st w p →
  ¬ reached rs st c keep w.
Proof.
  intros Hwf Hold Hc Hb (p' & _ & _ & Hold' & Ho).
  assert (p' = p) as ->.
  { eapply boundTo_one_identity; [done|by apply oldestBinding_boundTo|done]. }
  by rewrite (oldestBinding_unique st p w w0) in Ho.
Qed.

(** Checking a lookup by running it: on a concrete table the oldest
    binding is the one [findConn] returns. *)
Lemma oldestBinding_by_find st p w :
  wf st → findConn (connectedUsers st) p = Some (mkConn w p) →
  oldestBinding st p w.
Proof.
  intros (_ & Hws & _) Hf.
  pose proof (find_first (connectedUsers st) p Hws) as H. rewrite Hf in H.
  by destruct H as (_ & H).
Qed.

(** Who is written to by the [join-channel] branch, and what. *)
Lemma join_recipients rs st w msg u c st' out :
  wf st →
  type msg = join_channel → userId msg = Some u → channelId msg = Some c →
  u ≠ "" → c ≠ "" →
  onMessage rs st w msg = (st', out) →
  wf st'
  ∧ NoDup out
  ∧ ∀ w' e, (w', e) ∈ out ↔
      e = peerJoined u c ∧ reached rs st' c (λ p, p ≠ u) w'.
Proof.
  intros Hwf Ht Hu Hc Hu' Hc' Hrun.
  assert (wf st') as Hwf'.
  { change st' with (st', out).1. rewrite <- Hrun.
    apply (wf_handle rs st (EvMessage w msg) Hwf). }
  split; [done|].
  pose proof (members_after_join rs st w msg u c Ht Hu Hc Hu' Hc') as Hm.
  rewrite Hrun in Hm. simpl in Hm.
  rewrite (onMessage_join rs st w msg u c) in Hrun by done.
  simpl in Hrun. injection Hrun as Hst <-.
  rewrite flat_map_if_filter.
  assert (connectedUsers st'
          = jm_set w (mkConn w u) (connectedUsers st)) as Hcu
    by (by rewrite <- Hst).
  rewrite <- Hcu, <- Hm.
  destruct (broadcast_out rs st' (peerJoined u c)
              (filter (λ p, p ≠ u) (members st' c)) Hwf') as [Hnd Hiff].
  { apply NoDup_filter. by apply members_NoDup. }
  split; [done|]. intros w' e. rewrite Hiff. unfold reached.
  split; intros (-> & p & Hp & Hrest); (split; [done|]); exists p.
  - apply list_elem_of_filter in Hp as [? ?]. destruct Hrest as [? ?].
    by split_and!.
  - destruct Hrest as (Hk & ? & ?). split; [|done].
    by apply list_elem_of_filter.
Qed.

(** What the [leave-channel] branch computes for a well-formed request on
    a channel of the table. *)
Lemma onMessage_leave rs st w msg u c :
  type msg = leave_channel → userId msg = Some u → channelId msg = Some c →
  u ≠ "" → c ≠ "" → jm_has c (channelPeers st) = true →
  onMessage rs st w msg =
    (mkState (connectedUsers st)
       (jm_set c (js_delete u (members st c)) (channelPeers st)),
     flat_map (λ p, sendIfOpen rs (findConn (connectedUsers st) p)
                      (peerLeft u c))
       (js_delete u (members st c))).
Proof.
  intros Ht Hu Hc Hu' Hc' Hhas. unfold onMessage, onLeaveChannel.
  rewrite Ht, Hu, Hc, Hhas.
  apply truthy_Some in Hu'. apply truthy_Some in Hc'. rewrite Hu', Hc'. simpl.
  by rewrite jm_get_set_eq.
Qed.

(** C9, counterexample. Alice is a member of [general], bound on sockets
    1 and 2; socket 1 is closing and socket 2 is open. Dave, who is no
    member, asks to leave [general]: nothing is written, although alice
    is a current member with an open connection. *)
Lemma leave_skips_member_behind_closing_socket :
  "alice" ∈ members aliceTwice "general"
  ∧ boundTo aliceTwice 2 "alice" ∧ firstClosing 2 = OPEN
  ∧ ("dave" ∉ members aliceTwice "general")
  ∧ onMessage firstClosing aliceTwice 3 (leaveChannelOf "dave" "general")
    = (aliceTwice, []).
Proof.
  split_and!; [|by apply (list_elem_of_lookup_2 _ 1)|reflexivity| |reflexivity];
    apply (bool_decide_unpack _); by vm_compute.
Qed.

(** C9, as amended. A [leave-channel] for an existing channel [c] by an
    identity [u] that is not one of its members (both non-empty) leaves
    the whole coordinator state as it was and still writes
    [peer-left{from: u, channelId: c}]: once to the oldest binding of
    each member of [c] whose socket is open, and to no other socket. So a
    member bound on one socket only is told when that socket is open, and
    a member whose oldest binding is not open is told on none of its
    sockets. *)
Theorem leave_by_non_member_broadcasts rs st w msg u c :
  wf st →
  type msg = leave_channel → userId msg = Some u → channelId msg = Some c →
  u ≠ "" → c ≠ "" →
  jm_has c (channelPeers st) = true → u ∉ members st c →
  ∃ out, onMessage rs st w msg = (st, out)
    ∧ NoDup out
    ∧ (∀ w' e, (w', e) ∈ out ↔
         e = peerLeft u c ∧ reached rs st c (λ _, True) w')
    ∧ (∀ p w', p ∈ members st c →
         boundTo st w' p → (∀ w2, boundTo st w2 p → w2 = w') →
         rs w' = OPEN → (w', peerLeft u c) ∈ out)
    ∧ (∀ p w0 w' e, oldestBinding st p w0 → rs w0 ≠ OPEN →
         boundTo st w' p → (w', e) ∉ out).
Proof.
  intros Hwf Ht Hu Hc Hu' Hc' Hhas Hnot.
  rewrite (onMessage_leave rs st w msg u c) by done.
  rewrite (js_delete_absent u _ Hnot).
  assert (jm_set c (members st c) (channelPeers st) = channelPeers st) as ->.
  { unfold members, jm_has in *.
    destruct (jm_get c (channelPeers st)) as [s|] eqn:Hg; [|done].
    by apply jm_set_same. }
  rewrite state_eta.
  destruct (broadcast_out rs st (peerLeft u c) (members st c) Hwf)
    as [Hnd Hiff]; [by apply members_NoDup|].
  assert (∀ w' e,
            (w', e) ∈ flat_map (λ p, sendIfOpen rs
                                  (findConn (connectedUsers st) p)
                                  (peerLeft u c)) (members st c)
            ↔ e = peerLeft u c ∧ reached rs st c (λ _, True) w') as Hout.
  { intros w' e. rewrite Hiff. unfold reached.
    split; intros (-> & p & Hp & Hrest); (split; [done|]); exists p.
    - destruct Hrest as [? ?]. by split_and!.
    - destruct Hrest as (_ & ? & ?). by split_and!. }
  eexists. split; [done|]. split_and!; [done|done| |].
  - intros p w' Hp Hb Honly Ho. apply Hout. split; [done|].
    by apply (reached_only_binding rs st c _ p).
  - intros p w0 w' e Hold Hclosed Hb Hin. apply Hout in Hin as [_ Hin].
    by apply (reached_not_behind rs st c _ p w0 w') in Hin.
Qed.

Lemma leave_by_non_member_broadcasts_witness :
  onMessage allOpen aliceAndBob 3 (leaveChannelOf "carol" "general")
  = (aliceAndBob,
     [(1, peerLeft "carol" "general"); (2, peerLeft "carol" "general")]).
Proof.
  destruct (leave_by_non_member_broadcasts allOpen aliceAndBob 3
              (leaveChannelOf "carol" "general") "carol" "general")
    as (out & Hrun & _).
  - exact (wf_handle allOpen _ (EvMessage 2 (joinChannelOf "bob" "general"))
             (wf_handle allOpen _ (EvMessage 1 (joinChannelOf "alice" "general"))
                wf_init)).
  - reflexivity.
  - reflexivity.
  - reflexivity.
  - discriminate.
  - discriminate.
  - reflexivity.
  - apply (bool_decide_unpack _). by vm_compute.
  - rewrite Hrun. f_equal. injection Hrun as <-. reflexivity.
Defined.

Lemma filter_eq_absent (u : string) (l : list string) :
  u ∉ l → filter (λ p, p = u) l = [].
Proof.
  induction l as [|x l IH]; [done|]. rewrite not_elem_of_cons.
  intros [Hne Hin]. rewrite filter_cons_False by done. by apply IH.
Qed.

Lemma filter_eq_NoDup (u : string) (l : list string) :
  NoDup l → u ∈ l → length (filter (λ p, p = u) l) = 1.
Proof.
  induction l as [|x l IH]; [intros _ Hin; by apply elem_of_nil in Hin|].
  rewrite NoDup_cons. intros [Hx Hnd] Hin.
  destruct (decide (x = u)) as [->|Hne].
  - rewrite filter_cons_True by done. simpl. by rewrite filter_eq_absent.
  - rewrite filter_cons_False by done.
    apply elem_of_cons in Hin as [->|Hin]; [done|]. by apply IH.
Qed.

(** C4, counterexample. Bob is a member of [general] and joins it again:
    alice is sent a second [peer-joined] about him. *)
Lemma rejoin_broadcasts_again :
  "bob" ∈ members aliceAndBob "general"
  ∧ (onMessage allOpen aliceAndBob 2 (joinChannelOf "bob" "general")).2
    = [(1, peerJoined "bob" "general")]
  ∧ (onMessage allOpen aliceAndBob 2 (joinChannelOf "bob" "general")).2 ≠ [].
Proof.
  split_and!; [|reflexivity|discriminate].
  apply (bool_decide_unpack _). by vm_compute.
Qed.

(** C4, as amended. A [join-channel] by an identity [u] that already is a
    member of [c] changes no membership, so [u] stays listed exactly once,
    and it is broadcast like a first join:
    [peer-joined{from: u, channelId: c}] is written again, once, to the
    oldest binding of each other member of [c] whose socket is open, and
    to no other socket. So another member bound on one socket only is
    told again when that socket is open, and one whose oldest binding is
    not open is told on none of its sockets. *)
Theorem rejoin_keeps_one_entry_and_rebroadcasts rs st w msg u c :
  wf st →
  type msg = join_channel → userId msg = Some u → channelId msg = Some c →
  u ≠ "" → c ≠ "" →
  u ∈ members st c →
  ∀ st' out, onMessage rs st w msg = (st', out) →
    channelPeers st' = channelPeers st
    ∧ length (filter (λ p, p = u) (members st' c)) = 1
    ∧ NoDup out
    ∧ (∀ w' e, (w', e) ∈ out ↔
         e = peerJoined u c ∧ reached rs st' c (λ p, p ≠ u) w')
    ∧ (∀ p w', p ∈ members st' c → p ≠ u →
         boundTo st' w' p → (∀ w2, boundTo st' w2 p → w2 = w') →
         rs w' = OPEN → (w', peerJoined u c) ∈ out)
    ∧ (∀ p w0 w' e, oldestBinding st' p w0 → rs w0 ≠ OPEN →
         boundTo st' w' p → (w', e) ∉ out).
Proof.
  intros Hwf Ht Hu Hc Hu' Hc' Hmem st' out Hrun.
  destruct (join_recipients rs st w msg u c st' out Hwf Ht Hu Hc Hu' Hc' Hrun)
    as (Hwf' & Hnd & Hout).
  rewrite (onMessage_join rs st w msg u c) in Hrun by done.
  simpl in Hrun. injection Hrun as Hst _.
  assert (jm_set c (js_add u (members st c))
            (if jm_has c (channelPeers st) then channelPeers st
             else jm_set c [] (channelPeers st)) = channelPeers st) as Hcp.
  { rewrite (js_add_present u _ Hmem). unfold members, jm_has in *.
    destruct (jm_get c (channelPeers st)) as [s|] eqn:Hg;
      [|by apply elem_of_nil in Hmem].
    simpl. by apply jm_set_same. }
  assert (channelPeers st' = channelPeers st) as Hcp'
    by (rewrite <- Hst; exact Hcp).
  split_and!; [done| |done|done| |].
  - unfold members at 1. rewrite Hcp'. fold (members st c).
    apply filter_eq_NoDup; [by apply members_NoDup|done].
  - intros p w' Hp Hne Hb Honly Ho. apply Hout. split; [done|].
    by apply (reached_only_binding rs st' c _ p).
  - intros p w0 w' e Hold Hclosed Hb Hin. apply Hout in Hin as [_ Hin].
    by apply (reached_not_behind rs st' c _ p w0 w') in Hin.
Qed.

Lemma rejoin_keeps_one_entry_and_rebroadcasts_witness :
  onMessage allOpen aliceAndBob 2 (joinChannelOf "bob" "general")
  = (aliceAndBob, [(1, peerJoined "bob" "general")])
  ∧ length (filter (λ p, p = "bob") (members aliceAndBob "general")) = 1.
Proof.
  pose proof (rejoin_keeps_one_entry_and_rebroadcasts allOpen aliceAndBob 2
                (joinChannelOf "bob" "general") "bob" "general") as H.
  destruct (H (wf_handle allOpen _ (EvMessage 2 (joinChannelOf "bob" "general"))
                 (wf_handle allOpen _
                    (EvMessage 1 (joinChannelOf "alice" "general")) wf_init))
              eq_refl eq_refl eq_refl) with (st' := aliceAndBob)
              (out := [(1, peerJoined "bob" "general")])
    as (_ & Hone & _).
  - discriminate.
  - discriminate.
  - apply (bool_decide_unpack _). by vm_compute.
  - reflexivity.
  - split; [reflexivity|exact Hone].
Defined.

Lemma find_app_l {A} (f : A → bool) (l1 l2 : list A) (x : A) :
  List.find f l1 = Some x → List.find f (l1 ++ l2) = Some x.
Proof.
  induction l1 as [|a l1 IH]; simpl; [done|].
  destruct (f a); [done|apply IH].
Qed.

(** What the relay branch computes. *)
Lemma onMessage_relay rs st w m :
  type m ≠ join_channel → type m ≠ leave_channel →
  onMessage rs st w m =
    (st, match to m with
         | Some t => if decide (t ≠ "")
                     then sendIfOpen rs (findConn (connectedUsers st) t) m
                     else []
         | None => []
         end).
Proof.
  intros Hj Hl. unfold onMessage, onRelay.
  destruct (type m); try done; destruct (to m) as [t|]; try done;
    (destruct (decide (t ≠ "")) as [Hne|Heq];
     [apply truthy_Some in Hne; by rewrite Hne
     |apply dec_stable in Heq; by subst t]).
Qed.

(** C1, counterexample. Sockets 1 and 2 have both registered as alice:
    both bindings are in the table, and an offer for alice is written to
    socket 1, the older of the two. *)
Lemma stale_binding_still_served :
  ¬ oneBindingPerIdentity aliceTwice
  ∧ jm_get 1 (connectedUsers aliceTwice) = Some (mkConn 1 "alice")
  ∧ jm_get 2 (connectedUsers aliceTwice) = Some (mkConn 2 "alice")
  ∧ (onMessage allOpen aliceTwice 3 offerToAlice).2 = [(1, offerToAlice)].
Proof.
  split_and!; [|reflexivity..].
  intros H. by specialize (H 1 2 (mkConn 1 "alice") (mkConn 2 "alice")
                             eq_refl eq_refl eq_refl).
Qed.

(** C1, as amended. Bindings are per socket, not per identity: the table
    never binds a socket twice, and when a socket [w] that is not in the
    table registers (by [join-channel]) an identity [u] already bound on
    socket [ws old], the old binding is kept as it is, [w] is bound as
    well, and in the state reached an envelope addressed to [u] is
    handled for the old binding alone: written to [ws old] when that
    socket is open, dropped otherwise, and never written to [w]. *)
Theorem second_binding_keeps_first rs st w msg u c old :
  wf st →
  type msg = join_channel → userId msg = Some u → channelId msg = Some c →
  u ≠ "" → c ≠ "" →
  jm_get w (connectedUsers st) = None →
  findConn (connectedUsers st) u = Some old →
  ∀ st' out, onMessage rs st w msg = (st', out) →
    NoDup (jm_keys (connectedUsers st'))
    ∧ jm_get (ws old) (connectedUsers st') = Some old
    ∧ jm_get w (connectedUsers st') = Some (mkConn w u)
    ∧ ws old ≠ w
    ∧ ∀ rs' w' m,
        type m ≠ join_channel → type m ≠ leave_channel → to m = Some u →
        onMessage rs' st' w' m
        = (st', if decide (rs' (ws old) = OPEN) then [(ws old, m)] else []).
Proof.
  intros (Hnd & Hws & _) Ht Hu Hc Hu' Hc' Hnew Hold st' out Hrun.
  rewrite (onMessage_join rs st w msg u c) in Hrun by done.
  simpl in Hrun. injection Hrun as <- <-. simpl.
  destruct (findConn_lookup _ _ _ Hnd Hws Hold) as [Hg Hp].
  assert (ws old ≠ w) as Hne by (intros <-; congruence).
  split_and!; [by apply jm_set_NoDup| |by apply jm_get_set_eq|done|].
  - by rewrite jm_get_set_ne.
  - intros rs' w' m Hj Hl Hto. rewrite onMessage_relay by done.
    rewrite Hto, decide_True by done. simpl. f_equal.
    rewrite (jm_set_fresh _ _ _ Hnew). unfold findConn, jm_values.
    rewrite fmap_app. by rewrite (find_app_l _ _ _ old Hold).
Qed.

Lemma second_binding_keeps_first_witness :
  let st := (onMessage allOpen init 1 (joinChannelOf "alice" "general")).1 in
  let r := onMessage allOpen st 2 (joinChannelOf "alice" "general") in
  NoDup (jm_keys (connectedUsers r.1))
  ∧ jm_get 1 (connectedUsers r.1) = Some (mkConn 1 "alice")
  ∧ jm_get 2 (connectedUsers r.1) = Some (mkConn 2 "alice")
  ∧ 1 ≠ 2
  ∧ ∀ rs' w' m,
      type m ≠ join_channel → type m ≠ leave_channel → to m = Some "alice" →
      onMessage rs' r.1 w' m
      = (r.1, if decide (rs' 1 = OPEN) then [(1, m)] else []).
Proof.
  intros st r.
  apply (second_binding_keeps_first allOpen st 2
           (joinChannelOf "alice" "general") "alice" "general"
           (mkConn 1 "alice")) with (out := r.2).
  - exact (wf_handle allOpen _ (EvMessage 1 (joinChannelOf "alice" "general"))
             wf_init).
  - reflexivity.
  - reflexivity.
  - reflexivity.
  - discriminate.
  - discriminate.
  - reflexivity.
  - reflexivity.
  - apply surjective_pairing.
Defined.


(** The handler on parsed frames agrees with the handler on envelopes:
    an envelope, as the value it parses to, is handled as [onMessage]
    handles it, and what is written is what [onMessage] sends. *)
Lemma getProp_encode m :
  getProp "type" (encode m) = Some (JStr (typeName (type m)))
  ∧ getProp "to" (encode m) = JStr <$> to m
  ∧ getProp "userId" (encode m) = JStr <$> userId m
  ∧ getProp "channelId" (encode m) = JStr <$> channelId m.
Proof.
  destruct m as [ty f t c u d]. unfold encode. cbn [type from to channelId userId data].
  destruct f, t, c, u, d; split_and!; reflexivity.
Qed.

Lemma asIdentity_string o : asIdentity (JStr <$> o) = Some o.
Proof. by destruct o. Qed.

Lemma writeIfOpen_encode rs c m :
  writeIfOpen rs c (encode m) = encodeSent (sendIfOpen rs c m).
Proof.
  unfold writeIfOpen, sendIfOpen. destruct c as [conn|]; [|done].
  by destruct (decide (rs (ws conn) = OPEN)).
Qed.

Lemma onParsed_encode rs st w m :
  onParsed rs st w (encode m)
  = Some ((onMessage rs st w m).1, encodeSent (onMessage rs st w m).2).
Proof.
  destruct (getProp_encode m) as (Hty & Hto & Hu & Hc).
  assert (∀ x : option (State * Written),
            match encode m with JNull => Some (st, []) | _ => x end = x) as Hobj
    by done.
  unfold onParsed. rewrite Hobj, Hty, Hu, Hc, !asIdentity_string.
  destruct m as [ty f t c u d]. cbn [type from to channelId userId data] in *.
  assert (String.eqb (typeName ty) "join-channel"
          = match ty with join_channel => true | _ => false end) as ->
    by (by destruct ty).
  assert (String.eqb (typeName ty) "leave-channel"
          = match ty with leave_channel => true | _ => false end) as ->
    by (by destruct ty).
  destruct ty;
    try (unfold onParsedRelay, onMessage, onRelay; cbn [type to]; rewrite Hto;
         destruct t as [t|]; cbn [fmap option_fmap option_map];
         [ cbn [truthyValue truthy findConnByValue];
           destruct (String.eqb t ""); cbn [negb];
           [done | by rewrite writeIfOpen_encode]
         | done ]).
  - unfold onMessage. cbn [type].
    change (onJoinChannel rs st w (mkSignal join_channel None None c u None))
      with (onJoinChannel rs st w (mkSignal join_channel f t c u d)).
    by destruct (onJoinChannel rs st w (mkSignal join_channel f t c u d)).
  - unfold onMessage. cbn [type].
    change (onLeaveChannel rs st (mkSignal leave_channel None None c u None))
      with (onLeaveChannel rs st (mkSignal leave_channel f t c u d)).
    by destruct (onLeaveChannel rs st (mkSignal leave_channel f t c u d)).
Qed.

Lemma onParsed_relay rs st w v :
  getProp "type" v ≠ Some (JStr "join-channel") →
  getProp "type" v ≠ Some (JStr "leave-channel") →
  onParsed rs st w v = Some (onParsedRelay rs st v).
Proof.
  intros Hj Hl. unfold onParsed.
  destruct (getProp "type" v) as [[| | | | | |t| |]|] eqn:Hty;
    try by destruct v.
  destruct (String.eqb t "join-channel") eqn:E1.
  { apply String.eqb_eq in E1 as ->. done. }
  destruct (String.eqb t "leave-channel") eqn:E2.
  { apply String.eqb_eq in E2 as ->. done. }
  by destruct v.
Qed.



End CoordinatorFacts.

(** ** The client session *)

Section ClientFacts.
Import Client ClientSpec.
Implicit Types (w : World) (b : Browser) (m : WebRTCManager).

Lemma world_eta w : mkWorld (mgr w) (browser w) (effects w) = w.
Proof. by destruct w. Qed.

Lemma bind_run {A B} (c : Js A) (f : A → Js B) w :
  (c ≫= f) w = match c w with
                | (Normal a, w') => f a w'
                | (Throw e, w') => (Throw e, w')
                end.
Proof. done. Qed.

(** The JSON of a description or of a candidate reads back as it was
    written. *)
Lemma description_json_roundtrip d :
  json_to_description (Some (description_to_json d)) = Some d.
Proof.
  destruct d as [[] u n]; simpl; by rewrite Nat2Z.id.
Qed.

Lemma candidate_json_roundtrip c :
  json_to_candidate (Some (candidate_to_json c)) = Some c.
Proof. destruct c as [u n]; simpl. by rewrite Nat2Z.id. Qed.

(** C3, counterexample. Alice holds an open connection to bob, number 0.
    A second [peer-joined] about bob, or an offer from bob, puts a new
    connection, number 1, in its place. *)
Lemma duplicate_request_replaces_link :
  jm_get (Some "bob") (peers (mgr bobLinked)) = Some 0
  ∧ pc_closed <$> pcs (browser bobLinked) !! 0 = Some false
  ∧ jm_get (Some "bob") (peers (mgr (connectToPeer (Some "bob") bobLinked).2))
    = Some 1
  ∧ jm_get (Some "bob") (peers (mgr (handleOffer offerFromBob bobLinked).2))
    = Some 1.
Proof. split_and!; reflexivity. Qed.

(** *** Framing: what a computation leaves alone *)

Lemma keeps_bind (R : World → World → Prop) `{!Reflexive R, !Transitive R}
    {A B} (c : Js A) (f : A → Js B) :
  keeps R c → (∀ a, keeps R (f a)) → keeps R (c ≫= f).
Proof.
  intros Hc Hf w. rewrite bind_run. specialize (Hc w).
  destruct (c w) as [[a|e] w']; simpl in *; [|done].
  etrans; [done|apply Hf].
Qed.

Lemma keeps_ret (R : World → World → Prop) `{!Reflexive R} {A} (a : A) :
  keeps R (mret a).
Proof. intros w. simpl. reflexivity. Qed.

Lemma keeps_throw (R : World → World → Prop) `{!Reflexive R} {A} e :
  keeps R (@throw A e).
Proof. intros w. simpl. reflexivity. Qed.

Lemma keeps_forEach (R : World → World → Prop) `{!Reflexive R, !Transitive R}
    {X} (xs : list X) (f : X → Js ()) :
  (∀ x, keeps R (f x)) → keeps R (forEach xs f).
Proof.
  intros Hf. induction xs as [|x xs IH]; simpl.
  - by apply keeps_ret.
  - apply keeps_bind; [done..|]. by intros _.
Qed.

Lemma keeps_tryCatch (R : World → World → Prop) `{!Transitive R}
    (body : Js ()) (handler : string → Js ()) :
  keeps R body → (∀ e, keeps R (handler e)) → keeps R (tryCatch body handler).
Proof.
  intros Hb Hh w. unfold tryCatch. specialize (Hb w).
  destruct (body w) as [[a|e] w']; simpl in *; [done|].
  etrans; [done|apply Hh].
Qed.

#[local] Instance frame_refl pc : Reflexive (frame pc).
Proof. by intros w. Qed.

#[local] Instance frame_trans pc : Transitive (frame pc).
Proof.
  intros w1 w2 w3 (Hp & Hl & Hr) (Hp' & Hl' & Hr').
  split_and!; [congruence|congruence|].
  intros ref Hne. rewrite Hr', Hr; done.
Qed.

Lemma frame_getMgr pc : keeps (frame pc) getMgr.
Proof. by intros w. Qed.

Lemma frame_getBrowser pc : keeps (frame pc) getBrowser.
Proof. by intros w. Qed.

Lemma frame_emit pc e : keeps (frame pc) (emit e).
Proof. by intros w. Qed.

Lemma frame_updatePc pc f : keeps (frame pc) (updatePc pc f).
Proof.
  intros w. split_and!; simpl; [done|by rewrite length_alter|].
  intros ref Hne. by rewrite list_lookup_alter_ne.
Qed.

Lemma frame_set_dcs pc f : keeps (frame pc) (modifyBrowser (set_dcs f)).
Proof. by intros w. Qed.

Lemma frame_set_pendingIce pc f :
  keeps (frame pc) (modifyBrowser (set_pendingIce f)).
Proof. by intros w. Qed.

Lemma frame_set_stoppedTracks pc f :
  keeps (frame pc) (modifyBrowser (set_stoppedTracks f)).
Proof. by intros w. Qed.

Lemma frame_set_dataChannels pc f :
  keeps (frame pc) (modifyMgr (set_dataChannels f)).
Proof. by intros w. Qed.

Lemma frame_set_localStream pc s :
  keeps (frame pc) (modifyMgr (set_localStream s)).
Proof. by intros w. Qed.

Create HintDb js_frame.
#[local] Hint Resolve keeps_ret keeps_throw frame_getMgr frame_getBrowser
  frame_emit frame_updatePc frame_set_dcs frame_set_pendingIce
  frame_set_stoppedTracks frame_set_dataChannels frame_set_localStream
  : js_frame.

(** Takes a computation apart along its binds, loops and branches. *)
Ltac frame_step :=
  match goal with
  | |- keeps _ (_ ≫= _) => apply keeps_bind; [apply _|apply _| |intros ?]
  | |- keeps _ (forEach _ _) => apply keeps_forEach; [apply _|apply _|intros ?]
  | |- keeps _ (match ?x with _ => _ end) => destruct x
  | |- keeps _ _ => solve [eauto with js_frame typeclass_instances]
  end.

Lemma frame_getPc pc ref : keeps (frame pc) (getPc ref).
Proof. unfold getPc. repeat frame_step. Qed.

Lemma frame_addTrack pc t : keeps (frame pc) (addTrack pc t).
Proof. unfold addTrack. pose proof (frame_getPc pc pc). repeat frame_step. Qed.

Lemma frame_createDataChannel pc : keeps (frame pc) (createDataChannel pc).
Proof.
  unfold createDataChannel. pose proof (frame_getPc pc pc). repeat frame_step.
Qed.

Lemma frame_setupDataChannel pc ch peerId :
  keeps (frame pc) (setupDataChannel ch peerId).
Proof. unfold setupDataChannel. repeat frame_step. Qed.

Lemma frame_addLocalTracks pc : keeps (frame pc) (addLocalTracks pc).
Proof.
  unfold addLocalTracks. pose proof (frame_addTrack pc). repeat frame_step.
Qed.

Lemma frame_createOffer pc : keeps (frame pc) (createOffer pc).
Proof. unfold createOffer. pose proof (frame_getPc pc pc). repeat frame_step. Qed.

Lemma frame_createAnswer pc : keeps (frame pc) (createAnswer pc).
Proof. unfold createAnswer. pose proof (frame_getPc pc pc). repeat frame_step. Qed.

Lemma frame_setLocalDescription pc d :
  keeps (frame pc) (setLocalDescription pc d).
Proof.
  unfold setLocalDescription. pose proof (frame_getPc pc pc). repeat frame_step.
Qed.

Lemma frame_setRemoteDescription pc j :
  keeps (frame pc) (setRemoteDescription pc j).
Proof.
  unfold setRemoteDescription. pose proof (frame_getPc pc pc).
  repeat frame_step.
Qed.

Lemma frame_socketSend pc s : keeps (frame pc) (socketSend s).
Proof. apply frame_emit. Qed.

(** [createPeerConnection] always allocates: the new connection is the
    next index of the store and takes the place of whatever [peerId] was
    mapped to. *)
Lemma createPeerConnection_run peerId w :
  createPeerConnection peerId w =
    (Normal (length (pcs (browser w))),
     mkWorld (set_peers (jm_set peerId (length (pcs (browser w)))) (mgr w))
       (set_pcs (λ l, l ++ [mkPC peerId false [] None None []]) (browser w))
       (effects w)).
Proof. done. Qed.

Lemma after_createPeerConnection peerId w (rest : nat → Js ()) w' :
  (∀ pc, keeps (frame pc) (rest pc)) →
  w' = ((createPeerConnection peerId ≫= rest) w).2 →
  peers (mgr w') = jm_set peerId (length (pcs (browser w))) (peers (mgr w))
  ∧ length (pcs (browser w')) = S (length (pcs (browser w)))
  ∧ ∀ ref, ref < length (pcs (browser w)) →
           pcs (browser w') !! ref = pcs (browser w) !! ref.
Proof.
  intros Hrest ->. rewrite bind_run, createPeerConnection_run.
  destruct (Hrest (length (pcs (browser w))) (mkWorld
    (set_peers (jm_set peerId (length (pcs (browser w)))) (mgr w))
    (set_pcs (λ l, l ++ [mkPC peerId false [] None None []]) (browser w))
    (effects w))) as (Hp & Hl & Hr).
  simpl in *. split_and!; [done|by rewrite Hl, length_app, Nat.add_comm|].
  intros ref Hlt. rewrite Hr by lia. by apply lookup_app_l.
Qed.

Lemma connectToPeer_split peerId :
  ∃ rest, (∀ pc, keeps (frame pc) (rest pc))
    ∧ connectToPeer peerId = createPeerConnection peerId ≫= rest.
Proof.
  eexists (λ pc, _). split; [|reflexivity]. intros pc.
  pose proof (frame_createDataChannel pc).
  pose proof (frame_setupDataChannel pc).
  pose proof (frame_addLocalTracks pc).
  pose proof (frame_createOffer pc).
  pose proof (frame_setLocalDescription pc).
  pose proof (frame_socketSend pc).
  repeat frame_step.
Qed.

Lemma handleOffer_split signal :
  ∃ rest, (∀ pc, keeps (frame pc) (rest pc))
    ∧ handleOffer signal = createPeerConnection (from signal) ≫= rest.
Proof.
  eexists (λ pc, _). split; [|reflexivity]. intros pc.
  pose proof (frame_setRemoteDescription pc).
  pose proof (frame_addLocalTracks pc).
  pose proof (frame_createAnswer pc).
  pose proof (frame_setLocalDescription pc).
  pose proof (frame_socketSend pc).
  repeat frame_step.
Qed.

(** C7, counterexample. Capture is denied and each of the three
    operations completes normally, as it does when capture is granted:
    the promise the caller holds resolves, nothing is thrown to it. The
    hook drops even that promise. *)
Lemma capture_failure_not_surfaced :
  (startVoiceCall (Denied "NotAllowedError") inVideoCall).1 = Normal ()
  ∧ (startVideoCall (Denied "NotAllowedError") inVideoCall).1 = Normal ()
  ∧ (startScreenShare (Denied "NotAllowedError") inVideoCall).1 = Normal ()
  ∧ (startVoiceCall (Granted [micTrack]) inVideoCall).1 = Normal ().
Proof. split_and!; reflexivity. Qed.

(** C7, as amended. When capture fails, each of [startVoiceCall],
    [startVideoCall] and [startScreenShare] catches the failure, logs it
    to the console and completes normally: nothing is surfaced to the
    caller. The manager and every browser object, the peer links among
    them, are left exactly as they were. *)
Theorem capture_failure_is_logged_and_swallowed w error :
  startVoiceCall (Denied error) w
  = (Normal (), mkWorld (mgr w) (browser w)
                  (effects w ++ [ConsoleError "Error starting voice call:"]))
  ∧ startVideoCall (Denied error) w
    = (Normal (), mkWorld (mgr w) (browser w)
                    (effects w ++ [ConsoleError "Error starting video call:"]))
  ∧ startScreenShare (Denied error) w
    = (Normal (), mkWorld (mgr w) (browser w)
                    (effects w ++ [ConsoleError "Error starting screen share:"])).
Proof. split_and!; reflexivity. Qed.

(** *** Screen sharing *)

Lemma alter_lookup {A} (f : A → A) (l : list A) i x :
  l !! i = Some x → alter f i l = <[i := f x]> l.
Proof.
  revert i. induction l as [|y l IH]; intros [|i]; simpl; try done.
  - by intros [= ->].
  - intros Hi. f_equal. by apply IH.
Qed.

Lemma getVideoTracks_head screen v :
  head (getVideoTracks screen) = Some v → kind v = video.
Proof.
  intros Hh. apply head_Some_elem_of in Hh.
  unfold getVideoTracks in Hh. by apply list_elem_of_filter in Hh as [? _].
Qed.

Lemma findVideoSender_Some senders i :
  findVideoSender senders = Some i →
  ∃ old, senders !! i = Some (Some old) ∧ kind old = video.
Proof.
  unfold findVideoSender. intros Hf. apply fmap_Some in Hf as ([j s] & Hf & ->).
  apply list_find_Some in Hf as (Hj & Hs & _). simpl.
  destruct s as [old|]; [|done]. exists old. split; [done|].
  simpl in Hs. by apply bool_decide_unpack in Hs.
Qed.

Lemma isVideoSender_carriesVideo s : isVideoSender s ↔ carriesVideo s.
Proof.
  unfold carriesVideo. destruct s as [t|]; simpl.
  - rewrite bool_decide_spec. split; [by exists t|]. by intros (? & [= <-] & ?).
  - split; [done|]. by intros (? & ? & _).
Qed.

Lemma findVideoSender_first senders i :
  findVideoSender senders = Some i ↔ firstVideoSender senders i.
Proof.
  unfold findVideoSender, firstVideoSender. split.
  - intros Hf. apply fmap_Some in Hf as ([j s] & Hf & ->).
    apply list_find_Some in Hf as (Hj & Hs & Hmin). simpl. split.
    + exists s. split; [done|]. by apply isVideoSender_carriesVideo.
    + intros k s' Hk Hl Hc. apply (Hmin k s' Hl Hk).
      by apply isVideoSender_carriesVideo.
  - intros ((s & Hi & Hs) & Hmin).
    assert (list_find (λ s, Is_true (isVideoSender s)) senders = Some (i, s))
      as ->; [|done].
    apply list_find_Some. split_and!; [done| |].
    + by apply isVideoSender_carriesVideo.
    + intros j s' Hl Hj Hc. apply (Hmin j s' Hj Hl).
      by apply isVideoSender_carriesVideo.
Qed.

Lemma findVideoSender_none senders :
  findVideoSender senders = None ↔ ∀ s, s ∈ senders → ¬ carriesVideo s.
Proof.
  unfold findVideoSender. rewrite fmap_None, list_find_None, Forall_forall.
  split; intros H s Hs Hc; apply (H s Hs); by apply isVideoSender_carriesVideo.
Qed.

(** One turn of the loop of [startScreenShare] on an open connection that
    does not send [v] yet. *)
Lemma shareToPeer_run screen v ref p w :
  head (getVideoTracks screen) = Some v →
  pcs (browser w) !! ref = Some p →
  pc_closed p = false → Some v ∉ pc_senders p →
  shareToPeer screen ref w
  = (Normal (),
     mkWorld (mgr w)
       (set_pcs (<[ref := pc_set_senders
                          match findVideoSender (pc_senders p) with
                          | Some sender => <[sender := Some v]> (pc_senders p)
                          | None => pc_senders p ++ [Some v]
                          end p]>) (browser w))
       (effects w)).
Proof.
  intros Hv Hp Hopen Hnew. unfold shareToPeer.
  rewrite bind_run. unfold getPc at 1. rewrite bind_run. simpl. rewrite Hp.
  simpl. rewrite Hv.
  destruct (findVideoSender (pc_senders p)) as [i|] eqn:Hf.
  - apply findVideoSender_Some in Hf as (old & Hi & Hk).
    unfold replaceTrack, getPc. rewrite !bind_run. simpl. rewrite Hp. simpl.
    rewrite Hopen, Hi. rewrite decide_True
      by (rewrite Hk; symmetry; by eapply getVideoTracks_head).
    unfold updatePc, modifyBrowser, set_pcs. simpl.
    by rewrite (alter_lookup _ _ _ _ Hp).
  - unfold addTrack, getPc. rewrite !bind_run. simpl. rewrite Hp. simpl.
    rewrite Hopen. rewrite bool_decide_eq_false_2 by done.
    unfold updatePc, modifyBrowser, set_pcs. simpl.
    by rewrite (alter_lookup _ _ _ _ Hp).
Qed.

(** The whole loop: every listed connection is updated once, the others
    and the manager are not touched, and the loop does not throw. *)
Lemma shareAll_run screen v refs w :
  head (getVideoTracks screen) = Some v →
  NoDup refs →
  Forall (λ r, ∃ q, pcs (browser w) !! r = Some q
                 ∧ pc_closed q = false ∧ Some v ∉ pc_senders q) refs →
  ∃ w', forEach refs (shareToPeer screen) w = (Normal (), w')
    ∧ mgr w' = mgr w
    ∧ length (pcs (browser w')) = length (pcs (browser w))
    ∧ (∀ r q, r ∈ refs → pcs (browser w) !! r = Some q →
              pcs (browser w') !! r
              = Some (pc_set_senders
                        match findVideoSender (pc_senders q) with
                        | Some sender => <[sender := Some v]> (pc_senders q)
                        | None => pc_senders q ++ [Some v]
                        end q))
    ∧ (∀ r, r ∉ refs → pcs (browser w') !! r = pcs (browser w) !! r).
Proof.
  intros Hv. revert w. induction refs as [|r refs IH]; intros w Hnd Hall.
  - exists w. split_and!; try done. intros r q Hin. by apply elem_of_nil in Hin.
  - apply NoDup_cons in Hnd as [Hr Hnd].
    apply Forall_cons in Hall as [(q & Hq & Hopen & Hnew) Hall].
    simpl. rewrite bind_run, (shareToPeer_run screen v r q w) by done.
    match goal with
    | |- context [forEach refs _ ?x] => set (w1 := x)
    end.
    destruct (IH w1 Hnd) as (w' & Hrun & Hm & Hl & Hin & Hout).
    { rewrite Forall_forall in Hall. rewrite Forall_forall. intros r' Hr'.
      destruct (Hall r' Hr') as (q' & Hq' & ? & ?). exists q'.
      split_and!; try done. simpl. rewrite list_lookup_insert_ne; [done|].
      intros <-. done. }
    exists w'. split_and!; try done.
    + rewrite Hl. simpl. by rewrite length_insert.
    + intros r' q' Hr' Hq'. apply elem_of_cons in Hr' as [->|Hr'].
      * rewrite Hout by done. simpl. rewrite Hq in Hq'. injection Hq' as <-.
        apply list_lookup_insert_eq. by eapply lookup_lt_Some.
      * apply Hin; [done|]. simpl. rewrite list_lookup_insert_ne; [done|].
        intros <-. done.
    + intros r' Hr'. apply not_elem_of_cons in Hr' as [Hne Hr'].
      rewrite Hout by done. simpl. by rewrite list_lookup_insert_ne.
Qed.

Lemma frame_stop pc t : keeps (frame pc) (stop t).
Proof. apply frame_set_stoppedTracks. Qed.

Lemma frame_updateLocalStream pc screen :
  keeps (frame pc) (updateLocalStream screen).
Proof.
  unfold updateLocalStream. pose proof (frame_stop pc). repeat frame_step.
Qed.

(** *** Sending and leaving *)

Lemma sendMessage_loop content b m (chans : list nat) (es : list Effect) :
  forEach chans (λ channel,
    b' ← getBrowser;
    match dcs b' !! channel with
    | Some d => if decide (dc_readyState d = dc_open)
                then channelSend channel content else mret ()
    | None => mret ()
    end) (mkWorld m b es)
  = (Normal (), mkWorld m b
       (es ++ map (λ ch, ChannelSend ch content)
                (List.filter (isOpenChannel b) chans))).
Proof.
  revert es. induction chans as [|ch chans IH]; intros es; simpl.
  - by rewrite app_nil_r.
  - rewrite bind_run, bind_run. simpl. unfold isOpenChannel at 1.
    destruct (dcs b !! ch) as [d|] eqn:Hd; simpl; [|apply IH].
    destruct (decide (dc_readyState d = dc_open)) as [Ho|Hc].
    + rewrite bool_decide_eq_true_2 by done.
      unfold channelSend. rewrite bind_run. simpl. rewrite Hd.
      rewrite decide_True by done. simpl. rewrite IH.
      by rewrite <- app_assoc.
    + rewrite bool_decide_eq_false_2 by done. apply IH.
Qed.

(** [sendMessage] writes [content] to every open channel of the map, in
    map order, and changes nothing. *)
Lemma sendMessage_run content w :
  sendMessage content w
  = (Normal (), mkWorld (mgr w) (browser w)
       (effects w ++ map (λ ch, ChannelSend ch content) (openChannels w))).
Proof.
  unfold sendMessage. rewrite bind_run. simpl. destruct w as [m b es].
  apply sendMessage_loop.
Qed.

Lemma forEach_close_run refs w :
  forEach refs close w
  = (Normal (), mkWorld (mgr w) (closeAll refs (browser w)) (effects w)).
Proof.
  revert w. induction refs as [|r refs IH]; intros w; simpl.
  - by rewrite world_eta.
  - rewrite bind_run. unfold close at 1. rewrite bind_run. simpl.
    by rewrite IH.
Qed.

Lemma forEach_stop_run tracks w :
  forEach tracks stop w
  = (Normal (), mkWorld (mgr w) (stopAll tracks (browser w)) (effects w)).
Proof.
  revert w. induction tracks as [|t tracks IH]; intros w; simpl.
  - by rewrite world_eta.
  - rewrite bind_run. simpl. by rewrite IH.
Qed.

(** [cleanup] closes every registered connection, stops every track of
    the local stream and resets the manager. *)
Lemma cleanup_run w :
  cleanup w
  = (Normal (),
     mkWorld (mkManager (userId (mgr w)) [] [] None false false)
       (stopAll (default [] (localStream (mgr w)))
          (closeAll (jm_values (peers (mgr w))) (browser w)))
       (effects w)).
Proof.
  unfold cleanup. rewrite bind_run. simpl. rewrite bind_run, forEach_close_run.
  destruct w as [[u ps ds [tracks|] v vi] b es]; simpl.
  - do 4 (rewrite bind_run; simpl). by rewrite bind_run, forEach_stop_run.
  - done.
Qed.

Lemma closeOne_lookup b x r :
  pcs (closeOne b x) !! r
  = (if decide (x = r) then pc_set_closed else id) <$> pcs b !! r.
Proof.
  unfold closeOne. simpl. destruct (decide (x = r)) as [->|Hne].
  - by rewrite list_lookup_alter_eq.
  - rewrite list_lookup_alter_ne by done. by destruct (pcs b !! r).
Qed.

Lemma closeAll_stays_closed refs b r p :
  pcs b !! r = Some p → pc_closed p = true →
  ∃ p', pcs (closeAll refs b) !! r = Some p' ∧ pc_closed p' = true.
Proof.
  revert b p. induction refs as [|x refs IH]; intros b p Hp Hc; simpl.
  - by exists p.
  - eapply IH.
    + rewrite closeOne_lookup, Hp. done.
    + by destruct (decide (x = r)).
Qed.

Lemma closeAll_closes refs b r p :
  r ∈ refs → pcs b !! r = Some p →
  ∃ p', pcs (closeAll refs b) !! r = Some p' ∧ pc_closed p' = true.
Proof.
  revert b p. induction refs as [|x refs IH]; intros b p Hin Hp; simpl.
  - by apply elem_of_nil in Hin.
  - destruct (decide (x = r)) as [->|Hne].
    + eapply closeAll_stays_closed.
      * rewrite closeOne_lookup, Hp, decide_True by done. done.
      * done.
    + apply elem_of_cons in Hin as [->|Hin]; [done|].
      eapply IH; [done|]. rewrite closeOne_lookup, Hp, decide_False by done.
      done.
Qed.

Lemma closeAll_other refs b r :
  r ∉ refs → pcs (closeAll refs b) !! r = pcs b !! r.
Proof.
  revert b. induction refs as [|x refs IH]; intros b Hr; [done|].
  apply not_elem_of_cons in Hr as [Hne Hr]. simpl.
  rewrite IH by done. rewrite closeOne_lookup, decide_False by done.
  by destruct (pcs b !! r).
Qed.

Lemma stopAll_pcs tracks b : pcs (stopAll tracks b) = pcs b.
Proof.
  revert b. induction tracks as [|t tracks IH]; intros b; simpl; [done|].
  by rewrite IH.
Qed.

Lemma stopAll_keeps tracks b t :
  t ∈ stoppedTracks b → t ∈ stoppedTracks (stopAll tracks b).
Proof.
  revert b. induction tracks as [|x tracks IH]; intros b Hin; simpl; [done|].
  apply IH. simpl. apply js_add_elem. by right.
Qed.

Lemma stopAll_stops tracks b t :
  t ∈ tracks → t ∈ stoppedTracks (stopAll tracks b).
Proof.
  revert b. induction tracks as [|x tracks IH]; intros b Hin; simpl.
  - by apply elem_of_nil in Hin.
  - apply elem_of_cons in Hin as [->|Hin]; [|by apply IH].
    apply stopAll_keeps. simpl. apply js_add_elem. by left.
Qed.

Lemma stopAll_only tracks b t :
  t ∈ stoppedTracks (stopAll tracks b) → t ∈ stoppedTracks b ∨ t ∈ tracks.
Proof.
  revert b. induction tracks as [|x tracks IH]; intros b Hin; simpl in *.
  - by left.
  - apply IH in Hin as [Hin|Hin].
    + simpl in Hin. apply js_add_elem in Hin as [->|Hin]; [right; left|by left].
    + right. by right.
Qed.

Lemma closeAll_stoppedTracks refs b :
  stoppedTracks (closeAll refs b) = stoppedTracks b.
Proof.
  revert b. induction refs as [|x refs IH]; intros b; simpl; [done|].
  by rewrite IH.
Qed.

Lemma openChannels_elem w ch :
  ch ∈ openChannels w
  ↔ ∃ peerId d, (peerId, ch) ∈ dataChannels (mgr w)
      ∧ dcs (browser w) !! ch = Some d ∧ dc_readyState d = dc_open.
Proof.
  unfold openChannels, jm_values.
  rewrite list_elem_of_In, List.filter_In, <- list_elem_of_In, list_elem_of_fmap.
  unfold isOpenChannel. split.
  - intros (([peerId ch'] & -> & Hin) & Ho). simpl in *.
    destruct (dcs (browser w) !! ch') as [d|]; [|done].
    exists peerId, d. split_and!; [done..|]. by apply bool_decide_eq_true in Ho.
  - intros (peerId & d & Hin & -> & Ho). split.
    + by exists (peerId, ch).
    + by apply bool_decide_eq_true.
Qed.

(** [leaveChannel] with a manager and a socket. *)
Lemma leaveChannel_run c h w :
  webrtcManagerRef h = Some w → socket h = true →
  leaveChannel c h
  = mkHook true (hook_userId h)
      (Some (mkWorld (mkManager (userId (mgr w)) [] [] None false false)
               (stopAll (default [] (localStream (mgr w)))
                  (closeAll (jm_values (peers (mgr w))) (browser w)))
               (effects w ++ [SocketSend
                  (mkSignal leave_channel None None (Some c)
                     (Some (hook_userId h)) None)])))
      [] None.
Proof.
  intros Hw Hs. unfold leaveChannel. rewrite Hw, Hs.
  unfold withManager, setCurrentChannel, setConnectedPeers. simpl.
  rewrite Hw. simpl. rewrite cleanup_run. simpl. by rewrite Hs.
Qed.




(** *** What a session writes *)

#[local] Instance appends_refl P : Reflexive (appends P).
Proof. intros w. exists []. by rewrite app_nil_r. Qed.

#[local] Instance appends_trans P : Transitive (appends P).
Proof.
  intros w1 w2 w3 (es & He & HP) (es' & He' & HP'). exists (es ++ es').
  split; [by rewrite He', He, app_assoc|by apply Forall_app].
Qed.

Lemma appends_getMgr P : keeps (appends P) getMgr.
Proof. intros w. simpl. reflexivity. Qed.

Lemma appends_getBrowser P : keeps (appends P) getBrowser.
Proof. intros w. simpl. reflexivity. Qed.

Lemma appends_modifyMgr P f : keeps (appends P) (modifyMgr f).
Proof. intros w. exists []. by rewrite app_nil_r. Qed.

Lemma appends_modifyBrowser P f : keeps (appends P) (modifyBrowser f).
Proof. intros w. exists []. by rewrite app_nil_r. Qed.

Lemma appends_updatePc P pc f : keeps (appends P) (updatePc pc f).
Proof. apply appends_modifyBrowser. Qed.

Lemma appends_emit (P : Effect → Prop) e : P e → keeps (appends P) (emit e).
Proof. intros He w. exists [e]. split; [done|]. by apply Forall_singleton. Qed.

#[local] Hint Resolve appends_getMgr appends_getBrowser appends_modifyMgr
  appends_modifyBrowser appends_updatePc appends_emit : js_frame.
#[local] Hint Extern 1 (notAnOffer _) => (simpl; done) : js_frame.

Create HintDb js_ops.
#[local] Hint Unfold getPc addTrack replaceTrack
  createDataChannel createOffer createAnswer setLocalDescription
  setRemoteDescription addIceCandidate stop socketSend channelSend
  getMedia setupDataChannel addLocalTracks handleOffer
  handleAnswer handleIceCandidate : js_ops.

(** Unfolds the operations of the session down to reads, writes and
    effects, and takes the result apart. *)
Ltac js_keeps := repeat first [frame_step | progress autounfold with js_ops].

Lemma appends_createPeerConnection P peerId :
  keeps (appends P) (createPeerConnection peerId).
Proof. unfold createPeerConnection, newRTCPeerConnection. js_keeps. Qed.

Lemma appends_disconnectFromPeer (P : Effect → Prop) peerId :
  P (PeerDisconnected peerId) → keeps (appends P) (disconnectFromPeer peerId).
Proof.
  intros HP. pose proof (appends_emit P _ HP).
  unfold disconnectFromPeer, close. js_keeps.
Qed.

#[local] Hint Resolve appends_createPeerConnection : js_frame.
#[local] Hint Extern 1 (keeps (appends notAnOffer) (disconnectFromPeer _)) =>
  (apply appends_disconnectFromPeer; exact I) : js_frame.

(** A session sends an offer only when it is told that a peer joined:
    handling any other envelope writes no offer to the socket. *)
Lemma handleSignal_sends_no_offer signal :
  type signal ≠ peer_joined →
  keeps (appends notAnOffer) (handleSignal signal).
Proof.
  intros Ht. unfold handleSignal. destruct (type signal); try done; js_keeps.
Qed.

Lemma onSocketMessage_sends_no_offer signal :
  type signal ≠ peer_joined →
  keeps (appends notAnOffer) (onSocketMessage (Some signal)).
Proof.
  intros Ht. unfold onSocketMessage. apply keeps_tryCatch; [apply _| |].
  - by apply handleSignal_sends_no_offer.
  - intros e. js_keeps.
Qed.

(** *** The registry of a reachable session *)

#[local] Instance preserves_refl I : Reflexive (preserves I).
Proof. intros w Hw. exact Hw. Qed.

#[local] Instance preserves_trans I : Transitive (preserves I).
Proof. intros w1 w2 w3 H12 H23 H1. by apply H23, H12. Qed.

Lemma registry_getMgr : keeps (preserves registryOk) getMgr.
Proof. intros w Hw. exact Hw. Qed.

Lemma registry_getBrowser : keeps (preserves registryOk) getBrowser.
Proof. intros w Hw. exact Hw. Qed.

Lemma registry_emit e : keeps (preserves registryOk) (emit e).
Proof. intros w Hw. exact Hw. Qed.

Lemma registry_modifyMgr f :
  (∀ m, peers (f m) = peers m) → keeps (preserves registryOk) (modifyMgr f).
Proof. intros Hf w. unfold preserves, registryOk. simpl. by rewrite Hf. Qed.

Lemma registry_modifyBrowser f :
  (∀ b, pcs (f b) = pcs b) → keeps (preserves registryOk) (modifyBrowser f).
Proof. intros Hf w. unfold preserves, registryOk. simpl. by rewrite Hf. Qed.

Lemma registry_updatePc pc f :
  (∀ p, pc_closed (f p) = pc_closed p) →
  keeps (preserves registryOk) (updatePc pc f).
Proof.
  intros Hf w (Hk & Hnd & Hall). split_and!; [done..|]. simpl.
  rewrite Forall_forall in Hall. rewrite Forall_forall. intros [k r] Hin.
  destruct (Hall _ Hin) as (p & Hp & Hopen). simpl in *.
  destruct (decide (pc = r)) as [->|Hne].
  - exists (f p). rewrite list_lookup_alter_eq, Hp. by rewrite Hf.
  - exists p. by rewrite list_lookup_alter_ne.
Qed.

Lemma registry_createPeerConnection peerId :
  keeps (preserves registryOk) (createPeerConnection peerId).
Proof.
  intros w (Hk & Hnd & Hall). rewrite createPeerConnection_run. simpl.
  rewrite Forall_forall in Hall. split_and!; simpl.
  - by apply jm_set_NoDup.
  - apply jm_set_values_NoDup; [done|]. unfold jm_values.
    rewrite list_elem_of_fmap. intros ([k r] & Hr & Hin). simpl in Hr.
    destruct (Hall _ Hin) as (p & Hp & _). simpl in Hp.
    apply lookup_lt_Some in Hp. lia.
  - apply jm_set_Forall.
    + rewrite Forall_forall. intros [k r] Hin.
      destruct (Hall _ Hin) as (p & Hp & Hopen). exists p.
      split; [|done]. simpl in *. by apply lookup_app_l_Some.
    + exists (mkPC peerId false [] None None []). split; [|done]. simpl.
      by rewrite lookup_app_r, Nat.sub_diag by lia.
Qed.

Lemma disconnectFromPeer_run peerId w :
  disconnectFromPeer peerId w
  = (Normal (),
     mkWorld
       (set_dataChannels (jm_delete peerId)
          (set_peers (jm_delete peerId) (mgr w)))
       (match jm_get peerId (peers (mgr w)) with
        | Some pc => closeOne (browser w) pc
        | None => browser w
        end)
       (effects w ++ [PeerDisconnected peerId])).
Proof.
  unfold disconnectFromPeer. rewrite bind_run. simpl.
  destruct (jm_get peerId (peers (mgr w))) as [pc|] eqn:Hg.
  - repeat (rewrite bind_run; simpl). done.
  - repeat (rewrite bind_run; simpl). unfold set_dataChannels, set_peers.
    simpl. by rewrite (jm_delete_absent _ _ Hg).
Qed.

Lemma registry_disconnectFromPeer peerId :
  keeps (preserves registryOk) (disconnectFromPeer peerId).
Proof.
  intros w (Hk & Hnd & Hall). rewrite disconnectFromPeer_run. simpl.
  rewrite Forall_forall in Hall. split_and!; simpl.
  - by apply jm_delete_NoDup.
  - by apply jm_delete_values_NoDup.
  - rewrite Forall_forall. intros [k r] Hin.
    destruct (Hall (k, r)) as (p & Hp & Hopen); [by eapply jm_delete_elem|].
    exists p. split; [|done]. simpl in *.
    destruct (jm_get peerId (peers (mgr w))) as [pc|] eqn:Hg; [|done].
    rewrite closeOne_lookup, Hp. rewrite decide_False; [done|].
    intros ->. by eapply (jm_delete_other_value peerId r k r).
Qed.

Lemma registry_cleanup : keeps (preserves registryOk) cleanup.
Proof.
  intros w _. rewrite cleanup_run. split_and!; simpl; constructor.
Qed.

#[local] Hint Resolve registry_getMgr registry_getBrowser registry_emit
  registry_createPeerConnection registry_disconnectFromPeer registry_cleanup
  : js_frame.
#[local] Hint Extern 1 (keeps (preserves registryOk) (modifyMgr _)) =>
  (apply registry_modifyMgr; intros; reflexivity) : js_frame.
#[local] Hint Extern 1 (keeps (preserves registryOk) (modifyBrowser _)) =>
  (apply registry_modifyBrowser; intros; reflexivity) : js_frame.
#[local] Hint Extern 1 (keeps (preserves registryOk) (updatePc _ _)) =>
  (apply registry_updatePc; intros; reflexivity) : js_frame.

#[local] Hint Unfold connectToPeer handleSignal onSocketMessage sendMessage
  addTracksToAllPeers startVoiceCall startVideoCall shareToPeer
  updateLocalStream startScreenShare onconnectionstatechange onicecandidate
  ondatachannel dataChannel_onopen dataChannel_onclose : js_ops.

Ltac js_keeps_all :=
  repeat first
    [ frame_step
    | match goal with
      | |- keeps _ (tryCatch _ _) =>
          apply keeps_tryCatch; [apply _| |intros ?]
      end
    | progress autounfold with js_ops ].

Lemma registry_perform a : keeps (preserves registryOk) (perform a).
Proof. destruct a; simpl; js_keeps_all. Qed.

(** In every state a session can be in, the registry names distinct
    connections that exist and are open. *)
Lemma reachableSession_registryOk u w : reachableSession u w → registryOk w.
Proof.
  induction 1 as [|w a _ IH]; [split_and!; constructor|].
  by apply registry_perform.
Qed.

Lemma registry_connectToPeer peerId :
  keeps (preserves registryOk) (connectToPeer peerId).
Proof. js_keeps_all. Qed.

Lemma registry_handleOffer signal :
  keeps (preserves registryOk) (handleOffer signal).
Proof. js_keeps_all. Qed.

(** C3, as amended. The registry has at most one entry per remote
    identity, but a link-creation request is never a no-op: after
    [connectToPeer(peerId)], and after [handleOffer] of an offer from
    [peerId], the entry of [peerId] is a connection that did not exist
    before, whether or not [peerId] had one. The registry stays in order
    (one entry per identity, each an open connection of its own), the
    entries of the other identities are kept, and every connection that
    existed, the replaced one included, is left as it was: not closed,
    and no longer registered. *)
Theorem link_creation_always_replaces w peerId signal w' :
  registryOk w →
  from signal = peerId →
  w' = (connectToPeer peerId w).2 ∨ w' = (handleOffer signal w).2 →
  registryOk w'
  ∧ jm_get peerId (peers (mgr w')) = Some (length (pcs (browser w)))
  ∧ pcs (browser w) !! length (pcs (browser w)) = None
  ∧ (∀ other, other ≠ peerId →
       jm_get other (peers (mgr w')) = jm_get other (peers (mgr w)))
  ∧ (∀ ref, ref < length (pcs (browser w)) →
       pcs (browser w') !! ref = pcs (browser w) !! ref).
Proof.
  intros Hok Hfrom Hw'.
  assert (peers (mgr w') = jm_set peerId (length (pcs (browser w))) (peers (mgr w))
          ∧ length (pcs (browser w')) = S (length (pcs (browser w)))
          ∧ ∀ ref, ref < length (pcs (browser w)) →
                   pcs (browser w') !! ref = pcs (browser w) !! ref)
    as (Hp & _ & Hr).
  { destruct Hw' as [Hw'|Hw'].
    - destruct (connectToPeer_split peerId) as (rest & Hrest & Heq).
      rewrite Heq in Hw'. by apply (after_createPeerConnection peerId w rest).
    - subst peerId.
      destruct (handleOffer_split signal) as (rest & Hrest & Heq).
      rewrite Heq in Hw'.
      by apply (after_createPeerConnection (from signal) w rest). }
  split_and!.
  - destruct Hw' as [->| ->].
    + by apply registry_connectToPeer.
    + by apply registry_handleOffer.
  - rewrite Hp. apply jm_get_set_eq.
  - by apply lookup_ge_None.
  - intros other Hne. rewrite Hp. by apply jm_get_set_ne.
  - done.
Qed.

Lemma link_creation_always_replaces_witness :
  let w' := (connectToPeer (Some "bob") bobLinked).2 in
  registryOk w'
  ∧ jm_get (Some "bob") (peers (mgr w')) = Some (length (pcs (browser bobLinked)))
  ∧ pcs (browser bobLinked) !! length (pcs (browser bobLinked)) = None
  ∧ (∀ other, other ≠ Some "bob" →
       jm_get other (peers (mgr w')) = jm_get other (peers (mgr bobLinked)))
  ∧ (∀ ref, ref < length (pcs (browser bobLinked)) →
       pcs (browser w') !! ref = pcs (browser bobLinked) !! ref).
Proof.
  intros w'.
  apply (link_creation_always_replaces bobLinked (Some "bob") offerFromBob w').
  - exact (reachableSession_registryOk "alice" bobLinked
             (reachable_perform "alice" _ (SocketMessage (Some bobJoined))
                (reachable_new "alice"))).
  - reflexivity.
  - left. reflexivity.
Defined.



End ClientFacts.

(** ** Discovery *)

Section DiscoveryFacts.
Import Coordinator CoordinatorSpec.

(** C6, counterexample. Alice is a member of [general], bound on sockets
    1 and 2; socket 1 is closing and socket 2 is open. Carol joins
    [general] on socket 3: nothing is written, so alice, another current
    member with an open connection, is not told. *)
Lemma join_skips_member_behind_closing_socket :
  "alice" ∈ members aliceTwice "general"
  ∧ boundTo aliceTwice 2 "alice" ∧ firstClosing 2 = OPEN
  ∧ (onMessage firstClosing aliceTwice 3 (joinChannelOf "carol" "general")).2
    = [].
Proof.
  split_and!; [|by apply (list_elem_of_lookup_2 _ 1)|reflexivity..].
  apply (bool_decide_unpack _). by vm_compute.
Qed.

(** C6, as amended. Join discovery is asymmetric, and a member is told
    through its oldest binding. When the coordinator handles
    [join-channel] for identity [u] and channel [c] (both non-empty), it
    writes [peer-joined{from: u, channelId: c}] once to the oldest binding
    of each member of [c] other than [u] whose socket is open, and to no
    other socket: a member bound on one socket only is told when that
    socket is open, a member whose oldest binding is not open is told on
    none of its sockets, and nothing at all is written to the socket the
    join came from or to any other socket bound to [u], so the joiner is
    not told who is there. And a session sends an offer only when it
    handles a [peer-joined]: for any other envelope it writes no offer, so
    a joiner, told of nobody, starts no handshake and can only answer the
    offers of the members that were told of it. *)
Theorem join_discovery_asymmetric rs st w msg u c :
  wf st →
  type msg = join_channel → userId msg = Some u → channelId msg = Some c →
  u ≠ "" → c ≠ "" →
  ∀ st' out, onMessage rs st w msg = (st', out) →
    NoDup out
    ∧ (∀ w' e, (w', e) ∈ out ↔
         e = peerJoined u c ∧ reached rs st' c (λ p, p ≠ u) w')
    ∧ (∀ p w', p ∈ members st' c → p ≠ u →
         boundTo st' w' p → (∀ w2, boundTo st' w2 p → w2 = w') →
         rs w' = OPEN → (w', peerJoined u c) ∈ out)
    ∧ (∀ p w0 w' e, oldestBinding st' p w0 → rs w0 ≠ OPEN →
         boundTo st' w' p → (w', e) ∉ out)
    ∧ boundTo st' w u
    ∧ (∀ w' e, boundTo st' w' u → (w', e) ∉ out)
    ∧ (∀ signal session, type signal ≠ peer_joined →
         ClientSpec.appends ClientSpec.notAnOffer session
           (Client.onSocketMessage (Some signal) session).2).
Proof.
  intros Hwf Ht Hu Hc Hu' Hc' st' out Hrun.
  destruct (join_recipients rs st w msg u c st' out Hwf Ht Hu Hc Hu' Hc' Hrun)
    as (Hwf' & Hnd & Hout).
  split_and!; [done|done| | | | |].
  - intros p w' Hp Hne Hb Honly Ho. apply Hout. split; [done|].
    by apply (reached_only_binding rs st' c _ p).
  - intros p w0 w' e Hold Hclosed Hb Hin. apply Hout in Hin as [_ Hin].
    by apply (reached_not_behind rs st' c _ p w0 w') in Hin.
  - rewrite (onMessage_join rs st w msg u c) in Hrun by done.
    simpl in Hrun. injection Hrun as <- _. unfold boundTo. simpl.
    apply jm_get_Some_elem, jm_get_set_eq.
  - intros w' e Hb Hin. apply Hout in Hin as (_ & p & _ & Hne & Hold & _).
    apply Hne. eapply boundTo_one_identity; [done| |done].
    by apply oldestBinding_boundTo.
  - intros signal session Hs.
    by apply onSocketMessage_sends_no_offer.
Qed.

Lemma join_discovery_asymmetric_witness :
  onMessage allOpen aliceAndBob 3 (joinChannelOf "carol" "general")
  = ((onMessage allOpen aliceAndBob 3 (joinChannelOf "carol" "general")).1,
     [(1, peerJoined "carol" "general"); (2, peerJoined "carol" "general")])
  ∧ (3, peerJoined "carol" "general")
    ∉ (onMessage allOpen aliceAndBob 3 (joinChannelOf "carol" "general")).2.
Proof.
  pose proof (join_discovery_asymmetric allOpen aliceAndBob 3
                (joinChannelOf "carol" "general") "carol" "general") as H.
  destruct (H (wf_handle allOpen _ (EvMessage 2 (joinChannelOf "bob" "general"))
                 (wf_handle allOpen _
                    (EvMessage 1 (joinChannelOf "alice" "general")) wf_init))
              eq_refl eq_refl eq_refl)
    with (st' := (onMessage allOpen aliceAndBob 3
                    (joinChannelOf "carol" "general")).1)
         (out := [(1, peerJoined "carol" "general");
                  (2, peerJoined "carol" "general")])
    as (_ & _ & _ & _ & Hb & Hnot & _).
  - discriminate.
  - discriminate.
  - reflexivity.
  - split; [reflexivity|]. apply Hnot. exact Hb.
Defined.

End DiscoveryFacts.

(** ** The mesh *)

(** *** The same run under other names *)

Section RenamingFacts.
Import Coordinator MeshSpec.

(** *** Containers under an injective renaming of their keys *)

Lemma jm_get_ren {K V K' V'} `{EqDecision K, EqDecision K'}
    (f : K → K') (g : V → V') `{!Inj (=) (=) f} k (m : list (K * V)) :
  jm_get (f k) (prod_map f g <$> m) = g <$> jm_get k m.
Proof.
  induction m as [|[k' v] m IH]; csimpl; [done|].
  destruct (decide (k = k')) as [->|Hne].
  - by rewrite decide_True.
  - rewrite decide_False; [done|]. intros Heq. by apply (inj f) in Heq.
Qed.

Lemma jm_has_ren {K V K' V'} `{EqDecision K, EqDecision K'}
    (f : K → K') (g : V → V') `{!Inj (=) (=) f} k (m : list (K * V)) :
  jm_has (f k) (prod_map f g <$> m) = jm_has k m.
Proof. unfold jm_has. rewrite jm_get_ren by done. by destruct (jm_get k m). Qed.

Lemma jm_set_ren {K V K' V'} `{EqDecision K, EqDecision K'}
    (f : K → K') (g : V → V') `{!Inj (=) (=) f} k v (m : list (K * V)) :
  jm_set (f k) (g v) (prod_map f g <$> m) = prod_map f g <$> jm_set k v m.
Proof.
  induction m as [|[k' v'] m IH]; csimpl; [done|].
  destruct (decide (k = k')) as [->|Hne].
  - by rewrite decide_True.
  - rewrite decide_False; [|intros Heq; by apply (inj f) in Heq].
    csimpl. by rewrite IH.
Qed.

Lemma jm_delete_ren {K V K' V'} `{EqDecision K, EqDecision K'}
    (f : K → K') (g : V → V') `{!Inj (=) (=) f} k (m : list (K * V)) :
  jm_delete (f k) (prod_map f g <$> m) = prod_map f g <$> jm_delete k m.
Proof.
  induction m as [|[k' v'] m IH]; csimpl; [done|].
  destruct (decide (k = k')) as [->|Hne].
  - by rewrite decide_True.
  - rewrite decide_False; [|intros Heq; by apply (inj f) in Heq].
    csimpl. by rewrite IH.
Qed.

Lemma jm_set_ren_val {K V V'} `{EqDecision K} (g : V → V') k v
    (m : list (K * V)) :
  jm_set k (g v) (prod_map id g <$> m) = prod_map id g <$> jm_set k v m.
Proof. exact (jm_set_ren id g k v m). Qed.

Lemma jm_get_ren_key {K V K'} `{EqDecision K, EqDecision K'}
    (f : K → K') `{!Inj (=) (=) f} k (m : list (K * V)) :
  jm_get (f k) (prod_map f id <$> m) = jm_get k m.
Proof. rewrite (jm_get_ren f id). by destruct (jm_get k m). Qed.

Lemma jm_set_ren_key {K V K'} `{EqDecision K, EqDecision K'}
    (f : K → K') `{!Inj (=) (=) f} k v (m : list (K * V)) :
  jm_set (f k) v (prod_map f id <$> m) = prod_map f id <$> jm_set k v m.
Proof. exact (jm_set_ren f id k v m). Qed.

Lemma jm_delete_ren_key {K V K'} `{EqDecision K, EqDecision K'}
    (f : K → K') `{!Inj (=) (=) f} k (m : list (K * V)) :
  jm_delete (f k) (prod_map f id <$> m) = prod_map f id <$> jm_delete k m.
Proof. exact (jm_delete_ren f id k m). Qed.

Lemma jm_values_ren_key {K V K'} (f : K → K') (m : list (K * V)) :
  jm_values (prod_map f id <$> m) = jm_values m.
Proof.
  unfold jm_values. rewrite <- list_fmap_compose.
  by apply list_fmap_ext.
Qed.

Lemma jm_values_ren {K V K' V'} (f : K → K') (g : V → V') (m : list (K * V)) :
  jm_values (prod_map f g <$> m) = g <$> jm_values m.
Proof.
  unfold jm_values. rewrite <- !list_fmap_compose. by apply list_fmap_ext.
Qed.

Lemma js_add_ren {A B} `{EqDecision A, EqDecision B}
    (f : A → B) `{!Inj (=) (=) f} x (s : list A) :
  js_add (f x) (f <$> s) = f <$> js_add x s.
Proof.
  induction s as [|y s IH]; csimpl; [done|].
  destruct (decide (x = y)) as [->|Hne].
  - by rewrite decide_True.
  - rewrite decide_False; [|intros Heq; by apply (inj f) in Heq].
    csimpl. by rewrite IH.
Qed.

Lemma js_delete_ren {A B} `{EqDecision A, EqDecision B}
    (f : A → B) `{!Inj (=) (=) f} x (s : list A) :
  js_delete (f x) (f <$> s) = f <$> js_delete x s.
Proof.
  induction s as [|y s IH]; csimpl; [done|].
  destruct (decide (x = y)) as [->|Hne].
  - by rewrite decide_True.
  - rewrite decide_False; [|intros Heq; by apply (inj f) in Heq].
    csimpl. by rewrite IH.
Qed.

Lemma js_has_ren {A B} `{EqDecision A, EqDecision B}
    (f : A → B) `{!Inj (=) (=) f} x (s : list A) :
  js_has (f x) (f <$> s) = js_has x s.
Proof.
  unfold js_has. apply bool_decide_ext. rewrite list_elem_of_fmap. split.
  - intros (y & Heq & Hin). by apply (inj f) in Heq as ->.
  - intros Hin. by exists x.
Qed.

Lemma forallb_pointwise {A} (f g : A → bool) l :
  (∀ x, f x = g x) → forallb f l = forallb g l.
Proof. intros Hfg. induction l as [|x l IH]; simpl; [done|]. by rewrite Hfg, IH. Qed.

Lemma flat_map_ren {A B} (f : A → A) (g : B → B) (k k' : A → list B) l :
  (∀ x, k' (f x) = g <$> k x) →
  flat_map k' (f <$> l) = g <$> flat_map k l.
Proof.
  intros Hk. induction l as [|x l IH]; csimpl; [done|].
  by rewrite fmap_app, Hk, IH.
Qed.

Context (fu fc : string → string).
Context `{!Inj (=) (=) fu} `{!Inj (=) (=) fc}.
Hypothesis fu_empty : fu "" = "".
Hypothesis fc_empty : fc "" = "".

Lemma truthy_fu s : truthy (Some (fu s)) = truthy (Some s).
Proof.
  simpl. f_equal. destruct (String.eqb_spec s "") as [->|Hne].
  - rewrite fu_empty. done.
  - apply String.eqb_neq. intros Heq. rewrite <- fu_empty in Heq.
    by apply (inj fu) in Heq.
Qed.

Lemma truthy_fc s : truthy (Some (fc s)) = truthy (Some s).
Proof.
  simpl. f_equal. destruct (String.eqb_spec s "") as [->|Hne].
  - rewrite fc_empty. done.
  - apply String.eqb_neq. intros Heq. rewrite <- fc_empty in Heq.
    by apply (inj fc) in Heq.
Qed.

(** *** The coordinator *)

Lemma findConn_ren cu p :
  findConn (prod_map id (renConn fu) <$> cu) (fu p)
  = renConn fu <$> findConn cu p.
Proof.
  unfold findConn. rewrite jm_values_ren.
  induction (jm_values cu) as [|conn l IH]; simpl; [done|].
  destruct (decide (conn_userId conn = p)) as [<-|Hne].
  - by rewrite !bool_decide_eq_true_2.
  - rewrite !bool_decide_eq_false_2; [done|done|].
    intros Heq. by apply (inj fu) in Heq.
Qed.

Lemma sendIfOpen_ren rs c m :
  sendIfOpen rs (renConn fu <$> c) (renSignal fu fc m)
  = renSent fu fc (sendIfOpen rs c m).
Proof.
  unfold sendIfOpen. destruct c as [conn|]; simpl; [|done].
  by destruct (decide (rs (ws conn) = OPEN)).
Qed.

Lemma renState_users st :
  connectedUsers (renState fu fc st)
  = prod_map id (renConn fu) <$> connectedUsers st.
Proof. done. Qed.

Lemma renState_channels st :
  channelPeers (renState fu fc st)
  = prod_map fc (fmap (M:=list) fu) <$> channelPeers st.
Proof. done. Qed.

#[local] Instance fmap_fu_inj : Inj (=) (=) (fmap (M:=list) fu).
Proof. apply _. Qed.

Lemma renSignal_mk ty f t c u d :
  renSignal fu fc (mkSignal ty f t c u d)
  = mkSignal ty (fu <$> f) (fu <$> t) (fc <$> c) (fu <$> u) (renData fu d).
Proof. done. Qed.

Lemma onJoinChannel_ren rs st w m :
  onJoinChannel rs (renState fu fc st) w (renSignal fu fc m)
  = prod_map (renState fu fc) (renSent fu fc) (onJoinChannel rs st w m).
Proof.
  unfold onJoinChannel. destruct m as [ty f t c u d]. cbn [userId channelId renSignal].
  destruct u as [u|]; [|done]. destruct c as [c|]; [|done].
  cbn [fmap option_fmap option_map].
  rewrite truthy_fu, truthy_fc.
  destruct (truthy (Some u) && truthy (Some c)); [|done].
  rewrite renState_users, renState_channels.
  rewrite (jm_has_ren fc (fmap (M:=list) fu)).
  assert (∀ cp0, (if jm_has c cp0
                  then prod_map fc (fmap (M:=list) fu) <$> cp0
                  else jm_set (fc c) [] (prod_map fc (fmap (M:=list) fu) <$> cp0))
                 = prod_map fc (fmap (M:=list) fu) <$>
                     (if jm_has c cp0 then cp0 else jm_set c [] cp0)) as ->.
  { intros cp0. destruct (jm_has c cp0); [done|].
    by rewrite <- (jm_set_ren fc (fmap (M:=list) fu)). }
  set (cp1 := if jm_has c (channelPeers st) then _ else _).
  rewrite (jm_get_ren fc (fmap (M:=list) fu)).
  assert (default [] (fmap fu <$> jm_get c cp1)
          = fu <$> default [] (jm_get c cp1)) as ->
    by (by destruct (jm_get c cp1)).
  rewrite (js_add_ren fu), (jm_set_ren fc (fmap (M:=list) fu)).
  set (cp2 := jm_set c _ cp1).
  rewrite (jm_get_ren fc (fmap (M:=list) fu)).
  assert (default [] (fmap fu <$> jm_get c cp2)
          = fu <$> default [] (jm_get c cp2)) as ->
    by (by destruct (jm_get c cp2)).
  change (mkConn w (fu u)) with (renConn fu (mkConn w u)).
  rewrite jm_set_ren_val.
  cbn [prod_map fst snd]. f_equal.
  apply flat_map_ren. intros p.
  destruct (decide (p ≠ u)) as [Hne|Heq].
  - rewrite decide_True; [|intros Heq; by apply (inj fu) in Heq].
    rewrite findConn_ren. apply (sendIfOpen_ren rs _
      (mkSignal peer_joined (Some u) None (Some c) None None)).
  - rewrite decide_False; [done|]. intros Hne. apply Heq. intros ->. done.
Qed.

Lemma onLeaveChannel_ren rs st m :
  onLeaveChannel rs (renState fu fc st) (renSignal fu fc m)
  = prod_map (renState fu fc) (renSent fu fc) (onLeaveChannel rs st m).
Proof.
  unfold onLeaveChannel. destruct m as [ty f t c u d]. cbn [userId channelId renSignal].
  destruct u as [u|]; [|done]. destruct c as [c|]; [|done].
  cbn [fmap option_fmap option_map].
  rewrite truthy_fu, truthy_fc.
  rewrite renState_users, renState_channels.
  rewrite (jm_has_ren fc (fmap (M:=list) fu)).
  destruct (truthy (Some u) && truthy (Some c) && jm_has c (channelPeers st));
    [|done].
  rewrite (jm_get_ren fc (fmap (M:=list) fu)).
  assert (default [] (fmap fu <$> jm_get c (channelPeers st))
          = fu <$> default [] (jm_get c (channelPeers st))) as ->
    by (by destruct (jm_get c (channelPeers st))).
  rewrite (js_delete_ren fu), (jm_set_ren fc (fmap (M:=list) fu)).
  set (cp := jm_set c _ (channelPeers st)).
  rewrite (jm_get_ren fc (fmap (M:=list) fu)).
  assert (default [] (fmap fu <$> jm_get c cp)
          = fu <$> default [] (jm_get c cp)) as ->
    by (by destruct (jm_get c cp)).
  cbn [prod_map fst snd]. f_equal.
  apply flat_map_ren. intros p.
  rewrite findConn_ren. apply (sendIfOpen_ren rs _
    (mkSignal peer_left (Some u) None (Some c) None None)).
Qed.

Lemma onRelay_ren rs st m :
  onRelay rs (renState fu fc st) (renSignal fu fc m)
  = prod_map (renState fu fc) (renSent fu fc) (onRelay rs st m).
Proof.
  unfold onRelay. destruct (to m) as [t|] eqn:Ht.
  - assert (to (renSignal fu fc m) = Some (fu t)) as -> by (simpl; by rewrite Ht).
    rewrite truthy_fu. destruct (truthy (Some t)); [|done].
    rewrite renState_users, findConn_ren, sendIfOpen_ren. done.
  - assert (to (renSignal fu fc m) = None) as -> by (simpl; by rewrite Ht).
    done.
Qed.

Lemma onMessage_ren rs st w m :
  onMessage rs (renState fu fc st) w (renSignal fu fc m)
  = prod_map (renState fu fc) (renSent fu fc) (onMessage rs st w m).
Proof.
  unfold onMessage. change (type (renSignal fu fc m)) with (type m).
  destruct (type m); auto using onJoinChannel_ren, onLeaveChannel_ren, onRelay_ren.
Qed.

(** *** The session *)

Import Client Mesh.

#[local] Instance renPeer_inj : Inj (=) (=) (renPeer fu).
Proof. unfold renPeer. apply _. Qed.

Lemma peers_get_ren peerId (m : list (PeerId * nat)) :
  @jm_get (option string) nat _ (renPeer fu peerId)
    (prod_map (renPeer fu) id <$> m)
  = @jm_get (option string) nat _ peerId m.
Proof. apply (jm_get_ren_key (renPeer fu)). Qed.

Lemma json_description_round d :
  json_to_description (Some (description_to_json d)) = Some d.
Proof.
  destruct d as [[] u n]; unfold description_to_json, json_to_description;
    cbn [sdpType creator creatorPc]; by rewrite Nat2Z.id.
Qed.

Lemma json_candidate_round c :
  json_to_candidate (Some (candidate_to_json c)) = Some c.
Proof.
  destruct c as [u n]. unfold candidate_to_json, json_to_candidate.
  cbn [cand_user cand_pc]. by rewrite Nat2Z.id.
Qed.

Lemma json_description_candidate c :
  json_to_description (Some (candidate_to_json c)) = None.
Proof. done. Qed.

Lemma json_candidate_description d :
  json_to_candidate (Some (description_to_json d)) = None.
Proof. done. Qed.

Lemma json_not_both j d :
  json_to_description j = Some d → json_to_candidate j = None.
Proof.
  intros Hd. destruct j as [[| | | | | | | |l]|]; try done.
  destruct l as [|[k1 v1] [|[k2 v2] [|[k3 v3] l]]]; try done.
  - by destruct v1.
  - by destruct v1, v2.
  - clear Hd. by destruct v1, v2.
Qed.

Lemma renData_description j :
  json_to_description (renData fu j) = renDescription fu <$> json_to_description j.
Proof.
  unfold renData. destruct (json_to_description j) as [d|] eqn:Hd.
  - by rewrite json_description_round.
  - destruct (json_to_candidate j) as [c|] eqn:Hc; [done|]. by rewrite Hd.
Qed.

Lemma renData_candidate j :
  json_to_candidate (renData fu j) = renCandidate fu <$> json_to_candidate j.
Proof.
  unfold renData. destruct (json_to_description j) as [d|] eqn:Hd.
  - by rewrite (json_not_both j d).
  - destruct (json_to_candidate j) as [c|] eqn:Hc.
    + by rewrite json_candidate_round.
    + by rewrite Hc.
Qed.

Lemma renData_of_description d :
  renData fu (Some (description_to_json d))
  = Some (description_to_json (renDescription fu d)).
Proof. unfold renData. by rewrite json_description_round. Qed.

Lemma renData_of_candidate c :
  renData fu (Some (candidate_to_json c))
  = Some (candidate_to_json (renCandidate fu c)).
Proof. unfold renData. by rewrite json_candidate_round. Qed.

Lemma eqv_ret {A} (ra : A → A) a : eqv fu fc ra (mret a) (mret (ra a)).
Proof. by intros w. Qed.

Lemma eqv_bind {A B} (ra : A → A) (rb : B → B) (c c' : Js A)
    (k k' : A → Js B) :
  eqv fu fc ra c c' → (∀ a, eqv fu fc rb (k a) (k' (ra a))) →
  eqv fu fc rb (c ≫= k) (c' ≫= k').
Proof.
  intros Hc Hk w. unfold mbind, Js_bind. rewrite Hc.
  destruct (c w) as [[a|e] w1]; simpl; [apply Hk|done].
Qed.

Lemma eqv_throw {A} (ra : A → A) e : eqv fu fc ra (throw e) (throw e).
Proof. by intros w. Qed.

Lemma eqv_tryCatch body body' handler handler' :
  eqv fu fc id body body' → (∀ e, eqv fu fc id (handler e) (handler' e)) →
  eqv fu fc id (tryCatch body handler) (tryCatch body' handler').
Proof.
  intros Hb Hh w. unfold tryCatch. rewrite Hb.
  destruct (body w) as [[a|e] w1]; simpl; [done|apply Hh].
Qed.

Lemma eqv_forEach {X} (rx : X → X) xs (f f' : X → Js ()) :
  (∀ x, eqv fu fc id (f x) (f' (rx x))) →
  eqv fu fc id (forEach xs f) (forEach (rx <$> xs) f').
Proof.
  intros Hf. induction xs as [|x xs IH]; csimpl; [apply (eqv_ret id)|].
  apply (eqv_bind id); [apply Hf|intros _; apply IH].
Qed.

Lemma eqv_forEach_same {X} xs (f f' : X → Js ()) :
  (∀ x, eqv fu fc id (f x) (f' x)) →
  eqv fu fc id (forEach xs f) (forEach xs f').
Proof.
  intros Hf. pose proof (eqv_forEach id xs f f' Hf) as H.
  by rewrite list_fmap_id in H.
Qed.

Lemma eqv_getMgr : eqv fu fc (renMgr fu) getMgr getMgr.
Proof. by intros w. Qed.

Lemma eqv_getBrowser : eqv fu fc (renBrowser fu) getBrowser getBrowser.
Proof. by intros w. Qed.

Lemma eqv_modifyMgr f f' :
  (∀ m, f' (renMgr fu m) = renMgr fu (f m)) →
  eqv fu fc id (modifyMgr f) (modifyMgr f').
Proof. intros Hf w. unfold modifyMgr, renWorld. simpl. by rewrite Hf. Qed.

Lemma eqv_modifyBrowser f f' :
  (∀ b, f' (renBrowser fu b) = renBrowser fu (f b)) →
  eqv fu fc id (modifyBrowser f) (modifyBrowser f').
Proof. intros Hf w. unfold modifyBrowser, renWorld. simpl. by rewrite Hf. Qed.

Lemma eqv_emit e : eqv fu fc id (emit e) (emit (renEffect fu fc e)).
Proof. intros w. unfold emit, renWorld. simpl. by rewrite fmap_app. Qed.

Lemma eqv_getPc pc : eqv fu fc (renPC fu) (getPc pc) (getPc pc).
Proof.
  intros w. unfold getPc, mbind, Js_bind, getBrowser. simpl.
  rewrite list_lookup_fmap. by destruct (pcs (browser w) !! pc).
Qed.

Lemma eqv_updatePc pc f f' :
  (∀ p, f' (renPC fu p) = renPC fu (f p)) →
  eqv fu fc id (updatePc pc f) (updatePc pc f').
Proof.
  intros Hf. apply eqv_modifyBrowser. intros b. unfold set_pcs, renBrowser.
  simpl. f_equal. symmetry. apply list_fmap_alter. by apply Forall_forall.
Qed.

Lemma eqv_newRTCPeerConnection peerId :
  eqv fu fc id (newRTCPeerConnection peerId)
    (newRTCPeerConnection (renPeer fu peerId)).
Proof.
  intros w. unfold newRTCPeerConnection, mbind, Js_bind, getBrowser,
    modifyBrowser, renWorld, renBrowser. simpl.
  by rewrite fmap_app, length_fmap.
Qed.

Lemma eqv_addTrack pc track : eqv fu fc id (addTrack pc track) (addTrack pc track).
Proof.
  unfold addTrack. apply (eqv_bind (renPC fu)); [apply eqv_getPc|intros p].
  destruct track as [t|]; [|apply eqv_throw]. simpl.
  destruct (pc_closed p); [apply eqv_throw|].
  destruct (bool_decide _); [apply eqv_throw|].
  by apply eqv_updatePc.
Qed.

Lemma eqv_createDataChannel pc :
  eqv fu fc id (createDataChannel pc) (createDataChannel pc).
Proof.
  unfold createDataChannel. apply (eqv_bind (renPC fu)); [apply eqv_getPc|intros p].
  simpl. destruct (pc_closed p); [apply eqv_throw|].
  intros w. by unfold mbind, Js_bind, getBrowser, modifyBrowser, renWorld.
Qed.

Lemma eqv_createOffer pc :
  eqv fu fc (renDescription fu) (createOffer pc) (createOffer pc).
Proof.
  unfold createOffer. apply (eqv_bind (renPC fu)); [apply eqv_getPc|intros p].
  apply (eqv_bind (renMgr fu)); [apply eqv_getMgr|intros m]. simpl.
  destruct (pc_closed p); [apply eqv_throw|].
  apply (eqv_ret (renDescription fu)).
Qed.

Lemma eqv_createAnswer pc :
  eqv fu fc (renDescription fu) (createAnswer pc) (createAnswer pc).
Proof.
  unfold createAnswer. apply (eqv_bind (renPC fu)); [apply eqv_getPc|intros p].
  apply (eqv_bind (renMgr fu)); [apply eqv_getMgr|intros m]. simpl.
  destruct (pc_closed p); [apply eqv_throw|].
  destruct (pc_remoteDescription p) as [d|]; simpl; [|apply eqv_throw].
  destruct (decide (sdpType d = sdp_offer)); [|apply eqv_throw].
  apply (eqv_ret (renDescription fu)).
Qed.

Lemma eqv_setLocalDescription pc d :
  eqv fu fc id (setLocalDescription pc d)
    (setLocalDescription pc (renDescription fu d)).
Proof.
  unfold setLocalDescription.
  apply (eqv_bind (renPC fu)); [apply eqv_getPc|intros p]. simpl.
  destruct (pc_closed p); [apply eqv_throw|].
  apply (eqv_bind id); [by apply eqv_updatePc|intros _].
  by apply eqv_modifyBrowser.
Qed.

Lemma eqv_setRemoteDescription pc j :
  eqv fu fc id (setRemoteDescription pc j)
    (setRemoteDescription pc (renData fu j)).
Proof.
  unfold setRemoteDescription.
  apply (eqv_bind (renPC fu)); [apply eqv_getPc|intros p].
  rewrite renData_description.
  destruct (json_to_description j) as [d|]; simpl; [|apply eqv_throw].
  destruct (pc_closed p); [apply eqv_throw|].
  destruct (sdpType d), (pc_localDescription p) as [l|],
    (pc_remoteDescription p); simpl;
    try apply eqv_throw; try (by apply eqv_updatePc).
  destruct (decide (sdpType l = sdp_offer)); [|apply eqv_throw].
  by apply eqv_updatePc.
Qed.

Lemma eqv_addIceCandidate pc j :
  eqv fu fc id (addIceCandidate pc j) (addIceCandidate pc (renData fu j)).
Proof.
  unfold addIceCandidate.
  apply (eqv_bind (renPC fu)); [apply eqv_getPc|intros p].
  rewrite renData_candidate.
  destruct (json_to_candidate j) as [c|]; simpl; [|apply eqv_throw].
  destruct (pc_closed p); [apply eqv_throw|].
  destruct (pc_remoteDescription p); simpl; [|apply eqv_throw].
  apply eqv_updatePc. intros q. unfold pc_add_candidate, renPC. simpl.
  by rewrite fmap_app.
Qed.

Lemma eqv_close pc : eqv fu fc id (close pc) (close pc).
Proof.
  unfold close. apply (eqv_bind id); [by apply eqv_updatePc|intros _].
  by apply eqv_modifyBrowser.
Qed.

Lemma eqv_socketSend signal :
  eqv fu fc id (socketSend signal) (socketSend (renSignal fu fc signal)).
Proof. apply (eqv_emit (SocketSend signal)). Qed.

Lemma eqv_createPeerConnection peerId :
  eqv fu fc id (createPeerConnection peerId)
    (createPeerConnection (renPeer fu peerId)).
Proof.
  unfold createPeerConnection.
  apply (eqv_bind id); [apply eqv_newRTCPeerConnection|intros ref].
  apply (eqv_bind id); [|intros _; apply (eqv_ret id)].
  apply eqv_modifyMgr. intros m. unfold set_peers, renMgr. simpl. f_equal.
  apply (jm_set_ren_key (renPeer fu)).
Qed.

Lemma eqv_setupDataChannel channel peerId :
  eqv fu fc id (setupDataChannel channel peerId)
    (setupDataChannel channel (renPeer fu peerId)).
Proof.
  apply eqv_modifyMgr. intros m. unfold set_dataChannels, renMgr. simpl.
  f_equal. apply (jm_set_ren_key (renPeer fu)).
Qed.

Lemma eqv_addLocalTracks pc :
  eqv fu fc id (addLocalTracks pc) (addLocalTracks pc).
Proof.
  unfold addLocalTracks.
  apply (eqv_bind (renMgr fu)); [apply eqv_getMgr|intros m]. simpl.
  destruct (localStream m) as [tracks|]; [|apply (eqv_ret id)].
  apply eqv_forEach_same. intros t. apply eqv_addTrack.
Qed.

Lemma eqv_connectToPeer peerId :
  eqv fu fc id (connectToPeer peerId) (connectToPeer (renPeer fu peerId)).
Proof.
  unfold connectToPeer.
  apply (eqv_bind id); [apply eqv_createPeerConnection|intros ref].
  apply (eqv_bind id); [apply eqv_createDataChannel|intros ch].
  apply (eqv_bind id); [apply eqv_setupDataChannel|intros _].
  apply (eqv_bind id); [apply eqv_addLocalTracks|intros _].
  apply (eqv_bind (renDescription fu)); [apply eqv_createOffer|intros d].
  apply (eqv_bind id); [apply eqv_setLocalDescription|intros _].
  apply (eqv_bind (renMgr fu)); [apply eqv_getMgr|intros m].
  pose proof (eqv_socketSend
    (mkSignal offer (Some (userId m)) peerId None None
       (Some (description_to_json d)))) as H.
  rewrite renSignal_mk in H. by rewrite renData_of_description in H.
Qed.

Lemma eqv_handleOffer signal :
  eqv fu fc id (handleOffer signal) (handleOffer (renSignal fu fc signal)).
Proof.
  unfold handleOffer.
  apply (eqv_bind id); [apply eqv_createPeerConnection|intros ref].
  apply (eqv_bind id); [apply eqv_setRemoteDescription|intros _].
  apply (eqv_bind id); [apply eqv_addLocalTracks|intros _].
  apply (eqv_bind (renDescription fu)); [apply eqv_createAnswer|intros d].
  apply (eqv_bind id); [apply eqv_setLocalDescription|intros _].
  apply (eqv_bind (renMgr fu)); [apply eqv_getMgr|intros m].
  pose proof (eqv_socketSend
    (mkSignal answer (Some (userId m)) (from signal) None None
       (Some (description_to_json d)))) as H.
  rewrite renSignal_mk in H. by rewrite renData_of_description in H.
Qed.

Lemma eqv_handleAnswer signal :
  eqv fu fc id (handleAnswer signal) (handleAnswer (renSignal fu fc signal)).
Proof.
  unfold handleAnswer.
  apply (eqv_bind (renMgr fu)); [apply eqv_getMgr|intros m].
  cbn [from renSignal peers renMgr data].
  rewrite peers_get_ren. unfold PeerId.
  destruct (jm_get _ _); [|apply (eqv_ret id)].
  apply eqv_setRemoteDescription.
Qed.

Lemma eqv_handleIceCandidate signal :
  eqv fu fc id (handleIceCandidate signal)
    (handleIceCandidate (renSignal fu fc signal)).
Proof.
  unfold handleIceCandidate.
  apply (eqv_bind (renMgr fu)); [apply eqv_getMgr|intros m].
  cbn [from renSignal peers renMgr data].
  rewrite peers_get_ren. unfold PeerId.
  destruct (jm_get _ _); [|apply (eqv_ret id)].
  apply eqv_addIceCandidate.
Qed.

Lemma eqv_disconnectFromPeer peerId :
  eqv fu fc id (disconnectFromPeer peerId)
    (disconnectFromPeer (renPeer fu peerId)).
Proof.
  unfold disconnectFromPeer.
  apply (eqv_bind (renMgr fu)); [apply eqv_getMgr|intros m].
  apply (eqv_bind id).
  { cbn [peers renMgr]. rewrite peers_get_ren. unfold PeerId.
    destruct (jm_get _ _); [|apply (eqv_ret id)].
    apply (eqv_bind id); [apply eqv_close|intros _].
    apply eqv_modifyMgr. intros m'. unfold set_peers, renMgr. simpl. f_equal.
    apply (jm_delete_ren_key (renPeer fu)). }
  intros _. apply (eqv_bind id).
  { apply eqv_modifyMgr. intros m'. unfold set_dataChannels, renMgr. simpl.
    f_equal. apply (jm_delete_ren_key (renPeer fu)). }
  intros _. apply (eqv_emit (PeerDisconnected peerId)).
Qed.

Lemma eqv_handleSignal signal :
  eqv fu fc id (handleSignal signal) (handleSignal (renSignal fu fc signal)).
Proof.
  unfold handleSignal. change (type (renSignal fu fc signal)) with (type signal).
  destruct (type signal); try apply (eqv_ret id).
  - apply eqv_handleOffer.
  - apply eqv_handleAnswer.
  - apply eqv_handleIceCandidate.
  - apply eqv_connectToPeer.
  - apply eqv_disconnectFromPeer.
Qed.

Lemma eqv_onSocketMessage parsed :
  eqv fu fc id (onSocketMessage parsed)
    (onSocketMessage (renSignal fu fc <$> parsed)).
Proof.
  destruct parsed as [signal|]; simpl.
  - apply eqv_tryCatch; [apply eqv_handleSignal|]. intros _. apply (eqv_ret id).
  - apply (eqv_emit (ConsoleError _)).
Qed.

Lemma eqv_onconnectionstatechange pc state :
  eqv fu fc id (onconnectionstatechange pc state)
    (onconnectionstatechange pc state).
Proof.
  unfold onconnectionstatechange.
  apply (eqv_bind (renPC fu)); [apply eqv_getPc|intros p].
  destruct state; try apply (eqv_ret id).
  - apply (eqv_emit (PeerConnected _)).
  - apply eqv_disconnectFromPeer.
  - apply eqv_disconnectFromPeer.
Qed.

Lemma eqv_onicecandidate pc candidate :
  eqv fu fc id (onicecandidate pc candidate)
    (onicecandidate pc (renCandidate fu <$> candidate)).
Proof.
  unfold onicecandidate.
  apply (eqv_bind (renPC fu)); [apply eqv_getPc|intros p].
  apply (eqv_bind (renMgr fu)); [apply eqv_getMgr|intros m].
  destruct candidate as [c|]; [|apply (eqv_ret id)].
  pose proof (eqv_socketSend
    (mkSignal ice_candidate (Some (userId m)) (pc_peerId p) None None
       (Some (candidate_to_json c)))) as H.
  rewrite renSignal_mk in H. by rewrite renData_of_candidate in H.
Qed.

Lemma eqv_ondatachannel pc : eqv fu fc id (ondatachannel pc) (ondatachannel pc).
Proof.
  unfold ondatachannel.
  apply (eqv_bind (renPC fu)); [apply eqv_getPc|intros p].
  apply (eqv_bind (renBrowser fu)); [apply eqv_getBrowser|intros b].
  apply (eqv_bind id); [by apply eqv_modifyBrowser|intros _].
  apply eqv_setupDataChannel.
Qed.

Lemma eqv_dataChannel_onopen channel :
  eqv fu fc id (dataChannel_onopen channel) (dataChannel_onopen channel).
Proof.
  unfold dataChannel_onopen.
  apply (eqv_bind (renBrowser fu)); [apply eqv_getBrowser|intros b].
  cbn [dcs pcs renBrowser]. destruct (dcs b !! channel) as [d|]; [|apply (eqv_ret id)].
  rewrite list_lookup_fmap.
  destruct (pcs b !! dc_pc d) as [p|]; simpl; [|apply (eqv_ret id)].
  assert (bool_decide (is_Some (renDescription fu <$> pc_localDescription p))
          = bool_decide (is_Some (pc_localDescription p))) as ->.
  { apply bool_decide_ext. by rewrite fmap_is_Some. }
  assert (bool_decide (is_Some (renDescription fu <$> pc_remoteDescription p))
          = bool_decide (is_Some (pc_remoteDescription p))) as ->.
  { apply bool_decide_ext. by rewrite fmap_is_Some. }
  destruct (_ && _ && _ && _); [|apply (eqv_ret id)].
  by apply eqv_modifyBrowser.
Qed.

Lemma eqv_gatherIce : eqv fu fc id gatherIce gatherIce.
Proof.
  unfold gatherIce.
  apply (eqv_bind (renBrowser fu)); [apply eqv_getBrowser|intros b].
  apply (eqv_bind (renMgr fu)); [apply eqv_getMgr|intros m].
  apply (eqv_bind id); [by apply eqv_modifyBrowser|intros _].
  apply eqv_forEach_same. intros pc.
  apply (eqv_onicecandidate pc (Some (mkCandidate (userId m) pc))).
Qed.

Lemma eqv_announceChannel ref :
  eqv fu fc id (announceChannel ref) (announceChannel ref).
Proof.
  unfold announceChannel.
  apply (eqv_bind (renBrowser fu)); [apply eqv_getBrowser|intros b].
  apply (eqv_bind id); [apply eqv_ondatachannel|intros _].
  apply eqv_dataChannel_onopen.
Qed.

(** *** The hook *)

Lemma applyCallback_ren ps e :
  applyCallback (renPeer fu <$> ps) (renEffect fu fc e)
  = renPeer fu <$> applyCallback ps e.
Proof.
  destruct e; simpl; try done.
  - apply (js_add_ren (renPeer fu)).
  - apply (js_delete_ren (renPeer fu)).
Qed.

Lemma foldl_applyCallback_ren es ps :
  foldl applyCallback (renPeer fu <$> ps) (renEffect fu fc <$> es)
  = renPeer fu <$> foldl applyCallback ps es.
Proof.
  revert ps. induction es as [|e es IH]; intros ps; csimpl; [done|].
  by rewrite applyCallback_ren, IH.
Qed.

Lemma withManager_ren op op' h :
  eqv fu fc id op op' →
  withManager op' (renHook fu fc h) = renHook fu fc (withManager op h).
Proof.
  intros Hop. unfold withManager. destruct h as [sk u [w|] ps c]; simpl; [|done].
  rewrite Hop. cbn [snd]. unfold renHook. simpl. f_equal.
  rewrite length_fmap, <- fmap_drop. apply foldl_applyCallback_ren.
Qed.

Lemma renData_None : renData fu None = None.
Proof. done. Qed.

Lemma joinChannel_ren c h :
  joinChannel (fc c) (renHook fu fc h) = renHook fu fc (joinChannel c h).
Proof.
  unfold joinChannel. destruct h as [sk u [w|] ps ch]; [|done].
  cbn [webrtcManagerRef renHook socket fmap option_fmap option_map hook_userId].
  destruct sk; [|done].
  apply (withManager_ren _ _
           (mkHook true u (Some w) ps (Some c))).
  apply (eqv_socketSend
           (mkSignal join_channel None None (Some c) (Some u) None)).
Qed.

Lemma useWebRTC_ren u :
  useWebRTC true (fu u) = renHook fu fc (useWebRTC true u).
Proof.
  unfold useWebRTC, renHook. simpl.
  change (negb (String.eqb (fu u) "")) with (truthy (Some (fu u))).
  rewrite truthy_fu. simpl. by destruct (negb _).
Qed.

(** *** The system *)

Lemma socketWrites_ren k w :
  socketWrites k (renWorld fu fc w) = renSignal fu fc <$> socketWrites k w.
Proof.
  unfold socketWrites. cbn [effects renWorld]. rewrite <- fmap_drop.
  induction (drop k (effects w)) as [|e es IH]; csimpl; [done|].
  destruct e; csimpl; by rewrite ?IH.
Qed.

Lemma hookWrites_ren h h' :
  hookWrites (renHook fu fc h) (renHook fu fc h')
  = renSignal fu fc <$> hookWrites h h'.
Proof.
  unfold hookWrites. cbn [webrtcManagerRef renHook].
  destruct (webrtcManagerRef h') as [w'|]; [|done]. cbn.
  rewrite socketWrites_ren. f_equal. f_equal.
  destruct (webrtcManagerRef h) as [w|]; [|done]. cbn. by rewrite length_fmap.
Qed.

Lemma step_ren s :
  step (renSystem fu fc s) = renSystem fu fc <$> step s.
Proof.
  unfold step. destruct s as [st cl [|[w signal|w signal] rest]]; [done|..].
  - cbn [wire renSystem coordinator clients fmap list_fmap renFrame].
    rewrite onMessage_ren.
    destruct (onMessage _ st w signal) as [st' out]. cbn.
    unfold renSystem. cbn. f_equal. f_equal. rewrite fmap_app. f_equal.
    unfold renSent. rewrite <- !list_fmap_compose.
    apply list_fmap_ext. by intros _ [w' e] _.
  - cbn [wire renSystem coordinator clients fmap list_fmap renFrame].
    unfold WebSocket in *.
    rewrite list_lookup_fmap. destruct (cl !! w) as [h|]; [|done].
    cbn [fmap option_fmap option_map].
    rewrite (withManager_ren (onSocketMessage (Some signal))
               (onSocketMessage (Some (renSignal fu fc signal))) h)
      by apply (eqv_onSocketMessage (Some signal)).
    rewrite (withManager_ren gatherIce gatherIce) by apply eqv_gatherIce.
    unfold renSystem. cbn. f_equal. f_equal.
    + by rewrite list_fmap_insert.
    + rewrite fmap_app. f_equal. rewrite hookWrites_ren.
      rewrite <- !list_fmap_compose. by apply list_fmap_ext.
Qed.

Lemma settle_ren fuel s :
  settle fuel (renSystem fu fc s) = renSystem fu fc (settle fuel s).
Proof.
  revert s. induction fuel as [|fuel IH]; intros s; simpl; [done|].
  rewrite step_ren. destruct (step s) as [s'|]; simpl; [apply IH|done].
Qed.

Lemma join_ren c i s :
  join (fc c) i (renSystem fu fc s) = renSystem fu fc (join c i s).
Proof.
  unfold join. cbn [clients renSystem]. rewrite list_lookup_fmap.
  destruct (clients s !! i) as [h|]; [|done]. cbn.
  rewrite joinChannel_ren. unfold renSystem. cbn. f_equal.
  - by rewrite list_fmap_insert.
  - rewrite fmap_app. f_equal. rewrite hookWrites_ren.
    rewrite <- !list_fmap_compose. by apply list_fmap_ext.
Qed.

Lemma start_ren ids : start (fu <$> ids) = renSystem fu fc (start ids).
Proof.
  unfold start, renSystem. cbn. f_equal.
  rewrite <- !list_fmap_compose. apply list_fmap_ext.
  intros _ u _. apply useWebRTC_ren.
Qed.

Lemma joinFirst_ren fuel c ids k :
  joinFirst fuel (fc c) (fu <$> ids) k
  = renSystem fu fc (joinFirst fuel c ids k).
Proof.
  unfold joinFirst. rewrite start_ren. generalize (start ids) as s.
  induction (seq 0 k) as [|i l IH]; intros s; simpl; [done|].
  by rewrite join_ren, settle_ren, IH.
Qed.

Lemma joinAll_ren fuel c ids :
  joinAll fuel (fc c) (fu <$> ids) = renSystem fu fc (joinAll fuel c ids).
Proof. unfold joinAll. by rewrite length_fmap, joinFirst_ren. Qed.

Lemma lane_ren f : lane (renFrame fu fc f) = lane f.
Proof. by destruct f. Qed.

Lemma enabledFrom_ren seen i l :
  enabledFrom seen i (renFrame fu fc <$> l) = enabledFrom seen i l.
Proof.
  revert seen i. induction l as [|f l IH]; intros seen i; csimpl; [done|].
  rewrite lane_ren. destruct (bool_decide _); by rewrite IH.
Qed.

Lemma stepAt_ren k s :
  stepAt k (renSystem fu fc s) = renSystem fu fc <$> stepAt k s.
Proof.
  unfold stepAt. cbn [wire renSystem coordinator clients].
  rewrite list_lookup_fmap. destruct (wire s !! k) as [f|]; [|done]. cbn.
  rewrite <- list_fmap_delete.
  apply (step_ren (mkSystem (coordinator s) (clients s) (f :: delete k (wire s)))).
Qed.

Lemma settleBy_ren pick fuel s :
  settleBy pick fuel (renSystem fu fc s)
  = renSystem fu fc (settleBy pick fuel s).
Proof.
  revert s. induction fuel as [|fuel IH]; intros s; simpl; [done|].
  rewrite enabledFrom_ren, stepAt_ren.
  destruct (stepAt _ s) as [s'|]; simpl; [apply IH|done].
Qed.

Lemma joinAllBy_ren pick fuel c ids :
  joinAllBy pick fuel (fc c) (fu <$> ids)
  = renSystem fu fc (joinAllBy pick fuel c ids).
Proof.
  unfold joinAllBy. rewrite start_ren, length_fmap. generalize (start ids) as s.
  induction (seq 0 (length ids)) as [|i l IH]; intros s; simpl; [done|].
  by rewrite join_ren, settleBy_ren, IH.
Qed.

Lemma explore_ren fuel check check' s :
  (∀ s, check' (renSystem fu fc s) = check s) →
  explore fuel check' (renSystem fu fc s) = explore fuel check s.
Proof.
  intros Hcheck. revert s. induction fuel as [|fuel IH]; intros s; [done|].
  cbn [explore]. pose proof (stepAt_ren) as Hstep.
  assert (wire (renSystem fu fc s) = renFrame fu fc <$> wire s) as -> by done.
  rewrite enabledFrom_ren.
  destruct (wire s) as [|f l] eqn:Hw; [apply Hcheck|].
  cbn [fmap list_fmap]. apply forallb_pointwise. intros k.
  rewrite Hstep. destruct (stepAt k s) as [s'|]; simpl; [apply IH|done].
Qed.

(** *** Links *)

Lemma worldOf_ren s i :
  worldOf (renSystem fu fc s) i = renWorld fu fc <$> worldOf s i.
Proof.
  unfold worldOf. cbn [clients renSystem]. rewrite list_lookup_fmap.
  by destruct (clients s !! i).
Qed.

Lemma connectionOf_ren s i ref :
  connectionOf (renSystem fu fc s) i ref = renPC fu <$> connectionOf s i ref.
Proof.
  unfold connectionOf. rewrite worldOf_ren.
  destruct (worldOf s i) as [w|]; [|done]. cbn. by rewrite list_lookup_fmap.
Qed.

Lemma identityOf_ren s i :
  identityOf (renSystem fu fc s) i = fu <$> identityOf s i.
Proof.
  unfold identityOf. cbn [clients renSystem]. rewrite list_lookup_fmap.
  by destruct (clients s !! i).
Qed.

Lemma find_owner_ren u (cl : list Hook) :
  fst <$> list_find (λ h, hook_userId h = fu u) (renHook fu fc <$> cl)
  = fst <$> list_find (λ h, hook_userId h = u) cl.
Proof.
  induction cl as [|h cl IH]; csimpl; [done|].
  repeat case_decide; simpl in *.
  - done.
  - by simplify_eq.
  - by subst.
  - destruct (list_find _ (renHook fu fc <$> cl)) as [[? ?]|],
      (list_find _ cl) as [[? ?]|]; simpl in *; congruence.
Qed.

Lemma remoteEnd_ren s i ref :
  remoteEnd (renSystem fu fc s) i ref = remoteEnd s i ref.
Proof.
  unfold remoteEnd. rewrite connectionOf_ren.
  destruct (connectionOf s i ref) as [p|]; [|done]. cbn.
  destruct (pc_remoteDescription p) as [d|]; [|done]. cbn.
  by rewrite find_owner_ren.
Qed.

Lemma negotiated_ren p : negotiated (renPC fu p) = negotiated p.
Proof.
  unfold negotiated. cbn [renPC pc_closed pc_localDescription
    pc_remoteDescription pc_remoteCandidates].
  f_equal; [f_equal; [f_equal|]|]; apply bool_decide_ext.
  - by rewrite fmap_is_Some.
  - by rewrite fmap_is_Some.
  - by destruct (pc_remoteCandidates p).
Qed.

#[local] Instance renCandidate_inj : Inj (=) (=) (renCandidate fu).
Proof.
  intros [u n] [u' n'] [= Hu ->]. by apply (inj fu) in Hu as ->.
Qed.

Lemma paired_ren s i ref j ref' :
  paired (renSystem fu fc s) i ref j ref' = paired s i ref j ref'.
Proof.
  unfold paired. rewrite !connectionOf_ren, !identityOf_ren, !remoteEnd_ren.
  destruct (connectionOf s i ref) as [p|]; [|done].
  destruct (connectionOf s j ref') as [q|]; [|done].
  destruct (identityOf s i) as [ui|]; [|done].
  destruct (identityOf s j) as [uj|]; [|done]. cbn.
  rewrite !negotiated_ren.
  f_equal; [f_equal|]; apply bool_decide_ext.
  - change (mkCandidate (fu uj) ref') with (renCandidate fu (mkCandidate uj ref')).
    apply (list_elem_of_fmap_inj (renCandidate fu)).
  - change (mkCandidate (fu ui) ref) with (renCandidate fu (mkCandidate ui ref)).
    apply (list_elem_of_fmap_inj (renCandidate fu)).
Qed.

Lemma eqv_linkUp s i ref j ref' :
  eqv fu fc id (linkUp s i ref j ref')
    (linkUp (renSystem fu fc s) i ref j ref').
Proof.
  unfold linkUp. rewrite !worldOf_ren.
  apply (eqv_bind id); [apply eqv_onconnectionstatechange|intros _].
  apply (eqv_bind id).
  - destruct (worldOf s i) as [w|]; cbn [from_option fmap option_fmap option_map];
      apply eqv_forEach_same; intros ch; apply eqv_dataChannel_onopen.
  - intros _.
    destruct (worldOf s j) as [w|]; cbn [from_option fmap option_fmap option_map];
      apply eqv_forEach_same; intros ch; apply eqv_announceChannel.
Qed.

Lemma transportUp_ren s i h :
  transportUp (renSystem fu fc s) i (renHook fu fc h)
  = renHook fu fc (transportUp s i h).
Proof.
  unfold transportUp.
  assert (from_option (λ w, length (pcs (browser w))) 0
            (webrtcManagerRef (renHook fu fc h))
          = from_option (λ w, length (pcs (browser w))) 0 (webrtcManagerRef h))
    as ->.
  { destruct h as [sk u [w|] ps c]; [|done]. cbn. by rewrite length_fmap. }
  generalize (seq 0 (from_option (λ w, length (pcs (browser w))) 0
                       (webrtcManagerRef h))) as refs.
  intros refs. revert h. induction refs as [|ref refs IH]; intros h; simpl;
    [done|].
  rewrite remoteEnd_ren. destruct (remoteEnd s i ref) as [[j ref']|]; [|apply IH].
  rewrite paired_ren. destruct (paired s i ref j ref'); [|apply IH].
  rewrite (withManager_ren _ _ h (eqv_linkUp s i ref j ref')). apply IH.
Qed.

Lemma connectAll_ren s :
  connectAll (renSystem fu fc s) = renSystem fu fc (connectAll s).
Proof.
  unfold connectAll, renSystem. cbn. f_equal.
  rewrite imap_fmap, fmap_imap. apply imap_ext. intros i h _. cbn.
  apply transportUp_ren.
Qed.

Lemma links_of_store_ren peer (g : nat → nat) (l : list RTCPeerConnection) :
  omap (λ '(ref, p),
          if decide (pc_peerId p = Some (fu peer)) then Some ref else None)
    (imap (λ n, pair (g n)) (renPC fu <$> l))
  = omap (λ '(ref, p),
            if decide (pc_peerId p = Some peer) then Some ref else None)
      (imap (λ n, pair (g n)) l).
Proof.
  revert g. induction l as [|p l IH]; intros g; [done|].
  rewrite fmap_cons, !imap_cons.
  pose proof (IH (g ∘ S)) as IH'. unfold compose in IH' |- *.
  cbn beta in IH' |- *.
  change (omap ?F (?x :: ?xs)) with
    (match F x with Some y => y :: omap F xs | None => omap F xs end).
  cbn beta iota. rewrite IH'.
  assert ((if decide (pc_peerId (renPC fu p) = Some (fu peer))
           then Some (g 0) else None)
          = if decide (pc_peerId p = Some peer) then Some (g 0) else None)
    as ->; [|done].
  change (pc_peerId (renPC fu p)) with (renPeer fu (pc_peerId p)).
  change (Some (fu peer)) with (renPeer fu (Some peer)).
  repeat case_decide; try done.
  - by apply (inj (renPeer fu)) in H.
  - destruct H. by f_equal.
Qed.

Lemma linksTo_ren s i peer :
  linksTo (renSystem fu fc s) i (fu peer) = linksTo s i peer.
Proof.
  unfold linksTo. rewrite worldOf_ren.
  destruct (worldOf s i) as [w|]; [|done]. cbn.
  apply (links_of_store_ren peer id).
Qed.

Lemma holdsLink_ren h peer ref :
  holdsLink (renHook fu fc h) (fu peer) ref = holdsLink h peer ref.
Proof.
  unfold holdsLink. destruct h as [sk u [w|] ps c]; [|done].
  cbn [webrtcManagerRef renHook fmap option_fmap option_map connectedPeers
       mgr browser renWorld peers dataChannels renMgr dcs renBrowser].
  change (Some (fu peer)) with (renPeer fu (Some peer)).
  rewrite !peers_get_ren.
  f_equal. apply bool_decide_ext.
  apply (list_elem_of_fmap_inj (renPeer fu)).
Qed.

#[local] Instance renDescription_inj : Inj (=) (=) (renDescription fu).
Proof.
  intros [ty u n] [ty' u' n'] [= -> Hu ->]. by apply (inj fu) in Hu as ->.
Qed.

Lemma exchanged_ren ui uj ref ref' p q :
  exchanged (fu ui) (fu uj) ref ref' (renPC fu p) (renPC fu q)
  = exchanged ui uj ref ref' p q.
Proof.
  unfold exchanged. cbn [renPC pc_closed pc_localDescription
    pc_remoteDescription pc_remoteCandidates].
  repeat (f_equal; try apply bool_decide_ext).
  - by rewrite fmap_is_Some.
  - by rewrite fmap_is_Some.
  - split; [apply (inj (fmap (renDescription fu)))|by intros ->].
  - split; [apply (inj (fmap (renDescription fu)))|by intros ->].
  - change (mkCandidate (fu uj) ref') with (renCandidate fu (mkCandidate uj ref')).
    apply (list_elem_of_fmap_inj (renCandidate fu)).
  - change (mkCandidate (fu ui) ref) with (renCandidate fu (mkCandidate ui ref)).
    apply (list_elem_of_fmap_inj (renCandidate fu)).
Qed.

Lemma linked_ren s i j :
  linked (renSystem fu fc s) i j = linked s i j.
Proof.
  unfold linked. cbn [clients renSystem]. rewrite !list_lookup_fmap.
  destruct (clients s !! i) as [hi|]; [|done].
  destruct (clients s !! j) as [hj|]; [|done].
  cbn [fmap option_fmap option_map].
  change (hook_userId (renHook fu fc hj)) with (fu (hook_userId hj)).
  change (hook_userId (renHook fu fc hi)) with (fu (hook_userId hi)).
  rewrite !linksTo_ren.
  destruct (linksTo s i (hook_userId hj)) as [|ref [|]]; try done.
  destruct (linksTo s j (hook_userId hi)) as [|ref' [|]]; try done.
  rewrite !connectionOf_ren.
  destruct (connectionOf s i ref) as [p|]; [|done].
  destruct (connectionOf s j ref') as [q|]; [|done].
  cbn [fmap option_fmap option_map].
  by rewrite exchanged_ren, !holdsLink_ren.
Qed.

Lemma meshComplete_ren s :
  meshComplete (renSystem fu fc s) = meshComplete s.
Proof.
  unfold meshComplete. cbn [clients renSystem]. rewrite length_fmap.
  apply forallb_pointwise. intros i. apply forallb_pointwise. intros j.
  by rewrite linked_ren.
Qed.

Lemma answersTo_ren s j i :
  answersTo (renSystem fu fc s) j i = answersTo s j i.
Proof.
  unfold answersTo. rewrite identityOf_ren.
  destruct (identityOf s i) as [ui|]; [|done]. cbn.
  rewrite linksTo_ren. destruct (linksTo s j ui) as [|ref [|]]; try done.
  rewrite connectionOf_ren. destruct (connectionOf s j ref) as [p|]; [|done].
  cbn. by destruct (pc_localDescription p).
Qed.

Lemma quiescent_ren s : quiescent (renSystem fu fc s) = quiescent s.
Proof. unfold quiescent. cbn. by destruct (wire s). Qed.

End RenamingFacts.

Section RenamingExists.
Import MeshSpec.

Lemma swap_inj a b : Inj (=) (=) (swap a b).
Proof. intros x y. unfold swap. repeat case_decide; congruence. Qed.

(** Distinct non-empty names can be renamed to any distinct non-empty
    names, by a renaming that is injective and keeps the empty string. *)
Lemma renaming_exists xs ys :
  length xs = length ys → NoDup xs → NoDup ys → "" ∉ xs → "" ∉ ys →
  Inj (=) (=) (renaming xs ys)
  ∧ renaming xs ys "" = ""
  ∧ renaming xs ys <$> xs = ys.
Proof.
  revert ys. induction xs as [|x xs IH]; intros [|y ys] Hlen Hxs Hys Hx Hy;
    try done.
  { split_and!; [|done..]. by intros ???. }
  apply NoDup_cons in Hxs as [Hx' Hxs]. apply NoDup_cons in Hys as [Hy' Hys].
  apply not_elem_of_cons in Hx as [Hx0 Hx]. apply not_elem_of_cons in Hy as [Hy0 Hy].
  destruct (IH ys) as (Hinj & Hempty & Hmap); [by injection Hlen|done..|].
  cbn [renaming]. set (f := renaming xs ys) in *.
  assert (f x ≠ "") as Hfx.
  { rewrite <- Hempty. intros Heq. by apply Hinj in Heq. }
  split_and!.
  - intros s t Heq. apply swap_inj in Heq. by apply Hinj.
  - rewrite Hempty. unfold swap. by rewrite !decide_False.
  - rewrite fmap_cons. f_equal.
    + unfold swap. by rewrite decide_True.
    + transitivity (f <$> xs); [|done]. apply list_fmap_ext. intros k s Hs.
      assert (s ∈ xs) as Hin by (by eapply list_elem_of_lookup_2).
      unfold swap. rewrite decide_False.
      * rewrite decide_False; [done|]. intros Heq. apply Hy'.
        rewrite <- Hmap, <- Heq. by apply list_elem_of_fmap_2.
      * intros Heq. apply Hinj in Heq as ->. done.
Qed.

End RenamingExists.

(** *** The mesh *)

Section MeshFacts.
Import Coordinator Client Mesh MeshSpec.

(** Once nothing is in flight, more fuel changes nothing. *)
Lemma settle_quiescent fuel s : quiescent s = true → settle fuel s = s.
Proof.
  unfold quiescent. destruct fuel as [|fuel]; [done|]. simpl. unfold step.
  by destruct (wire s).
Qed.

Lemma settle_add fuel extra s :
  quiescent (settle fuel s) = true → settle (fuel + extra) s = settle fuel s.
Proof.
  revert s. induction fuel as [|fuel IH]; intros s Hq; simpl in *.
  - by apply settle_quiescent.
  - destruct (step s) as [s'|] eqn:Hs; [by apply IH|done].
Qed.

Lemma joinFirst_S fuel c ids k :
  joinFirst fuel c ids (S k)
  = settle fuel (join c k (joinFirst fuel c ids k)).
Proof. unfold joinFirst. by rewrite seq_S, foldl_app. Qed.

Lemma joinFirst_add fuel extra c ids k :
  (∀ k', k' ≤ k → quiescent (joinFirst fuel c ids k') = true) →
  joinFirst (fuel + extra) c ids k = joinFirst fuel c ids k.
Proof.
  induction k as [|k IH]; intros Hq; [done|].
  rewrite !joinFirst_S, IH by (intros; apply Hq; lia).
  apply settle_add. rewrite <- joinFirst_S. by apply Hq.
Qed.

Lemma quiescent_wire s : quiescent s = true ↔ wire s = [].
Proof. unfold quiescent. by destruct (wire s). Qed.

(** The checks compute what the specification says. *)
Lemma holdsLink_spec h peer ref :
  holdsLink h peer ref = true → HoldsLink h peer ref.
Proof.
  unfold holdsLink, HoldsLink. intros H.
  destruct (webrtcManagerRef h) as [w|]; [|done].
  apply andb_true_iff in H as [H Hc]. apply andb_true_iff in H as [Hp Hd].
  destruct (jm_get (Some peer) (dataChannels (mgr w))) as [ch|] eqn:Hdc;
    [|done].
  destruct (dcs (browser w) !! ch) as [d|] eqn:Hch; [|done].
  apply andb_true_iff in Hd as [Hd Ho].
  apply bool_decide_eq_true in Hp, Hd, Ho, Hc.
  exists w, ch, d. split_and!; done.
Qed.

Lemma linked_spec s i j : linked s i j = true → Linked s i j.
Proof.
  unfold linked, Linked. intros H.
  destruct (clients s !! i) as [hi|] eqn:Hci; [|done].
  destruct (clients s !! j) as [hj|] eqn:Hcj; [|done].
  destruct (linksTo s i (hook_userId hj)) as [|ref [|]] eqn:Hli; try done.
  destruct (linksTo s j (hook_userId hi)) as [|ref' [|]] eqn:Hlj; try done.
  destruct (connectionOf s i ref) as [p|] eqn:Hp; [|done].
  destruct (connectionOf s j ref') as [q|] eqn:Hq; [|done].
  apply andb_true_iff in H as [H Hj]. apply andb_true_iff in H as [He Hi].
  unfold exchanged in He.
  apply andb_true_iff in He as [He H8]. apply andb_true_iff in He as [He H7].
  apply andb_true_iff in He as [He H6]. apply andb_true_iff in He as [He H5].
  apply andb_true_iff in He as [He H4]. apply andb_true_iff in He as [He H3].
  apply andb_true_iff in He as [H1 H2].
  apply negb_true_iff in H1, H2.
  apply bool_decide_eq_true in H3, H4, H5, H6, H7, H8.
  apply holdsLink_spec in Hi, Hj.
  exists hi, hj, ref, ref', p, q. split_and!; done.
Qed.

Lemma uids_fine n :
  n ∈ [2; 3; 5] → NoDup (uids n) ∧ ("" ∉ uids n) ∧ length (uids n) = n.
Proof.
  intros Hn. rewrite !elem_of_cons in Hn.
  destruct Hn as [->|[->|[->|Hn]]]; [..|by apply elem_of_nil in Hn];
    (split_and!; [apply (bool_decide_unpack _); by vm_compute
                 |apply (bool_decide_unpack _); by vm_compute|done]).
Qed.

(** Any distinct non-empty identities and any non-empty channel are names
    for ["A"], ["B"], ... and ["general"]. *)
Lemma names_exist ids c :
  NoDup ids → "" ∉ ids → c ≠ "" → length ids ∈ [2; 3; 5] →
  ∃ fu fc : string → string,
    Inj (=) (=) fu ∧ Inj (=) (=) fc ∧ fu "" = "" ∧ fc "" = ""
    ∧ fu <$> uids (length ids) = ids ∧ fc "general" = c.
Proof.
  intros Hnd Hne Hc Hn.
  destruct (uids_fine _ Hn) as (Hnd' & Hne' & Hlen).
  destruct (renaming_exists (uids (length ids)) ids) as (Hi & He & Hm);
    [done..|].
  assert ("" ∉ ["general"]) as Hg by (by intros ?%list_elem_of_singleton).
  assert ("" ∉ [c]) as Hc' by (intros ?%list_elem_of_singleton; by apply Hc).
  destruct (renaming_exists ["general"] [c] eq_refl
              (NoDup_singleton _) (NoDup_singleton _) Hg Hc')
    as (Hi' & He' & Hm').
  exists (renaming (uids (length ids)) ids), (renaming ["general"] [c]).
  split_and!; done.
Qed.

(** C2. Mesh completeness, for 2, 3 or 5 clients with any distinct
    non-empty identities that join any channel one after the other, every
    frame in flight being handled, oldest first, before the next join
    (handlers run one at a time, all sockets are open, and any number of
    steps from 100 on is enough). After each join nothing is left in
    flight. At the end, once the browsers have brought up the transports
    of the negotiated connections, every two clients have exactly one
    link between them and it is connected: each of the two created
    exactly one connection for the other; both connections are open, each
    has applied the description the other created and holds the candidate
    the other gathered; each client has its connection in its registry
    under the identity of the other, has the open message channel of
    that connection in its channel map, and lists the other as a
    connected peer. *)
Theorem mesh_complete_after_sequential_joins ids c fuel :
  NoDup ids → "" ∉ ids → c ≠ "" → length ids ∈ [2; 3; 5] → 100 ≤ fuel →
  (∀ k, k ≤ length ids → wire (joinFirst fuel c ids k) = [])
  ∧ (∀ i j, i < length ids → j < length ids → i ≠ j →
       Linked (connectAll (joinAll fuel c ids)) i j).
Proof.
  intros Hnd Hne Hc Hn Hfuel.
  destruct (names_exist ids c) as (fu & fc & Hfu & Hfc & Hfu0 & Hfc0 & Hids & Hch);
    [done..|].
  set (n := length ids) in *.
  assert (forallb (λ k, quiescent (joinFirst 100 "general" (uids n) k))
            (seq 0 (S n)) = true
          ∧ forallb (λ i, forallb (λ j,
              bool_decide (i = j)
              || linked (connectAll (joinAll 100 "general" (uids n))) i j)
              (seq 0 n)) (seq 0 n) = true)
    as [Hq Hm].
  { clearbody n. clear -Hn. rewrite !elem_of_cons in Hn.
    destruct Hn as [->|[->|[->|Hn]]]; [by vm_compute..|].
    by apply elem_of_nil in Hn. }
  assert (∀ k, k ≤ n → quiescent (joinFirst 100 c ids k) = true) as Hq'.
  { intros k Hk. rewrite <- Hids, <- Hch, (joinFirst_ren fu fc) by done.
    rewrite quiescent_ren. rewrite forallb_forall in Hq. apply Hq.
    apply in_seq. lia. }
  assert (∀ k, k ≤ n → joinFirst fuel c ids k = joinFirst 100 c ids k) as Hf.
  { intros k Hk. replace fuel with (100 + (fuel - 100)) by lia.
    apply joinFirst_add. intros k' Hk'. apply Hq'. lia. }
  split.
  - intros k Hk. rewrite Hf by done. apply quiescent_wire. by apply Hq'.
  - intros i j Hi Hj Hne'. apply linked_spec.
    unfold joinAll. fold n. rewrite Hf by done.
    rewrite <- Hids, <- Hch.
    assert (length (uids n) = n) as Hlen by (by apply uids_fine).
    rewrite (joinFirst_ren fu fc) by done.
    rewrite (connectAll_ren fu fc), (linked_ren fu fc) by done.
    rewrite forallb_forall in Hm.
    assert (In i (seq 0 n)) as Hi' by (apply in_seq; lia).
    specialize (Hm i Hi'). rewrite forallb_forall in Hm.
    assert (In j (seq 0 n)) as Hj' by (apply in_seq; lia).
    specialize (Hm j Hj'). apply orb_true_iff in Hm as [Hm|Hm].
    + by apply bool_decide_eq_true in Hm.
    + unfold joinAll in Hm. by rewrite Hlen in Hm.
Qed.

Lemma mesh_complete_after_sequential_joins_witness :
  (∀ k, k ≤ 3 → wire (joinFirst 100 "lobby" ["alice"; "bob"; "carol"] k) = [])
  ∧ (∀ i j, i < 3 → j < 3 → i ≠ j →
       Linked (connectAll (joinAll 100 "lobby" ["alice"; "bob"; "carol"])) i j).
Proof.
  apply (mesh_complete_after_sequential_joins ["alice"; "bob"; "carol"]
           "lobby" 100).
  - apply (bool_decide_unpack _). by vm_compute.
  - apply (bool_decide_unpack _). by vm_compute.
  - discriminate.
  - apply (bool_decide_unpack _). by vm_compute.
  - lia.
Defined.

Lemma meshComplete_spec s i j :
  meshComplete s = true →
  i < length (clients s) → j < length (clients s) → i ≠ j → Linked s i j.
Proof.
  unfold meshComplete. intros Hm Hi Hj Hne. apply linked_spec.
  rewrite forallb_forall in Hm.
  assert (In i (seq 0 (length (clients s)))) as Hi' by (apply in_seq; lia).
  specialize (Hm i Hi'). rewrite forallb_forall in Hm.
  assert (In j (seq 0 (length (clients s)))) as Hj' by (apply in_seq; lia).
  specialize (Hm j Hj'). apply orb_true_iff in Hm as [Hm|Hm]; [|done].
  by apply bool_decide_eq_true in Hm.
Qed.

(** In those runs the later joiner of every pair is the answerer of their
    link and the earlier one the offerer. *)
Lemma joiner_is_answerer ids c i j :
  NoDup ids → "" ∉ ids → c ≠ "" → length ids ∈ [2; 3; 5] →
  i < j → j < length ids →
  answersTo (joinAll 100 c ids) j i = true
  ∧ answersTo (joinAll 100 c ids) i j = false.
Proof.
  intros Hnd Hne Hc Hn Hij Hj.
  destruct (names_exist ids c) as (fu & fc & Hfu & Hfc & Hfu0 & Hfc0 & Hids & Hch);
    [done..|].
  set (n := length ids) in *.
  assert (forallb (λ j, forallb (λ i,
            answersTo (joinAll 100 "general" (uids n)) j i
            && negb (answersTo (joinAll 100 "general" (uids n)) i j))
            (seq 0 j)) (seq 0 n) = true) as Hall.
  { clearbody n. clear -Hn. rewrite !elem_of_cons in Hn.
    destruct Hn as [->|[->|[->|Hn]]]; [by vm_compute..|].
    by apply elem_of_nil in Hn. }
  rewrite <- Hids, <- Hch, (joinAll_ren fu fc), !(answersTo_ren fu fc) by done.
  rewrite forallb_forall in Hall.
  assert (In j (seq 0 n)) as Hj' by (apply in_seq; lia).
  specialize (Hall j Hj'). rewrite forallb_forall in Hall.
  assert (In i (seq 0 j)) as Hi' by (apply in_seq; lia).
  specialize (Hall i Hi'). apply andb_true_iff in Hall as [Ha Hb].
  split; [done|]. by apply negb_true_iff.
Qed.

(** With two clients the order of delivery does not matter: when the
    second joins, every order in which the frames of different sockets
    and directions can be handled ends, with nothing in flight, in the
    complete mesh. *)
Lemma two_clients_any_order a b c :
  a ≠ b → a ≠ "" → b ≠ "" → c ≠ "" →
  explore 100 (λ s, meshComplete (connectAll s))
    (join c 1 (joinFirst 100 c [a; b] 1)) = true.
Proof.
  intros Hab Ha Hb Hc.
  destruct (names_exist [a; b] c) as (fu & fc & Hfu & Hfc & Hfu0 & Hfc0 & Hids & Hch).
  - apply NoDup_cons. split; [by intros ?%list_elem_of_singleton|].
    apply NoDup_singleton.
  - intros [?|?%list_elem_of_singleton]%elem_of_cons; congruence.
  - done.
  - apply (bool_decide_unpack _). by vm_compute.
  - rewrite <- Hids, <- Hch, (joinFirst_ren fu fc), (join_ren fu fc) by done.
    rewrite (explore_ren fu fc Hfu0 Hfc0 100
               (λ s, meshComplete (connectAll s))
               (λ s, meshComplete (connectAll s))).
    + by vm_compute.
    + intros s. by rewrite (connectAll_ren fu fc), (meshComplete_ren fu fc).
Qed.

(** The mesh is also complete when, instead of the oldest frame, the
    first frame of the lane that started last is handled at each step. *)
Lemma mesh_complete_youngest_lane_first ids c :
  NoDup ids → "" ∉ ids → c ≠ "" → length ids ∈ [2; 3; 5] →
  wire (joinAllBy youngestLane 100 c ids) = []
  ∧ ∀ i j, i < length ids → j < length ids → i ≠ j →
      Linked (connectAll (joinAllBy youngestLane 100 c ids)) i j.
Proof.
  intros Hnd Hne Hc Hn.
  destruct (names_exist ids c) as (fu & fc & Hfu & Hfc & Hfu0 & Hfc0 & Hids & Hch);
    [done..|].
  set (n := length ids) in *.
  assert (quiescent (joinAllBy youngestLane 100 "general" (uids n)) = true
          ∧ forallb (λ i, forallb (λ j,
              bool_decide (i = j)
              || linked (connectAll (joinAllBy youngestLane 100 "general" (uids n))) i j)
              (seq 0 n)) (seq 0 n) = true) as [Hq Hm].
  { clearbody n. clear -Hn. rewrite !elem_of_cons in Hn.
    destruct Hn as [->|[->|[->|Hn]]]; [by vm_compute..|].
    by apply elem_of_nil in Hn. }
  rewrite <- Hids, <- Hch, (joinAllBy_ren fu fc) by done. split.
  - apply quiescent_wire. by rewrite (quiescent_ren fu fc).
  - intros i j Hi Hj Hne'. apply linked_spec.
    rewrite (connectAll_ren fu fc), (linked_ren fu fc) by done.
    rewrite forallb_forall in Hm.
    assert (In i (seq 0 n)) as Hi' by (apply in_seq; lia).
    specialize (Hm i Hi'). rewrite forallb_forall in Hm.
    assert (In j (seq 0 n)) as Hj' by (apply in_seq; lia).
    specialize (Hm j Hj'). apply orb_true_iff in Hm as [Hm|Hm]; [|done].
    by apply bool_decide_eq_true in Hm.
Qed.

End MeshFacts.

(** * Further properties *)

(** ** JavaScript containers, continued *)

Section JsMoreFacts.
Context {K V : Type} `{EqDecision K}.
Implicit Types (m : list (K * V)) (k : K) (v : V).

Lemma jm_get_delete_ne k k' m : k ≠ k' → jm_get k' (jm_delete k m) = jm_get k' m.
Proof.
  intros Hne. induction m as [|[k0 v0] m IH]; simpl; [done|].
  destruct (decide (k = k0)) as [->|Hk]; simpl.
  - by rewrite decide_False by done.
  - by rewrite IH.
Qed.

Lemma jm_get_delete_eq k m : NoDup (jm_keys m) → jm_get k (jm_delete k m) = None.
Proof.
  unfold jm_keys. induction m as [|[k0 v0] m IH]; csimpl; [done|].
  rewrite NoDup_cons. intros [Hk Hnd].
  destruct (decide (k = k0)) as [->|Hne]; simpl.
  - apply jm_get_None_keys. done.
  - rewrite decide_False by done. by apply IH.
Qed.

Lemma jm_values_set_elem k v v' m :
  v' ∈ jm_values (jm_set k v m) → v' = v ∨ v' ∈ jm_values m.
Proof.
  unfold jm_values. rewrite !list_elem_of_fmap. intros ([k0 v0] & -> & Hin).
  apply jm_set_elem in Hin as [[_ ->]|Hin]; [by left|].
  right. by exists (k0, v0).
Qed.

Lemma jm_values_delete_elem k v' m :
  v' ∈ jm_values (jm_delete k m) → v' ∈ jm_values m.
Proof.
  unfold jm_values. rewrite !list_elem_of_fmap. intros ([k0 v0] & -> & Hin).
  exists (k0, v0). split; [done|]. by eapply jm_delete_elem.
Qed.

Lemma jm_get_values k v m : jm_get k m = Some v → v ∈ jm_values m.
Proof.
  intros Hg. apply jm_get_Some_elem in Hg. unfold jm_values.
  apply list_elem_of_fmap. by exists (k, v).
Qed.

End JsMoreFacts.

Lemma js_delete_elem_iff {A} `{EqDecision A} (x y : A) (s : list A) :
  NoDup s → x ∈ js_delete y s ↔ x ∈ s ∧ x ≠ y.
Proof.
  induction s as [|z s IH]; simpl.
  - intros _. split; [intros Hin; by apply elem_of_nil in Hin|].
    intros [Hin _]. by apply elem_of_nil in Hin.
  - rewrite NoDup_cons. intros [Hz Hnd].
    destruct (decide (y = z)) as [->|Hne].
    + rewrite elem_of_cons. split.
      * intros Hin. split; [by right|]. by intros ->.
      * intros [[->|Hin] Hx]; done.
    + rewrite !elem_of_cons, IH by done. split.
      * intros [->|[Hin Hx]]; [split; [by left|done]|split; [by right|done]].
      * intros [[->|Hin] Hx]; [by left|by right].
Qed.

(** ** The coordinator, continued *)

Section CoordinatorMore.
Import Coordinator CoordinatorSpec.
Implicit Types (st : State) (rs : WebSocket → ReadyState) (w : WebSocket).

(** X1. A [join-channel] for identity [u] and channel [c] (both
    non-empty) binds the sending socket to [u], whatever it was bound to,
    and adds [u] to [c]; every other binding and the members of every
    other channel are as before: joining one channel leaves no other. *)
Theorem join_binds_socket_and_adds_member rs st w msg u c :
  type msg = join_channel → userId msg = Some u → channelId msg = Some c →
  u ≠ "" → c ≠ "" →
  let st' := (onMessage rs st w msg).1 in
  jm_get w (connectedUsers st') = Some (mkConn w u)
  ∧ (∀ w', w' ≠ w →
       jm_get w' (connectedUsers st') = jm_get w' (connectedUsers st))
  ∧ (∀ p, p ∈ members st' c ↔ p = u ∨ p ∈ members st c)
  ∧ (∀ c', c' ≠ c → members st' c' = members st c').
Proof.
  intros Ht Hu Hc Hu' Hc' st'. subst st'.
  rewrite (onMessage_join rs st w msg u c) by done. simpl.
  split_and!.
  - apply jm_get_set_eq.
  - intros w' Hne. by apply jm_get_set_ne.
  - intros p. unfold members at 1. simpl. rewrite jm_get_set_eq. simpl.
    rewrite js_add_elem. done.
  - intros c' Hne. unfold members. simpl. rewrite jm_get_set_ne by done.
    destruct (jm_has c (channelPeers st)); [done|].
    by rewrite jm_get_set_ne.
Qed.

Lemma join_binds_socket_and_adds_member_witness :
  let st' := (onMessage allOpen aliceAndBob 2 (joinChannelOf "carol" "music")).1 in
  jm_get 2 (connectedUsers st') = Some (mkConn 2 "carol")
  ∧ (∀ w', w' ≠ 2 →
       jm_get w' (connectedUsers st') = jm_get w' (connectedUsers aliceAndBob))
  ∧ (∀ p, p ∈ members st' "music" ↔ p = "carol" ∨ p ∈ members aliceAndBob "music")
  ∧ (∀ c', c' ≠ "music" → members st' c' = members aliceAndBob c').
Proof.
  apply (join_binds_socket_and_adds_member allOpen aliceAndBob 2
           (joinChannelOf "carol" "music") "carol" "music").
  - reflexivity.
  - reflexivity.
  - reflexivity.
  - discriminate.
  - discriminate.
Defined.

(** X2. A [leave-channel] for identity [u] and a channel [c] of the table
    (both non-empty) removes [u] from [c] and from no other channel,
    keeps every binding, the leaver's included, keeps [c] in the table
    even when it is left empty, and writes [peer-left{from: u, channelId:
    c}] once to the oldest binding of each member that remains whose
    socket is open, and to no other socket: a remaining member bound on
    one socket only is told when that socket is open, and one whose
    oldest binding is not open is told on none of its sockets. The socket
    the request came from plays no part: any connection can take any
    identity out of a channel. *)
Theorem leave_removes_member_only rs st w msg u c :
  wf st →
  type msg = leave_channel → userId msg = Some u → channelId msg = Some c →
  u ≠ "" → c ≠ "" → jm_has c (channelPeers st) = true →
  ∀ st' out, onMessage rs st w msg = (st', out) →
    connectedUsers st' = connectedUsers st
    ∧ (∀ p, p ∈ members st' c ↔ p ∈ members st c ∧ p ≠ u)
    ∧ (∀ c', c' ≠ c → members st' c' = members st c')
    ∧ jm_has c (channelPeers st') = true
    ∧ NoDup out
    ∧ (∀ w' e, (w', e) ∈ out ↔
         e = peerLeft u c ∧ reached rs st' c (λ _, True) w')
    ∧ (∀ p w', p ∈ members st c → p ≠ u →
         boundTo st w' p → (∀ w2, boundTo st w2 p → w2 = w') →
         rs w' = OPEN → (w', peerLeft u c) ∈ out)
    ∧ (∀ p w0 w' e, oldestBinding st p w0 → rs w0 ≠ OPEN →
         boundTo st w' p → (w', e) ∉ out)
    ∧ (∀ w2, onMessage rs st w2 msg = (st', out)).
Proof.
  intros Hwf Ht Hu Hc Hu' Hc' Hhas st' out Hrun.
  pose proof (onMessage_leave rs st w msg u c Ht Hu Hc Hu' Hc' Hhas) as Hl.
  assert (wf st') as Hwf'.
  { change st' with (st', out).1. rewrite <- Hrun.
    apply (wf_handle rs st (EvMessage w msg) Hwf). }
  rewrite Hl in Hrun. injection Hrun as Hst <-.
  assert (connectedUsers st' = connectedUsers st) as Hcu by (by rewrite <- Hst).
  assert (members st' c = js_delete u (members st c)) as Hm.
  { rewrite <- Hst. unfold members at 1. simpl. by rewrite jm_get_set_eq. }
  assert (∀ p, p ∈ members st' c ↔ p ∈ members st c ∧ p ≠ u) as Hmem.
  { intros p. rewrite Hm. apply js_delete_elem_iff. by apply members_NoDup. }
  assert (∀ p w', boundTo st' w' p ↔ boundTo st w' p) as Hb
    by (intros; unfold boundTo; by rewrite Hcu).
  assert (∀ p w', oldestBinding st' p w' ↔ oldestBinding st p w') as Ho
    by (intros; unfold oldestBinding; by rewrite Hcu).
  rewrite <- Hcu, <- Hm.
  destruct (broadcast_out rs st' (peerLeft u c) (members st' c) Hwf')
    as [Hnd Hiff]; [by apply members_NoDup|].
  assert (∀ w' e,
            (w', e) ∈ flat_map (λ p, sendIfOpen rs
                                  (findConn (connectedUsers st') p)
                                  (peerLeft u c)) (members st' c)
            ↔ e = peerLeft u c ∧ reached rs st' c (λ _, True) w') as Hout.
  { intros w' e. rewrite Hiff. unfold reached.
    split; intros (-> & p & Hp & Hrest); (split; [done|]); exists p.
    - destruct Hrest as [? ?]. by split_and!.
    - destruct Hrest as (_ & ? & ?). by split_and!. }
  split_and!; [done|done| | |done|done| | |].
  - intros c' Hne. rewrite <- Hst. unfold members. simpl.
    by rewrite jm_get_set_ne.
  - rewrite <- Hst. unfold jm_has. simpl. by rewrite jm_get_set_eq.
  - intros p w' Hp Hne Hbound Honly Hopen. apply Hout. split; [done|].
    apply (reached_only_binding rs st' c _ p); try done.
    + by apply Hmem.
    + by apply Hb.
    + intros w2 H2. apply Honly. by apply Hb.
  - intros p w0 w' e Hold Hclosed Hbound Hin. apply Hout in Hin as [_ Hin].
    apply (reached_not_behind rs st' c _ p w0 w') in Hin; try done.
    + by apply Ho.
    + by apply Hb.
  - intros w2. rewrite (onMessage_leave rs st w2 msg u c) by done.
    by rewrite Hst, Hm, Hcu.
Qed.

Lemma leave_removes_member_only_witness :
  onMessage allOpen aliceAndBob 1 (leaveChannelOf "bob" "general")
  = ((onMessage allOpen aliceAndBob 1 (leaveChannelOf "bob" "general")).1,
     [(1, peerLeft "bob" "general")])
  ∧ connectedUsers
      (onMessage allOpen aliceAndBob 1 (leaveChannelOf "bob" "general")).1
    = connectedUsers aliceAndBob.
Proof.
  pose proof (leave_removes_member_only allOpen aliceAndBob 1
                (leaveChannelOf "bob" "general") "bob" "general") as H.
  destruct (H (wf_handle allOpen _ (EvMessage 2 (joinChannelOf "bob" "general"))
                 (wf_handle allOpen _
                    (EvMessage 1 (joinChannelOf "alice" "general")) wf_init))
              eq_refl eq_refl eq_refl)
    with (st' := (onMessage allOpen aliceAndBob 1
                    (leaveChannelOf "bob" "general")).1)
         (out := [(1, peerLeft "bob" "general")])
    as (Hcu & _).
  - discriminate.
  - discriminate.
  - reflexivity.
  - reflexivity.
  - split; [reflexivity|exact Hcu].
Defined.

Lemma closeChannels_get rs cu u cp c :
  jm_get c (closeChannels rs cu u cp).1 = js_delete u <$> jm_get c cp.
Proof.
  induction cp as [|[c0 s] cp IH]; [done|]. simpl.
  destruct (closeChannels rs cu u cp) as [cp' out'] eqn:Hc. simpl in IH.
  unfold js_has. destruct (bool_decide (u ∈ s)) eqn:Hu; simpl.
  - destruct (decide (c = c0)); [done|apply IH].
  - destruct (decide (c = c0)); [|apply IH].
    apply bool_decide_eq_false in Hu. simpl. by rewrite js_delete_absent.
Qed.

(** What [ws.on('close')] writes for the identity [u], channel by
    channel. *)
Lemma closeChannels_out rs st u cp :
  wf st → NoDup (jm_keys cp) → Forall (λ cs, NoDup cs.2) cp →
  NoDup (closeChannels rs (connectedUsers st) u cp).2
  ∧ ∀ w' e,
      (w', e) ∈ (closeChannels rs (connectedUsers st) u cp).2 ↔
      ∃ c s p, (c, s) ∈ cp ∧ u ∈ s ∧ e = peerLeft u c
        ∧ p ∈ js_delete u s ∧ oldestBinding st p w' ∧ rs w' = OPEN.
Proof.
  intros Hwf. induction cp as [|[c0 s0] cp IH]; simpl; intros Hk Hs.
  - split; [constructor|]. intros w' e.
    split; [intros Hin; by apply elem_of_nil in Hin|].
    intros (c & s & p & Hin & _). by apply elem_of_nil in Hin.
  - unfold jm_keys in Hk. csimpl in Hk. apply NoDup_cons in Hk as [Hc0 Hk].
    apply Forall_cons in Hs as [Hs0 Hs]. simpl in Hs0.
    destruct (IH Hk Hs) as [Hnd Hiff]. clear IH.
    destruct (closeChannels rs (connectedUsers st) u cp) as [cp' out'] eqn:Hc.
    simpl in Hnd, Hiff.
    unfold js_has. destruct (bool_decide (u ∈ s0)) eqn:Hu; simpl.
    + apply bool_decide_eq_true in Hu.
      destruct (broadcast_out rs st (peerLeft u c0) (js_delete u s0) Hwf)
        as [Hnd0 Hiff0]; [by apply js_delete_NoDup|].
      split.
      * apply NoDup_app. split_and!; [done| |done].
        intros [w' e] Hin Hin'. apply Hiff0 in Hin as [-> _].
        apply Hiff in Hin' as (c & s & p & Hin' & _ & [= <-] & _).
        apply Hc0. apply list_elem_of_fmap. by exists (c0, s).
      * intros w' e. rewrite elem_of_app, Hiff0, Hiff. split.
        -- intros [(-> & p & Hp & Hold & Ho)|(c & s & p & Hin & Hrest)].
           ++ exists c0, s0, p. split_and!; try done. left.
           ++ exists c, s, p. split; [by right|done].
        -- intros (c & s & p & Hin & Hus & -> & Hp & Hold & Ho).
           apply elem_of_cons in Hin as [[= -> ->]|Hin].
           ++ left. split; [done|]. by exists p.
           ++ right. by exists c, s, p.
    + apply bool_decide_eq_false in Hu. split; [done|].
      intros w' e. rewrite Hiff. split.
      * intros (c & s & p & Hin & Hrest).
        exists c, s, p. split; [by right|done].
      * intros (c & s & p & Hin & Hus & Hrest).
        apply elem_of_cons in Hin as [[= -> ->]|Hin]; [done|].
        by exists c, s, p.
Qed.

(** X3. When a bound socket closes, its binding is removed and no other;
    the identity [u] it was bound to is taken out of every channel, also
    when another socket is still bound to [u]; and for every channel that
    had [u], [peer-left{from: u, channelId}] is written once to the oldest
    binding of each member that remains whose socket is open, and to no
    other socket, the bindings being looked up before the closing one is
    removed: a remaining member bound on one socket only is told when
    that socket is open, and one whose oldest binding is not open is told
    on none of its sockets. *)
Theorem close_removes_binding_and_memberships rs st w conn :
  wf st →
  jm_get w (connectedUsers st) = Some conn →
  ∀ st' out, onClose rs st w = (st', out) →
    jm_get w (connectedUsers st') = None
    ∧ (∀ w', w' ≠ w →
         jm_get w' (connectedUsers st') = jm_get w' (connectedUsers st))
    ∧ (∀ c p, p ∈ members st' c ↔ p ∈ members st c ∧ p ≠ conn_userId conn)
    ∧ NoDup out
    ∧ (∀ w' e, (w', e) ∈ out ↔
         ∃ c, conn_userId conn ∈ members st c
           ∧ e = peerLeft (conn_userId conn) c
           ∧ reached rs st c (λ p, p ≠ conn_userId conn) w')
    ∧ (∀ c p w', conn_userId conn ∈ members st c →
         p ∈ members st c → p ≠ conn_userId conn →
         boundTo st w' p → (∀ w2, boundTo st w2 p → w2 = w') →
         rs w' = OPEN → (w', peerLeft (conn_userId conn) c) ∈ out)
    ∧ (∀ p w0 w' e, oldestBinding st p w0 → rs w0 ≠ OPEN →
         boundTo st w' p → (w', e) ∉ out).
Proof.
  intros Hwf Hg st' out Hrun. unfold onClose in Hrun. rewrite Hg in Hrun.
  pose proof (closeChannels_get rs (connectedUsers st) (conn_userId conn)
                (channelPeers st)) as Hget.
  destruct Hwf as (Hnd & Hws & Hcp & Hs).
  assert (wf st) as Hwf by done.
  destruct (closeChannels_out rs st (conn_userId conn) (channelPeers st)
              Hwf Hcp Hs) as [Hndo Hout0].
  destruct (closeChannels rs (connectedUsers st) (conn_userId conn)
              (channelPeers st)) as [cp out0]. simpl in Hget, Hndo, Hout0.
  injection Hrun as <- <-. simpl.
  assert (∀ w' e, (w', e) ∈ out0 ↔
            ∃ c, conn_userId conn ∈ members st c
              ∧ e = peerLeft (conn_userId conn) c
              ∧ reached rs st c (λ p, p ≠ conn_userId conn) w') as Hout.
  { intros w' e. rewrite Hout0. unfold reached, members. split.
    - intros (c & s & p & Hin & Hus & -> & Hp & Hold & Ho).
      exists c. rewrite (jm_elem_get c s _ Hcp Hin). simpl.
      split_and!; [done..|].
      rewrite Forall_forall in Hs.
      apply (js_delete_elem_iff _ _ _ (Hs _ Hin)) in Hp as [Hp Hne].
      by exists p.
    - intros (c & Hus & -> & p & Hp & Hne & Hold & Ho).
      destruct (jm_get c (channelPeers st)) as [s|] eqn:Hc;
        [|by apply elem_of_nil in Hus].
      simpl in *. exists c, s, p.
      pose proof (jm_get_Some_elem _ _ _ Hc) as Hin.
      split_and!; try done.
      rewrite Forall_forall in Hs.
      by apply (js_delete_elem_iff _ _ _ (Hs _ Hin)). }
  split_and!.
  - by apply jm_get_delete_eq.
  - intros w' Hne. by apply jm_get_delete_ne.
  - intros c p. unfold members. simpl. rewrite Hget.
    destruct (jm_get c (channelPeers st)) as [s|] eqn:Hc; simpl.
    + apply js_delete_elem_iff.
      apply jm_get_Some_elem in Hc. rewrite Forall_forall in Hs.
      apply (Hs _ Hc).
    + split; [intros Hin; by apply elem_of_nil in Hin|].
      intros [Hin _]. by apply elem_of_nil in Hin.
  - done.
  - done.
  - intros c p w' Hu Hp Hne Hb Honly Ho. apply Hout. exists c.
    split_and!; [done..|]. by apply (reached_only_binding rs st c _ p).
  - intros p w0 w' e Hold Hclosed Hb Hin.
    apply Hout in Hin as (c & _ & _ & Hin).
    by apply (reached_not_behind rs st c _ p w0 w') in Hin.
Qed.

Lemma close_removes_binding_and_memberships_witness :
  onClose allOpen aliceTwiceAndBob 2
  = ((onClose allOpen aliceTwiceAndBob 2).1, [(3, peerLeft "alice" "general")])
  ∧ jm_get 2 (connectedUsers (onClose allOpen aliceTwiceAndBob 2).1) = None
  ∧ jm_get 1 (connectedUsers (onClose allOpen aliceTwiceAndBob 2).1)
    = Some (mkConn 1 "alice")
  ∧ members (onClose allOpen aliceTwiceAndBob 2).1 "general" = ["bob"].
Proof.
  pose proof (close_removes_binding_and_memberships allOpen aliceTwiceAndBob 2
                (mkConn 2 "alice")) as H.
  destruct (H (wf_handle allOpen _ (EvMessage 3 (joinChannelOf "bob" "general"))
                 (wf_handle allOpen _
                    (EvMessage 2 (joinChannelOf "alice" "general"))
                    (wf_handle allOpen _
                       (EvMessage 1 (joinChannelOf "alice" "general"))
                       wf_init)))
              eq_refl)
    with (st' := (onClose allOpen aliceTwiceAndBob 2).1)
         (out := [(3, peerLeft "alice" "general")])
    as (Hgone & _).
  - reflexivity.
  - split_and!; [reflexivity|exact Hgone|reflexivity..].
Defined.

(** X4. Presence requests that fail the handler's tests are dropped whole:
    a [join-channel] whose identity or channel is missing or empty, and a
    [leave-channel] whose identity or channel is missing or empty or whose
    channel is not in the table, change nothing and write nothing. They
    are not relayed either, even when they carry [to], and a
    [leave-channel] never creates the channel it names. *)
Theorem unusable_presence_requests_are_dropped rs st w msg :
  (type msg = join_channel
   ∧ (truthy (userId msg) = false ∨ truthy (channelId msg) = false))
  ∨ (type msg = leave_channel
     ∧ (truthy (userId msg) = false ∨ truthy (channelId msg) = false
        ∨ ∀ c, channelId msg = Some c → jm_has c (channelPeers st) = false)) →
  onMessage rs st w msg = (st, []).
Proof.
  unfold onMessage, onJoinChannel, onLeaveChannel.
  intros [[-> H]|[-> H]].
  - destruct (userId msg) as [u|], (channelId msg) as [c|]; try done.
    destruct H as [H|H]; rewrite H; [done|by rewrite andb_false_r].
  - destruct (userId msg) as [u|], (channelId msg) as [c|]; try done.
    destruct H as [H|[H|H]].
    + by rewrite H.
    + by rewrite H, andb_false_r.
    + by rewrite (H c eq_refl), andb_false_r.
Qed.

Lemma unusable_presence_requests_are_dropped_witness :
  onMessage allOpen aliceAndBob 1
    (mkSignal leave_channel None (Some "bob") (Some "music") (Some "alice") None)
  = (aliceAndBob, []).
Proof.
  apply (unusable_presence_requests_are_dropped allOpen aliceAndBob 1
           (mkSignal leave_channel None (Some "bob") (Some "music")
              (Some "alice") None)).
  right. split; [reflexivity|]. right. right.
  intros c [= <-]. reflexivity.
Defined.

Lemma named_onJoinChannel rs st w msg :
  named st → named (onJoinChannel rs st w msg).1.
Proof.
  intros [Hu Hc]. unfold onJoinChannel.
  destruct (userId msg) as [u|]; [|done].
  destruct (channelId msg) as [c|]; [|done].
  destruct (truthy (Some u)) eqn:Htu; [|done].
  destruct (truthy (Some c)) eqn:Htc; [|done]. simpl.
  apply truthy_Some in Htu. apply truthy_Some in Htc.
  set (cp1 := if jm_has c (channelPeers st) then channelPeers st
              else jm_set c [] (channelPeers st)).
  assert (Forall (λ cs : string * list string,
            cs.1 ≠ "" ∧ Forall (λ p, p ≠ "") cs.2) cp1) as Hc1.
  { subst cp1. destruct (jm_has c (channelPeers st)); [done|].
    apply jm_set_Forall; [done|]. split; [done|constructor]. }
  split; simpl.
  - by apply jm_set_Forall.
  - apply jm_set_Forall; [done|]. split; [done|]. simpl.
    rewrite Forall_forall. intros p Hp. apply js_add_elem in Hp as [->|Hp];
      [done|].
    destruct (jm_get c cp1) as [s|] eqn:Hg; [|by apply elem_of_nil in Hp].
    apply jm_get_Some_elem in Hg. rewrite Forall_forall in Hc1.
    destruct (Hc1 _ Hg) as [_ Hs]. rewrite Forall_forall in Hs. by apply Hs.
Qed.

Lemma named_onLeaveChannel rs st msg :
  named st → named (onLeaveChannel rs st msg).1.
Proof.
  intros [Hu Hc]. unfold onLeaveChannel.
  destruct (userId msg) as [u|]; [|done].
  destruct (channelId msg) as [c|]; [|done].
  destruct (truthy (Some u)) eqn:Htu; [|done].
  destruct (truthy (Some c)) eqn:Htc; [|done].
  destruct (jm_has c (channelPeers st)); [|done]. simpl.
  apply truthy_Some in Htc. split; [done|]. simpl.
  apply jm_set_Forall; [done|]. split; [done|]. simpl.
  rewrite Forall_forall. intros p Hp. apply js_delete_elem in Hp.
  destruct (jm_get c (channelPeers st)) as [s|] eqn:Hg;
    [|by apply elem_of_nil in Hp].
  apply jm_get_Some_elem in Hg. rewrite Forall_forall in Hc.
  destruct (Hc _ Hg) as [_ Hs]. rewrite Forall_forall in Hs. by apply Hs.
Qed.

Lemma closeChannels_named rs cu u cp :
  Forall (λ cs : string * list string,
    cs.1 ≠ "" ∧ Forall (λ p, p ≠ "") cs.2) cp →
  Forall (λ cs : string * list string,
    cs.1 ≠ "" ∧ Forall (λ p, p ≠ "") cs.2) (closeChannels rs cu u cp).1.
Proof.
  induction cp as [|[c s] cp IH]; [done|]. simpl.
  rewrite Forall_cons. intros [[Hc Hs] Hcp]. specialize (IH Hcp).
  destruct (closeChannels rs cu u cp) as [cp' out']. simpl in IH.
  destruct (js_has u s); simpl; apply Forall_cons; split; try done.
  split; [done|]. simpl in *. rewrite Forall_forall in Hs.
  rewrite Forall_forall. intros p Hp. apply Hs. by eapply js_delete_elem.
Qed.

Lemma named_handle rs st e : named st → named (handle rs st e).1.
Proof.
  intros Hn. destruct e as [w msg|w|w]; simpl; [|done|].
  - unfold onMessage. destruct (type msg);
      auto using named_onJoinChannel, named_onLeaveChannel;
      unfold onRelay; destruct (to msg) as [t|]; try done;
      by destruct (truthy (Some t)).
  - unfold onClose. destruct (jm_get w (connectedUsers st)) as [uc|]; [|done].
    destruct Hn as [Hu Hc].
    pose proof (closeChannels_named rs (connectedUsers st) (conn_userId uc)
                  (channelPeers st) Hc) as Hc'.
    destruct (closeChannels rs (connectedUsers st) (conn_userId uc)
                (channelPeers st)) as [cp out]. simpl in *.
    split; [|done]. simpl. rewrite Forall_forall in Hu.
    rewrite Forall_forall. intros [k v] Hin. apply Hu.
    by eapply jm_delete_elem.
Qed.

(** X5. Whatever frames and closes the coordinator handles, with whatever
    socket states, its tables stay in order: no socket is bound twice and
    each is bound under itself, no channel is listed twice and no member
    twice in a channel, and no binding, channel or member has an empty
    name. *)
Theorem coordinator_tables_stay_in_order es :
  wf (run init es) ∧ named (run init es).
Proof.
  assert (∀ st, wf st → named st → wf (run st es) ∧ named (run st es)) as H.
  { induction es as [|[rs e] es IH]; intros st Hwf Hn; [done|]. simpl.
    apply IH; [by apply wf_handle|by apply named_handle]. }
  apply H; [apply wf_init|]. split; constructor.
Qed.

Lemma jm_has_set_mono {V} (c c' : string) (v : V) (m : list (string * V)) :
  jm_has c m = true → jm_has c (jm_set c' v m) = true.
Proof.
  unfold jm_has. destruct (decide (c' = c)) as [->|Hne].
  - by rewrite jm_get_set_eq.
  - by rewrite jm_get_set_ne.
Qed.

Lemma closeChannels_has rs cu u cp c :
  jm_has c (closeChannels rs cu u cp).1 = jm_has c cp.
Proof.
  unfold jm_has. rewrite closeChannels_get. by destruct (jm_get c cp).
Qed.

(** X6. The coordinator never forgets a channel and only a close unbinds
    a socket: a channel of the table is still in it after any event (an
    emptied channel is kept), and a bound socket is still bound after any
    event other than its own close, [leave-channel] included. *)
Theorem channels_and_bindings_persist rs st e :
  (∀ c, jm_has c (channelPeers st) = true →
        jm_has c (channelPeers (handle rs st e).1) = true)
  ∧ (∀ w, e ≠ EvClose w → jm_has w (connectedUsers st) = true →
          jm_has w (connectedUsers (handle rs st e).1) = true).
Proof.
  split.
  - intros c Hc. destruct e as [w msg|w|w]; simpl; [|done|].
    + unfold onMessage, onJoinChannel, onLeaveChannel, onRelay.
      destruct (type msg); try (destruct (to msg) as [t|]; try done;
                                by destruct (truthy (Some t))).
      * destruct (userId msg) as [u|]; [|done].
        destruct (channelId msg) as [c0|]; [|done].
        destruct (truthy (Some u) && truthy (Some c0)); [|done]. simpl.
        apply jm_has_set_mono.
        destruct (jm_has c0 (channelPeers st)); [done|].
        by apply jm_has_set_mono.
      * destruct (userId msg) as [u|]; [|done].
        destruct (channelId msg) as [c0|]; [|done].
        destruct (truthy (Some u) && truthy (Some c0)
                  && jm_has c0 (channelPeers st)); [|done]. simpl.
        by apply jm_has_set_mono.
    + unfold onClose. destruct (jm_get w (connectedUsers st)) as [uc|]; [|done].
      pose proof (closeChannels_has rs (connectedUsers st) (conn_userId uc)
                    (channelPeers st) c) as Hh.
      destruct (closeChannels rs (connectedUsers st) (conn_userId uc)
                  (channelPeers st)) as [cp out]. simpl in *. congruence.
  - intros w Hne Hw. destruct e as [w0 msg|w0|w0]; simpl; [|done|].
    + unfold onMessage, onJoinChannel, onLeaveChannel, onRelay.
      destruct (type msg); try (destruct (to msg) as [t|]; try done;
                                by destruct (truthy (Some t))).
      * destruct (userId msg) as [u|]; [|done].
        destruct (channelId msg) as [c0|]; [|done].
        destruct (truthy (Some u) && truthy (Some c0)); [|done]. simpl.
        unfold jm_has in *. destruct (decide (w0 = w)) as [->|Hw0].
        -- by rewrite jm_get_set_eq.
        -- by rewrite jm_get_set_ne.
      * destruct (userId msg) as [u|]; [|done].
        destruct (channelId msg) as [c0|]; [|done].
        by destruct (truthy (Some u) && truthy (Some c0)
                     && jm_has c0 (channelPeers st)).
    + assert (w0 ≠ w) as Hw0 by congruence.
      unfold onClose. destruct (jm_get w0 (connectedUsers st)) as [uc|]; [|done].
      destruct (closeChannels rs (connectedUsers st) (conn_userId uc)
                  (channelPeers st)) as [cp out]. simpl.
      unfold jm_has in *. by rewrite jm_get_delete_ne.
Qed.

Lemma channels_and_bindings_persist_witness :
  jm_has "general"
    (channelPeers (handle allOpen aliceAndBob
                     (EvMessage 1 (leaveChannelOf "alice" "general"))).1) = true
  ∧ jm_has 1
      (connectedUsers (handle allOpen aliceAndBob
                         (EvMessage 1 (leaveChannelOf "alice" "general"))).1)
    = true.
Proof.
  split.
  - apply (proj1 (channels_and_bindings_persist allOpen aliceAndBob
                    (EvMessage 1 (leaveChannelOf "alice" "general")))).
    reflexivity.
  - apply (proj2 (channels_and_bindings_persist allOpen aliceAndBob
                    (EvMessage 1 (leaveChannelOf "alice" "general")))).
    + discriminate.
    + reflexivity.
Defined.

End CoordinatorMore.

(** ** The client session, continued *)

Section ClientMore.
Import Client ClientSpec.
Implicit Types (w : World) (b : Browser) (m : WebRTCManager).

Lemma addTrack_run pc p t w :
  pcs (browser w) !! pc = Some p → pc_closed p = false →
  Some t ∉ pc_senders p →
  addTrack pc (Some t) w
  = (Normal (),
     mkWorld (mgr w)
       (set_pcs (<[pc := pc_set_senders (pc_senders p ++ [Some t]) p]>)
          (browser w))
       (effects w)).
Proof.
  intros Hp Hopen Hnew. unfold addTrack, getPc. rewrite !bind_run. simpl.
  rewrite Hp. simpl. rewrite Hopen. rewrite bool_decide_eq_false_2 by done.
  unfold updatePc, modifyBrowser, set_pcs. simpl.
  by rewrite (alter_lookup _ _ _ _ Hp).
Qed.

(** The tracks of a stream, none of which the connection sends yet, are
    added in order, each on a sender of its own. *)
Lemma addTracks_run pc tracks : ∀ p w,
  pcs (browser w) !! pc = Some p → pc_closed p = false →
  NoDup tracks → (∀ t, t ∈ tracks → Some t ∉ pc_senders p) →
  forEach tracks (λ track, addTrack pc (Some track)) w
  = (Normal (),
     mkWorld (mgr w)
       (set_pcs (<[pc := pc_set_senders (pc_senders p ++ (Some <$> tracks)) p]>)
          (browser w))
       (effects w)).
Proof.
  induction tracks as [|t tracks IH]; intros p w Hp Hopen Hnd Hnew; simpl.
  - rewrite app_nil_r. unfold set_pcs. destruct w as [m [ps ds st pi] es].
    simpl in *. do 3 f_equal. destruct p. simpl.
    symmetry. by apply list_insert_id.
  - apply NoDup_cons in Hnd as [Ht Hnd].
    rewrite bind_run, (addTrack_run pc p t w Hp Hopen)
      by (apply Hnew; left).
    rewrite (IH (pc_set_senders (pc_senders p ++ [Some t]) p)).
    + simpl. unfold set_pcs. simpl. rewrite list_insert_insert_eq.
      by rewrite <- app_assoc.
    + simpl. apply list_lookup_insert_eq. by eapply lookup_lt_Some.
    + done.
    + done.
    + intros t' Ht'. simpl. rewrite elem_of_app, list_elem_of_singleton.
      intros [Hin|[= ->]]; [|done]. apply (Hnew t'); [by right|done].
Qed.

(** A loop over distinct connections, each turn of which rewrites the
    connection it is given and nothing else. *)
Lemma forEach_rewrite_run (f : nat → Js ())
    (g : RTCPeerConnection → RTCPeerConnection)
    (P : RTCPeerConnection → Prop) refs :
  (∀ ref q w, pcs (browser w) !! ref = Some q → P q →
     f ref w = (Normal (),
                mkWorld (mgr w) (set_pcs (<[ref := g q]>) (browser w))
                  (effects w))) →
  NoDup refs →
  ∀ w, Forall (λ r, ∃ q, pcs (browser w) !! r = Some q ∧ P q) refs →
  ∃ w', forEach refs f w = (Normal (), w')
    ∧ mgr w' = mgr w ∧ effects w' = effects w
    ∧ dcs (browser w') = dcs (browser w)
    ∧ stoppedTracks (browser w') = stoppedTracks (browser w)
    ∧ pendingIce (browser w') = pendingIce (browser w)
    ∧ length (pcs (browser w')) = length (pcs (browser w))
    ∧ (∀ r q, r ∈ refs → pcs (browser w) !! r = Some q →
              pcs (browser w') !! r = Some (g q))
    ∧ (∀ r, r ∉ refs → pcs (browser w') !! r = pcs (browser w) !! r).
Proof.
  intros Hf. induction refs as [|r refs IH]; intros Hnd w Hall.
  - exists w. split_and!; try done. intros r q Hin. by apply elem_of_nil in Hin.
  - apply NoDup_cons in Hnd as [Hr Hnd].
    apply Forall_cons in Hall as [(q & Hq & HP) Hall].
    simpl. rewrite bind_run, (Hf r q w Hq HP).
    set (w1 := mkWorld (mgr w) (set_pcs (<[r := g q]>) (browser w)) (effects w)).
    destruct (IH Hnd w1)
      as (w' & Hrun & Hm & He & Hd & Hst & Hpi & Hl & Hin & Hout).
    { rewrite Forall_forall in Hall. rewrite Forall_forall. intros r' Hr'.
      destruct (Hall r' Hr') as (q' & Hq' & HP'). exists q'.
      split; [|done]. simpl. rewrite list_lookup_insert_ne; [done|].
      intros <-. done. }
    exists w'. split_and!; try done.
    + rewrite Hl. simpl. by rewrite length_insert.
    + intros r' q' Hr' Hq'. apply elem_of_cons in Hr' as [->|Hr'].
      * rewrite Hout by done. simpl. rewrite Hq in Hq'. injection Hq' as <-.
        apply list_lookup_insert_eq. by eapply lookup_lt_Some.
      * apply Hin; [done|]. simpl. rewrite list_lookup_insert_ne; [done|].
        intros <-. done.
    + intros r' Hr'. apply not_elem_of_cons in Hr' as [Hne Hr'].
      rewrite Hout by done. simpl. by rewrite list_lookup_insert_ne.
Qed.

Lemma tryCatch_normal body handler w a w' :
  body w = (Normal a, w') → tryCatch body handler w = (Normal a, w').
Proof. intros Hb. unfold tryCatch. by rewrite Hb. Qed.

Lemma addTracksToAllPeers_run w stream :
  localStream (mgr w) = Some stream →
  registryOk w → NoDup stream →
  (∀ q t, q ∈ pcs (browser w) → t ∈ stream → Some t ∉ pc_senders q) →
  ∃ w', addTracksToAllPeers w = (Normal (), w')
    ∧ mgr w' = mgr w ∧ effects w' = effects w
    ∧ stoppedTracks (browser w') = stoppedTracks (browser w)
    ∧ length (pcs (browser w')) = length (pcs (browser w))
    ∧ (∀ r q, r ∈ jm_values (peers (mgr w)) → pcs (browser w) !! r = Some q →
              pcs (browser w') !! r
              = Some (pc_set_senders (pc_senders q ++ (Some <$> stream)) q))
    ∧ (∀ r, r ∉ jm_values (peers (mgr w)) →
            pcs (browser w') !! r = pcs (browser w) !! r).
Proof.
  intros Hls (_ & Hnd & Hok) Hs Hnew.
  destruct (forEach_rewrite_run
              (λ pc, forEach stream (λ track, addTrack pc (Some track)))
              (λ q, pc_set_senders (pc_senders q ++ (Some <$> stream)) q)
              (λ q, pc_closed q = false
                    ∧ ∀ t, t ∈ stream → Some t ∉ pc_senders q)
              (jm_values (peers (mgr w)))) with (w := w)
    as (w' & Hrun & Hm & He & Hd & Hst & Hpi & Hl & Hin & Hout).
  { intros ref q w0 Hq [Hopen Hfresh]. by apply addTracks_run. }
  { done. }
  { unfold jm_values. rewrite Forall_fmap. eapply Forall_impl; [exact Hok|].
    intros [k r] (q & Hq & Hopen). exists q. split_and!; [done..|].
    intros t Ht. apply Hnew; [|done]. by eapply list_elem_of_lookup_2. }
  exists w'. split_and!; try done.
  unfold addTracksToAllPeers. rewrite bind_run. unfold getMgr at 1.
  cbv beta iota. rewrite Hls. exact Hrun.
Qed.

(** X7. A granted [startVoiceCall] or [startVideoCall] on a session whose
    registry is in order, with a stream of distinct tracks that no
    connection sends yet, completes normally and disrupts nothing: the
    registry, the data channels and the number of connections are as
    before, the stream becomes the local stream, and every registered
    connection stays as it is except that each track of the stream is
    added, in order, on a sender of its own after the senders it had.
    Nothing is stopped and nothing is written: the tracks of an earlier
    local stream are neither stopped nor taken off their senders.
    [startVoiceCall] sets [isVoiceEnabled] only, [startVideoCall]
    [isVideoEnabled] only. *)
Theorem start_call_attaches_to_every_link (video : bool) w stream :
  registryOk w →
  NoDup stream →
  (∀ q t, q ∈ pcs (browser w) → t ∈ stream → Some t ∉ pc_senders q) →
  ∃ w',
    (if video then startVideoCall else startVoiceCall) (Granted stream) w
    = (Normal (), w')
    ∧ peers (mgr w') = peers (mgr w)
    ∧ dataChannels (mgr w') = dataChannels (mgr w)
    ∧ localStream (mgr w') = Some stream
    ∧ isVoiceEnabled (mgr w') = (if video then isVoiceEnabled (mgr w) else true)
    ∧ isVideoEnabled (mgr w') = (if video then true else isVideoEnabled (mgr w))
    ∧ length (pcs (browser w')) = length (pcs (browser w))
    ∧ (∀ peerId ref p,
         (peerId, ref) ∈ peers (mgr w) → pcs (browser w) !! ref = Some p →
         pcs (browser w') !! ref
         = Some (pc_set_senders (pc_senders p ++ (Some <$> stream)) p))
    ∧ (∀ ref, ref ∉ jm_values (peers (mgr w)) →
              pcs (browser w') !! ref = pcs (browser w) !! ref)
    ∧ stoppedTracks (browser w') = stoppedTracks (browser w)
    ∧ effects w' = effects w.
Proof.
  intros Hok Hs Hnew.
  set (m1 := if video
             then set_isVideoEnabled true (set_localStream (Some stream) (mgr w))
             else set_isVoiceEnabled true (set_localStream (Some stream) (mgr w))).
  assert (peers m1 = peers (mgr w) ∧ localStream m1 = Some stream
          ∧ dataChannels m1 = dataChannels (mgr w)) as (Hp1 & Hl1 & Hd1)
    by (subst m1; by destruct video).
  destruct (addTracksToAllPeers_run (mkWorld m1 (browser w) (effects w)) stream)
    as (w' & Hrun & Hm & He & Hst & Hl & Hin & Hout); try done.
  { unfold registryOk in *. simpl. by rewrite Hp1. }
  simpl in *. rewrite Hp1 in Hin, Hout.
  exists w'. split_and!; try done.
  - destruct video; apply tryCatch_normal; etrans; [|exact Hrun| |exact Hrun];
      reflexivity.
  - by rewrite Hm.
  - by rewrite Hm.
  - by rewrite Hm.
  - rewrite Hm. subst m1. by destruct video.
  - rewrite Hm. subst m1. by destruct video.
  - intros peerId ref p Hpr Hp. apply Hin; [|done].
    unfold jm_values. apply list_elem_of_fmap. by exists (peerId, ref).
Qed.

Lemma start_call_attaches_to_every_link_witness :
  ∃ w',
    startVoiceCall (Granted [screenAudio]) inVideoCall = (Normal (), w')
    ∧ peers (mgr w') = peers (mgr inVideoCall)
    ∧ dataChannels (mgr w') = dataChannels (mgr inVideoCall)
    ∧ localStream (mgr w') = Some [screenAudio]
    ∧ isVoiceEnabled (mgr w') = true
    ∧ isVideoEnabled (mgr w') = isVideoEnabled (mgr inVideoCall)
    ∧ length (pcs (browser w')) = length (pcs (browser inVideoCall))
    ∧ (∀ peerId ref p,
         (peerId, ref) ∈ peers (mgr inVideoCall) →
         pcs (browser inVideoCall) !! ref = Some p →
         pcs (browser w') !! ref
         = Some (pc_set_senders (pc_senders p ++ (Some <$> [screenAudio])) p))
    ∧ (∀ ref, ref ∉ jm_values (peers (mgr inVideoCall)) →
              pcs (browser w') !! ref = pcs (browser inVideoCall) !! ref)
    ∧ stoppedTracks (browser w') = stoppedTracks (browser inVideoCall)
    ∧ effects w' = effects inVideoCall.
Proof.
  apply (start_call_attaches_to_every_link false inVideoCall [screenAudio]).
  - exact (reachableSession_registryOk "alice" inVideoCall
             (reachable_perform "alice" _ (SocketMessage (Some offerFromCarol))
                (reachable_perform "alice" _ (SocketMessage (Some bobJoined))
                   (reachable_perform "alice" _
                      (StartVideoCall (Granted [micTrack; cameraTrack]))
                      (reachable_new "alice"))))).
  - apply (bool_decide_unpack _). by vm_compute.
  - intros q t Hq Ht. apply list_elem_of_singleton in Ht as ->.
    change (pcs (browser inVideoCall)) with
      [mkPC (Some "bob") false [Some micTrack; Some cameraTrack]
         (Some (mkDescription sdp_offer "alice" 0)) None [];
       mkPC (Some "carol") false [Some micTrack; Some cameraTrack]
         (Some (mkDescription sdp_answer "alice" 1))
         (Some (mkDescription sdp_offer "carol" 0)) []] in Hq.
    rewrite !elem_of_cons in Hq. destruct Hq as [->|[->|Hq]].
    + apply (bool_decide_unpack _). by vm_compute.
    + apply (bool_decide_unpack _). by vm_compute.
    + by apply elem_of_nil in Hq.
Defined.

(** What [disconnectFromPeer] leaves behind. *)
Lemma disconnectFromPeer_spec peerId w :
  registryOk w → channelsOk w →
  ∃ w', disconnectFromPeer peerId w = (Normal (), w')
    ∧ registryOk w' ∧ channelsOk w'
    ∧ jm_get peerId (peers (mgr w')) = None
    ∧ jm_get peerId (dataChannels (mgr w')) = None
    ∧ (∀ other, other ≠ peerId →
         jm_get other (peers (mgr w')) = jm_get other (peers (mgr w))
         ∧ jm_get other (dataChannels (mgr w'))
           = jm_get other (dataChannels (mgr w)))
    ∧ (∀ ref q, jm_get peerId (peers (mgr w)) = Some ref →
         pcs (browser w) !! ref = Some q →
         pcs (browser w') !! ref = Some (pc_set_closed q))
    ∧ (∀ ref, jm_get peerId (peers (mgr w)) ≠ Some ref →
         pcs (browser w') !! ref = pcs (browser w) !! ref)
    ∧ effects w' = effects w ++ [PeerDisconnected peerId].
Proof.
  intros Hok Hch. eexists. split; [apply disconnectFromPeer_run|].
  pose proof (registry_disconnectFromPeer peerId w Hok) as Hok'.
  rewrite disconnectFromPeer_run in Hok'. destruct Hok as (Hk & Hv & Hall).
  split_and!; simpl.
  - exact Hok'.
  - unfold channelsOk. simpl. by apply jm_delete_NoDup.
  - by apply jm_get_delete_eq.
  - by apply jm_get_delete_eq.
  - intros other Hne. split; by apply jm_get_delete_ne.
  - intros ref q Hg Hq. rewrite Hg, closeOne_lookup, Hq.
    by rewrite decide_True.
  - intros ref Hne. destruct (jm_get peerId (peers (mgr w))) as [cur|]; [|done].
    rewrite closeOne_lookup. rewrite decide_False by congruence.
    by destruct (pcs (browser w) !! ref).
  - done.
Qed.

(** X8. Handling [peer-left{from}] on a session in order completes
    normally and removes the link of [from] and nothing else: the
    registered connection of [from], if there is one, is closed and taken
    out of the registry, its data channel entry is dropped, every other
    entry and every other connection is as before, and
    [onPeerDisconnected(from)] is called exactly once, also when no link
    to [from] existed. *)
Theorem peer_left_tears_down_one_link w signal :
  registryOk w → channelsOk w →
  type signal = peer_left →
  ∃ w', handleSignal signal w = (Normal (), w')
    ∧ registryOk w' ∧ channelsOk w'
    ∧ jm_get (from signal) (peers (mgr w')) = None
    ∧ jm_get (from signal) (dataChannels (mgr w')) = None
    ∧ (∀ other, other ≠ from signal →
         jm_get other (peers (mgr w')) = jm_get other (peers (mgr w))
         ∧ jm_get other (dataChannels (mgr w'))
           = jm_get other (dataChannels (mgr w)))
    ∧ (∀ ref q, jm_get (from signal) (peers (mgr w)) = Some ref →
         pcs (browser w) !! ref = Some q →
         pcs (browser w') !! ref = Some (pc_set_closed q))
    ∧ (∀ ref, jm_get (from signal) (peers (mgr w)) ≠ Some ref →
         pcs (browser w') !! ref = pcs (browser w) !! ref)
    ∧ effects w' = effects w ++ [PeerDisconnected (from signal)].
Proof.
  intros Hok Hch Ht. unfold handleSignal. rewrite Ht.
  by apply disconnectFromPeer_spec.
Qed.

(** X9. A change of [connectionState] is attributed to the identity the
    connection was created for, not to the connection. [connected] calls
    [onPeerConnected] for that identity, whether or not the connection is
    still the registered one. [disconnected] and [failed] tear down the
    link registered for that identity: if it is another, newer connection,
    that one is closed and unregistered while the connection that failed
    is left as it was. *)
Theorem connection_state_is_attributed_to_identity w pc q :
  registryOk w → channelsOk w →
  pcs (browser w) !! pc = Some q →
  onconnectionstatechange pc cs_connected w
  = (Normal (), mkWorld (mgr w) (browser w)
                  (effects w ++ [PeerConnected (pc_peerId q)]))
  ∧ ∀ state, state = cs_disconnected ∨ state = cs_failed →
    ∃ w', onconnectionstatechange pc state w = (Normal (), w')
      ∧ jm_get (pc_peerId q) (peers (mgr w')) = None
      ∧ (∀ cur c, jm_get (pc_peerId q) (peers (mgr w)) = Some cur →
           pcs (browser w) !! cur = Some c →
           pcs (browser w') !! cur = Some (pc_set_closed c))
      ∧ (jm_get (pc_peerId q) (peers (mgr w)) ≠ Some pc →
           pcs (browser w') !! pc = Some q)
      ∧ effects w' = effects w ++ [PeerDisconnected (pc_peerId q)].
Proof.
  intros Hok Hch Hq. split.
  - unfold onconnectionstatechange, getPc. rewrite !bind_run. simpl.
    by rewrite Hq.
  - intros state Hs.
    destruct (disconnectFromPeer_spec (pc_peerId q) w Hok Hch)
      as (w' & Hrun & _ & _ & Hp & _ & _ & Hcl & Hfr & He).
    exists w'. split_and!; try done.
    + unfold onconnectionstatechange, getPc. rewrite !bind_run. simpl.
      rewrite Hq. simpl. by destruct Hs as [-> | ->].
    + intros Hne. by rewrite Hfr.
Qed.

Lemma inVideoCall_registryOk : registryOk inVideoCall.
Proof.
  exact (reachableSession_registryOk "alice" inVideoCall
           (reachable_perform "alice" _ (SocketMessage (Some offerFromCarol))
              (reachable_perform "alice" _ (SocketMessage (Some bobJoined))
                 (reachable_perform "alice" _
                    (StartVideoCall (Granted [micTrack; cameraTrack]))
                    (reachable_new "alice"))))).
Defined.

Lemma bobTwice_registryOk : registryOk bobTwice.
Proof.
  exact (reachableSession_registryOk "alice" bobTwice
           (reachable_perform "alice" _ (SocketMessage (Some bobJoined))
              (reachable_perform "alice" _ (SocketMessage (Some bobJoined))
                 (reachable_new "alice")))).
Defined.

Lemma peer_left_tears_down_one_link_witness :
  ∃ w', handleSignal bobLeft inVideoCall = (Normal (), w')
    ∧ registryOk w' ∧ channelsOk w'
    ∧ jm_get (Some "bob") (peers (mgr w')) = None
    ∧ jm_get (Some "bob") (dataChannels (mgr w')) = None
    ∧ (∀ other, other ≠ Some "bob" →
         jm_get other (peers (mgr w')) = jm_get other (peers (mgr inVideoCall))
         ∧ jm_get other (dataChannels (mgr w'))
           = jm_get other (dataChannels (mgr inVideoCall)))
    ∧ (∀ ref q, jm_get (Some "bob") (peers (mgr inVideoCall)) = Some ref →
         pcs (browser inVideoCall) !! ref = Some q →
         pcs (browser w') !! ref = Some (pc_set_closed q))
    ∧ (∀ ref, jm_get (Some "bob") (peers (mgr inVideoCall)) ≠ Some ref →
         pcs (browser w') !! ref = pcs (browser inVideoCall) !! ref)
    ∧ effects w' = effects inVideoCall ++ [PeerDisconnected (Some "bob")].
Proof.
  apply (peer_left_tears_down_one_link inVideoCall bobLeft).
  - exact inVideoCall_registryOk.
  - apply (bool_decide_unpack _). by vm_compute.
  - reflexivity.
Defined.

Lemma connection_state_is_attributed_to_identity_witness :
  let q := mkPC (Some "bob") false []
             (Some (mkDescription sdp_offer "alice" 0)) None [] in
  onconnectionstatechange 0 cs_connected bobTwice
  = (Normal (), mkWorld (mgr bobTwice) (browser bobTwice)
                  (effects bobTwice ++ [PeerConnected (Some "bob")]))
  ∧ ∀ state, state = cs_disconnected ∨ state = cs_failed →
    ∃ w', onconnectionstatechange 0 state bobTwice = (Normal (), w')
      ∧ jm_get (Some "bob") (peers (mgr w')) = None
      ∧ (∀ cur c, jm_get (Some "bob") (peers (mgr bobTwice)) = Some cur →
           pcs (browser bobTwice) !! cur = Some c →
           pcs (browser w') !! cur = Some (pc_set_closed c))
      ∧ (jm_get (Some "bob") (peers (mgr bobTwice)) ≠ Some 0 →
           pcs (browser w') !! 0 = Some q)
      ∧ effects w' = effects bobTwice ++ [PeerDisconnected (Some "bob")].
Proof.
  intros q.
  apply (connection_state_is_attributed_to_identity bobTwice 0 q).
  - exact bobTwice_registryOk.
  - apply (bool_decide_unpack _). by vm_compute.
  - reflexivity.
Defined.

Lemma setRemoteDescription_cases pc j w :
  (setRemoteDescription pc j w).2 = w
  ∨ ∃ d, (setRemoteDescription pc j w).2
         = mkWorld (mgr w) (set_pcs (alter (pc_set_remote d) pc) (browser w))
             (effects w).
Proof.
  unfold setRemoteDescription, getPc. rewrite !bind_run. simpl.
  destruct (pcs (browser w) !! pc) as [p|]; simpl; [|by left].
  destruct (json_to_description j) as [d|]; simpl; [|by left].
  destruct (pc_closed p); simpl; [by left|].
  destruct (sdpType d), (pc_localDescription p) as [l|],
    (pc_remoteDescription p); simpl; try (by left); try (right; by exists d).
  destruct (decide (sdpType l = sdp_offer)); simpl; [right; by exists d|by left].
Qed.

Lemma addIceCandidate_cases pc j w :
  (addIceCandidate pc j w).2 = w
  ∨ ∃ c, (addIceCandidate pc j w).2
         = mkWorld (mgr w) (set_pcs (alter (pc_add_candidate c) pc) (browser w))
             (effects w).
Proof.
  unfold addIceCandidate, getPc. rewrite !bind_run. simpl.
  destruct (pcs (browser w) !! pc) as [p|]; simpl; [|by left].
  destruct (json_to_candidate j) as [c|]; simpl; [|by left].
  destruct (pc_closed p); simpl; [by left|].
  destruct (pc_remoteDescription p); simpl; [right; by exists c|by left].
Qed.

(** X10. An [answer] or an [ice-candidate] touches at most the connection
    registered for its sender, and of that one only the remote
    description or the remote candidates: the manager, the effects, the
    data channels and every other connection are as before, no connection
    is created, closed or given other senders or another local
    description, and nothing is sent. When the sender has no registered
    connection the envelope is dropped without any change. *)
Theorem answer_and_candidate_touch_only_the_senders_link w signal :
  type signal = answer ∨ type signal = ice_candidate →
  let w' := (handleSignal signal w).2 in
  mgr w' = mgr w ∧ effects w' = effects w
  ∧ dcs (browser w') = dcs (browser w)
  ∧ length (pcs (browser w')) = length (pcs (browser w))
  ∧ (∀ ref, jm_get (from signal) (peers (mgr w)) ≠ Some ref →
       pcs (browser w') !! ref = pcs (browser w) !! ref)
  ∧ (∀ ref q, pcs (browser w) !! ref = Some q →
       ∃ q', pcs (browser w') !! ref = Some q'
         ∧ pc_closed q' = pc_closed q ∧ pc_senders q' = pc_senders q
         ∧ pc_localDescription q' = pc_localDescription q
         ∧ pc_peerId q' = pc_peerId q)
  ∧ (jm_get (from signal) (peers (mgr w)) = None →
       handleSignal signal w = (Normal (), w)).
Proof.
  intros Ht w'.
  assert (∀ f : RTCPeerConnection → RTCPeerConnection,
    (∀ q, pc_closed (f q) = pc_closed q ∧ pc_senders (f q) = pc_senders q
          ∧ pc_localDescription (f q) = pc_localDescription q
          ∧ pc_peerId (f q) = pc_peerId q) →
    ∀ pc, jm_get (from signal) (peers (mgr w)) = Some pc →
    w' = mkWorld (mgr w) (set_pcs (alter f pc) (browser w)) (effects w) →
    mgr w' = mgr w ∧ effects w' = effects w
    ∧ dcs (browser w') = dcs (browser w)
    ∧ length (pcs (browser w')) = length (pcs (browser w))
    ∧ (∀ ref, jm_get (from signal) (peers (mgr w)) ≠ Some ref →
         pcs (browser w') !! ref = pcs (browser w) !! ref)
    ∧ (∀ ref q, pcs (browser w) !! ref = Some q →
         ∃ q', pcs (browser w') !! ref = Some q'
           ∧ pc_closed q' = pc_closed q ∧ pc_senders q' = pc_senders q
           ∧ pc_localDescription q' = pc_localDescription q
           ∧ pc_peerId q' = pc_peerId q)) as Halter.
  { intros f Hf pc Hg ->. simpl. split_and!; try done.
    - by rewrite length_alter.
    - intros ref Hne. rewrite list_lookup_alter_ne; [done|congruence].
    - intros ref q Hq. destruct (decide (pc = ref)) as [->|Hne].
      + exists (f q). rewrite list_lookup_alter_eq, Hq. split; [done|apply Hf].
      + exists q. by rewrite list_lookup_alter_ne. }
  assert (w' = w →
    mgr w' = mgr w ∧ effects w' = effects w
    ∧ dcs (browser w') = dcs (browser w)
    ∧ length (pcs (browser w')) = length (pcs (browser w))
    ∧ (∀ ref, jm_get (from signal) (peers (mgr w)) ≠ Some ref →
         pcs (browser w') !! ref = pcs (browser w) !! ref)
    ∧ (∀ ref q, pcs (browser w) !! ref = Some q →
         ∃ q', pcs (browser w') !! ref = Some q'
           ∧ pc_closed q' = pc_closed q ∧ pc_senders q' = pc_senders q
           ∧ pc_localDescription q' = pc_localDescription q
           ∧ pc_peerId q' = pc_peerId q)) as Hsame.
  { intros ->. split_and!; try done. intros ref q Hq. by exists q. }
  assert (jm_get (from signal) (peers (mgr w)) = None →
          handleSignal signal w = (Normal (), w)) as Hnone.
  { intros Hg. unfold handleSignal, handleAnswer, handleIceCandidate.
    destruct Ht as [-> | ->]; rewrite bind_run; simpl; by rewrite Hg. }
  cut (mgr w' = mgr w ∧ effects w' = effects w
    ∧ dcs (browser w') = dcs (browser w)
    ∧ length (pcs (browser w')) = length (pcs (browser w))
    ∧ (∀ ref, jm_get (from signal) (peers (mgr w)) ≠ Some ref →
         pcs (browser w') !! ref = pcs (browser w) !! ref)
    ∧ (∀ ref q, pcs (browser w) !! ref = Some q →
         ∃ q', pcs (browser w') !! ref = Some q'
           ∧ pc_closed q' = pc_closed q ∧ pc_senders q' = pc_senders q
           ∧ pc_localDescription q' = pc_localDescription q
           ∧ pc_peerId q' = pc_peerId q)).
  { intros (? & ? & ? & ? & ? & ?). by split_and!. }
  destruct (jm_get (from signal) (peers (mgr w))) as [pc|] eqn:Hg.
  - assert (w' = (setRemoteDescription pc (data signal) w).2
            ∨ w' = (addIceCandidate pc (data signal) w).2) as Hw'.
    { subst w'. unfold handleSignal, handleAnswer, handleIceCandidate.
      destruct Ht as [-> | ->]; rewrite bind_run; simpl; rewrite Hg;
        [by left|by right]. }
    destruct Hw' as [Hw'|Hw'].
    + destruct (setRemoteDescription_cases pc (data signal) w) as [He|[d He]];
        rewrite He in Hw'; [by apply Hsame|].
      by apply (Halter (pc_set_remote d)) with pc.
    + destruct (addIceCandidate_cases pc (data signal) w) as [He|[c He]];
        rewrite He in Hw'; [by apply Hsame|].
      by apply (Halter (pc_add_candidate c)) with pc.
  - apply Hsame. subst w'. by rewrite Hnone.
Qed.

Lemma answer_and_candidate_touch_only_the_senders_link_witness :
  let signal := mkSignal answer (Some "bob") (Some "alice") None None
                  (Some (description_to_json (mkDescription sdp_answer "bob" 0))) in
  let w' := (handleSignal signal inVideoCall).2 in
  mgr w' = mgr inVideoCall ∧ effects w' = effects inVideoCall
  ∧ dcs (browser w') = dcs (browser inVideoCall)
  ∧ length (pcs (browser w')) = length (pcs (browser inVideoCall))
  ∧ (∀ ref, jm_get (from signal) (peers (mgr inVideoCall)) ≠ Some ref →
       pcs (browser w') !! ref = pcs (browser inVideoCall) !! ref)
  ∧ (∀ ref q, pcs (browser inVideoCall) !! ref = Some q →
       ∃ q', pcs (browser w') !! ref = Some q'
         ∧ pc_closed q' = pc_closed q ∧ pc_senders q' = pc_senders q
         ∧ pc_localDescription q' = pc_localDescription q
         ∧ pc_peerId q' = pc_peerId q)
  ∧ (jm_get (from signal) (peers (mgr inVideoCall)) = None →
       handleSignal signal inVideoCall = (Normal (), inVideoCall)).
Proof.
  intros signal.
  apply (answer_and_candidate_touch_only_the_senders_link inVideoCall signal).
  left. reflexivity.
Defined.

(** *** Invariants of the session, continued *)

#[local] Instance preserves_refl' I : Reflexive (preserves I).
Proof. intros w Hw. exact Hw. Qed.

#[local] Instance preserves_trans' I : Transitive (preserves I).
Proof. intros w1 w2 w3 H12 H23 H1. by apply H23, H12. Qed.

Lemma keeps_same (I : World → Prop) {A} (c : Js A) :
  (∀ w, (c w).2 = w) → keeps (preserves I) c.
Proof. intros Hc w Hw. by rewrite Hc. Qed.

Lemma channels_modifyMgr f :
  (∀ m, NoDup (jm_keys (dataChannels m)) →
        NoDup (jm_keys (dataChannels (f m)))) →
  keeps (preserves channelsOk) (modifyMgr f).
Proof. intros Hf w Hw. by apply Hf. Qed.

Lemma channels_modifyBrowser f : keeps (preserves channelsOk) (modifyBrowser f).
Proof. by intros w Hw. Qed.

Lemma channels_emit e : keeps (preserves channelsOk) (emit e).
Proof. by intros w Hw. Qed.

Lemma orphan_modifyMgr ref f :
  (∀ m, peers (f m) = peers m) → keeps (preserves (orphaned ref)) (modifyMgr f).
Proof. intros Hf w. unfold preserves, orphaned. simpl. by rewrite Hf. Qed.

Lemma orphan_modifyBrowser ref f :
  (∀ b, pcs (f b) = pcs b) → keeps (preserves (orphaned ref)) (modifyBrowser f).
Proof. intros Hf w. unfold preserves, orphaned. simpl. by rewrite Hf. Qed.

Lemma orphan_emit ref e : keeps (preserves (orphaned ref)) (emit e).
Proof. by intros w Hw. Qed.

Lemma orphan_updatePc ref pc f :
  (∀ p, pc_closed (f p) = pc_closed p) →
  keeps (preserves (orphaned ref)) (updatePc pc f).
Proof.
  intros Hf w [Hr (p & Hp & Hopen)]. split; [done|]. simpl.
  destruct (decide (pc = ref)) as [->|Hne].
  - exists (f p). rewrite list_lookup_alter_eq, Hp. by rewrite Hf.
  - exists p. by rewrite list_lookup_alter_ne.
Qed.

Lemma orphan_createPeerConnection ref peerId :
  keeps (preserves (orphaned ref)) (createPeerConnection peerId).
Proof.
  intros w [Hr (p & Hp & Hopen)]. rewrite createPeerConnection_run.
  split; simpl.
  - intros Hin. apply jm_values_set_elem in Hin as [->|Hin]; [|done].
    apply lookup_lt_Some in Hp. lia.
  - exists p. split; [|done]. by apply lookup_app_l_Some.
Qed.

Lemma orphan_disconnectFromPeer ref peerId :
  keeps (preserves (orphaned ref)) (disconnectFromPeer peerId).
Proof.
  intros w [Hr (p & Hp & Hopen)]. rewrite disconnectFromPeer_run.
  split; simpl.
  - intros Hin. apply Hr. by eapply jm_values_delete_elem.
  - exists p. split; [|done].
    destruct (jm_get peerId (peers (mgr w))) as [cur|] eqn:Hg; [|done].
    rewrite closeOne_lookup, Hp. rewrite decide_False; [done|].
    intros ->. apply Hr. by eapply jm_get_values.
Qed.

Lemma orphan_cleanup ref : keeps (preserves (orphaned ref)) cleanup.
Proof.
  intros w [Hr (p & Hp & Hopen)]. rewrite cleanup_run. split; simpl.
  - apply not_elem_of_nil.
  - exists p. split; [|done]. by rewrite stopAll_pcs, closeAll_other.
Qed.

Create HintDb js_more.
Create HintDb js_shallow.
Create HintDb js_deep.
#[local] Hint Resolve keeps_ret keeps_throw channels_modifyBrowser
  channels_emit orphan_emit orphan_createPeerConnection
  orphan_disconnectFromPeer orphan_cleanup : js_more.
#[local] Hint Extern 1 (keeps (preserves _) getMgr) =>
  (apply keeps_same; intros; reflexivity) : js_more.
#[local] Hint Extern 1 (keeps (preserves _) getBrowser) =>
  (apply keeps_same; intros; reflexivity) : js_more.
#[local] Hint Extern 1 (keeps (preserves channelsOk) (modifyMgr _)) =>
  (apply channels_modifyMgr; intros; simpl;
   first [done | by apply jm_set_NoDup | by apply jm_delete_NoDup
         | constructor]) : js_more.
#[local] Hint Extern 1 (keeps (preserves (orphaned _)) (modifyMgr _)) =>
  (apply orphan_modifyMgr; intros; reflexivity) : js_more.
#[local] Hint Extern 1 (keeps (preserves (orphaned _)) (modifyBrowser _)) =>
  (apply orphan_modifyBrowser; intros; reflexivity) : js_more.
#[local] Hint Extern 1 (keeps (preserves (orphaned _)) (updatePc _ _)) =>
  (apply orphan_updatePc; intros; reflexivity) : js_more.

#[local] Hint Unfold getPc addTrack replaceTrack createDataChannel createOffer
  createAnswer setLocalDescription setRemoteDescription addIceCandidate stop
  socketSend channelSend getMedia setupDataChannel addLocalTracks handleOffer
  handleAnswer handleIceCandidate connectToPeer handleSignal onSocketMessage
  sendMessage addTracksToAllPeers startVoiceCall startVideoCall shareToPeer
  updateLocalStream startScreenShare onconnectionstatechange onicecandidate
  ondatachannel dataChannel_onopen dataChannel_onclose
  : js_shallow.
#[local] Hint Unfold createPeerConnection newRTCPeerConnection
  disconnectFromPeer close cleanup updatePc : js_deep.

(** Takes a computation apart; [unf] unfolds the operations that have no
    lemma of their own. *)
Ltac keeps_with unf :=
  repeat first
    [ match goal with
      | |- keeps _ (_ ≫= _) => apply keeps_bind; [apply _|apply _| |intros ?]
      | |- keeps _ (forEach _ _) =>
          apply keeps_forEach; [apply _|apply _|intros ?]
      | |- keeps _ (tryCatch _ _) =>
          apply keeps_tryCatch; [apply _| |intros ?]
      | |- keeps _ (match ?x with _ => _ end) => destruct x
      | |- keeps _ _ => solve [eauto with js_more typeclass_instances]
      end
    | progress unf ].

Lemma channels_perform a : keeps (preserves channelsOk) (perform a).
Proof.
  destruct a; simpl;
    keeps_with ltac:(autounfold with js_shallow js_deep).
Qed.

Lemma orphan_perform ref a : keeps (preserves (orphaned ref)) (perform a).
Proof.
  destruct a; simpl; keeps_with ltac:(autounfold with js_shallow).
Qed.

(** X11. Whatever happens to a session (frames of its socket, parsed or
    not, calls of the application, events of its connections and
    channels, in any number and order), its tables stay in order: the
    registry and the data channel map have one entry per identity, and
    the registry names distinct connections that exist and are open. *)
Theorem session_tables_stay_in_order u actions :
  registryOk (performAll actions (newWebRTCManager u))
  ∧ channelsOk (performAll actions (newWebRTCManager u)).
Proof.
  assert (∀ w, registryOk w → channelsOk w →
               registryOk (performAll actions w)
               ∧ channelsOk (performAll actions w)) as H.
  { unfold performAll. induction actions as [|a actions IH];
      intros w Hr Hc; [done|]. simpl.
    apply IH; [by apply registry_perform|by apply channels_perform]. }
  apply H; [split_and!; constructor|constructor].
Qed.

(** X12. [cleanup] completes normally and a second [cleanup] changes
    nothing: tearing down twice is tearing down once. *)
Theorem cleanup_twice_is_cleanup_once w :
  (cleanup ≫= λ _, cleanup) w = cleanup w
  ∧ (cleanup w).1 = Normal ().
Proof.
  rewrite bind_run, cleanup_run, cleanup_run. simpl. done.
Qed.

Lemma jm_set_replaces_value {K} `{EqDecision K} (k : K) (v vnew v' : nat)
    (m : list (K * nat)) :
  NoDup (jm_values m) → jm_get k m = Some v →
  v' ∈ jm_values (jm_set k vnew m) → v' = vnew ∨ (v' ∈ jm_values m ∧ v' ≠ v).
Proof.
  unfold jm_values. induction m as [|[k0 v0] m IH]; csimpl; [done|].
  rewrite NoDup_cons. intros [Hv0 Hnd].
  destruct (decide (k = k0)) as [->|Hne]; csimpl.
  - intros [= ->]. rewrite elem_of_cons. intros [->|Hin]; [by left|].
    right. split; [by right|]. by intros ->.
  - intros Hg. rewrite elem_of_cons. intros [->|Hin].
    + right. split; [by left|]. intros ->. apply Hv0.
      apply list_elem_of_fmap. exists (k, v). split; [done|].
      by apply jm_get_Some_elem.
    + destruct (IH Hnd Hg Hin) as [->|[Hin' Hne']]; [by left|].
      right. split; [by right|done].
Qed.

(** X13. A connection replaced by a second link-creation request for its
    identity is never closed. After [connectToPeer(peerId)] or
    [handleOffer] of an offer from [peerId] on a session that already had
    a connection registered for [peerId], that connection is outside the
    registry and open, and it stays so whatever happens to the session
    afterwards: [peer-left], a failure report, [cleanup] and
    [leaveChannel] close registered connections only. *)
Theorem replaced_connection_is_never_closed w peerId signal old w1 :
  registryOk w →
  jm_get peerId (peers (mgr w)) = Some old →
  from signal = peerId →
  w1 = (connectToPeer peerId w).2 ∨ w1 = (handleOffer signal w).2 →
  ∀ actions, orphaned old (performAll actions w1).
Proof.
  intros (Hk & Hv & Hall) Hold Hfrom Hw1.
  assert (orphaned old w1) as Ho.
  { assert (peers (mgr w1)
            = jm_set peerId (length (pcs (browser w))) (peers (mgr w))
            ∧ length (pcs (browser w1)) = S (length (pcs (browser w)))
            ∧ ∀ ref, ref < length (pcs (browser w)) →
                     pcs (browser w1) !! ref = pcs (browser w) !! ref)
      as (Hp & _ & Hr).
    { destruct Hw1 as [Hw1|Hw1].
      - destruct (connectToPeer_split peerId) as (rest & Hrest & Heq).
        rewrite Heq in Hw1.
        by apply (after_createPeerConnection peerId w rest).
      - subst peerId.
        destruct (handleOffer_split signal) as (rest & Hrest & Heq).
        rewrite Heq in Hw1.
        by apply (after_createPeerConnection (from signal) w rest). }
    rewrite Forall_forall in Hall.
    destruct (Hall (peerId, old)) as (p & Hp0 & Hopen);
      [by apply jm_get_Some_elem|]. simpl in Hp0.
    pose proof (lookup_lt_Some _ _ _ Hp0) as Hlt.
    split.
    - rewrite Hp. intros Hin.
      apply (jm_set_replaces_value peerId old) in Hin as [->|[_ Hne]];
        [lia|done|done|done].
    - exists p. split; [|done]. by rewrite Hr. }
  intros actions. clear Hw1. revert w1 Ho. unfold performAll.
  induction actions as [|a actions IH]; intros w1 Ho; [done|]. simpl.
  apply IH. by apply orphan_perform.
Qed.

Lemma replaced_connection_is_never_closed_witness :
  orphaned 0 (performAll [SocketMessage (Some bobLeft); Cleanup] bobTwice).
Proof.
  apply (replaced_connection_is_never_closed bobLinked (Some "bob")
           offerFromBob 0 bobTwice).
  - exact (reachableSession_registryOk "alice" bobLinked
             (reachable_perform "alice" _ (SocketMessage (Some bobJoined))
                (reachable_new "alice"))).
  - reflexivity.
  - reflexivity.
  - left. reflexivity.
Defined.

(** *** The two ends of a handshake *)

Lemma lookup_snoc {A} (l : list A) x : (l ++ [x]) !! length l = Some x.
Proof. by rewrite lookup_app_r, Nat.sub_diag by lia. Qed.

Lemma insert_snoc {A} (l : list A) x y : <[length l := y]> (l ++ [x]) = l ++ [y].
Proof.
  induction l as [|a l IH]; [done|]. simpl. by rewrite IH.
Qed.

Lemma createDataChannel_run pc p w :
  pcs (browser w) !! pc = Some p → pc_closed p = false →
  createDataChannel pc w
  = (Normal (length (dcs (browser w))),
     mkWorld (mgr w) (set_dcs (λ l, l ++ [mkDC dc_connecting pc]) (browser w))
       (effects w)).
Proof.
  intros Hp Hopen. unfold createDataChannel, getPc. rewrite !bind_run. simpl.
  rewrite Hp. simpl. by rewrite Hopen.
Qed.

Lemma addLocalTracks_run pc p w :
  pcs (browser w) !! pc = Some p → pc_closed p = false →
  NoDup (default [] (localStream (mgr w))) →
  (∀ t, t ∈ default [] (localStream (mgr w)) → Some t ∉ pc_senders p) →
  addLocalTracks pc w
  = (Normal (),
     mkWorld (mgr w)
       (set_pcs (<[pc := pc_set_senders
                           (pc_senders p
                            ++ (Some <$> default [] (localStream (mgr w)))) p]>)
          (browser w))
       (effects w)).
Proof.
  intros Hp Hopen Hnd Hnew. unfold addLocalTracks. rewrite bind_run. simpl.
  destruct (localStream (mgr w)) as [tracks|] eqn:Hls; simpl in *.
  - by apply addTracks_run.
  - rewrite app_nil_r. destruct w as [m [ps ds st pi] es]. simpl in *.
    unfold set_pcs. simpl. do 3 f_equal. symmetry.
    apply list_insert_id. by destruct p.
Qed.

Lemma createOffer_run pc p w :
  pcs (browser w) !! pc = Some p → pc_closed p = false →
  createOffer pc w = (Normal (mkDescription sdp_offer (userId (mgr w)) pc), w).
Proof.
  intros Hp Hopen. unfold createOffer, getPc. rewrite !bind_run. simpl.
  rewrite Hp. simpl. by rewrite Hopen.
Qed.

Lemma createAnswer_run pc p d w :
  pcs (browser w) !! pc = Some p → pc_closed p = false →
  pc_remoteDescription p = Some d → sdpType d = sdp_offer →
  createAnswer pc w = (Normal (mkDescription sdp_answer (userId (mgr w)) pc), w).
Proof.
  intros Hp Hopen Hr Hd. unfold createAnswer, getPc. rewrite !bind_run. simpl.
  rewrite Hp. simpl. rewrite Hopen, Hr. by destruct (decide _).
Qed.

Lemma setLocalDescription_run pc p d w :
  pcs (browser w) !! pc = Some p → pc_closed p = false →
  setLocalDescription pc d w
  = (Normal (),
     mkWorld (mgr w)
       (set_pendingIce (λ l, l ++ [pc])
          (set_pcs (<[pc := pc_set_local d p]>) (browser w)))
       (effects w)).
Proof.
  intros Hp Hopen. unfold setLocalDescription, getPc. rewrite !bind_run. simpl.
  rewrite Hp. simpl. rewrite Hopen. rewrite !bind_run. simpl.
  unfold set_pendingIce, set_pcs. simpl. by rewrite (alter_lookup _ _ _ _ Hp).
Qed.

Lemma setRemoteDescription_offer_run pc p d j w :
  pcs (browser w) !! pc = Some p → pc_closed p = false →
  pc_localDescription p = None → pc_remoteDescription p = None →
  json_to_description j = Some d → sdpType d = sdp_offer →
  setRemoteDescription pc j w
  = (Normal (),
     mkWorld (mgr w) (set_pcs (<[pc := pc_set_remote d p]>) (browser w))
       (effects w)).
Proof.
  intros Hp Hopen Hl Hr Hj Hd. unfold setRemoteDescription, getPc.
  rewrite !bind_run. simpl. rewrite Hp. simpl. rewrite Hj, Hopen, Hd, Hl, Hr.
  unfold updatePc, modifyBrowser, set_pcs. simpl.
  by rewrite (alter_lookup _ _ _ _ Hp).
Qed.

(** X14. Told that [peerId] joined, a session whose local stream (if any)
    has distinct tracks completes [connectToPeer] normally and: creates
    one connection and registers it for [peerId]; opens one data channel
    on it and registers that too; puts every local track on a sender of
    the new connection; and writes to the socket exactly one envelope, an
    [offer] from its own identity to [peerId] that carries the offer of
    the new connection. No other connection or channel is touched. *)
Theorem peer_joined_is_answered_with_one_offer w peerId :
  NoDup (default [] (localStream (mgr w))) →
  let n := length (pcs (browser w)) in
  let description := mkDescription sdp_offer (userId (mgr w)) n in
  connectToPeer peerId w
  = (Normal (),
     mkWorld
       (set_dataChannels (jm_set peerId (length (dcs (browser w))))
          (set_peers (jm_set peerId n) (mgr w)))
       (mkBrowser
          (pcs (browser w)
           ++ [mkPC peerId false (Some <$> default [] (localStream (mgr w)))
                 (Some description) None []])
          (dcs (browser w) ++ [mkDC dc_connecting n])
          (stoppedTracks (browser w))
          (pendingIce (browser w) ++ [n]))
       (effects w
        ++ [SocketSend (mkSignal offer (Some (userId (mgr w))) peerId None None
                          (Some (description_to_json description)))])).
Proof.
  intros Hnd n description. unfold connectToPeer.
  rewrite bind_run, createPeerConnection_run.
  set (p0 := mkPC peerId false [] None None []).
  rewrite bind_run, (createDataChannel_run n p0)
    by (try done; simpl; apply lookup_snoc).
  rewrite bind_run. simpl.
  rewrite bind_run, (addLocalTracks_run n p0);
    [|simpl; apply lookup_snoc|done|done|simpl; intros; apply not_elem_of_nil].
  simpl.
  set (p1 := pc_set_senders _ p0).
  rewrite bind_run, (createOffer_run n p1)
    by (try done; simpl; subst n; by rewrite insert_snoc, lookup_snoc).
  rewrite bind_run, (setLocalDescription_run n p1)
    by (try done; simpl; subst n; by rewrite insert_snoc, lookup_snoc).
  rewrite bind_run. simpl. unfold socketSend, emit. simpl.
  do 2 f_equal. unfold set_pendingIce, set_pcs. simpl. f_equal.
  subst n. by rewrite !insert_snoc.
Qed.

Lemma peer_joined_is_answered_with_one_offer_witness :
  NoDup (default [] (localStream (mgr inVideoCall)))
  ∧ (connectToPeer (Some "dave") inVideoCall).1 = Normal ().
Proof.
  assert (NoDup (default [] (localStream (mgr inVideoCall)))) as Hnd.
  { apply (bool_decide_unpack _). by vm_compute. }
  split; [done|].
  by rewrite (peer_joined_is_answered_with_one_offer inVideoCall (Some "dave") Hnd).
Defined.

(** X15. An [offer] envelope whose [data] is an offer description is
    handled to the end by a session whose local stream (if any) has
    distinct tracks: one connection is created and registered for the
    sender, it takes the offer as its remote description, carries every
    local track, and exactly one envelope is written to the socket, an
    [answer] from the session's identity to the sender with the answer of
    that connection. The data channel map is not touched: the answering
    side learns of the channel from the connection later. *)
Theorem offer_is_answered_with_one_answer w signal d :
  NoDup (default [] (localStream (mgr w))) →
  json_to_description (data signal) = Some d →
  sdpType d = sdp_offer →
  let n := length (pcs (browser w)) in
  let description := mkDescription sdp_answer (userId (mgr w)) n in
  handleOffer signal w
  = (Normal (),
     mkWorld
       (set_peers (jm_set (from signal) n) (mgr w))
       (mkBrowser
          (pcs (browser w)
           ++ [mkPC (from signal) false
                 (Some <$> default [] (localStream (mgr w)))
                 (Some description) (Some d) []])
          (dcs (browser w))
          (stoppedTracks (browser w))
          (pendingIce (browser w) ++ [n]))
       (effects w
        ++ [SocketSend (mkSignal answer (Some (userId (mgr w))) (from signal)
                          None None
                          (Some (description_to_json description)))])).
Proof.
  intros Hnd Hj Hd n description. unfold handleOffer.
  rewrite bind_run, createPeerConnection_run.
  set (p0 := mkPC (from signal) false [] None None []).
  rewrite bind_run, (setRemoteDescription_offer_run n p0 d)
    by (try done; simpl; apply lookup_snoc).
  set (p1 := pc_set_remote d p0).
  rewrite bind_run, (addLocalTracks_run n p1);
    [|simpl; subst n; by rewrite insert_snoc, lookup_snoc|done|done
     |simpl; intros; apply not_elem_of_nil].
  simpl.
  set (p2 := pc_set_senders _ p1).
  rewrite bind_run, (createAnswer_run n p2 d)
    by (try done; simpl; subst n; by rewrite !insert_snoc, lookup_snoc).
  rewrite bind_run, (setLocalDescription_run n p2)
    by (try done; simpl; subst n; by rewrite !insert_snoc, lookup_snoc).
  rewrite bind_run. simpl. unfold socketSend, emit. simpl.
  do 2 f_equal. unfold set_pendingIce, set_pcs. simpl. f_equal.
  subst n. by rewrite !insert_snoc.
Qed.

Lemma offer_is_answered_with_one_answer_witness :
  NoDup (default [] (localStream (mgr inVideoCall)))
  ∧ json_to_description (data offerFromBob)
    = Some (mkDescription sdp_offer "bob" 0)
  ∧ (handleOffer offerFromBob inVideoCall).1 = Normal ().
Proof.
  assert (NoDup (default [] (localStream (mgr inVideoCall)))) as Hnd.
  { apply (bool_decide_unpack _). by vm_compute. }
  split; [done|]. split; [reflexivity|].
  by rewrite (offer_is_answered_with_one_answer inVideoCall offerFromBob
                (mkDescription sdp_offer "bob" 0) Hnd eq_refl eq_refl).
Defined.

Lemma setRemoteDescription_rejects pc p j w :
  pcs (browser w) !! pc = Some p →
  (∀ d, json_to_description j = Some d → sdpType d ≠ sdp_offer) →
  pc_localDescription p = None →
  ∃ e, setRemoteDescription pc j w = (Throw e, w).
Proof.
  intros Hp Hbad Hl. unfold setRemoteDescription, getPc.
  rewrite !bind_run. simpl. rewrite Hp. simpl.
  destruct (json_to_description j) as [d|] eqn:Hj; simpl; [|by eexists].
  destruct (pc_closed p); simpl; [by eexists|].
  specialize (Hbad d eq_refl). rewrite Hl.
  destruct (sdpType d); [done|]. by eexists.
Qed.

(** X16. An [offer] envelope whose [data] is not an offer description
    (absent, not a description at all, or an answer) still costs the
    sender's link: the socket listener completes normally, nothing is
    written to the socket or the console, and yet a new, empty connection
    has been created and registered under the sender's identity in place
    of whatever connection was registered there. *)
Theorem bad_offer_still_replaces_the_link w signal :
  type signal = offer →
  (∀ d, json_to_description (data signal) = Some d → sdpType d ≠ sdp_offer) →
  onSocketMessage (Some signal) w
  = (Normal (),
     mkWorld
       (set_peers (jm_set (from signal) (length (pcs (browser w)))) (mgr w))
       (set_pcs (λ l, l ++ [mkPC (from signal) false [] None None []])
          (browser w))
       (effects w)).
Proof.
  intros Hty Hbad. unfold onSocketMessage, handleSignal. rewrite Hty.
  unfold tryCatch, handleOffer.
  rewrite bind_run, createPeerConnection_run.
  set (p0 := mkPC (from signal) false [] None None []).
  rewrite bind_run.
  edestruct (setRemoteDescription_rejects (length (pcs (browser w))) p0
               (data signal)) as [e He]; [|exact Hbad|done|rewrite He].
  - simpl. apply lookup_snoc.
  - done.
Qed.

Lemma bad_offer_still_replaces_the_link_witness :
  jm_get (Some "bob") (peers (mgr bobLinked)) = Some 0
  ∧ jm_get (Some "bob")
      (peers (mgr (onSocketMessage
                     (Some (mkSignal offer (Some "bob") (Some "alice")
                              None None None)) bobLinked).2))
    = Some 1.
Proof.
  split; [reflexivity|].
  rewrite (bad_offer_still_replaces_the_link bobLinked
             (mkSignal offer (Some "bob") (Some "alice") None None None)
             eq_refl);
    [reflexivity|].
  intros d Hd. simpl in Hd. discriminate Hd.
Defined.



End ClientMore.

(** ** The REST server *)

Section StorageFacts.
Import Storage StorageSpec.

(** *** Arrays *)

Lemma insertSorted_Permutation {A} (compareFn : A → A → Z) x xs :
  insertSorted compareFn x xs ≡ₚ x :: xs.
Proof.
  induction xs as [|y xs IH]; simpl; [done|].
  destruct (compareFn x y <=? 0)%Z; [done|].
  rewrite IH. apply Permutation_swap.
Qed.

Lemma sort_Permutation {A} (compareFn : A → A → Z) xs :
  sort compareFn xs ≡ₚ xs.
Proof.
  induction xs as [|x xs IH]; simpl; [done|].
  by rewrite insertSorted_Permutation, IH.
Qed.

Section SortByKey.
Context {A : Type} (key : A → Z).

Lemma insertSorted_sorted x xs :
  StronglySorted (λ a b, key a ≤ key b)%Z xs →
  StronglySorted (λ a b, key a ≤ key b)%Z
    (insertSorted (λ a b, key a - key b)%Z x xs).
Proof.
  induction 1 as [|y xs Hs IH Hall]; simpl.
  - repeat constructor.
  - destruct (key x - key y <=? 0)%Z eqn:Hc.
    + apply Z.leb_le in Hc. constructor; [by constructor|].
      constructor; [lia|].
      eapply Forall_impl; [exact Hall|]. intros z Hz. simpl in Hz. lia.
    + apply Z.leb_gt in Hc. constructor; [done|].
      rewrite insertSorted_Permutation. constructor; [|done]. lia.
Qed.

Lemma sort_sorted xs :
  StronglySorted (λ a b, key a ≤ key b)%Z (sort (λ a b, key a - key b)%Z xs).
Proof.
  induction xs as [|x xs IH]; simpl; [constructor|].
  by apply insertSorted_sorted.
Qed.

Lemma insertSorted_snoc a xs x :
  (key a ≤ key x)%Z →
  insertSorted (λ a b, key a - key b)%Z a (xs ++ [x])
  = insertSorted (λ a b, key a - key b)%Z a xs ++ [x].
Proof.
  intros Hle. induction xs as [|y xs IH]; simpl.
  - by rewrite (proj2 (Z.leb_le _ _)) by lia.
  - destruct (key a - key y <=? 0)%Z; [done|]. by rewrite IH.
Qed.

Lemma sort_snoc xs x :
  (∀ y, y ∈ xs → (key y ≤ key x)%Z) →
  sort (λ a b, key a - key b)%Z (xs ++ [x])
  = sort (λ a b, key a - key b)%Z xs ++ [x].
Proof.
  intros Hall. unfold sort. rewrite foldr_app. simpl.
  induction xs as [|a xs IH]; simpl; [done|].
  rewrite IH by (intros y Hy; apply Hall; by right).
  apply insertSorted_snoc, Hall. by left.
Qed.

End SortByKey.

Lemma slice_last {A} (limit : Z) (xs : list A) :
  (0 ≤ limit)%Z →
  slice (- limit) xs
  = if decide (limit = 0)%Z then xs
    else drop (length xs - Z.to_nat limit) xs.
Proof.
  intros Hl. unfold slice. destruct (decide (limit = 0)%Z) as [->|Hne].
  - simpl. by rewrite Z.min_l by lia.
  - rewrite (proj2 (Z.ltb_lt _ _)) by lia. f_equal. lia.
Qed.

Lemma StronglySorted_app_cross {A} (R : A → A → Prop) (l1 l2 : list A) :
  StronglySorted R (l1 ++ l2) →
  StronglySorted R l2 ∧ ∀ a b, a ∈ l1 → b ∈ l2 → R a b.
Proof.
  induction l1 as [|x l1 IH]; simpl.
  - intros Hs. split; [done|]. intros a b Ha. by apply elem_of_nil in Ha.
  - intros Hs. apply StronglySorted_inv in Hs as [Hs Hall].
    destruct (IH Hs) as [Hs2 Hcross]. split; [done|].
    intros a b [->|Ha]%elem_of_cons Hb; [|by apply Hcross].
    rewrite Forall_forall in Hall. apply Hall. apply elem_of_app. by right.
Qed.

(** *** Reading a channel *)

Lemma message_withAuthor s (l : list Message) :
  message <$> (withAuthor s <$> l) = l.
Proof. induction l as [|m l IH]; csimpl; [done|]. by rewrite IH. Qed.

(** X18. [getChannelMessages] with a limit that is not negative returns
    the newest messages of the channel in chronological order: what is
    returned and what is left out are together the stored messages of the
    channel, the page is ordered by creation time, nothing left out is
    newer than anything returned, each message comes with the user stored
    under its author id, and the page has [limit] messages or all of them
    if there are fewer. A limit of [0] does not give an empty page: it
    returns every message of the channel. *)
Theorem channel_history_is_the_newest_in_order channelId limit s :
  (0 ≤ limit)%Z →
  let stored :=
    filter (λ m, message_channelId m = channelId) (jm_values (messages s)) in
  let page := getChannelMessages channelId limit s in
  ∃ older,
    older ++ (message <$> page) ≡ₚ stored
    ∧ StronglySorted notAfter (message <$> page)
    ∧ (∀ o m, o ∈ older → m ∈ message <$> page → notAfter o m)
    ∧ (∀ e, e ∈ page → author e = getUser (authorId (message e)) s)
    ∧ length page
      = if decide (limit = 0)%Z then length stored
        else Z.to_nat limit `min` length stored.
Proof.
  intros Hl stored page. subst page. unfold getChannelMessages.
  fold stored. set (sorted := sort _ stored).
  assert (sorted ≡ₚ stored) as Hperm by apply sort_Permutation.
  assert (StronglySorted notAfter sorted) as Hsorted
    by apply (sort_sorted message_createdAt).
  rewrite message_withAuthor, length_fmap, slice_last by done.
  assert (∀ (l : list Message) e, e ∈ withAuthor s <$> l →
                 author e = getUser (authorId (message e)) s) as Hauthor.
  { by intros l e (m & -> & _)%list_elem_of_fmap. }
  destruct (decide (limit = 0)%Z) as [->|Hne].
  - exists []. simpl. split_and!; eauto.
    + intros o m Ho. by apply elem_of_nil in Ho.
    + by rewrite Hperm.
  - set (k := length sorted - Z.to_nat limit).
    exists (take k sorted).
    assert (take k sorted ++ drop k sorted = sorted) as Hsplit
      by apply take_drop.
    rewrite <- Hsplit in Hsorted.
    apply StronglySorted_app_cross in Hsorted as [Hs Hcross].
    split_and!; eauto.
    + by rewrite Hsplit.
    + rewrite length_drop. subst k. rewrite Hperm. lia.
Qed.

Lemma channel_history_is_the_newest_in_order_witness :
  (0 ≤ 2)%Z
  ∧ StronglySorted notAfter
      (message <$> getChannelMessages "5" 2 (storage chatting)).
Proof.
  split; [lia|].
  destruct (channel_history_is_the_newest_in_order "5" 2 (storage chatting))
    as (older & _ & Hsorted & _); [lia|].
  exact Hsorted.
Defined.

(** *** Maps of rows *)

Lemma findEntry_None {V} (p : V → bool) (m : list (string * V)) v :
  findEntry p m = None → v ∈ jm_values m → p v = false.
Proof.
  unfold findEntry, jm_values. intros Hf ([k v'] & -> & Hin)%list_elem_of_fmap.
  apply list_elem_of_In in Hin. by apply (find_none _ _ Hf) in Hin.
Qed.

Lemma findEntry_Some {V} (p : V → bool) (m : list (string * V)) k v :
  findEntry p m = Some (k, v) → (k, v) ∈ m ∧ p v = true.
Proof.
  unfold findEntry. intros Hf. apply find_some in Hf as [Hin Hp].
  by apply list_elem_of_In in Hin.
Qed.

Lemma values_set_fresh_NoDup {V B} (f : V → B) k v (m : list (string * V)) :
  f v ∉ f <$> jm_values m →
  NoDup (f <$> jm_values m) →
  NoDup (f <$> jm_values (jm_set k v m)).
Proof.
  unfold jm_values. induction m as [|[k0 v0] m IH]; csimpl.
  - intros _ _. repeat constructor. apply not_elem_of_nil.
  - rewrite not_elem_of_cons, NoDup_cons. intros [Hne Hnew] [Hv0 Hnd].
    destruct (decide (k = k0)) as [->|Hk]; csimpl.
    + by apply NoDup_cons.
    + apply NoDup_cons. split; [|by apply IH].
      intros (v' & Hf & Hin)%list_elem_of_fmap.
      apply (jm_values_set_elem k v v' m) in Hin as [->|Hin]; [done|].
      apply Hv0. rewrite Hf. apply list_elem_of_fmap. by exists v'.
Qed.

Lemma values_set_same {V B} (f : V → B) k v v' (m : list (string * V)) :
  jm_get k m = Some v → f v' = f v →
  f <$> jm_values (jm_set k v' m) = f <$> jm_values m.
Proof.
  unfold jm_values. intros Hg Hf. induction m as [|[k0 v0] m IH]; [done|].
  simpl in Hg |- *. destruct (decide (k = k0)) as [->|Hk]; csimpl.
  - injection Hg as ->. by rewrite Hf.
  - by rewrite IH.
Qed.

(** *** What the methods of [MemStorage] write *)

Section StorageRuns.
Context (uuid : nat → string) (clock : nat → Z).

Lemma st_bind_run {A B} (c : St A) (f : A → St B) w :
  (c ≫= f) w = f (c w).1 (c w).2.
Proof. unfold mbind, St_bind. by destruct (c w). Qed.

Lemma createUser_run insertUser w :
  let user :=
    mkUser (uuid (uuidCalls w)) (iu_username insertUser)
      (iu_email insertUser) (iu_password insertUser) (iu_avatar insertUser)
      (default "online" (iu_status insertUser)) (clock (dateCalls w)) in
  createUser uuid clock insertUser w
  = (user,
     mkWorld (set_users (jm_set (uuid (uuidCalls w)) user) (storage w))
       (S (uuidCalls w)) (S (dateCalls w))).
Proof. reflexivity. Qed.

Lemma updateUserStatus_run id status w :
  updateUserStatus id status w
  = ((),
     match getUser id (storage w) with
     | Some user =>
         mkWorld (set_users (jm_set id (setStatus status user)) (storage w))
           (uuidCalls w) (dateCalls w)
     | None => w
     end).
Proof.
  unfold updateUserStatus. rewrite st_bind_run. cbn [gets fst snd].
  by destruct (getUser id (storage w)).
Qed.

Lemma createChannel_run insertChannel w :
  let channel :=
    mkChannel (uuid (uuidCalls w)) (ic_name insertChannel)
      (ic_description insertChannel) (ic_type insertChannel)
      (ic_serverId insertChannel) (default 0%Z (ic_position insertChannel))
      (clock (dateCalls w)) in
  createChannel uuid clock insertChannel w
  = (channel,
     mkWorld (set_channels (jm_set (uuid (uuidCalls w)) channel) (storage w))
       (S (uuidCalls w)) (S (dateCalls w))).
Proof. reflexivity. Qed.

Lemma createServer_run insertServer w :
  let n := uuidCalls w in
  let d := dateCalls w in
  let server :=
    mkServer (uuid n) (is_name insertServer) (is_description insertServer)
      (is_icon insertServer) (is_ownerId insertServer)
      (String.substring 0 8 (uuid (S n))) (clock d) in
  let membership :=
    mkServerMember (uuid (2 + n)) (is_ownerId insertServer) (uuid n) "owner"
      (clock (S d)) in
  let general :=
    mkChannel (uuid (3 + n)) "general" None "text" (uuid n) 0 (clock (2 + d)) in
  let voice :=
    mkChannel (uuid (4 + n)) "General Voice" None "voice" (uuid n) 1
      (clock (3 + d)) in
  createServer uuid clock insertServer w
  = (server,
     mkWorld
       (set_channels
          (λ m, jm_set (uuid (4 + n)) voice (jm_set (uuid (3 + n)) general m))
          (set_serverMembers (jm_set (uuid (2 + n)) membership)
             (set_servers (jm_set (uuid n) server) (storage w))))
       (5 + n) (4 + d)).
Proof. reflexivity. Qed.

Lemma joinServer_run userId serverId w :
  joinServer uuid clock userId serverId w
  = ((),
     mkWorld
       (set_serverMembers
          (jm_set (uuid (uuidCalls w))
             (mkServerMember (uuid (uuidCalls w)) userId serverId "member"
                (clock (dateCalls w))))
          (storage w))
       (S (uuidCalls w)) (S (dateCalls w))).
Proof. reflexivity. Qed.

Lemma createMessage_run insertMessage w :
  let message :=
    mkMessage (uuid (uuidCalls w)) (im_content insertMessage)
      (im_authorId insertMessage) (im_channelId insertMessage)
      (default "text" (im_type insertMessage)) (im_attachments insertMessage)
      (clock (dateCalls w)) in
  createMessage uuid clock insertMessage w
  = (message,
     mkWorld (set_messages (jm_set (uuid (uuidCalls w)) message) (storage w))
       (S (uuidCalls w)) (S (dateCalls w))).
Proof. reflexivity. Qed.

Lemma createDirectMessage_run insertMessage w :
  let message :=
    mkDirectMessage (uuid (uuidCalls w)) (idm_content insertMessage)
      (idm_senderId insertMessage) (idm_recipientId insertMessage)
      (default "text" (idm_type insertMessage))
      (idm_attachments insertMessage) (clock (dateCalls w)) in
  createDirectMessage uuid clock insertMessage w
  = (message,
     mkWorld
       (set_directMessages (jm_set (uuid (uuidCalls w)) message) (storage w))
       (S (uuidCalls w)) (S (dateCalls w))).
Proof. reflexivity. Qed.

Lemma addFriend_run a b w :
  addFriend uuid clock a b w
  = ((),
     mkWorld
       (set_friendships
          (jm_set (uuid (uuidCalls w))
             (mkFriendship (uuid (uuidCalls w)) a b "pending"
                (clock (dateCalls w))))
          (storage w))
       (S (uuidCalls w)) (S (dateCalls w))).
Proof. reflexivity. Qed.

(** *** The routes, one by one *)

Lemma register_run body w :
  register uuid clock body w
  = match body with
    | None => (reject 400 "Invalid registration data", w)
    | Some userData =>
        match getUserByUsername (iu_username userData) (storage w) with
        | Some _ => (reject 400 "Username already exists", w)
        | None =>
            match getUserByEmail (iu_email userData) (storage w) with
            | Some _ => (reject 400 "Email already exists", w)
            | None =>
                (json_ (BAuth (publicUser (createUser uuid clock userData w).1)),
                 (createUser uuid clock userData w).2)
            end
        end
    end.
Proof.
  unfold register. destruct body as [userData|]; [|done].
  rewrite st_bind_run. cbn [gets fst snd].
  destruct (getUserByUsername _ _); [done|].
  rewrite st_bind_run. cbn [gets fst snd].
  destruct (getUserByEmail _ _); [done|].
  by rewrite st_bind_run.
Qed.

Lemma length_nonempty (s : string) : 1 ≤ String.length s ↔ s ≠ "".
Proof. destruct s; simpl; [split; [lia|done]|split; [done|lia]]. Qed.

Lemma loginSchema_accepts credentials :
  login_username credentials ≠ "" → login_password credentials ≠ "" →
  loginSchema (Some credentials) = Some credentials.
Proof.
  intros Hu Hp. unfold loginSchema.
  by rewrite !bool_decide_eq_true_2 by by apply length_nonempty.
Qed.

Lemma loginSchema_rejects credentials :
  login_username credentials = "" ∨ login_password credentials = "" →
  loginSchema (Some credentials) = None.
Proof.
  intros Hempty. unfold loginSchema.
  destruct (bool_decide (1 ≤ String.length (login_username credentials)))
    eqn:Hu; [|done].
  destruct (bool_decide (1 ≤ String.length (login_password credentials)))
    eqn:Hp; [|done].
  apply bool_decide_eq_true, length_nonempty in Hu.
  apply bool_decide_eq_true, length_nonempty in Hp. by destruct Hempty.
Qed.

Lemma login_run body w :
  login body w
  = match loginSchema body with
    | None => (reject 400 "Invalid login data", w)
    | Some credentials =>
        match getUserByUsername (login_username credentials) (storage w) with
        | None => (reject 401 "Invalid credentials", w)
        | Some (key, user) =>
            if bool_decide (password user = login_password credentials) then
              let w' := (updateUserStatus (user_id user) "online" w).2 in
              (json_ (BAuth (publicUser
                               (default user (jm_get key (users (storage w')))))),
               w')
            else (reject 401 "Invalid credentials", w)
        end
    end.
Proof.
  unfold login. destruct (loginSchema body) as [credentials|]; [|done].
  rewrite st_bind_run. cbn [gets fst snd].
  destruct (getUserByUsername _ _) as [[key user]|]; [|done].
  destruct (bool_decide _); [|done].
  rewrite st_bind_run. cbn zeta. by rewrite st_bind_run.
Qed.

Lemma handle_writes request w : writes uuid clock w (handle uuid clock request w).2.
Proof.
  destruct request as [body|body|id|id body|userId|body|id|body|id|body|id
                       |body|body|userId1 userId2|userId|body];
    unfold handle.
  - rewrite register_run. destruct body as [userData|]; [|constructor].
    destruct (getUserByUsername _ _) eqn:Hn; [constructor|].
    destruct (getUserByEmail _ _) eqn:He; [constructor|].
    by constructor.
  - rewrite login_run. destruct (loginSchema body) as [credentials|];
      [|constructor].
    destruct (getUserByUsername _ _) as [[key user]|]; [|constructor].
    destruct (bool_decide _); constructor.
  - rewrite st_bind_run. cbn [gets fst snd].
    destruct (getUser _ _); constructor.
  - destruct body as [status|]; [|constructor].
    rewrite st_bind_run. constructor.
  - destruct userId as [userId|]; [|constructor].
    destruct (truthy _); [|constructor]. rewrite st_bind_run. constructor.
  - destruct body as [serverData|]; [|constructor].
    rewrite st_bind_run. constructor.
  - rewrite st_bind_run. cbn [gets fst snd].
    destruct (getServerWithChannels _ _); constructor.
  - destruct body as [[code userId]|]; [|constructor].
    rewrite st_bind_run. cbn [gets fst snd].
    destruct (getServerByInviteCode _ _) as [server|] eqn:Hs; [|constructor].
    rewrite st_bind_run. by econstructor.
  - rewrite st_bind_run. constructor.
  - destruct body as [channelData|]; [|constructor].
    rewrite st_bind_run. constructor.
  - rewrite st_bind_run. constructor.
  - destruct body as [messageData|]; [|constructor].
    rewrite st_bind_run, st_bind_run. constructor.
  - destruct body as [messageData|]; [|constructor].
    rewrite st_bind_run, st_bind_run. constructor.
  - destruct userId1 as [userId1|], userId2 as [userId2|]; try constructor.
    destruct (_ && _); [|constructor]. rewrite st_bind_run. constructor.
  - rewrite st_bind_run. constructor.
  - destruct body as [[userId1 userId2]|]; [|constructor].
    rewrite st_bind_run. constructor.
Qed.

End StorageRuns.

(** *** What holds after any list of requests *)

Lemma keyed_set {V} (id : V → string) k v (m : list (string * V)) :
  id v = k → keyed id m → keyed id (jm_set k v m).
Proof.
  intros Hid [Hnd Hk]. split; [by apply jm_set_NoDup|].
  intros k' v' [[-> ->]|Hin]%jm_set_elem; [done|by apply Hk].
Qed.

Lemma keyed_get {V} (id : V → string) k v (m : list (string * V)) :
  keyed id m → jm_get k m = Some v → id v = k.
Proof. intros [_ Hk] Hg. by apply Hk, jm_get_Some_elem. Qed.

Lemma keyed_values_get {V} (id : V → string) v (m : list (string * V)) :
  keyed id m → v ∈ jm_values m → jm_get (id v) m = Some v.
Proof.
  intros [Hnd Hk] ([k v'] & -> & Hin)%list_elem_of_fmap. simpl.
  rewrite (Hk _ _ Hin). by apply jm_elem_get.
Qed.

Lemma NoDup_fmap_eq {A B} (f : A → B) (l : list A) x y :
  NoDup (f <$> l) → x ∈ l → y ∈ l → f x = f y → x = y.
Proof.
  induction l as [|a l IH]; csimpl; [by intros _ ?%elem_of_nil|].
  rewrite NoDup_cons, !elem_of_cons. intros [Ha Hnd] [->|Hx] [->|Hy] Hf.
  - done.
  - destruct Ha. rewrite Hf. apply list_elem_of_fmap. by exists y.
  - destruct Ha. rewrite <- Hf. apply list_elem_of_fmap. by exists x.
  - by apply IH.
Qed.

Section StorageInvariants.
Context (uuid : nat → string) (clock : nat → Z).

Lemma drawnKeys_mono {V} n n' (m : list (string * V)) :
  n ≤ n' → drawnKeys uuid n m → drawnKeys uuid n' m.
Proof.
  intros Hle Hd k Hk. destruct (Hd k Hk) as (i & Hi & ->).
  exists i. split; [lia|done].
Qed.

Lemma drawnKeys_set {V} i n v (m : list (string * V)) :
  i < n → drawnKeys uuid n m → drawnKeys uuid n (jm_set (uuid i) v m).
Proof.
  intros Hi Hd k. rewrite jm_keys_set. destruct (jm_has _ _); [apply Hd|].
  rewrite elem_of_app, list_elem_of_singleton. intros [Hk| ->]; [by apply Hd|].
  by exists i.
Qed.

Lemma drawn_fresh {V} n (m : list (string * V)) i :
  Inj (=) (=) uuid → drawnKeys uuid n m → n ≤ i → jm_get (uuid i) m = None.
Proof.
  intros Hinj Hd Hi. apply jm_get_None_keys. intros Hk.
  destruct (Hd _ Hk) as (j & Hj & Heq). apply Hinj in Heq. lia.
Qed.

Create HintDb storage.
#[local] Hint Resolve drawnKeys_set : storage.
#[local] Hint Extern 2 (drawnKeys _ _ _) =>
  eapply drawnKeys_mono; [|eassumption]; simpl; lia : storage.
#[local] Hint Extern 1 (_ < _) => simpl; lia : storage.

Lemma drawn_writes w w' : drawn uuid w → writes uuid clock w w' → drawn uuid w'.
Proof.
  intros (Hu & Hs & Hc & Hm & Hd & Hsm & Hf) Hw. unfold drawn.
  destruct Hw as [|d Hn He|id st|d|u code sv Hsv|d|d|d|a b].
  - done.
  - rewrite createUser_run. cbn. split_and!; auto with storage.
  - rewrite updateUserStatus_run. cbn [snd].
    destruct (getUser id (storage w)) as [user|] eqn:Hg; [|done].
    cbn. split_and!; try done.
    intros k. rewrite jm_keys_set. unfold jm_has. unfold getUser in Hg.
    rewrite Hg. apply Hu.
  - rewrite createServer_run. cbn. split_and!; auto 6 with storage.
  - rewrite joinServer_run. cbn. split_and!; auto with storage.
  - rewrite createChannel_run. cbn. split_and!; auto with storage.
  - rewrite createMessage_run. cbn. split_and!; auto with storage.
  - rewrite createDirectMessage_run. cbn. split_and!; auto with storage.
  - rewrite addFriend_run. cbn. split_and!; auto with storage.
Qed.


Lemma stamped_writes w w' :
  stamped clock w → writes uuid clock w w' → stamped clock w'.
Proof.
  intros Hst Hw.
  assert (∀ w'', directMessages (storage w'') = directMessages (storage w) →
                 dateCalls w ≤ dateCalls w'' → stamped clock w'') as Hsame.
  { intros w'' Heq Hle m. rewrite Heq. intros Hm.
    destruct (Hst m Hm) as (i & Hi & Ht). exists i. split; [lia|done]. }
  destruct Hw as [|d Hn He|id st|d|u code sv Hsv|d|d|d|a b].
  - done.
  - apply Hsame; rewrite createUser_run; [done|simpl; lia].
  - rewrite updateUserStatus_run. cbn [snd].
    destruct (getUser id (storage w)); [|done]. by apply Hsame.
  - apply Hsame; rewrite createServer_run; [done|simpl; lia].
  - apply Hsame; rewrite joinServer_run; [done|simpl; lia].
  - apply Hsame; rewrite createChannel_run; [done|simpl; lia].
  - apply Hsame; rewrite createMessage_run; [done|simpl; lia].
  - rewrite createDirectMessage_run. cbn. intros m Hm.
    apply jm_values_set_elem in Hm as [->|Hm].
    + exists (dateCalls w). split; [simpl; lia|done].
    + destruct (Hst m Hm) as (i & Hi & Ht). exists i.
      split; [simpl; lia|done].
  - apply Hsame; rewrite addFriend_run; [done|simpl; lia].
Qed.

Lemma keyed_users_writes w w' :
  keyed user_id (users (storage w)) → writes uuid clock w w' →
  keyed user_id (users (storage w')).
Proof.
  intros Hk Hw.
  destruct Hw as [|d Hn He|id st|d|u code sv Hsv|d|d|d|a b]; try done.
  - rewrite createUser_run. cbn. by apply keyed_set.
  - rewrite updateUserStatus_run. cbn [snd].
    destruct (getUser id (storage w)) as [user|] eqn:Hg; [|done].
    cbn. apply keyed_set; [|done]. simpl. by eapply keyed_get.
Qed.

Lemma keyed_servers_writes w w' :
  keyed server_id (servers (storage w)) → writes uuid clock w w' →
  keyed server_id (servers (storage w')).
Proof.
  intros Hk Hw.
  destruct Hw as [|d Hn He|id st|d|u code sv Hsv|d|d|d|a b]; try done.
  - rewrite updateUserStatus_run. cbn [snd].
    by destruct (getUser id (storage w)).
  - rewrite createServer_run. cbn. by apply keyed_set.
Qed.

Lemma uniqueNames_writes w w' :
  uniqueNames (storage w) → writes uuid clock w w' → uniqueNames (storage w').
Proof.
  intros [Hn He] Hw.
  destruct Hw as [|d Hnone Henone|id st|d|u code sv Hsv|d|d|d|a b]; try done.
  - rewrite createUser_run. cbn. split.
    + apply values_set_fresh_NoDup; [|done]. simpl.
      intros (u & Hu & Hin)%list_elem_of_fmap.
      apply (findEntry_None _ _ _ Hnone) in Hin.
      by rewrite bool_decide_eq_false in Hin.
    + apply values_set_fresh_NoDup; [|done]. simpl.
      intros (u & Hu & Hin)%list_elem_of_fmap.
      apply (findEntry_None _ _ _ Henone) in Hin.
      by rewrite bool_decide_eq_false in Hin.
  - rewrite updateUserStatus_run. cbn [snd].
    destruct (getUser id (storage w)) as [user|] eqn:Hg; [|done].
    unfold uniqueNames, getUser in *. cbn [storage users set_users].
    by rewrite !(values_set_same _ id user) by done.
Qed.

Lemma pendingOnly_writes w w' :
  pendingOnly (storage w) → writes uuid clock w w' → pendingOnly (storage w').
Proof.
  intros Hp Hw.
  destruct Hw as [|d Hn He|id st|d|u code sv Hsv|d|d|d|a b]; try done.
  - rewrite updateUserStatus_run. cbn [snd].
    by destruct (getUser id (storage w)).
  - rewrite addFriend_run. cbn. intros f [->|Hf]%jm_values_set_elem; [done|].
    by apply Hp.
Qed.

Lemma inv_writes w w' :
  inv uuid clock w → writes uuid clock w w' → inv uuid clock w'.
Proof.
  intros (H1 & H2 & H3 & H4 & H5 & H6) Hw. unfold inv.
  split_and!;
    eauto using drawn_writes, stamped_writes, keyed_users_writes,
      keyed_servers_writes, uniqueNames_writes, pendingOnly_writes.
Qed.

Lemma inv_init : inv uuid clock init.
Proof.
  unfold inv, drawn, drawnKeys, stamped, keyed, uniqueNames, pendingOnly.
  simpl. split_and!; try (intros ? ?%elem_of_nil; done);
    try (intros ? ? ?%elem_of_nil; done); constructor.
Qed.

Lemma inv_run requests w :
  inv uuid clock w → inv uuid clock (run uuid clock requests w).
Proof.
  revert w. induction requests as [|request requests IH]; intros w Hw; [done|].
  simpl. apply IH. eapply inv_writes; [done|]. apply handle_writes.
Qed.

End StorageInvariants.

(** *** Accounts *)

Section Accounts.
Context (uuid : nat → string) (clock : nat → Z).

(** X19. Whatever requests the server has handled, no two stored users
    share a username and no two share an email address: registration is
    the only route that stores a user, it refuses a username or an
    address that is taken, and no route changes either. This does not
    depend on [randomUUID] returning fresh identifiers. *)
Theorem usernames_and_emails_stay_unique requests :
  uniqueNames (storage (run uuid clock requests init)).
Proof.
  pose proof (inv_run uuid clock requests init (inv_init uuid clock)) as Hinv.
  apply Hinv.
Qed.

Lemma login_known w credentials user :
  inv uuid clock w →
  login_username credentials ≠ "" → login_password credentials ≠ "" →
  user ∈ jm_values (users (storage w)) →
  username user = login_username credentials →
  handle uuid clock (PostLogin (Some credentials)) w
  = if bool_decide (password user = login_password credentials) then
      (json_ (BAuth (publicUser (setStatus "online" user))),
       mkWorld
         (set_users (jm_set (user_id user) (setStatus "online" user))
            (storage w))
         (uuidCalls w) (dateCalls w))
    else (reject 401 "Invalid credentials", w).
Proof.
  intros (_ & _ & Hkeyed & _ & [Hnames _] & _) Hu Hpw Hin Hname.
  unfold handle. rewrite login_run, loginSchema_accepts by done.
  destruct (getUserByUsername _ _) as [[key user']|] eqn:Hfind.
  - apply findEntry_Some in Hfind as [Hin' Hp].
    apply bool_decide_eq_true in Hp.
    assert (user' = user) as ->.
    { eapply NoDup_fmap_eq; [exact Hnames| |done|congruence].
      apply list_elem_of_fmap. by exists (key, user'). }
    assert (key = user_id user) as -> by (symmetry; by apply Hkeyed).
    destruct (bool_decide _); [|done].
    rewrite updateUserStatus_run. cbn [snd]. unfold getUser.
    rewrite (keyed_values_get _ _ _ Hkeyed Hin). cbn.
    by rewrite jm_get_set_eq.
  - apply (findEntry_None _ _ user Hfind) in Hin.
    by apply bool_decide_eq_false in Hin.
Qed.

Lemma login_unknown w credentials :
  login_username credentials ≠ "" → login_password credentials ≠ "" →
  (∀ user, user ∈ jm_values (users (storage w)) →
           username user ≠ login_username credentials) →
  handle uuid clock (PostLogin (Some credentials)) w
  = (reject 401 "Invalid credentials", w).
Proof.
  intros Hu Hpw Hno. unfold handle.
  rewrite login_run, loginSchema_accepts by done.
  destruct (getUserByUsername _ _) as [[key user']|] eqn:Hfind; [|done].
  apply findEntry_Some in Hfind as [Hin' Hp].
  apply bool_decide_eq_true in Hp. destruct (Hno user'); [|done].
  apply list_elem_of_fmap. by exists (key, user').
Qed.

Lemma login_empty w credentials :
  login_username credentials = "" ∨ login_password credentials = "" →
  handle uuid clock (PostLogin (Some credentials)) w
  = (reject 400 "Invalid login data", w).
Proof.
  intros Hempty. unfold handle. by rewrite login_run, loginSchema_rejects.
Qed.

(** X20. Logging in, after any requests. With an empty username or an
    empty password the answer is 400 "Invalid login data" and the store
    is unchanged, whoever is stored. Otherwise: with the username of no
    stored user, or with the username of a stored user and another
    password, the answer is 401 "Invalid credentials" and the store is
    unchanged; with the username and the password of a stored user the
    answer is that user without the password and with status "online",
    whatever the status was, that status is stored, and no other user
    changes. *)
Theorem login_reports_and_stores_online requests credentials :
  let w := run uuid clock requests init in
  let response := respond uuid clock (PostLogin (Some credentials)) w in
  let w' := (handle uuid clock (PostLogin (Some credentials)) w).2 in
  (login_username credentials = "" ∨ login_password credentials = "" →
   response = reject 400 "Invalid login data" ∧ w' = w)
  ∧ (login_username credentials ≠ "" → login_password credentials ≠ "" →
     ((∀ user, user ∈ jm_values (users (storage w)) →
               username user ≠ login_username credentials) →
      response = reject 401 "Invalid credentials" ∧ w' = w)
     ∧ (∀ user,
          user ∈ jm_values (users (storage w)) →
          username user = login_username credentials →
          if bool_decide (password user = login_password credentials) then
            response = json_ (BAuth (publicUser (setStatus "online" user)))
            ∧ getUser (user_id user) (storage w')
              = Some (setStatus "online" user)
            ∧ ∀ id, id ≠ user_id user →
                    getUser id (storage w') = getUser id (storage w)
          else response = reject 401 "Invalid credentials" ∧ w' = w)).
Proof.
  intros w response w'. subst response w'. unfold respond.
  pose proof (inv_run uuid clock requests init (inv_init uuid clock)) as Hinv.
  fold w in Hinv. split; [|intros Hu Hp; split].
  - intros Hempty. by rewrite login_empty.
  - intros Hno. by rewrite login_unknown.
  - intros user Hin Hname. rewrite (login_known w credentials user) by done.
    destruct (bool_decide _); [|done]. cbn. unfold getUser. cbn.
    split; [done|]. split; [by rewrite jm_get_set_eq|].
    intros id Hne. by rewrite jm_get_set_ne.
Qed.

End Accounts.

Lemma login_reports_and_stores_online_witness :
  respond pretty tick (PostLogin (Some (mkLogin "bob" "builder"))) registered
  = json_ (BAuth (mkPublicUser "1" "bob" "bob@example.org" None "online")).
Proof.
  pose proof
    (proj2 (proj2 (login_reports_and_stores_online pretty tick
                     [PostRegister (Some alice); PostRegister (Some bob)]
                     (mkLogin "bob" "builder"))
              ltac:(discriminate) ltac:(discriminate))
       (mkUser "1" "bob" "bob@example.org" "builder" None "away" 1)) as H.
  destruct H as [H _]; [|reflexivity|exact H].
  apply (list_elem_of_lookup_2 _ 1). vm_compute. reflexivity.
Defined.

(** *** Servers and their members *)

Lemma jm_values_set_fresh {V} k (v : V) (m : list (string * V)) :
  jm_get k m = None → jm_values (jm_set k v m) = jm_values m ++ [v].
Proof.
  intros Hg. rewrite jm_set_fresh by done. unfold jm_values.
  by rewrite fmap_app.
Qed.

Section Servers.
Context (uuid : nat → string) (clock : nat → Z).
Hypothesis uuid_inj : Inj (=) (=) uuid.

Lemma getServerByInviteCode_stored code server w :
  keyed server_id (servers (storage w)) →
  getServerByInviteCode code (storage w) = Some server →
  getServer (server_id server) (storage w) = Some server.
Proof.
  intros Hk. unfold getServerByInviteCode, getServer.
  destruct (findEntry _ _) as [[key sv]|] eqn:Hf; [|done].
  intros [= ->]. apply findEntry_Some in Hf as [Hin _].
  apply keyed_values_get; [done|].
  apply list_elem_of_fmap. by exists (key, server).
Qed.

(** X21. Creating a server, after any requests and with [randomUUID]
    never repeating itself: the answer is the new server, owned by the
    given identity, its invite code the first eight characters of the
    second identifier drawn. Reading the server back then shows it with
    two more channels than named its id before, "general" (text,
    position 0) and "General Voice" (voice, position 1) in that order,
    and with one more member, the owner with role "owner"; and the
    server is among those listed for the owner. Nothing checks that the
    owner is a user. *)
Theorem new_server_has_owner_and_default_channels requests insertServer :
  let w := run uuid clock requests init in
  let n := uuidCalls w in
  let d := dateCalls w in
  let server :=
    mkServer (uuid n) (is_name insertServer) (is_description insertServer)
      (is_icon insertServer) (is_ownerId insertServer)
      (String.substring 0 8 (uuid (S n))) (clock d) in
  let membership :=
    mkServerMember (uuid (2 + n)) (is_ownerId insertServer) (uuid n) "owner"
      (clock (S d)) in
  let general :=
    mkChannel (uuid (3 + n)) "general" None "text" (uuid n) 0 (clock (2 + d)) in
  let voice :=
    mkChannel (uuid (4 + n)) "General Voice" None "voice" (uuid n) 1
      (clock (3 + d)) in
  let w' := (handle uuid clock (PostServers (Some insertServer)) w).2 in
  respond uuid clock (PostServers (Some insertServer)) w
  = json_ (BServer server)
  ∧ respond uuid clock (GetServer (uuid n)) w'
    = json_ (BServerWithChannels
               (mkServerWithChannels server
                  (getServerChannels (uuid n) (storage w) ++ [general; voice])
                  (getServerMembers (uuid n) (storage w)
                   ++ [mkMemberWithUser membership
                         (getUser (is_ownerId insertServer) (storage w))])))
  ∧ server ∈ getUserServers (is_ownerId insertServer) (storage w').
Proof.
  intros w n d server membership general voice w'.
  pose proof (inv_run uuid clock requests init (inv_init uuid clock)) as Hinv.
  fold w in Hinv.
  destruct Hinv as ((_ & Hds & Hdc & _ & _ & Hdm & _) & _).
  assert (jm_get (uuid n) (servers (storage w)) = None) as Hs
    by (by apply (drawn_fresh uuid n)).
  assert (jm_get (uuid (2 + n)) (serverMembers (storage w)) = None) as Hm
    by (apply (drawn_fresh uuid n); [done..|lia]).
  assert (jm_get (uuid (3 + n)) (channels (storage w)) = None) as Hc1
    by (apply (drawn_fresh uuid n); [done..|lia]).
  assert (jm_get (uuid (4 + n))
            (jm_set (uuid (3 + n)) general (channels (storage w))) = None)
    as Hc2.
  { rewrite jm_get_set_ne; [apply (drawn_fresh uuid n); [done..|lia]|].
    intros Heq. apply uuid_inj in Heq. lia. }
  subst w'. unfold respond, handle.
  rewrite !st_bind_run, createServer_run. cbn [fst snd mret St_ret gets].
  fold n d server membership general voice.
  unfold getServerWithChannels, getUserServers, getServer, getServerChannels,
    getServerMembers, withUser, getUser.
  cbn [storage servers channels serverMembers users set_channels
       set_serverMembers set_servers].
  rewrite jm_get_set_eq.
  rewrite (jm_values_set_fresh _ voice) by done.
  rewrite (jm_values_set_fresh _ general) by done.
  rewrite (jm_values_set_fresh _ membership) by done.
  split; [done|]. split.
  - rewrite <- app_assoc, !filter_app, fmap_app.
    rewrite (filter_cons_True _ membership) by done.
    rewrite (filter_cons_True _ general) by done.
    rewrite (filter_cons_True _ voice) by done.
    by rewrite !filter_nil.
  - rewrite filter_app, omap_app, elem_of_app. right.
    rewrite filter_cons_True by done. simpl. rewrite jm_get_set_eq.
    simpl. by left.
Qed.

End Servers.

Lemma new_server_has_owner_and_default_channels_witness :
  respond pretty tick (GetServer "2") withServer
  = json_ (BServerWithChannels
             (mkServerWithChannels
                (mkServer "2" "home" None None "0" "3" 2)
                [mkChannel "5" "general" None "text" "2" 0 4;
                 mkChannel "6" "General Voice" None "voice" "2" 1 5]
                [mkMemberWithUser (mkServerMember "4" "0" "2" "owner" 3)
                   (Some (mkUser "0" "alice" "alice@example.org" "wonderland"
                            None "online" 0))])).
Proof.
  exact (proj1 (proj2
    (new_server_has_owner_and_default_channels pretty tick _
       [PostRegister (Some alice); PostRegister (Some bob)]
       (mkInsertServer "home" None None "0")))).
Defined.

Section Joining.
Context (uuid : nat → string) (clock : nat → Z).
Hypothesis uuid_inj : Inj (=) (=) uuid.

(** X22. Joining by invite code, after any requests and with
    [randomUUID] never repeating itself. An invite code of no server is
    answered 404 and changes nothing. Otherwise the answer is the server
    and a membership with role "member" is added, whether or not the
    identity is a member already and whether or not it is a user: the
    server's member list grows by that entry and the identity's server
    list grows by the server, so joining twice lists the server twice. *)
Theorem each_join_adds_a_membership requests code userId :
  let w := run uuid clock requests init in
  let request := PostServersJoin (Some (code, userId)) in
  let w' := (handle uuid clock request w).2 in
  match getServerByInviteCode code (storage w) with
  | None =>
      respond uuid clock request w = reject 404 "Invalid invite code" ∧ w' = w
  | Some server =>
      respond uuid clock request w = json_ (BServer server)
      ∧ getServerMembers (server_id server) (storage w')
        = getServerMembers (server_id server) (storage w)
          ++ [mkMemberWithUser
                (mkServerMember (uuid (uuidCalls w)) userId (server_id server)
                   "member" (clock (dateCalls w)))
                (getUser userId (storage w))]
      ∧ getUserServers userId (storage w')
        = getUserServers userId (storage w) ++ [server]
  end.
Proof.
  intros w request w'.
  pose proof (inv_run uuid clock requests init (inv_init uuid clock)) as Hinv.
  fold w in Hinv.
  destruct Hinv as ((_ & _ & _ & _ & _ & Hdm & _) & _ & _ & Hks & _).
  assert (jm_get (uuid (uuidCalls w)) (serverMembers (storage w)) = None)
    as Hm by (by apply (drawn_fresh uuid (uuidCalls w))).
  subst w' request. unfold respond, handle.
  rewrite !st_bind_run. cbn [fst snd gets].
  destruct (getServerByInviteCode code (storage w)) as [server|] eqn:Hs;
    [|done].
  apply getServerByInviteCode_stored in Hs; [|done].
  rewrite !st_bind_run, joinServer_run. cbn [fst snd mret St_ret].
  unfold getServerMembers, getUserServers, getServer in *.
  cbn [storage servers serverMembers set_serverMembers].
  rewrite jm_values_set_fresh by done.
  split; [done|]. split.
  - rewrite filter_app, fmap_app. f_equal.
    by rewrite filter_cons_True by done.
  - rewrite filter_app, omap_app. f_equal.
    rewrite filter_cons_True by done. simpl. by rewrite Hs.
Qed.

End Joining.

Lemma each_join_adds_a_membership_witness :
  let w' := (handle pretty tick (PostServersJoin (Some ("3", "0"))) withServer).2 in
  getUserServers "0" (storage w')
  = getUserServers "0" (storage withServer)
    ++ [mkServer "2" "home" None None "0" "3" 2].
Proof.
  pose proof
    (each_join_adds_a_membership pretty tick _
       [PostRegister (Some alice); PostRegister (Some bob);
        PostServers (Some (mkInsertServer "home" None None "0"))]
       "3" "0") as H.
  vm_compute in H. vm_compute. exact (proj2 (proj2 H)).
Defined.

(** *** Direct messages *)

Lemma between_sym a b m : between a b m = between b a m.
Proof. unfold between. apply orb_comm. Qed.

Lemma getDirectMessages_sym a b limit s :
  getDirectMessages a b limit s = getDirectMessages b a limit s.
Proof.
  unfold getDirectMessages. do 3 f_equal.
  apply list_filter_iff. intros m. by rewrite between_sym.
Qed.

Lemma slice_last_snoc {A} (limit : Z) (xs : list A) x :
  (0 < limit)%Z →
  ∃ k, slice (- limit) (xs ++ [x]) = drop k xs ++ [x].
Proof.
  intros Hl. rewrite slice_last by lia.
  rewrite decide_False by lia. rewrite length_app. simpl.
  exists (length xs + 1 - Z.to_nat limit).
  rewrite drop_app_le by lia. done.
Qed.

Section DirectMessages.
Context (uuid : nat → string) (clock : nat → Z).
Hypothesis uuid_inj : Inj (=) (=) uuid.
Hypothesis clock_monotone : monotone clock.

(** X23. A direct message just posted is the last one of the
    conversation, for both parties. After any requests, with [randomUUID]
    never repeating itself and a clock that does not go back, posting a
    message between two non-empty identities is answered with the stored
    message and the users found for its two ends, and reading the
    conversation with the identities in either order then gives one and
    the same list, which ends with that message. *)
Theorem posted_direct_message_reads_last_for_both requests insertMessage :
  idm_senderId insertMessage ≠ "" →
  idm_recipientId insertMessage ≠ "" →
  let w := run uuid clock requests init in
  let a := idm_senderId insertMessage in
  let b := idm_recipientId insertMessage in
  let posted :=
    withUsers (storage w)
      (mkDirectMessage (uuid (uuidCalls w)) (idm_content insertMessage) a b
         (default "text" (idm_type insertMessage))
         (idm_attachments insertMessage) (clock (dateCalls w))) in
  let w' := (handle uuid clock (PostDirectMessages (Some insertMessage)) w).2 in
  respond uuid clock (PostDirectMessages (Some insertMessage)) w
  = json_ (BDirectMessagePosted posted)
  ∧ ∃ earlier,
      respond uuid clock (GetDirectMessages (Some a) (Some b)) w'
      = json_ (BDirectMessages (earlier ++ [posted]))
      ∧ respond uuid clock (GetDirectMessages (Some b) (Some a)) w'
        = json_ (BDirectMessages (earlier ++ [posted])).
Proof.
  intros Ha Hb w a b posted w'.
  pose proof (inv_run uuid clock requests init (inv_init uuid clock)) as Hinv.
  fold w in Hinv.
  destruct Hinv as ((_ & _ & _ & _ & Hdd & _) & Hstamped & _).
  assert (jm_get (uuid (uuidCalls w)) (directMessages (storage w)) = None)
    as Hfresh by (by apply (drawn_fresh uuid (uuidCalls w))).
  subst w'. unfold respond, handle.
  rewrite !st_bind_run, createDirectMessage_run.
  cbn [fst snd mret St_ret gets].
  split; [done|].
  rewrite !(proj2 (truthy_Some _)) by done. cbn [andb].
  rewrite !st_bind_run. cbn [fst snd mret St_ret gets].
  rewrite (getDirectMessages_sym b a).
  set (m := mkDirectMessage _ _ _ _ _ _ _).
  unfold getDirectMessages.
  cbn [storage directMessages set_directMessages].
  rewrite jm_values_set_fresh by done.
  rewrite filter_app.
  rewrite (filter_cons_True _ m), filter_nil.
  2:{ unfold between. simpl. rewrite !bool_decide_eq_true_2 by done. done. }
  rewrite (sort_snoc dm_createdAt).
  2:{ intros y [_ Hy]%list_elem_of_filter.
      destruct (Hstamped y Hy) as (i & Hi & ->). simpl.
      apply clock_monotone. lia. }
  destruct (slice_last_snoc 50
              (sort (λ a0 b0, (dm_createdAt a0 - dm_createdAt b0)%Z)
                 (filter (λ m0, Is_true (between a b m0))
                    (jm_values (directMessages (storage w))))) m)
    as [k Hk]; [lia|].
  rewrite Hk, fmap_app. eexists. split; reflexivity.
Qed.

End DirectMessages.

Lemma tick_monotone : monotone tick.
Proof. intros i j Hij. unfold tick. lia. Qed.

Lemma posted_direct_message_reads_last_for_both_witness :
  let w :=
    run pretty tick [PostRegister (Some alice); PostRegister (Some bob)] init in
  respond pretty tick
    (PostDirectMessages (Some (mkInsertDirectMessage "hi" "0" "1" None None)))
    w
  = json_ (BDirectMessagePosted
             (withUsers (storage w)
                (mkDirectMessage (pretty (uuidCalls w)) "hi" "0" "1" "text"
                   None (tick (dateCalls w))))).
Proof.
  refine (proj1
    (posted_direct_message_reads_last_for_both pretty tick _ tick_monotone
       [PostRegister (Some alice); PostRegister (Some bob)]
       (mkInsertDirectMessage "hi" "0" "1" None None) _ _)); done.
Defined.

(** *** Friends *)

(** X24. No route accepts a friendship: [POST /api/friends] stores it as
    "pending" and [acceptFriend] is called by nothing. So whatever
    requests the server has handled, [GET /api/friends/:userId] answers
    with the empty list, for every identity. *)
Theorem friends_are_never_listed uuid clock requests userId :
  respond uuid clock (GetFriends userId) (run uuid clock requests init)
  = json_ (BFriends []).
Proof.
  pose proof (inv_run uuid clock requests init (inv_init uuid clock)) as Hinv.
  destruct Hinv as (_ & _ & _ & _ & _ & Hpending).
  unfold respond, handle. rewrite st_bind_run. cbn [fst snd mret St_ret gets].
  do 2 f_equal. unfold getFriends.
  set (l := filter _ _). assert (l = []) as ->; [|done].
  apply elem_of_nil_inv. intros f [[_ Hacc] Hf]%list_elem_of_filter.
  apply Hpending in Hf. by rewrite Hf in Hacc.
Qed.

Lemma pendingBetween_spec a b f :
  pendingBetween a b f = true ↔
  ((userId1 f = a ∧ userId2 f = b) ∨ (userId1 f = b ∧ userId2 f = a))
  ∧ friendship_status f = "pending".
Proof.
  unfold pendingBetween.
  rewrite andb_true_iff, orb_true_iff, !andb_true_iff, !bool_decide_eq_true.
  done.
Qed.

(** X25. In the store itself a request that was made can be accepted:
    if a pending friendship between [a] and [b] is stored and both are
    users, then after [acceptFriend a b] each is among the friends of the
    other. *)
Theorem accepted_friendship_is_listed_both_ways (w : World) a b f ua ub :
  f ∈ jm_values (friendships (storage w)) →
  pendingBetween a b f = true →
  getUser a (storage w) = Some ua →
  getUser b (storage w) = Some ub →
  let w' := (acceptFriend a b w).2 in
  ub ∈ getFriends a (storage w') ∧ ua ∈ getFriends b (storage w').
Proof.
  intros Hf Hp Hua Hub w'. subst w'. unfold acceptFriend.
  rewrite st_bind_run. cbn [fst snd gets].
  destruct (findEntry _ _) as [[key f0]|] eqn:Hfind.
  2:{ apply (findEntry_None _ _ f Hfind) in Hf. congruence. }
  apply findEntry_Some in Hfind as [_ Hp0].
  apply pendingBetween_spec in Hp0 as [Hends _].
  rewrite st_bind_run. cbn [fst snd modify storage friendships set_friendships].
  set (f' := setFriendshipStatus "accepted" f0).
  unfold getFriends, getUser in *.
  cbn [storage friendships users set_friendships].
  set (m := jm_set (friendship_id f') f' _).
  assert (f' ∈ jm_values m) as Hin.
  { apply (jm_get_values (friendship_id f')). apply jm_get_set_eq. }
  assert (userId1 f' = userId1 f0 ∧ userId2 f' = userId2 f0
          ∧ friendship_status f' = "accepted") as (H1 & H2 & H3) by done.
  clearbody f' m.
  rewrite <- H1, <- H2 in Hends. clear H1 H2.
  split; apply list_elem_of_omap; exists f'; rewrite list_elem_of_filter.
  - split.
    + split; [|done]. split; [|done].
      destruct Hends as [[? ?]|[? ?]]; [by left|by right].
    + case_bool_decide as Hc.
      * destruct Hends as [[_ Hb]|[Hb Ha]]; congruence.
      * destruct Hends as [[Ha _]|[Hb _]]; congruence.
  - split.
    + split; [|done]. split; [|done].
      destruct Hends as [[? ?]|[? ?]]; [by right|by left].
    + case_bool_decide as Hc.
      * destruct Hends as [[Ha Hb]|[_ Ha]]; congruence.
      * destruct Hends as [[Ha _]|[Hb _]]; congruence.
Qed.

Lemma accepted_friendship_is_listed_both_ways_witness :
  mkUser "0" "alice" "alice@example.org" "wonderland" None "online" 0
  ∈ getFriends "1" (storage (acceptFriend "1" "0" chatting).2).
Proof.
  refine (proj1
    (accepted_friendship_is_listed_both_ways chatting "1" "0"
       (mkFriendship "12" "0" "1" "pending" 11)
       (mkUser "1" "bob" "bob@example.org" "builder" None "away" 1)
       (mkUser "0" "alice" "alice@example.org" "wonderland" None "online" 0)
       _ _ _ _)).
  - apply (list_elem_of_lookup_2 _ 0). vm_compute. reflexivity.
  - vm_compute. reflexivity.
  - vm_compute. reflexivity.
  - vm_compute. reflexivity.
Defined.

(** *** Passwords *)

(** X26. The two account routes answer without the password, but the
    member list does not: when a registration has succeeded and the
    account then creates a server, [GET /api/servers/:id/members] for that
    server answers with a list that has the owner's entry, and the user
    of that entry is the stored row in full, the password as it was
    registered included. This holds from any store and for any
    [randomUUID] and clock. *)
Theorem members_route_discloses_the_password uuid clock w insertUser account
    name description icon_ :
  respond uuid clock (PostRegister (Some insertUser)) w
  = json_ (BAuth account) →
  let w1 := (handle uuid clock (PostRegister (Some insertUser)) w).2 in
  let create :=
    PostServers (Some (mkInsertServer name description icon_ (pu_id account))) in
  let w2 := (handle uuid clock create w1).2 in
  ∃ members entry user,
    respond uuid clock (GetServerMembers (uuid (uuidCalls w1))) w2
    = json_ (BMembers members)
    ∧ entry ∈ members
    ∧ role (member entry) = "owner"
    ∧ member_user entry = Some user
    ∧ user_id user = pu_id account
    ∧ password user = iu_password insertUser.
Proof.
  unfold respond, handle. rewrite register_run.
  destruct (getUserByUsername _ _); [done|].
  destruct (getUserByEmail _ _); [done|].
  rewrite createUser_run. cbn [fst snd]. intros [= <-]. cbn zeta.
  rewrite !st_bind_run, createServer_run.
  cbn [fst snd mret St_ret gets uuidCalls].
  set (user := mkUser _ _ _ _ _ _ _).
  set (membership := mkServerMember _ _ _ _ _).
  eexists _, (mkMemberWithUser membership (Some user)), user.
  split; [done|]. split; [|done].
  unfold getServerMembers. apply list_elem_of_fmap. exists membership. split.
  - unfold withUser, getUser. f_equal.
    cbn [storage users set_channels set_serverMembers set_servers set_users].
    simpl. by rewrite jm_get_set_eq.
  - apply list_elem_of_filter. split; [done|].
    cbn [storage serverMembers set_channels set_serverMembers].
    apply (jm_get_values (sm_id membership)). apply jm_get_set_eq.
Qed.

Lemma members_route_discloses_the_password_witness :
  ∃ members entry user,
    respond pretty tick (GetServerMembers "1")
      (run pretty tick
         [PostRegister (Some alice);
          PostServers (Some (mkInsertServer "home" None None "0"))] init)
    = json_ (BMembers members)
    ∧ entry ∈ members
    ∧ role (member entry) = "owner"
    ∧ member_user entry = Some user
    ∧ user_id user = "0"
    ∧ password user = "wonderland".
Proof.
  refine (members_route_discloses_the_password pretty tick init alice
            (mkPublicUser "0" "alice" "alice@example.org" None "online")
            "home" None None _).
  vm_compute. reflexivity.
Defined.

(** *** Accounts are kept *)

Section AccountsKept.
Context (uuid : nat → string) (clock : nat → Z).
Hypothesis uuid_inj : Inj (=) (=) uuid.

Lemma account_writes w w' user :
  drawn uuid w →
  (∃ status, getUser (user_id user) (storage w) = Some (setStatus status user)) →
  writes uuid clock w w' →
  ∃ status, getUser (user_id user) (storage w') = Some (setStatus status user).
Proof.
  intros (Hdu & _) [status Hg] Hw. unfold getUser in *.
  destruct Hw as [|d Hn He|id st|d|u code sv Hsv|d|d|d|a b];
    try (by exists status).
  - exists status. rewrite createUser_run. cbn.
    rewrite jm_get_set_ne; [done|]. intros Heq.
    assert (jm_get (uuid (uuidCalls w)) (users (storage w)) = None) as Hfresh
      by (by apply (drawn_fresh uuid (uuidCalls w))).
    rewrite Heq in Hfresh. congruence.
  - rewrite updateUserStatus_run. cbn [snd]. unfold getUser.
    destruct (jm_get id (users (storage w))) as [user'|] eqn:Hid;
      [|by exists status].
    cbn. destruct (decide (id = user_id user)) as [->|Hne].
    + exists st. rewrite jm_get_set_eq. rewrite Hg in Hid.
      by injection Hid as <-.
    + exists status. by rewrite jm_get_set_ne.
Qed.

Lemma account_run requests w user :
  inv uuid clock w →
  (∃ status, getUser (user_id user) (storage w) = Some (setStatus status user)) →
  ∃ status,
    getUser (user_id user) (storage (run uuid clock requests w))
    = Some (setStatus status user).
Proof.
  revert w. induction requests as [|request requests IH]; intros w Hinv Hu;
    [done|].
  simpl. pose proof (handle_writes uuid clock request w) as Hw. apply IH.
  - by eapply inv_writes.
  - eapply account_writes; [apply Hinv|done..].
Qed.

(** X27. A registration that succeeded keeps working, unless it was
    made with an empty username or an empty password, which registration
    accepts and login refuses. With [randomUUID] never repeating itself,
    if a registration is answered with an account after any requests,
    then after any further requests a login with the registered username
    and password, both non-empty, is answered with that same account, its
    status "online": no route removes a user, renames one or changes a
    password. And with an empty username or password the login is
    answered 400 "Invalid login data". *)
Theorem registered_credentials_keep_working requests insertUser account more :
  let w := run uuid clock requests init in
  respond uuid clock (PostRegister (Some insertUser)) w
  = json_ (BAuth account) →
  let w1 := (handle uuid clock (PostRegister (Some insertUser)) w).2 in
  let response :=
    respond uuid clock
      (PostLogin (Some (mkLogin (iu_username insertUser)
                          (iu_password insertUser))))
      (run uuid clock more w1) in
  (iu_username insertUser ≠ "" → iu_password insertUser ≠ "" →
   response
   = json_ (BAuth (mkPublicUser (pu_id account) (iu_username insertUser)
                     (iu_email insertUser) (iu_avatar insertUser) "online")))
  ∧ (iu_username insertUser = "" ∨ iu_password insertUser = "" →
     response = reject 400 "Invalid login data").
Proof.
  intros w Hreg w1 response. subst response. split; [intros Hu Hp|].
  2:{ intros Hempty. unfold respond. by rewrite login_empty. }
  revert Hreg. revert w1. intros w1 Hreg.
  pose proof (inv_run uuid clock requests init (inv_init uuid clock)) as Hinv.
  fold w in Hinv.
  assert (inv uuid clock w1) as Hinv1
    by (eapply inv_writes; [done|apply handle_writes]).
  subst w1. unfold respond in *.
  change (handle uuid clock (PostRegister (Some insertUser)) w)
    with (register uuid clock (Some insertUser) w) in *.
  rewrite register_run in *.
  destruct (getUserByUsername _ _); [done|].
  destruct (getUserByEmail _ _); [done|].
  rewrite createUser_run in *. cbn [fst snd] in *.
  injection Hreg as <-.
  set (user := mkUser _ _ _ _ _ _ _) in *.
  set (w1 := mkWorld _ _ _) in *.
  destruct (account_run more w1 user) as [status Hkept]; [done| |].
  { exists (user_status user). unfold getUser. subst w1. cbn.
    by rewrite jm_get_set_eq. }
  pose proof (inv_run uuid clock more w1 Hinv1) as Hinv2.
  rewrite (login_known uuid clock _ _ (setStatus status user));
    [|done|done|done|by eapply jm_get_values|done].
  cbn [password setStatus login_password user].
  by rewrite bool_decide_eq_true_2 by done.
Qed.

End AccountsKept.

Lemma registered_credentials_keep_working_witness :
  respond pretty tick (PostLogin (Some (mkLogin "alice" "wonderland")))
    (run pretty tick
       [PostRegister (Some bob); PostUserStatus "0" (Some "busy")]
       (handle pretty tick (PostRegister (Some alice))
          (run pretty tick [] init)).2)
  = json_ (BAuth (mkPublicUser "0" "alice" "alice@example.org" None "online")).
Proof.
  refine (proj1 (registered_credentials_keep_working pretty tick _ [] alice
                   (mkPublicUser "0" "alice" "alice@example.org" None "online")
                   [PostRegister (Some bob); PostUserStatus "0" (Some "busy")] _)
            _ _).
  - vm_compute. reflexivity.
  - discriminate.
  - discriminate.
Defined.

End StorageFacts.
